(** * santa_hmm: inference and sampling for a three-channel hidden Markov model

    A shallow embedding of [santa_hmm.py] and the properties of its forward,
    backward, smoothing, Viterbi and sampling routines.

    Numbers.  A numpy [float64] is modelled by [float64] below: an exact
    rational ([Qc], rationals in lowest terms) or one of the IEEE special
    values [+inf], [-inf], [nan].  The general statements are statements
    of this exact arithmetic; they hold of the binary64 computation up to
    rounding where rounding and underflow cannot change the kind of the
    result, and the conditions that keep them clear of those cases (a sum
    that is zero, a number below 2^-1022, a maximum that rounding can
    move, a draw next to the last running sum) are hypotheses on the
    values computed.  The same routines are given a second time over an
    arbitrary arithmetic ([Arith]), with the exact arithmetic and Rocq's
    primitive binary64 floats as instances: the first instance is the
    exact routines themselves, the second runs the source's operations
    with IEEE rounding, and is used for the inputs on which rounding or
    underflow changes a result.  The sign of zero is not modelled.

    Arrays.  A one-dimensional array is a [list]; a two-dimensional array
    is the list of its rows, and its shape is kept by the well-formedness
    predicate [wf_hmm] instead of by the type.  The 3 x T observation array
    is held as the list of its T columns (one triple per frame), which is
    how every routine reads it ([obs[0,t]], [obs[1,t]], [obs[2,t]]).
    Elementwise operations zip their operands; numpy would broadcast or
    raise on operands of different shapes, so the theorems assume [wf_hmm].

    Failures.  Python exceptions are the [Raise] results of [result]. *)

From stdpp Require Import base numbers list.
From Stdlib Require Import QArith Qcanon Lia Field Floats.

Open Scope Qc_scope.

(** ** Exceptions *)

Inductive exn := IndexError | ValueError | OverflowError.

Inductive result (X : Type) :=
  | Ok (x : X)
  | Raise (e : exn).
Arguments Ok {X} x.
Arguments Raise {X} e.

#[global] Instance result_ret : MRet result := @Ok.
#[global] Instance result_bind : MBind result := fun _ _ k m =>
  match m with
  | Ok x => k x
  | Raise e => Raise e
  end.

#[global] Instance exn_eq_dec : EqDecision exn.
Proof. solve_decision. Defined.
#[global] Instance result_eq_dec {X} `{EqDecision X} : EqDecision (result X).
Proof. solve_decision. Defined.

(** The body of a Python [for] loop run over the items [xs], threading the
    mutated state [s]; an exception leaves the loop. *)
Fixpoint for_each {S X : Type} (body : S -> X -> result S) (xs : list X) (s : S)
  : result S :=
  match xs with
  | [] => Ok s
  | x :: xs' => s' ← body s x; for_each body xs' s'
  end.

(** ** Floating-point values *)

Inductive float64 :=
  | Fin (q : Qc)
  | PInf
  | NInf
  | NaN.

#[global] Instance float64_eq_dec : EqDecision float64.
Proof. solve_decision. Defined.
#[global] Instance float64_inhabited : Inhabited float64 := populate (Fin 0).

Definition is_nan (x : float64) : bool :=
  match x with NaN => true | _ => false end.

Definition is_fin (x : float64) : bool :=
  match x with Fin _ => true | _ => false end.

(** The signed infinity that a non-zero rational of the sign of [a]
    produces, [nan] for zero: [a * inf] and [a / 0]. *)
Definition inf_of_sign (a : Qc) : float64 :=
  match a ?= 0 with
  | Eq => NaN
  | Gt => PInf
  | Lt => NInf
  end.

Definition fneg (x : float64) : float64 :=
  match x with
  | Fin a => Fin (- a)
  | PInf => NInf
  | NInf => PInf
  | NaN => NaN
  end.

Definition fadd (x y : float64) : float64 :=
  match x, y with
  | NaN, _ | _, NaN => NaN
  | PInf, NInf | NInf, PInf => NaN
  | PInf, _ | _, PInf => PInf
  | NInf, _ | _, NInf => NInf
  | Fin a, Fin b => Fin (a + b)
  end.

Definition fsub (x y : float64) : float64 := fadd x (fneg y).

Definition fmul (x y : float64) : float64 :=
  match x, y with
  | NaN, _ | _, NaN => NaN
  | Fin a, Fin b => Fin (a * b)
  | Fin a, PInf | PInf, Fin a => inf_of_sign a
  | Fin a, NInf | NInf, Fin a => inf_of_sign (- a)
  | PInf, PInf | NInf, NInf => PInf
  | PInf, NInf | NInf, PInf => NInf
  end.

(** numpy division: [x / 0] is an infinity or [nan] (with a warning on
    stderr), never an exception. *)
Definition fdiv (x y : float64) : float64 :=
  match x, y with
  | NaN, _ | _, NaN => NaN
  | Fin a, Fin b => if decide (b = 0) then inf_of_sign a else Fin (a / b)
  | Fin _, (PInf | NInf) => Fin 0
  | PInf, Fin b => if decide (0 <= b) then PInf else NInf
  | NInf, Fin b => if decide (0 <= b) then NInf else PInf
  | (PInf | NInf), (PInf | NInf) => NaN
  end.

(** IEEE comparisons: false as soon as an operand is [nan]. *)
Definition fle (x y : float64) : bool :=
  match x, y with
  | NaN, _ | _, NaN => false
  | NInf, _ | _, PInf => true
  | Fin a, Fin b => bool_decide (a <= b)
  | _, _ => false
  end.

Definition flt (x y : float64) : bool :=
  match x, y with
  | NaN, _ | _, NaN => false
  | PInf, _ | _, NInf => false
  | Fin a, Fin b => bool_decide (a < b)
  | _, _ => true
  end.

(** ** Vectors and matrices *)

Abbreviation vec := (list float64).
Abbreviation matrix := (list (list float64)).

(** [x * y] on arrays of one shape. *)
Definition vmul (x y : vec) : vec := zip_with fmul x y.

(** [v / s] for a scalar [s]. *)
Definition vdiv (v : vec) (s : float64) : vec := map (fun x => fdiv x s) v.

(** [v.sum()]. *)
Definition vsum (v : vec) : float64 := foldl fadd (Fin 0) v.

(** [np.dot(M, v)] for a matrix [M] and a vector [v]. *)
Definition dot (M : matrix) (v : vec) : vec := map (fun row => vsum (vmul row v)) M.

(** [M[:, j]]. *)
Definition column (M : matrix) (j : nat) : vec := map (fun row => row !!! j) M.

Definition ncols (M : matrix) : nat :=
  match M with
  | [] => 0
  | row :: _ => length row
  end.

(** [M.T]. *)
Definition transpose (M : matrix) : matrix := map (column M) (seq 0 (ncols M)).

(** [np.zeros((r, c))]. *)
Definition zeros (r c : nat) : matrix := replicate r (replicate c (Fin 0)).

(** [a[i]] for a Python integer [i]: negative indices count from the end,
    anything outside [-len(a) .. len(a) - 1] raises [IndexError]. *)
Definition getitem {X : Type} (a : list X) (i : Z) : result X :=
  let n := Z.of_nat (length a) in
  let k := if bool_decide (i < 0)%Z then (i + n)%Z else i in
  if bool_decide (0 <= k < n)%Z then
    match a !! Z.to_nat k with
    | Some x => Ok x
    | None => Raise IndexError
    end
  else Raise IndexError.

(** ** The model *)

Record HMM := {
  pi : vec;
  A : matrix;
  B1 : matrix;
  B2 : matrix;
  B3 : matrix
}.

Definition num_states (hmm : HMM) : nat := length (pi hmm).

(** One categorical observation: the symbols seen on the three channels. *)
Abbreviation frame := (Z * Z * Z)%type.

(** [hmm.B1[obs[0,t]] * hmm.B2[obs[1,t]] * hmm.B3[obs[2,t]]]. *)
Definition emission (hmm : HMM) (o : frame) : result vec :=
  b1 ← getitem (B1 hmm) o.1.1;
  b2 ← getitem (B2 hmm) o.1.2;
  b3 ← getitem (B3 hmm) o.2;
  Ok (vmul (vmul b1 b2) b3).

(** ** Forward messages *)

Section forward.
Context {O : Type} `{Inhabited O}.
(** The emission vector of one frame: [emission] for the categorical
    routines, [calcB] for the Gaussian ones. *)
Variable emit : HMM -> O -> result vec.

(** [v] of the loop body, before it is normalised. *)
Definition forward_v (hmm : HMM) (o : O) (f_t : vec) : result vec :=
  bs ← emit hmm o;
  Ok (vmul bs (dot (transpose (A hmm)) f_t)).

Definition forward_body (hmm : HMM) (obs : list O) (f : matrix) (t : nat)
  : result matrix :=
  v ← forward_v hmm (obs !!! t) (f !!! t);
  Ok (<[S t := vdiv v (vsum v)]> f).

Definition forward_loop (hmm : HMM) (obs : list O) : result matrix :=
  let f := zeros (length obs + 1) (length (pi hmm)) in
  let f := <[0%nat := pi hmm]> f in
  for_each (forward_body hmm obs) (seq 0 (length obs)) f.
End forward.

Definition forwardHMM (hmm : HMM) (obs : list frame) : result matrix :=
  forward_loop emission hmm obs.

(** ** Gaussian emissions

    [np.pi], [np.sqrt] and [np.exp] are numpy's; the routines below only
    pass values through them, so they are taken as given. *)

Section gaussian.
Variable np_pi : float64.
Variables np_sqrt np_exp : float64 -> float64.

(** [np.power(y, 2.)]. *)
Definition np_power2 (y : float64) : float64 := fmul y y.

(** The body of [gaussian] at one component of its array arguments. *)
Definition gaussian_at (x mu sig : float64) : float64 :=
  fmul (fdiv (Fin 1) (fmul sig (np_sqrt (fmul (Fin 2) np_pi))))
       (np_exp (fdiv (fneg (np_power2 (fsub x mu)))
                     (fmul (Fin 2) (np_power2 sig)))).

Definition gaussian (x mu sig : vec) : vec :=
  zip_with (fun xi ms => gaussian_at xi ms.1 ms.2) x (zip mu sig).

(** One Gaussian observation: the values read on the three channels. *)
Definition calcB_channel (B : matrix) (x : float64) : result vec :=
  let xs := replicate (ncols B) (fmul x (Fin 1)) in
  mu ← getitem B 0;
  sig ← getitem B 1;
  Ok (gaussian xs mu sig).

Definition calcB (hmm : HMM) (obs : float64 * float64 * float64) : result vec :=
  b1 ← calcB_channel (B1 hmm) obs.1.1;
  b2 ← calcB_channel (B2 hmm) obs.1.2;
  b3 ← calcB_channel (B3 hmm) obs.2;
  Ok (vmul (vmul b1 b2) b3).

Definition forwardHMMG (hmm : HMM) (obs : list (float64 * float64 * float64))
  : result matrix :=
  forward_loop calcB hmm obs.
End gaussian.

Abbreviation frameG := (float64 * float64 * float64)%type.

(** ** Backward messages *)

(** [np.ones(n) * c]. *)
Definition ones_times (n : nat) (c : float64) : vec :=
  map (fun x => fmul x c) (replicate n (Fin 1)).

Definition backward_body (hmm : HMM) (obs : list frame) (b : matrix) (t : nat)
  : result matrix :=
  bs ← emission hmm (obs !!! (t - 1)%nat);
  Ok (<[(t - 1)%nat := dot (A hmm) (vmul bs (b !!! t))]> b).

(** [backwardHMM] with the constant of its last row left open. *)
Definition backward_from (c : float64) (hmm : HMM) (obs : list frame)
  : result matrix :=
  let b := zeros (length obs + 1) (length (pi hmm)) in
  let b := <[length obs := ones_times (length (pi hmm)) c]> b in
  for_each (backward_body hmm obs) (reverse (seq 1 (length obs))) b.

Definition backwardHMM (hmm : HMM) (obs : list frame) : result matrix :=
  backward_from (Fin (Qc_of_Z 10000000)) hmm obs.

Section gaussian_backward.
Variable np_pi : float64.
Variables np_sqrt np_exp : float64 -> float64.

Definition backwardG_body (hmm : HMM) (obs : list frameG) (b : matrix) (t : nat)
  : result matrix :=
  bs ← calcB np_pi np_sqrt np_exp hmm (obs !!! (t - 1)%nat);
  let v := dot (A hmm) (vmul bs (b !!! t)) in
  Ok (<[(t - 1)%nat := vdiv v (vsum v)]> b).

Definition backwardHMMG (hmm : HMM) (obs : list frameG) : result matrix :=
  let b := zeros (length obs + 1) (length (pi hmm)) in
  let b := <[length obs := ones_times (length (pi hmm)) (Fin (Qc_of_Z 1000))]> b in
  for_each (backwardG_body hmm obs) (reverse (seq 1 (length obs))) b.
End gaussian_backward.

(** ** Smoothing *)

(** [post / post.sum(1)[:, np.newaxis]]. *)
Definition normalize_rows (post : matrix) : matrix :=
  map (fun row => vdiv row (vsum row)) post.

(** [f * b] on two matrices of one shape. *)
Definition mmul (f b : matrix) : matrix := zip_with vmul f b.

Definition smooth_from (c : float64) (hmm : HMM) (obs : list frame)
  : result matrix :=
  f ← forwardHMM hmm obs;
  b ← backward_from c hmm obs;
  Ok (normalize_rows (mmul f b)).

Definition forward_backwardHMM (hmm : HMM) (obs : list frame) : result matrix :=
  f ← forwardHMM hmm obs;
  b ← backwardHMM hmm obs;
  Ok (normalize_rows (mmul f b)).

Section gaussian_smoothing.
Variable np_pi : float64.
Variables np_sqrt np_exp : float64 -> float64.

Definition forward_backwardHMMG (hmm : HMM) (obs : list frameG) : result matrix :=
  f ← forwardHMMG np_pi np_sqrt np_exp hmm obs;
  b ← backwardHMMG np_pi np_sqrt np_exp hmm obs;
  Ok (normalize_rows (mmul f b)).
End gaussian_smoothing.

(** ** Viterbi decoding *)

(** numpy's [argmax] loop on a float array: the running maximum is replaced
    when an element is not [<=] it, and the scan stops at the first [nan].
    On an empty array numpy raises; the model has at least one state. *)
Fixpoint argmax_from (mp : float64) (best i : nat) (rest : vec) : nat :=
  match rest with
  | [] => best
  | x :: rest' =>
      if is_nan mp then best
      else if fle x mp then argmax_from mp best (S i) rest'
      else argmax_from x i (S i) rest'
  end.

Definition argmax (v : vec) : nat :=
  match v with
  | [] => 0%nat
  | x :: rest => argmax_from x 0 1 rest
  end.

(** [np.maximum]: the first operand when it is [nan] or not below the
    second. *)
Definition fmax (a b : float64) : float64 :=
  if is_nan a || fle b a then a else b.

(** [v.max()]. *)
Definition vmax (v : vec) : float64 :=
  match v with
  | [] => Fin 0
  | x :: rest => foldl fmax x rest
  end.

(** [tmp * b] for a matrix [tmp] and a row vector [b]. *)
Definition rows_mul (tmp : matrix) (b : vec) : matrix :=
  map (fun row => vmul row b) tmp.

(** [v_prev[:, np.newaxis] * hmm.A]. *)
Definition outer_scale (v_prev : vec) (M : matrix) : matrix :=
  zip_with (fun p row => map (fmul p) row) v_prev M.

(** [... * hmm.B1[obs[0]] * hmm.B2[obs[1]] * hmm.B3[obs[2]]]. *)
Definition weigh (hmm : HMM) (o : frame) (tmp : matrix) : result matrix :=
  b1 ← getitem (B1 hmm) o.1.1;
  b2 ← getitem (B2 hmm) o.1.2;
  b3 ← getitem (B3 hmm) o.2;
  Ok (rows_mul (rows_mul (rows_mul tmp b1) b2) b3).

Section viterbi.
Context {O : Type} `{Inhabited O}.
(** The product of [tmp] with the emission rows of one frame. *)
Variable weight : HMM -> O -> matrix -> result matrix.
(** Whether the score row is divided by its sum ([v /= v.sum()]); the
    routines of the program always do. *)
Variable renorm : bool.

(** The loop over [zip(vs[:-1], vs[1:], bps[1:], observations.T)]: the
    rows are views into [vs] and [bps], so the row written in one round
    is the [v_prev] of the next. *)
Definition viterbi_body (hmm : HMM) (obs : list O)
    (st : matrix * list (list nat)) (t : nat)
  : result (matrix * list (list nat)) :=
  let '(vs, bps) := st in
  tmp ← weight hmm (obs !!! t) (outer_scale (vs !!! t) (A hmm));
  let bp := map argmax (transpose tmp) in
  let v := map vmax (transpose tmp) in
  let v := if renorm then vdiv v (vsum v) else v in
  Ok (<[S t := v]> vs, <[S t := bp]> bps).

(** [np.empty] leaves the cells unspecified; they are zero here.  Every
    row of [vs] is written before it is read, and row 0 of [bps] is
    never read. *)
Definition viterbi_trellis (hmm : HMM) (obs : list O)
  : result (matrix * list (list nat)) :=
  let vs := zeros (length obs + 1) (num_states hmm) in
  let bps := replicate (length obs + 1) (replicate (num_states hmm) 0%nat) in
  let vs := <[0%nat := pi hmm]> vs in
  for_each (viterbi_body hmm obs) (seq 0 (length obs)) (vs, bps).

Definition backtrack_body (bps : list (list nat)) (path : list nat) (i : nat)
  : list nat :=
  <[i := (bps !!! S i) !!! (path !!! S i)]> path.

(** [path[-1] = vs[-1].argmax()], then
    [for i in range(len(path)-2, -1, -1)]. *)
Definition viterbi_path (num_frames : nat) (vs : matrix) (bps : list (list nat))
  : list nat :=
  let path := replicate (num_frames + 1) 0%nat in
  let path := <[(length path - 1)%nat := argmax (vs !!! (length vs - 1)%nat)]> path in
  foldl (backtrack_body bps) path (reverse (seq 0 (length path - 1))).

Definition viterbi_loop (hmm : HMM) (obs : list O)
  : result (list nat * matrix) :=
  '(vs, bps) ← viterbi_trellis hmm obs;
  Ok (viterbi_path (length obs) vs bps, vs).
End viterbi.

Definition viterbiHMM (hmm : HMM) (observations : list frame)
  : result (list nat * matrix) :=
  viterbi_loop weigh true hmm observations.

(** The same dynamic program with the line [v /= v.sum()] left out. *)
Definition viterbi_unnormalized (hmm : HMM) (observations : list frame)
  : result (list nat * matrix) :=
  viterbi_loop weigh false hmm observations.

Section gaussian_viterbi.
Variable np_pi : float64.
Variables np_sqrt np_exp : float64 -> float64.

(** [bs = calcB(hmm, obs)] and [... * bs]. *)
Definition weighG (hmm : HMM) (o : frameG) (tmp : matrix) : result matrix :=
  bs ← calcB np_pi np_sqrt np_exp hmm o;
  Ok (rows_mul tmp bs).

Definition viterbiHMMG (hmm : HMM) (observations : list frameG)
  : result (list nat * matrix) :=
  viterbi_loop weighG true hmm observations.
End gaussian_viterbi.

(** ** Sampling

    The random generator is numpy's global one: its state is threaded
    through the draws.  [random_sample] is [np.random.sample()], a draw
    from [0, 1), and [random_normal] is [np.random.normal(loc, scale)]. *)

(** [dist.cumsum()]. *)
Fixpoint cumsum_from (acc : float64) (dist : vec) : vec :=
  match dist with
  | [] => []
  | x :: dist' => fadd acc x :: cumsum_from (fadd acc x) dist'
  end.

Definition cumsum (dist : vec) : vec := cumsum_from (Fin 0) dist.

(** [a.searchsorted(u)] on a sorted array: the number of leading
    elements below [u]. *)
Fixpoint searchsorted (a : vec) (u : float64) : nat :=
  match a with
  | [] => 0%nat
  | x :: a' => if flt x u then S (searchsorted a' u) else 0%nat
  end.

(** [M[:, j]] for a state [j], which is never negative. *)
Definition getcol (M : matrix) (j : nat) : result vec :=
  if bool_decide (j < ncols M)%nat then Ok (column M j) else Raise IndexError.

(** A float stored into a cell of an [int] array: the fraction is dropped
    (rounding toward zero); [nan] and the infinities are refused, and so is
    a value that does not fit 64 bits. *)
Definition to_int (x : float64) : result Z :=
  match x with
  | Fin a =>
      let z := Z.quot (Qnum (this a)) (Zpos (Qden (this a))) in
      if bool_decide (- 2 ^ 63 <= z < 2 ^ 63)%Z then Ok z else Raise OverflowError
  | PInf | NInf => Raise OverflowError
  | NaN => Raise ValueError
  end.

Section sampling.
Variable rng : Type.
Variable random_sample : rng -> Qc * rng.
Variable random_normal : float64 -> float64 -> rng -> float64 * rng.

Definition sample (dist : vec) (g : rng) : nat * rng :=
  let '(u, g) := random_sample g in
  (searchsorted (cumsum dist) (Fin u), g).

Definition sampleG (dist : vec) (g : rng) : result (float64 * rng) :=
  mu ← getitem dist 0;
  sd ← getitem dist 1;
  Ok (random_normal mu sd g).

(** The state of the generating loops: the two arrays and the generator. *)
Definition gen_state : Type := list nat * list frame * rng.

Definition generate_body (hmm : HMM) (st : gen_state) (i : nat) : result gen_state :=
  let '(hidden_state_sequence, observations, g) := st in
  row ← getitem (A hmm) (Z.of_nat (hidden_state_sequence !!! i));
  let '(h, g) := sample row g in
  let hidden_state_sequence := <[S i := h]> hidden_state_sequence in
  c1 ← getcol (B1 hmm) (hidden_state_sequence !!! S i);
  let '(o1, g) := sample c1 g in
  c2 ← getcol (B2 hmm) (hidden_state_sequence !!! S i);
  let '(o2, g) := sample c2 g in
  c3 ← getcol (B3 hmm) (hidden_state_sequence !!! S i);
  let '(o3, g) := sample c3 g in
  let observations := <[i := (Z.of_nat o1, Z.of_nat o2, Z.of_nat o3)]> observations in
  Ok (hidden_state_sequence, observations, g).

(** [np.empty] refuses a negative dimension.  The generator state after
    the last draw is returned with the two arrays. *)
Definition generate_sequence (hmm : HMM) (len_sequence : Z) (g : rng)
  : result gen_state :=
  if bool_decide (len_sequence < 0)%Z then Raise ValueError else
  let hidden_state_sequence := replicate (Z.to_nat (len_sequence + 1)) 0%nat in
  let observations := replicate (Z.to_nat len_sequence) (0, 0, 0)%Z in
  let '(h0, g) := sample (pi hmm) g in
  let hidden_state_sequence := <[0%nat := h0]> hidden_state_sequence in
  for_each (generate_body hmm) (seq 0 (Z.to_nat len_sequence))
    (hidden_state_sequence, observations, g).

(** The Gaussian generator writes its draws into the same
    [np.empty((3, len_sequence), dtype=int)] array. *)
Definition generateG_body (hmm : HMM) (st : gen_state) (i : nat) : result gen_state :=
  let '(hidden_state_sequence, observations, g) := st in
  row ← getitem (A hmm) (Z.of_nat (hidden_state_sequence !!! i));
  let '(h, g) := sample row g in
  let hidden_state_sequence := <[S i := h]> hidden_state_sequence in
  c1 ← getcol (B1 hmm) (hidden_state_sequence !!! S i);
  '(x1, g) ← sampleG c1 g;
  o1 ← to_int x1;
  c2 ← getcol (B2 hmm) (hidden_state_sequence !!! S i);
  '(x2, g) ← sampleG c2 g;
  o2 ← to_int x2;
  c3 ← getcol (B3 hmm) (hidden_state_sequence !!! S i);
  '(x3, g) ← sampleG c3 g;
  o3 ← to_int x3;
  let observations := <[i := (o1, o2, o3)]> observations in
  Ok (hidden_state_sequence, observations, g).

Definition generate_sequenceG (hmm : HMM) (len_sequence : Z) (g : rng)
  : result gen_state :=
  if bool_decide (len_sequence < 0)%Z then Raise ValueError else
  let hidden_state_sequence := replicate (Z.to_nat (len_sequence + 1)) 0%nat in
  let observations := replicate (Z.to_nat len_sequence) (0, 0, 0)%Z in
  let '(h0, g) := sample (pi hmm) g in
  let hidden_state_sequence := <[0%nat := h0]> hidden_state_sequence in
  for_each (generateG_body hmm) (seq 0 (Z.to_nat len_sequence))
    (hidden_state_sequence, observations, g).
End sampling.

(** ** The routines over an arithmetic

    The program does not depend on what its numbers are: [Arith] states
    the categorical routines once more, over an arbitrary set of
    operations [ops].  With the operations of [float64] they are the
    routines above ([exact], and the lemmas of the section on the two
    arithmetics); with Rocq's primitive floats, which are the binary64
    numbers of IEEE 754 with operations rounded to nearest, ties to even,
    they compute what numpy computes on [float64] arrays, operation by
    operation ([binary64]).  Sums run from left to right, as [cumsum]
    does on every array and [sum] on arrays of fewer than eight entries. *)
Module Arith.

Record ops (F : Type) := {
  fzero : F;
  fone : F;
  of_int : Z -> F;
  fadd : F -> F -> F;
  fmul : F -> F -> F;
  fdiv : F -> F -> F;
  fle : F -> F -> bool;
  flt : F -> F -> bool;
  is_nan : F -> bool
}.
Arguments fzero {F} _.
Arguments fone {F} _.
Arguments of_int {F} _ _.
Arguments fadd {F} _ _ _.
Arguments fmul {F} _ _ _.
Arguments fdiv {F} _ _ _.
Arguments fle {F} _ _ _.
Arguments flt {F} _ _ _.
Arguments is_nan {F} _ _.

Record HMM (F : Type) := {
  pi : list F;
  A : list (list F);
  B1 : list (list F);
  B2 : list (list F);
  B3 : list (list F)
}.
Arguments pi {F} _.
Arguments A {F} _.
Arguments B1 {F} _.
Arguments B2 {F} _.
Arguments B3 {F} _.

Section routines.
Context {F : Type} (ar : ops F).

#[local] Instance number_inhabited : Inhabited F := populate (fzero ar).

Definition vmul (x y : list F) : list F := zip_with (fmul ar) x y.

Definition vdiv (v : list F) (s : F) : list F := map (fun x => fdiv ar x s) v.

Definition vsum (v : list F) : F := foldl (fadd ar) (fzero ar) v.

Definition dot (M : list (list F)) (v : list F) : list F :=
  map (fun row => vsum (vmul row v)) M.

Definition column (M : list (list F)) (j : nat) : list F :=
  map (fun row => row !!! j) M.

Definition ncols (M : list (list F)) : nat :=
  match M with
  | [] => 0
  | row :: _ => length row
  end.

Definition transpose (M : list (list F)) : list (list F) :=
  map (column M) (seq 0 (ncols M)).

Definition zeros (r c : nat) : list (list F) := replicate r (replicate c (fzero ar)).

Definition num_states (hmm : HMM F) : nat := length (pi hmm).

Definition emission (hmm : HMM F) (o : frame) : result (list F) :=
  b1 ← getitem (B1 hmm) o.1.1;
  b2 ← getitem (B2 hmm) o.1.2;
  b3 ← getitem (B3 hmm) o.2;
  Ok (vmul (vmul b1 b2) b3).

Definition forward_v (hmm : HMM F) (o : frame) (f_t : list F) : result (list F) :=
  bs ← emission hmm o;
  Ok (vmul bs (dot (transpose (A hmm)) f_t)).

Definition forward_body (hmm : HMM F) (obs : list frame) (f : list (list F)) (t : nat)
  : result (list (list F)) :=
  v ← forward_v hmm (obs !!! t) (f !!! t);
  Ok (<[S t := vdiv v (vsum v)]> f).

Definition forwardHMM (hmm : HMM F) (obs : list frame) : result (list (list F)) :=
  let f := zeros (length obs + 1) (length (pi hmm)) in
  let f := <[0%nat := pi hmm]> f in
  for_each (forward_body hmm obs) (seq 0 (length obs)) f.

Definition ones_times (n : nat) (c : F) : list F :=
  map (fun x => fmul ar x c) (replicate n (fone ar)).

Definition backward_body (hmm : HMM F) (obs : list frame) (b : list (list F)) (t : nat)
  : result (list (list F)) :=
  bs ← emission hmm (obs !!! (t - 1)%nat);
  Ok (<[(t - 1)%nat := dot (A hmm) (vmul bs (b !!! t))]> b).

Definition backward_from (c : F) (hmm : HMM F) (obs : list frame)
  : result (list (list F)) :=
  let b := zeros (length obs + 1) (length (pi hmm)) in
  let b := <[length obs := ones_times (length (pi hmm)) c]> b in
  for_each (backward_body hmm obs) (reverse (seq 1 (length obs))) b.

Definition backwardHMM (hmm : HMM F) (obs : list frame) : result (list (list F)) :=
  backward_from (of_int ar 10000000) hmm obs.

Definition normalize_rows (post : list (list F)) : list (list F) :=
  map (fun row => vdiv row (vsum row)) post.

Definition mmul (f b : list (list F)) : list (list F) := zip_with vmul f b.

Definition smooth_from (c : F) (hmm : HMM F) (obs : list frame)
  : result (list (list F)) :=
  f ← forwardHMM hmm obs;
  b ← backward_from c hmm obs;
  Ok (normalize_rows (mmul f b)).

Definition forward_backwardHMM (hmm : HMM F) (obs : list frame)
  : result (list (list F)) :=
  f ← forwardHMM hmm obs;
  b ← backwardHMM hmm obs;
  Ok (normalize_rows (mmul f b)).

Fixpoint argmax_from (mp : F) (best i : nat) (rest : list F) : nat :=
  match rest with
  | [] => best
  | x :: rest' =>
      if is_nan ar mp then best
      else if fle ar x mp then argmax_from mp best (S i) rest'
      else argmax_from x i (S i) rest'
  end.

Definition argmax (v : list F) : nat :=
  match v with
  | [] => 0%nat
  | x :: rest => argmax_from x 0 1 rest
  end.

Definition fmax (a b : F) : F :=
  if is_nan ar a || fle ar b a then a else b.

Definition vmax (v : list F) : F :=
  match v with
  | [] => fzero ar
  | x :: rest => foldl fmax x rest
  end.

Definition rows_mul (tmp : list (list F)) (b : list F) : list (list F) :=
  map (fun row => vmul row b) tmp.

Definition outer_scale (v_prev : list F) (M : list (list F)) : list (list F) :=
  zip_with (fun p row => map (fmul ar p) row) v_prev M.

Definition weigh (hmm : HMM F) (o : frame) (tmp : list (list F))
  : result (list (list F)) :=
  b1 ← getitem (B1 hmm) o.1.1;
  b2 ← getitem (B2 hmm) o.1.2;
  b3 ← getitem (B3 hmm) o.2;
  Ok (rows_mul (rows_mul (rows_mul tmp b1) b2) b3).

Definition viterbi_body (renorm : bool) (hmm : HMM F) (obs : list frame)
    (st : list (list F) * list (list nat)) (t : nat)
  : result (list (list F) * list (list nat)) :=
  let '(vs, bps) := st in
  tmp ← weigh hmm (obs !!! t) (outer_scale (vs !!! t) (A hmm));
  let bp := map argmax (transpose tmp) in
  let v := map vmax (transpose tmp) in
  let v := if renorm then vdiv v (vsum v) else v in
  Ok (<[S t := v]> vs, <[S t := bp]> bps).

Definition viterbi_trellis (renorm : bool) (hmm : HMM F) (obs : list frame)
  : result (list (list F) * list (list nat)) :=
  let vs := zeros (length obs + 1) (num_states hmm) in
  let bps := replicate (length obs + 1) (replicate (num_states hmm) 0%nat) in
  let vs := <[0%nat := pi hmm]> vs in
  for_each (viterbi_body renorm hmm obs) (seq 0 (length obs)) (vs, bps).

Definition viterbi_path (num_frames : nat) (vs : list (list F)) (bps : list (list nat))
  : list nat :=
  let path := replicate (num_frames + 1) 0%nat in
  let path := <[(length path - 1)%nat := argmax (vs !!! (length vs - 1)%nat)]> path in
  foldl (backtrack_body bps) path (reverse (seq 0 (length path - 1))).

Definition viterbi_loop (renorm : bool) (hmm : HMM F) (obs : list frame)
  : result (list nat * list (list F)) :=
  '(vs, bps) ← viterbi_trellis renorm hmm obs;
  Ok (viterbi_path (length obs) vs bps, vs).

Definition viterbiHMM (hmm : HMM F) (observations : list frame)
  : result (list nat * list (list F)) :=
  viterbi_loop true hmm observations.

Definition viterbi_unnormalized (hmm : HMM F) (observations : list frame)
  : result (list nat * list (list F)) :=
  viterbi_loop false hmm observations.

Fixpoint cumsum_from (acc : F) (dist : list F) : list F :=
  match dist with
  | [] => []
  | x :: dist' => fadd ar acc x :: cumsum_from (fadd ar acc x) dist'
  end.

Definition cumsum (dist : list F) : list F := cumsum_from (fzero ar) dist.

Fixpoint searchsorted (a : list F) (u : F) : nat :=
  match a with
  | [] => 0%nat
  | x :: a' => if flt ar x u then S (searchsorted a' u) else 0%nat
  end.

Definition getcol (M : list (list F)) (j : nat) : result (list F) :=
  if bool_decide (j < ncols M)%nat then Ok (column M j) else Raise IndexError.

Section sampling.
Variable rng : Type.
Variable random_sample : rng -> F * rng.

Definition sample (dist : list F) (g : rng) : nat * rng :=
  let '(u, g) := random_sample g in
  (searchsorted (cumsum dist) u, g).

Definition generate_body (hmm : HMM F) (st : gen_state rng) (i : nat)
  : result (gen_state rng) :=
  let '(hidden_state_sequence, observations, g) := st in
  row ← getitem (A hmm) (Z.of_nat (hidden_state_sequence !!! i));
  let '(h, g) := sample row g in
  let hidden_state_sequence := <[S i := h]> hidden_state_sequence in
  c1 ← getcol (B1 hmm) (hidden_state_sequence !!! S i);
  let '(o1, g) := sample c1 g in
  c2 ← getcol (B2 hmm) (hidden_state_sequence !!! S i);
  let '(o2, g) := sample c2 g in
  c3 ← getcol (B3 hmm) (hidden_state_sequence !!! S i);
  let '(o3, g) := sample c3 g in
  let observations := <[i := (Z.of_nat o1, Z.of_nat o2, Z.of_nat o3)]> observations in
  Ok (hidden_state_sequence, observations, g).

Definition generate_sequence (hmm : HMM F) (len_sequence : Z) (g : rng)
  : result (gen_state rng) :=
  if bool_decide (len_sequence < 0)%Z then Raise ValueError else
  let hidden_state_sequence := replicate (Z.to_nat (len_sequence + 1)) 0%nat in
  let observations := replicate (Z.to_nat len_sequence) (0, 0, 0)%Z in
  let '(h0, g) := sample (pi hmm) g in
  let hidden_state_sequence := <[0%nat := h0]> hidden_state_sequence in
  for_each (generate_body hmm) (seq 0 (Z.to_nat len_sequence))
    (hidden_state_sequence, observations, g).
End sampling.
End routines.

(** The model with every entry converted. *)
Definition map_model {F G : Type} (h : F -> G) (hmm : HMM F) : HMM G := {|
  pi := map h (pi hmm);
  A := map (map h) (A hmm);
  B1 := map (map h) (B1 hmm);
  B2 := map (map h) (B2 hmm);
  B3 := map (map h) (B3 hmm)
|}.
End Arith.

(** The arithmetic of [float64]: exact on the finite values. *)
Definition exact : Arith.ops float64 := {|
  Arith.fzero := Fin 0;
  Arith.fone := Fin 1;
  Arith.of_int := fun z => Fin (Qc_of_Z z);
  Arith.fadd := fadd;
  Arith.fmul := fmul;
  Arith.fdiv := fdiv;
  Arith.fle := fle;
  Arith.flt := flt;
  Arith.is_nan := is_nan
|}.

Definition exact_model (hmm : HMM) : Arith.HMM float64 := {|
  Arith.pi := pi hmm;
  Arith.A := A hmm;
  Arith.B1 := B1 hmm;
  Arith.B2 := B2 hmm;
  Arith.B3 := B3 hmm
|}.

(** The uniform draws of the exact routines, as numbers of [float64]. *)
Definition exact_draws {rng : Type} (random_sample : rng -> Qc * rng) (g : rng)
  : float64 * rng :=
  let '(u, g') := random_sample g in (Fin u, g').

(** The binary64 number of an integer below 2^63 in absolute value: the
    integer itself up to 2^53, the nearest binary64 number above. *)
Definition b64_of_Z (z : Z) : float :=
  if bool_decide (z < 0)%Z
  then PrimFloat.opp (PrimFloat.of_uint63 (Uint63.of_Z (- z)))
  else PrimFloat.of_uint63 (Uint63.of_Z z).

(** The binary64 number that a rational is stored as: the quotient of its
    numerator and denominator, rounded once when both are binary64
    integers, as they are in every model below. *)
Definition b64_of_Qc (a : Qc) : float :=
  PrimFloat.div (b64_of_Z (Qnum (this a))) (b64_of_Z (Zpos (Qden (this a)))).

Definition b64 (x : float64) : float :=
  match x with
  | Fin a => b64_of_Qc a
  | PInf => infinity
  | NInf => neg_infinity
  | NaN => nan
  end.

(** The arithmetic of numpy's [float64] arrays. *)
Definition binary64 : Arith.ops float := {|
  Arith.fzero := 0%float;
  Arith.fone := 1%float;
  Arith.of_int := b64_of_Z;
  Arith.fadd := PrimFloat.add;
  Arith.fmul := PrimFloat.mul;
  Arith.fdiv := PrimFloat.div;
  Arith.fle := PrimFloat.leb;
  Arith.flt := PrimFloat.ltb;
  Arith.is_nan := PrimFloat.is_nan
|}.

(** The model as numpy holds it. *)
Definition binary64_model (hmm : HMM) : Arith.HMM float :=
  Arith.map_model b64 (exact_model hmm).

(** ** Valid models and observations *)

Definition fin_nonneg (x : float64) : bool :=
  match x with Fin a => bool_decide (0 <= a) | _ => false end.

Definition fin_pos (x : float64) : bool :=
  match x with Fin a => bool_decide (0 < a) | _ => false end.

Definition fin_nonzero (x : float64) : bool :=
  match x with Fin a => bool_decide (a <> 0) | _ => false end.

(** A probability distribution: finite non-negative entries of sum 1. *)
Definition is_dist (v : vec) : bool :=
  forallb fin_nonneg v && bool_decide (vsum v = Fin 1).

Definition has_width (c : nat) (M : matrix) : bool :=
  forallb (fun row => bool_decide (length row = c)) M.

(** The shapes of a categorical model: [N >= 1] states, [A] is [N x N]
    and every row of a table [Bk] has one entry per state. *)
Definition wf_hmm (hmm : HMM) : bool :=
  bool_decide (0 < num_states hmm)%nat
  && bool_decide (length (A hmm) = num_states hmm)
  && has_width (num_states hmm) (A hmm)
  && has_width (num_states hmm) (B1 hmm)
  && has_width (num_states hmm) (B2 hmm)
  && has_width (num_states hmm) (B3 hmm).

Definition column_stochastic (n : nat) (B : matrix) : bool :=
  forallb (fun j => is_dist (column B j)) (seq 0 n).

(** A valid categorical model: [pi] and the rows of [A] are
    distributions, and so are the columns of the three tables. *)
Definition valid_hmm (hmm : HMM) : bool :=
  wf_hmm hmm
  && is_dist (pi hmm)
  && forallb is_dist (A hmm)
  && column_stochastic (num_states hmm) (B1 hmm)
  && column_stochastic (num_states hmm) (B2 hmm)
  && column_stochastic (num_states hmm) (B3 hmm).

(** A Gaussian table: a row of finite means and a row of positive
    standard deviations. *)
Definition gaussian_table (n : nat) (B : matrix) : bool :=
  match B with
  | [mu; sig] =>
      bool_decide (length mu = n) && bool_decide (length sig = n)
      && forallb is_fin mu && forallb fin_pos sig
  | _ => false
  end.

Definition valid_hmmG (hmm : HMM) : bool :=
  bool_decide (0 < num_states hmm)%nat
  && bool_decide (length (A hmm) = num_states hmm)
  && has_width (num_states hmm) (A hmm)
  && is_dist (pi hmm)
  && forallb is_dist (A hmm)
  && gaussian_table (num_states hmm) (B1 hmm)
  && gaussian_table (num_states hmm) (B2 hmm)
  && gaussian_table (num_states hmm) (B3 hmm).

(** A symbol of channel [k] lies in [0 .. num_symbols_k - 1]. *)
Definition symbol_in_range (B : matrix) (s : Z) : bool :=
  bool_decide (0 <= s < Z.of_nat (length B))%Z.

Definition frame_in_range (hmm : HMM) (o : frame) : bool :=
  symbol_in_range (B1 hmm) o.1.1
  && symbol_in_range (B2 hmm) o.1.2
  && symbol_in_range (B3 hmm) o.2.

Definition obs_in_range (hmm : HMM) (obs : list frame) : bool :=
  forallb (frame_in_range hmm) obs.

(** An index that [getitem] refuses. *)
Definition symbol_refused (B : matrix) (s : Z) : bool :=
  bool_decide (s < - Z.of_nat (length B) \/ Z.of_nat (length B) <= s)%Z.

Definition frame_refused (hmm : HMM) (o : frame) : bool :=
  symbol_refused (B1 hmm) o.1.1
  || symbol_refused (B2 hmm) o.1.2
  || symbol_refused (B3 hmm) o.2.

(** No degenerate normalisation in the forward pass: at every frame the
    vector [v] is computed and its sum is a finite number other than 0. *)
Fixpoint forward_regular_from {O : Type} (emit : HMM -> O -> result vec)
    (hmm : HMM) (f_t : vec) (obs : list O) : bool :=
  match obs with
  | [] => true
  | o :: obs' =>
      match forward_v emit hmm o f_t with
      | Ok v => fin_nonzero (vsum v)
                && forward_regular_from emit hmm (vdiv v (vsum v)) obs'
      | Raise _ => false
      end
  end.

Definition forward_regular {O : Type} (emit : HMM -> O -> result vec)
    (hmm : HMM) (obs : list O) : bool :=
  forward_regular_from emit hmm (pi hmm) obs.

(** ** Specifications

    The sum of a list of rationals, for the statements about finite
    vectors. *)
Fixpoint qsum (qs : list Qc) : Qc :=
  match qs with
  | [] => 0
  | a :: qs' => a + qsum qs'
  end.

(** What the forward pass promises about its result [f]: one row per
    frame and one more, row 0 is [pi], each later row is the normalised
    product of the frame's emission vector with [A.T] applied to the row
    before it, and every row has sum 1. *)
Definition filtering {O : Type} (emit : HMM -> O -> result vec)
    (hmm : HMM) (obs : list O) (f : matrix) : Prop :=
  length f = S (length obs)
  /\ f !! 0%nat = Some (pi hmm)
  /\ (forall t o, obs !! t = Some o ->
        exists bs f_t, emit hmm o = Ok bs /\ f !! t = Some f_t
          /\ f !! S t = Some (let v := vmul bs (dot (transpose (A hmm)) f_t) in
                              vdiv v (vsum v)))
  /\ (forall row, row ∈ f -> vsum row = Fin 1)
  /\ (obs = [] -> f = [pi hmm]).

(** The order in which numpy's [argmax] and [max] compare: the IEEE order
    on the other values, with [nan] above everything. *)
Definition np_le (x y : float64) : bool :=
  is_nan y || (negb (is_nan x) && fle x y).

(** [i] is the index [argmax] must return on [v]: an index of a greatest
    element, with every earlier element strictly smaller, so that a tie
    goes to the lowest index. *)
Definition first_max (v : vec) (i : nat) : Prop :=
  (i < length v)%nat
  /\ (forall j, (j < length v)%nat -> np_le (v !!! j) (v !!! i) = true)
  /\ (forall j, (j < i)%nat -> np_le (v !!! i) (v !!! j) = false).

(** [M] has [r] rows of [c] entries. *)
Definition has_shape {X : Type} (r c : nat) (M : list (list X)) : Prop :=
  length M = r /\ Forall (fun row => length row = c) M.

(** What the decoder promises about its result [(path, vs)]: the path has
    one state of the model per frame and one more; its last state is the
    first index of
    a greatest entry of the last score row; and going back, the state at
    [t] is the backpointer stored at [t+1] for the state at [t+1], every
    stored backpointer [bp[j]] being the first index of a greatest entry of
    column [j] of [tmp], the matrix computed from the score row [vs[t]]. *)
Definition decoding {O : Type} `{Inhabited O}
    (weight : HMM -> O -> matrix -> result matrix)
    (hmm : HMM) (obs : list O) (path : list nat) (vs : matrix) : Prop :=
  length path = S (length obs)
  /\ Forall (fun s => (s < num_states hmm)%nat) path
  /\ (exists last, vs !! length obs = Some last
        /\ path !! length obs = Some (argmax last)
        /\ first_max last (argmax last))
  /\ (exists bps, viterbi_trellis weight true hmm obs = Ok (vs, bps)
        /\ forall t o, obs !! t = Some o ->
           exists v_prev tmp bp p,
             vs !! t = Some v_prev
             /\ weight hmm o (outer_scale v_prev (A hmm)) = Ok tmp
             /\ bps !! S t = Some bp
             /\ path !! S t = Some p
             /\ is_Some (path !! t)
             /\ path !! t = bp !! p
             /\ (forall j i, bp !! j = Some i -> first_max (column tmp j) i))
  /\ (obs = [] -> path = [argmax (pi hmm)]).

(** [c * v] for a scalar [c]. *)
Definition scale (c : Qc) (v : vec) : vec := map (fmul (Fin c)) v.

(** Vectors and matrices of finite non-negative entries. *)
Abbreviation nonneg_vec := (Forall (fun x => fin_nonneg x = true)).
Abbreviation nonneg_matrix := (Forall (Forall (fun x => fin_nonneg x = true))).

(** No degenerate normalisation in the Viterbi pass: at every frame the
    row of column maxima is computed and its sum is a finite number other
    than 0. *)
Fixpoint viterbi_regular_from (hmm : HMM) (v_prev : vec) (obs : list frame) : bool :=
  match obs with
  | [] => true
  | o :: obs' =>
      match weigh hmm o (outer_scale v_prev (A hmm)) with
      | Ok tmp =>
          let v := map vmax (transpose tmp) in
          fin_nonzero (vsum v) && viterbi_regular_from hmm (vdiv v (vsum v)) obs'
      | Raise _ => false
      end
  end.

Definition viterbi_regular (hmm : HMM) (obs : list frame) : bool :=
  viterbi_regular_from hmm (pi hmm) obs.

(** A value met in the messages of a valid model: [nan], or a finite
    non-negative number. *)
Definition nan_or_nonneg (x : float64) : Prop := x = NaN \/ fin_nonneg x = true.

(** ** What the generators promise

    [gs] lists the successive states of the random generator: draw number
    [n] takes it from [gs[n]] to [gs[n+1]]. *)

Section sampling_spec.
Variable rng : Type.
Variable random_sample : rng -> Qc * rng.
Variable random_normal : float64 -> float64 -> rng -> float64 * rng.

Definition draw_at {X : Type} (gs : list rng) (n : nat)
    (sampler : rng -> X * rng) (x : X) : Prop :=
  exists g g', gs !! n = Some g /\ gs !! S n = Some g' /\ sampler g = (x, g').

(** Draw [n] is a symbol of channel [B] drawn from the column of state [h]. *)
Definition drawn_symbol (gs : list rng) (n : nat) (B : matrix) (h : nat) (o : Z)
  : Prop :=
  exists s, draw_at gs n (sample rng random_sample (column B h)) s
            /\ o = Z.of_nat s.

(** Draw [n] is a normal draw with the mean and the standard deviation of
    state [h] in [B], and [o] is what the [int] array keeps of it. *)
Definition drawn_normal (gs : list rng) (n : nat) (B : matrix) (h : nat) (o : Z)
  : Prop :=
  exists mu sd x, column B h = [mu; sd]
                  /\ draw_at gs n (random_normal mu sd) x
                  /\ to_int x = Ok o.

(** Draw [n] is a normal draw with the mean and the standard deviation of
    state [h] in [B]; nothing is said of what the array keeps of it. *)
Definition normal_draw_made (gs : list rng) (n : nat) (B : matrix) (h : nat)
    (o : Z) : Prop :=
  exists mu sd x, column B h = [mu; sd] /\ draw_at gs n (random_normal mu sd) x.

(** Ancestral sampling of [L] frames from the generator state [g]: draw 0
    gives the first hidden state from [pi]; frame [i] takes draws [4i+1]
    to [4i+4], the next hidden state from the row of [A] of the current
    one, then one observation per channel from the column of the new
    state. *)
Definition ancestral (drawn : list rng -> nat -> matrix -> nat -> Z -> Prop)
    (hmm : HMM) (L : nat) (g : rng) (res : gen_state rng) : Prop :=
  length res.1.1 = S L
  /\ length res.1.2 = L
  /\ exists gs,
       gs !! 0%nat = Some g
       /\ gs !! (4 * L + 1)%nat = Some res.2
       /\ (exists h0, res.1.1 !! 0%nat = Some h0
             /\ draw_at gs 0 (sample rng random_sample (pi hmm)) h0)
       /\ forall i, (i < L)%nat ->
            exists h h' row o1 o2 o3,
              res.1.1 !! i = Some h
              /\ res.1.1 !! S i = Some h'
              /\ A hmm !! h = Some row
              /\ draw_at gs (4 * i + 1) (sample rng random_sample row) h'
              /\ res.1.2 !! i = Some (o1, o2, o3)
              /\ drawn gs (4 * i + 2)%nat (B1 hmm) h' o1
              /\ drawn gs (4 * i + 3)%nat (B2 hmm) h' o2
              /\ drawn gs (4 * i + 4)%nat (B3 hmm) h' o3.

(** The three lines of a loop body that fill one channel, and the loop
    body over them. *)
Definition draw_symbol (B : matrix) (h : nat) (g : rng) : result (Z * rng) :=
  c ← getcol B h;
  let '(o, g) := sample rng random_sample c g in
  Ok (Z.of_nat o, g).

Definition draw_normal (B : matrix) (h : nat) (g : rng) : result (Z * rng) :=
  c ← getcol B h;
  '(x, g) ← sampleG rng random_normal c g;
  o ← to_int x;
  Ok (o, g).

Definition step_body (draw : matrix -> nat -> rng -> result (Z * rng))
    (hmm : HMM) (st : gen_state rng) (i : nat) : result (gen_state rng) :=
  let '(hidden, observations, g) := st in
  row ← getitem (A hmm) (Z.of_nat (hidden !!! i));
  let '(h, g) := sample rng random_sample row g in
  let hidden := <[S i := h]> hidden in
  '(o1, g) ← draw (B1 hmm) (hidden !!! S i) g;
  '(o2, g) ← draw (B2 hmm) (hidden !!! S i) g;
  '(o3, g) ← draw (B3 hmm) (hidden !!! S i) g;
  Ok (hidden, <[i := (o1, o2, o3)]> observations, g).

(** The normal draws made with the parameters of the model fit the [int]
    array. *)
Definition normal_draws_fit (hmm : HMM) : Prop :=
  forall B h mu sd g,
    B ∈ [B1 hmm; B2 hmm; B3 hmm] -> column B h = [mu; sd] ->
    exists o, to_int (random_normal mu sd g).1 = Ok o.
End sampling_spec.

(** Inner products and matrix products of rational vectors, for the
    identities behind the smoother. *)
Definition qip (a b : list Qc) : Qc := qsum (zip_with Qcmult a b).

Definition qdot (M : list (list Qc)) (w : list Qc) : list Qc :=
  map (fun row => qip row w) M.

Definition qcol (M : list (list Qc)) (j : nat) : list Qc :=
  map (fun row => nth j row 0) M.

(** [M.T] applied to [f], for a matrix of [n] columns. *)
Definition qtdot (n : nat) (M : list (list Qc)) (f : list Qc) : list Qc :=
  map (fun j => qip (qcol M j) f) (seq 0 n).

(** No degenerate normalisation in the backward pass of the Gaussian
    routines: going back from the last frame, every vector [v] is computed
    and its sum is a finite number other than 0. *)
Fixpoint backward_regular_from {O : Type} (emit : HMM -> O -> result vec)
    (hmm : HMM) (b_next : vec) (robs : list O) : bool :=
  match robs with
  | [] => true
  | o :: robs' =>
      match emit hmm o with
      | Ok bs =>
          let v := dot (A hmm) (vmul bs b_next) in
          fin_nonzero (vsum v)
          && backward_regular_from emit hmm (vdiv v (vsum v)) robs'
      | Raise _ => false
      end
  end.

Definition backwardG_regular (np_pi : float64) (np_sqrt np_exp : float64 -> float64)
    (hmm : HMM) (obs : list frameG) : bool :=
  backward_regular_from (calcB np_pi np_sqrt np_exp) hmm
    (ones_times (length (pi hmm)) (Fin (Qc_of_Z 1000))) (reverse obs).

(** What the smoother promises about its result [post], given the forward
    and backward matrices [f] and [b]: one row per row of [f] and [b], each
    the elementwise product of the two rows divided by its own sum, and of
    sum 1. *)
Definition smoothing (obs_length : nat) (f b post : matrix) : Prop :=
  post = normalize_rows (mmul f b)
  /\ length post = S obs_length
  /\ forall t row, post !! t = Some row ->
       exists f_t b_t, f !! t = Some f_t /\ b !! t = Some b_t
         /\ row = vdiv (vmul f_t b_t) (vsum (vmul f_t b_t))
         /\ vsum row = Fin 1.

(** The score row that a round of the Viterbi loop stores. *)
Definition score_row (renorm : bool) (tmp : matrix) : vec :=
  let v := map vmax (transpose tmp) in
  if renorm then vdiv v (vsum v) else v.

(** ** Sequences of positive probability, cut tables *)

(** The hidden states [hs] and the frames [os] can follow the state [h]:
    every transition and every emitted symbol has a positive probability
    in the tables of the model. *)
Fixpoint possible_from (hmm : HMM) (h : nat) (hs : list nat) (os : list frame)
  : bool :=
  match hs, os with
  | [], [] => true
  | h' :: hs', o :: os' =>
      bool_decide (h' < num_states hmm)%nat
      && frame_in_range hmm o
      && fin_pos ((A hmm !!! h) !!! h')
      && fin_pos ((B1 hmm !!! Z.to_nat o.1.1) !!! h')
      && fin_pos ((B2 hmm !!! Z.to_nat o.1.2) !!! h')
      && fin_pos ((B3 hmm !!! Z.to_nat o.2) !!! h')
      && possible_from hmm h' hs' os'
  | _, _ => false
  end.

(** The hidden states and the frames have a positive joint probability. *)
Definition possible (hmm : HMM) (hidden : list nat) (obs : list frame) : bool :=
  match hidden with
  | [] => false
  | h0 :: hs =>
      bool_decide (h0 < num_states hmm)%nat
      && fin_pos (pi hmm !!! h0)
      && possible_from hmm h0 hs obs
  end.

(** The uniform draws lie in (0, 1): [np.random.sample] can return 0, and
    does so with probability 2^-53. *)
Definition positive_draws (rng : Type) (random_sample : rng -> Qc * rng) : Prop :=
  forall g, 0 < (random_sample g).1 /\ (random_sample g).1 < 1.

(** The model whose tables are cut down to their first two rows. *)
Definition first_two_rows (hmm : HMM) : HMM := {|
  pi := pi hmm;
  A := A hmm;
  B1 := take 2 (B1 hmm);
  B2 := take 2 (B2 hmm);
  B3 := take 2 (B3 hmm)
|}.

(** The sums [v.sum()] by which the forward pass divides, frame after
    frame. *)
Fixpoint forward_normalizers {O : Type} (emit : HMM -> O -> result vec)
    (hmm : HMM) (f_t : vec) (obs : list O) : list float64 :=
  match obs with
  | [] => []
  | o :: obs' =>
      match forward_v emit hmm o f_t with
      | Ok v => vsum v :: forward_normalizers emit hmm (vdiv v (vsum v)) obs'
      | Raise _ => []
      end
  end.

(** Their product: the probability that the model gives to the frames. *)
Definition likelihood (hmm : HMM) (obs : list frame) : float64 :=
  foldr fmul (Fin 1) (forward_normalizers emission hmm (pi hmm) obs).

(** A finite value between 0 and [c]. *)
Definition fin_between (c : Qc) (x : float64) : bool :=
  match x with
  | Fin a => bool_decide (0 <= a) && bool_decide (a <= c)
  | _ => false
  end.

(** ** Conditions on the computed values

    The statements about sums, decoded paths and drawn indices hold of
    the binary64 computation, up to rounding, as long as the values it
    computes stay clear of the cases below: a row whose sum is zero, a
    number too small for binary64 to hold with full precision, a maximum
    that rounding can move, a draw beyond the last running sum. *)

(** No row of [post] has a sum that is zero or not finite. *)
Definition rows_regular (post : matrix) : bool :=
  forallb (fun row => fin_nonzero (vsum row)) post.

(** No degenerate normalisation in the smoother: the forward and the
    backward matrix are computed, and every row of their product [f * b]
    has a finite sum other than 0. *)
Definition smoother_regular (hmm : HMM) (obs : list frame) : bool :=
  match forwardHMM hmm obs, backwardHMM hmm obs with
  | Ok f, Ok b => rows_regular (mmul f b)
  | _, _ => false
  end.

Definition smootherG_regular (np_pi : float64) (np_sqrt np_exp : float64 -> float64)
    (hmm : HMM) (obs : list frameG) : bool :=
  match forwardHMMG np_pi np_sqrt np_exp hmm obs,
        backwardHMMG np_pi np_sqrt np_exp hmm obs with
  | Ok f, Ok b => rows_regular (mmul f b)
  | _, _ => false
  end.

(** 2^-1022, the least positive binary64 number with a full mantissa, and
    2^-1020, four times as much. *)
Definition least_normal : Qc := Q2Qc (1 # 2 ^ 1022).
Definition score_floor : Qc := Q2Qc (1 # 2 ^ 1020).

(** A value that binary64 holds with full precision and can still
    multiply and add without overflow: zero, or a number from 2^-1022 to
    2^1000. *)
Definition in_normal_range (x : float64) : bool :=
  match x with
  | Fin a =>
      bool_decide (a = 0)
      || (bool_decide (least_normal <= a) && bool_decide (a <= Qc_of_Z (2 ^ 1000)))
  | _ => false
  end.

(** With the constant [c] in the last backward row, every entry of the
    backward matrix and of the product [f * b] is in that range. *)
Definition smoother_in_range (c : float64) (hmm : HMM) (obs : list frame) : bool :=
  match forwardHMM hmm obs, backward_from c hmm obs with
  | Ok f, Ok b =>
      forallb (forallb in_normal_range) b
      && forallb (forallb in_normal_range) (mmul f b)
  | _, _ => false
  end.

(** The greatest entry of [v] is decisive: it is at least 2^-1020 and
    every other entry, multiplied by [1 + mu], stays below it. *)
Definition decisive (mu : Qc) (v : vec) : bool :=
  fle (Fin score_floor) (v !!! argmax v)
  && forallb (fun j => bool_decide (j = argmax v)
                       || fle (fmul (v !!! j) (Fin (1 + mu))) (v !!! argmax v))
       (seq 0 (length v)).

(** The relative margin asked of a maximum in a sequence of [T] frames:
    (T + 1) * 2^-48, above the error that the roundings of T rounds of
    the Viterbi loop can add up to. *)
Definition rounding_margin (T : nat) : Qc :=
  Qc_of_Z (Z.of_nat T + 1) * Q2Qc (1 # 2 ^ 48).

(** Every maximum that decides the path of the unnormalised dynamic
    program on [obs] is decisive: the greatest entry of the last score
    row and, going back along the path, the greatest entry of the column
    of [tmp] from which each of its backpointers is read. *)
Definition path_decisive (hmm : HMM) (obs : list frame) : bool :=
  match viterbi_trellis weigh false hmm obs with
  | Ok (vs, bps) =>
      let path := viterbi_path (length obs) vs bps in
      let mu := rounding_margin (length obs) in
      (bool_decide (obs = []) || decisive mu (vs !!! length obs))
      && forallb
           (fun t =>
              match weigh hmm (obs !!! t) (outer_scale (vs !!! t) (A hmm)) with
              | Ok tmp => decisive mu (column tmp (path !!! S t))
              | Raise _ => false
              end)
           (seq 0 (length obs))
  | Raise _ => false
  end.

(** The distributions that [generate_sequence] samples from: [pi], the
    rows of [A] and the columns of the three tables; [generate_sequenceG]
    samples from the first two only. *)
Definition state_dists (hmm : HMM) : list vec := pi hmm :: A hmm.

Definition model_dists (hmm : HMM) : list vec :=
  state_dists hmm
  ++ transpose (B1 hmm) ++ transpose (B2 hmm) ++ transpose (B3 hmm).

(** The rounding of a running sum.  [np.cumsum] adds the entries one
    after the other; every entry and every partial sum is rounded to
    binary64, by at most the fraction 2^-53 of its value when it is not
    below 2^-1022, so that the running sum of [n] non-negative entries
    ends at no less than (1 - n * 2^-53) times their exact sum.
    [running_sum_slack n] is twice that fraction. *)
Definition running_sum_slack (n : nat) : Qc :=
  Qc_of_Z (Z.of_nat n) * Q2Qc (1 # 2 ^ 52).

(** The draw [u] is within reach of the running sums of [dist]: it is not
    above the sum of [dist] less the slack of its rounding.  The sum of a
    distribution is 1 and a draw is below 1; the binary64 running sum of
    numbers that add up to 1 can end a few units in the last place below
    1, and then the draws next to 1 are beyond it. *)
Definition reaches (u : Qc) (dist : vec) : bool :=
  fle (Fin u) (fmul (vsum dist) (Fin (1 - running_sum_slack (length dist)))).

(** Every uniform draw is within reach of the running sums it is searched
    in. *)
Definition draws_reach (rng : Type) (random_sample : rng -> Qc * rng)
    (dists : list vec) : Prop :=
  forall dist g, dist ∈ dists -> reaches (random_sample g).1 dist = true.

(** ** Examples *)

Definition q (n : Z) (d : positive) : float64 := Fin (Q2Qc (n # d)).

(** The two-state model of the specification's scenario. *)
Definition hmm2 : HMM := {|
  pi := [q 1 2; q 1 2];
  A := [[q 9 10; q 1 10]; [q 1 10; q 9 10]];
  B1 := [[q 9 10; q 1 10]; [q 1 10; q 9 10]];
  B2 := [[q 1 1; q 1 1]];
  B3 := [[q 1 1; q 1 1]]
|}.

(** A Gaussian model on two states, and rational stand-ins for [np.pi],
    [np.sqrt] and [np.exp] with which the Gaussian routines can be run. *)
Definition hmmG2 : HMM := {|
  pi := [q 1 2; q 1 2];
  A := [[q 9 10; q 1 10]; [q 1 10; q 9 10]];
  B1 := [[q 0 1; q 1 1]; [q 1 1; q 1 1]];
  B2 := [[q 0 1; q 0 1]; [q 1 1; q 2 1]];
  B3 := [[q 0 1; q 0 1]; [q 1 1; q 1 1]]
|}.

Definition approx_pi : float64 := q 22 7.
Definition approx_sqrt (x : float64) : float64 := fdiv (fadd x (Fin 1)) (Fin 2).
Definition approx_exp (x : float64) : float64 :=
  fdiv (Fin 1) (fadd (Fin 1) (fmul x x)).

(** A valid model in which symbol 1 of channel 1 is impossible in both
    states. *)
Definition hmm_zero : HMM := {|
  pi := [q 1 2; q 1 2];
  A := [[q 9 10; q 1 10]; [q 1 10; q 9 10]];
  B1 := [[q 1 1; q 1 1]; [q 0 1; q 0 1]];
  B2 := [[q 1 1; q 1 1]];
  B3 := [[q 1 1; q 1 1]]
|}.

(** A two-state random generator for the examples: its uniform draws
    alternate between 1/4 and 3/4 and its normal draws between 3/2 and -1/2
    standard deviations from the mean. *)
Definition coin_sample (g : bool) : Qc * bool :=
  (if g then Q2Qc (1 # 4) else Q2Qc (3 # 4), negb g).

Definition coin_normal (mu sd : float64) (g : bool) : float64 * bool :=
  (fadd mu (fmul sd (if g then q 3 2 else q (-1) 2)), negb g).

(** A valid model with a single state, whose first channel has two
    equally likely symbols. *)
Definition hmm1 : HMM := {|
  pi := [q 1 1];
  A := [[q 1 1]];
  B1 := [[q 1 2]; [q 1 2]];
  B2 := [[q 1 1]];
  B3 := [[q 1 1]]
|}.

(** A Gaussian model whose second table lacks its row of deviations. *)
Definition hmmG_short : HMM := {|
  pi := [q 1 2; q 1 2];
  A := [[q 9 10; q 1 10]; [q 1 10; q 9 10]];
  B1 := [[q 0 1; q 1 1]; [q 1 1; q 1 1]];
  B2 := [[q 0 1; q 0 1]];
  B3 := [[q 0 1; q 0 1]; [q 1 1; q 1 1]]
|}.

(** A valid model, with entries that binary64 holds exactly, on which the
    unnormalised Viterbi scores of the frames (1, 0, 0), (1, 0, 0) end in
    a tie. *)
Definition hmm_tie : HMM := {|
  pi := [q 1 2; q 1 2];
  A := [[q 1 2; q 1 2]; [q 3 4; q 1 4]];
  B1 := [[q 3 8; q 1 4]; [q 5 8; q 3 4]];
  B2 := [[q 1 1; q 1 1]];
  B3 := [[q 1 1; q 1 1]]
|}.

(** A distribution on six states whose entries are binary64 numbers of sum
    exactly 1, and whose binary64 running sum ends at 1 - 2^-52: the four
    entries 2^-54 are lost when they are added to 1/2. *)
Definition dist_six : vec :=
  [q 1 2; q 1 (2 ^ 54); q 1 (2 ^ 54); q 1 (2 ^ 54); q 1 (2 ^ 54);
   q (2 ^ 51 - 1) (2 ^ 52)].

Definition hmm_six : HMM := {|
  pi := dist_six;
  A := replicate 6 dist_six;
  B1 := [replicate 6 (q 1 1)];
  B2 := [replicate 6 (q 1 1)];
  B3 := [replicate 6 (q 1 1)]
|}.

(** The greatest value of [np.random.sample()], 1 - 2^-53, and the
    generator that keeps returning it. *)
Definition last_draw : Qc := Q2Qc ((2 ^ 53 - 1) # 2 ^ 53).

Definition stuck_sample (g : unit) : float * unit := (b64_of_Qc last_draw, g).

(** A valid Gaussian model with a mean of 2^63 in its first table. *)
Definition hmmG_big : HMM := {|
  pi := [q 1 2; q 1 2];
  A := [[q 9 10; q 1 10]; [q 1 10; q 9 10]];
  B1 := [[q (2 ^ 63) 1; q (2 ^ 63) 1]; [q 1 1; q 1 1]];
  B2 := [[q 0 1; q 0 1]; [q 1 1; q 2 1]];
  B3 := [[q 0 1; q 0 1]; [q 1 1; q 1 1]]
|}.

(** * Properties *)

(** Closed decidable statements are settled by evaluation. *)
Ltac by_computation := apply (bool_decide_unpack _); vm_compute; exact I.

(** ** Loops *)

Lemma bind_Ok {X Y : Type} (k : X -> result Y) (x : X) : (Ok x ≫= k) = k x.
Proof. reflexivity. Qed.

Lemma bind_Raise {X Y : Type} (k : X -> result Y) (e : exn) :
  (Raise e ≫= k) = Raise e.
Proof. reflexivity. Qed.

Lemma bind_Ok_inv {X Y : Type} (k : X -> result Y) (m : result X) (y : Y) :
  (m ≫= k) = Ok y -> exists x, m = Ok x /\ k x = Ok y.
Proof. destruct m as [x|e]; [eauto | discriminate]. Qed.

(** A loop keeps an invariant indexed by the number of rounds done. *)
Lemma for_each_inv {S X : Type} (body : S -> X -> result S)
    (P : nat -> S -> Prop) (xs : list X) (s : S) :
  P 0%nat s ->
  (forall k x s, xs !! k = Some x -> P k s ->
     exists s', body s x = Ok s' /\ P (Datatypes.S k) s') ->
  exists s', for_each body xs s = Ok s' /\ P (length xs) s'.
Proof.
  revert P s. induction xs as [|x xs IH]; intros P s H0 Hstep.
  - exists s. split; [reflexivity | exact H0].
  - destruct (Hstep 0%nat x s eq_refl H0) as (s1 & Hb & H1).
    cbn [for_each]. rewrite Hb, bind_Ok.
    apply (IH (fun k => P (Datatypes.S k))); [exact H1 |].
    intros k y s2 Hk. apply Hstep. exact Hk.
Qed.

(** A loop whose body raises at some round raises, whatever the earlier
    rounds did, when exceptions are all of one kind. *)
Lemma for_each_raises {S X : Type} (body : S -> X -> result S) (e : exn)
    (xs : list X) (s : S) (k : nat) (x : X) :
  xs !! k = Some x ->
  (forall s, body s x = Raise e) ->
  (forall s y e', body s y = Raise e' -> e' = e) ->
  for_each body xs s = Raise e.
Proof.
  revert s k. induction xs as [|y xs IH]; intros s k Hk Hx Hall; [done |].
  cbn [for_each]. destruct k as [|k]; simplify_eq/=.
  - rewrite Hx. reflexivity.
  - destruct (body s y) as [s1|e'] eqn:E.
    + rewrite bind_Ok. eapply IH; eauto.
    + rewrite (Hall _ _ _ E). reflexivity.
Qed.

(** ** Sums of finite vectors *)

Lemma fadd_Fin_inv (x y : float64) (c : Qc) :
  fadd x y = Fin c -> exists a b, x = Fin a /\ y = Fin b /\ c = a + b.
Proof. destruct x, y; intros; simplify_eq/=; eauto. Qed.

Lemma foldl_fadd_Fin (a : Qc) (qs : list Qc) :
  foldl fadd (Fin a) (map Fin qs) = Fin (a + qsum qs).
Proof.
  revert a. induction qs as [|b qs IH]; intros a; cbn [foldl map qsum fadd].
  - f_equal. ring.
  - rewrite IH. f_equal. ring.
Qed.

Lemma vsum_Fin (qs : list Qc) : vsum (map Fin qs) = Fin (qsum qs).
Proof. unfold vsum. rewrite foldl_fadd_Fin. f_equal. ring. Qed.

Lemma foldl_fadd_Fin_inv (x : float64) (v : vec) (c : Qc) :
  foldl fadd x v = Fin c ->
  exists a qs, x = Fin a /\ v = map Fin qs /\ c = a + qsum qs.
Proof.
  revert x. induction v as [|y v IH]; intros x Hx; cbn [foldl] in Hx.
  - exists c, []. cbn [map qsum]. split_and!; [done | done | ring].
  - destruct (IH _ Hx) as (ab & qs & Hab & -> & ->).
    destruct (fadd_Fin_inv _ _ _ Hab) as (a & b & -> & -> & ->).
    exists a, (b :: qs). cbn [map qsum]. split_and!; [done | done | ring].
Qed.

Lemma vsum_Fin_inv (v : vec) (c : Qc) :
  vsum v = Fin c -> exists qs, v = map Fin qs /\ c = qsum qs.
Proof.
  intros Hv. destruct (foldl_fadd_Fin_inv _ _ _ Hv) as (a & qs & Ha & -> & ->).
  exists qs. split; [done |]. simplify_eq. ring.
Qed.

Lemma fin_nonzero_inv (x : float64) :
  fin_nonzero x = true -> exists c, x = Fin c /\ c <> 0.
Proof.
  destruct x as [c| | |]; try discriminate. cbn [fin_nonzero]. intros Hc.
  exists c. split; [done |]. by apply bool_decide_eq_true in Hc.
Qed.

Lemma vdiv_Fin (qs : list Qc) (c : Qc) :
  c <> 0 -> vdiv (map Fin qs) (Fin c) = map Fin (map (fun a => a / c) qs).
Proof.
  intros Hc. unfold vdiv. rewrite !map_map. apply map_ext. intros a.
  cbn [fdiv]. by rewrite decide_False.
Qed.

Lemma qsum_scale (qs : list Qc) (c : Qc) :
  qsum (map (fun a => a / c) qs) = qsum qs / c.
Proof.
  induction qs as [|a qs IH]; cbn [map qsum].
  - unfold Qcdiv. ring.
  - rewrite IH. unfold Qcdiv. ring.
Qed.

(** A vector divided by its finite non-zero sum has sum 1. *)
Lemma vsum_normalized (v : vec) :
  fin_nonzero (vsum v) = true -> vsum (vdiv v (vsum v)) = Fin 1.
Proof.
  intros Hv. destruct (fin_nonzero_inv _ Hv) as (c & Hc & Hne).
  destruct (vsum_Fin_inv _ _ Hc) as (qs & -> & ->).
  rewrite vsum_Fin, vdiv_Fin, vsum_Fin, qsum_scale by done.
  f_equal. by field.
Qed.

Lemma is_dist_sum (v : vec) : is_dist v = true -> vsum v = Fin 1.
Proof.
  unfold is_dist. intros Hd. apply andb_true_iff in Hd as [_ Hd].
  by apply bool_decide_eq_true in Hd.
Qed.

(** ** The order of floats and [argmax] *)

Lemma np_le_refl (x : float64) : np_le x x = true.
Proof.
  destruct x; try reflexivity. unfold np_le; cbn.
  apply bool_decide_eq_true. apply Qcle_refl.
Qed.

Lemma np_le_trans (x y z : float64) :
  np_le x y = true -> np_le y z = true -> np_le x z = true.
Proof.
  destruct x as [a| | |], y as [b| | |], z as [c| | |]; unfold np_le; cbn;
    try done.
  rewrite !bool_decide_eq_true. apply Qcle_trans.
Qed.

Lemma np_le_total (x y : float64) : np_le x y = false -> np_le y x = true.
Proof.
  destruct x as [a| | |], y as [b| | |]; unfold np_le; cbn; try done.
  rewrite bool_decide_eq_false, bool_decide_eq_true.
  intros Hab. apply Qclt_le_weak. by apply Qcnot_le_lt.
Qed.

Lemma np_le_nan (x : float64) : np_le x NaN = true.
Proof. reflexivity. Qed.

(** Against a running maximum that is not [nan], the test of the loop is
    the order [np_le]. *)
Lemma fle_np_le (x mp : float64) : is_nan mp = false -> fle x mp = np_le x mp.
Proof. by destruct x, mp. Qed.

Lemma argmax_from_first_max (pre rest : vec) (mp : float64) (best : nat) :
  (best < length pre)%nat ->
  pre !!! best = mp ->
  (forall j, (j < length pre)%nat -> np_le (pre !!! j) mp = true) ->
  (forall j, (j < best)%nat -> np_le mp (pre !!! j) = false) ->
  first_max (pre ++ rest) (argmax_from mp best (length pre) rest).
Proof.
  revert pre mp best. induction rest as [|x rest IH]; intros pre mp best Hb Hmp Hle Hlt.
  - cbn [argmax_from]. rewrite app_nil_r. by subst mp.
  - cbn [argmax_from]. destruct (is_nan mp) eqn:Hnan.
    + destruct mp; try discriminate. split_and!.
      * rewrite length_app. lia.
      * intros j _. rewrite (lookup_total_app_l pre _ best), Hmp by done.
        apply np_le_nan.
      * intros j Hj. rewrite !lookup_total_app_l, Hmp by lia. by apply Hlt.
    + replace (pre ++ x :: rest) with ((pre ++ [x]) ++ rest)
        by (by rewrite <- app_assoc).
      replace (S (length pre)) with (length (pre ++ [x]))
        by (rewrite length_app; cbn; lia).
      rewrite (fle_np_le _ _ Hnan). destruct (np_le x mp) eqn:Hx.
      * apply IH.
        -- rewrite length_app. lia.
        -- by rewrite lookup_total_app_l.
        -- intros j Hj. rewrite length_app in Hj. cbn in Hj.
           destruct (decide (j < length pre)%nat).
           ++ rewrite lookup_total_app_l by done. by apply Hle.
           ++ assert (j = length pre) as -> by lia.
              by rewrite list_lookup_total_middle.
        -- intros j Hj. rewrite lookup_total_app_l by lia. by apply Hlt.
      * apply IH.
        -- rewrite length_app. cbn. lia.
        -- by rewrite list_lookup_total_middle.
        -- intros j Hj. rewrite length_app in Hj. cbn in Hj.
           destruct (decide (j < length pre)%nat).
           ++ rewrite lookup_total_app_l by done.
              eapply np_le_trans; [by apply Hle | by apply np_le_total].
           ++ assert (j = length pre) as -> by lia.
              rewrite list_lookup_total_middle by done. apply np_le_refl.
        -- intros j Hj. rewrite lookup_total_app_l by lia.
           destruct (np_le x (pre !!! j)) eqn:Hxj; [|done].
           rewrite <- Hx. symmetry. eapply np_le_trans; [done | by apply Hle].
Qed.

(** [argmax] returns the first index of a greatest element. *)
Lemma argmax_first_max (v : vec) : v <> [] -> first_max v (argmax v).
Proof.
  destruct v as [|x rest]; [done | intros _].
  apply (argmax_from_first_max [x] rest x 0%nat).
  - cbn. lia.
  - reflexivity.
  - intros j Hj. cbn in Hj. assert (j = 0%nat) as -> by lia. apply np_le_refl.
  - intros j Hj. lia.
Qed.

(** ** Shapes *)

Lemma has_width_Forall (c : nat) (M : matrix) :
  has_width c M = true <-> Forall (fun row => length row = c) M.
Proof.
  unfold has_width. rewrite forallb_forall, Forall_forall.
  split; intros HM row Hrow.
  - apply list_elem_of_In, HM in Hrow. by apply bool_decide_eq_true in Hrow.
  - apply bool_decide_eq_true, HM. by apply list_elem_of_In.
Qed.

Lemma has_shape_lookup {X : Type} (r c : nat) (M : list (list X)) (i : nat) (row : list X) :
  has_shape r c M -> M !! i = Some row -> length row = c.
Proof.
  intros [_ HM] Hi. rewrite Forall_forall in HM. apply HM.
  by eapply list_elem_of_lookup_2.
Qed.

Lemma has_shape_ncols (r c : nat) (M : matrix) :
  (0 < r)%nat -> has_shape r c M -> ncols M = c.
Proof.
  intros Hr [Hlen HM]. destruct M as [|row M]; cbn in *; [lia |].
  by inversion HM.
Qed.

Lemma length_vmul (x y : vec) : length (vmul x y) = (length x `min` length y)%nat.
Proof. apply length_zip_with. Qed.

Lemma length_vdiv (v : vec) (s : float64) : length (vdiv v s) = length v.
Proof. apply length_map. Qed.

Lemma length_column (M : matrix) (j : nat) : length (column M j) = length M.
Proof. apply length_map. Qed.

Lemma transpose_lookup (M : matrix) (j : nat) :
  (j < ncols M)%nat -> transpose M !! j = Some (column M j).
Proof.
  intros Hj. unfold transpose. rewrite list_lookup_fmap, lookup_seq_lt by done.
  reflexivity.
Qed.

Lemma length_transpose (M : matrix) : length (transpose M) = ncols M.
Proof. unfold transpose. by rewrite length_map, length_seq. Qed.

Lemma has_shape_outer_scale (n : nat) (v : vec) (M : matrix) :
  length v = n -> has_shape n n M -> has_shape n n (outer_scale v M).
Proof.
  intros Hv [HM Hrows]. split.
  - unfold outer_scale. rewrite length_zip_with. lia.
  - unfold outer_scale.
    apply Forall_zip_with_snd with (P := fun row => length row = n); [|done].
    apply Forall_forall. intros p _ row Hrow. by rewrite length_map.
Qed.

Lemma has_shape_rows_mul (r c : nat) (tmp : matrix) (b : vec) :
  has_shape r c tmp -> length b = c -> has_shape r c (rows_mul tmp b).
Proof.
  intros [Hlen Hrows] Hb. split.
  - unfold rows_mul. by rewrite length_map.
  - unfold rows_mul. apply Forall_fmap. eapply Forall_impl; [exact Hrows |].
    intros row Hrow. cbn in *. rewrite length_vmul. lia.
Qed.

Lemma getitem_in_range {X : Type} (a : list X) (i : Z) :
  (0 <= i < Z.of_nat (length a))%Z ->
  exists x, getitem a i = Ok x /\ a !! Z.to_nat i = Some x.
Proof.
  intros Hi. unfold getitem.
  rewrite (bool_decide_eq_false_2 (i < 0)%Z) by lia.
  rewrite bool_decide_eq_true_2 by lia.
  destruct (lookup_lt_is_Some_2 a (Z.to_nat i)) as [x Hx]; [lia |].
  exists x. by rewrite Hx.
Qed.

Lemma getitem_Ok_elem {X : Type} (a : list X) (i : Z) (x : X) :
  getitem a i = Ok x -> x ∈ a.
Proof.
  unfold getitem. case_bool_decide; [|done].
  destruct (a !! _) eqn:E; [|done]. intros ?; simplify_eq.
  by eapply list_elem_of_lookup_2.
Qed.

Lemma getitem_raise {X : Type} (a : list X) (i : Z) (e : exn) :
  getitem a i = Raise e -> e = IndexError.
Proof.
  unfold getitem. case_bool_decide; [|congruence].
  destruct (a !! _); congruence.
Qed.

(** A pure loop keeps an invariant indexed by the number of rounds done. *)
Lemma foldl_inv {S X : Type} (f : S -> X -> S) (P : nat -> S -> Prop)
    (xs : list X) (s : S) :
  P 0%nat s ->
  (forall k x s, xs !! k = Some x -> P k s -> P (Datatypes.S k) (f s x)) ->
  P (length xs) (foldl f s xs).
Proof.
  revert P s. induction xs as [|x xs IH]; intros P s H0 Hstep; [done |].
  cbn [foldl length]. apply (IH (fun k => P (Datatypes.S k))).
  - by apply (Hstep 0%nat).
  - intros k y s' Hk. by apply Hstep.
Qed.

(** ** The Viterbi trellis and the backtracking loop *)

Lemma viterbi_path_spec (T : nat) (vs : matrix) (bps : list (list nat)) :
  length vs = S T ->
  let path := viterbi_path T vs bps in
  length path = S T
  /\ path !! T = Some (argmax (vs !!! T))
  /\ (forall t, (t < T)%nat ->
        path !! t = Some ((bps !!! S t) !!! (path !!! S t))).
Proof.
  intros Hvs. unfold viterbi_path.
  rewrite length_insert, length_replicate, Hvs.
  replace (T + 1 - 1)%nat with T by lia. replace (S T - 1)%nat with T by lia.
  set (path0 := <[T:=argmax (vs !!! T)]> (replicate (T + 1) 0%nat)).
  pose (P := fun (j : nat) (path : list nat) =>
    length path = S T
    /\ path !! T = Some (argmax (vs !!! T))
    /\ (forall t, (T - j <= t < T)%nat ->
          path !! t = Some ((bps !!! S t) !!! (path !!! S t)))).
  assert (HP : P (length (reverse (seq 0 T)))
                 (foldl (backtrack_body bps) path0 (reverse (seq 0 T)))).
  { apply foldl_inv.
    - unfold P, path0. rewrite length_insert, length_replicate.
      split_and!; [lia | | intros; lia].
      apply list_lookup_insert_eq. rewrite length_replicate. lia.
    - intros j i path Hi (Hlen & Hlast & Hprev).
      apply reverse_lookup_Some in Hi as [Hi Hj].
      rewrite length_seq in Hi, Hj. apply lookup_seq in Hi as [-> _].
      cbn [plus]. unfold backtrack_body. split_and!.
      + by rewrite length_insert.
      + rewrite list_lookup_insert_ne by lia. done.
      + intros t Ht. destruct (decide (t = T - S j)%nat) as [->|Hne].
        * rewrite list_lookup_insert_eq by lia.
          by rewrite list_lookup_total_insert_ne by lia.
        * rewrite list_lookup_insert_ne by lia.
          rewrite list_lookup_total_insert_ne by lia. apply Hprev. lia. }
  rewrite length_reverse, length_seq in HP. destruct HP as (? & ? & Hprev).
  split_and!; [done | done |]. intros t Ht. apply Hprev. lia.
Qed.

Section viterbi_facts.
Context {O : Type} `{Inhabited O}.
Variable weight : HMM -> O -> matrix -> result matrix.
Variable renorm : bool.
Variable hmm : HMM.
Variable obs : list O.

Hypothesis states : (0 < num_states hmm)%nat.
Hypothesis A_shape : has_shape (num_states hmm) (num_states hmm) (A hmm).
Hypothesis weight_shape : forall o tmp,
  o ∈ obs ->
  has_shape (num_states hmm) (num_states hmm) tmp ->
  exists tmp', weight hmm o tmp = Ok tmp'
               /\ has_shape (num_states hmm) (num_states hmm) tmp'.

Lemma length_score_row (tmp : matrix) :
  has_shape (num_states hmm) (num_states hmm) tmp ->
  length (score_row renorm tmp) = num_states hmm.
Proof.
  intros Htmp. unfold score_row.
  assert (length (map vmax (transpose tmp)) = num_states hmm) as Hlen.
  { rewrite length_map, length_transpose. by eapply has_shape_ncols. }
  destruct renorm; [by rewrite length_vdiv | done].
Qed.

Lemma viterbi_trellis_rows :
  exists vs bps,
    viterbi_trellis weight renorm hmm obs = Ok (vs, bps)
    /\ length vs = S (length obs)
    /\ vs !! 0%nat = Some (pi hmm)
    /\ Forall (fun row => length row = num_states hmm) vs
    /\ (forall t o, obs !! t = Some o ->
          exists v_prev tmp,
            vs !! t = Some v_prev
            /\ weight hmm o (outer_scale v_prev (A hmm)) = Ok tmp
            /\ has_shape (num_states hmm) (num_states hmm) tmp
            /\ bps !! S t = Some (map argmax (transpose tmp))
            /\ vs !! S t = Some (score_row renorm tmp)).
Proof.
  unfold viterbi_trellis.
  set (vs0 := <[0%nat:=pi hmm]> (zeros (length obs + 1) (num_states hmm))).
  set (bps0 := replicate (length obs + 1) (replicate (num_states hmm) 0%nat)).
  pose (P := fun (k : nat) (st : matrix * list (list nat)) =>
    length st.1 = S (length obs)
    /\ length st.2 = S (length obs)
    /\ st.1 !! 0%nat = Some (pi hmm)
    /\ Forall (fun row => length row = num_states hmm) st.1
    /\ (forall t o, (t < k)%nat -> obs !! t = Some o ->
          exists v_prev tmp,
            st.1 !! t = Some v_prev
            /\ weight hmm o (outer_scale v_prev (A hmm)) = Ok tmp
            /\ has_shape (num_states hmm) (num_states hmm) tmp
            /\ st.2 !! S t = Some (map argmax (transpose tmp))
            /\ st.1 !! S t = Some (score_row renorm tmp))).
  destruct (for_each_inv (viterbi_body weight renorm hmm obs) P
              (seq 0 (length obs)) (vs0, bps0)) as ([vs bps] & Hrun & HP).
  - unfold P, vs0, bps0, zeros. cbn [fst snd].
    rewrite length_insert, !length_replicate. split_and!; [lia | lia | | | intros; lia].
    + apply list_lookup_insert_eq. rewrite length_replicate. lia.
    + apply Forall_insert; [|done]. apply Forall_replicate.
      by rewrite length_replicate.
  - intros k x [vs bps] (-> & Hk)%lookup_seq (Hlen & Hlenb & Hr0 & Hrows & Hrec).
    cbn [fst snd plus] in *.
    destruct (lookup_lt_is_Some_2 obs k Hk) as [o Ho].
    destruct (lookup_lt_is_Some_2 vs k) as [v_prev Hprev]; [lia |].
    assert (length v_prev = num_states hmm) as Hvlen.
    { rewrite Forall_forall in Hrows. apply Hrows.
      by eapply list_elem_of_lookup_2. }
    destruct (weight_shape o (outer_scale v_prev (A hmm))) as (tmp & Htmp & Hshape).
    { by eapply list_elem_of_lookup_2. }
    { by apply has_shape_outer_scale. }
    exists (<[S k:=score_row renorm tmp]> vs, <[S k:=map argmax (transpose tmp)]> bps).
    split.
    { unfold viterbi_body.
      rewrite (list_lookup_total_correct _ _ _ Ho),
        (list_lookup_total_correct _ _ _ Hprev), Htmp. reflexivity. }
    unfold P. cbn [fst snd]. split_and!.
    + by rewrite length_insert.
    + by rewrite length_insert.
    + by rewrite list_lookup_insert_ne.
    + apply Forall_insert; [done |]. by apply length_score_row.
    + intros t o' Ht Ho'. destruct (decide (t = k)) as [->|Hne].
      * exists v_prev, tmp. rewrite list_lookup_insert_ne by lia.
        rewrite !list_lookup_insert_eq by lia.
        split_and!; [done | congruence | done | done | done].
      * destruct (Hrec t o') as (v' & tmp' & ? & ? & ? & ? & ?); [lia | done |].
        exists v', tmp'. by rewrite !list_lookup_insert_ne by lia.
  - exists vs, bps. rewrite length_seq in HP. cbn [fst snd] in HP.
    destruct HP as (Hlen & Hlenb & Hr0 & Hrows & Hrec).
    split_and!; [done | done | done | done |].
    intros t o Ho. apply Hrec; [|done]. by eapply lookup_lt_Some.
Qed.
End viterbi_facts.

Section viterbi_decoding.
Context {O : Type} `{Inhabited O}.
Variable weight : HMM -> O -> matrix -> result matrix.
Variable hmm : HMM.
Variable obs : list O.

Hypothesis states : (0 < num_states hmm)%nat.
Hypothesis A_shape : has_shape (num_states hmm) (num_states hmm) (A hmm).
Hypothesis weight_shape : forall o tmp,
  o ∈ obs ->
  has_shape (num_states hmm) (num_states hmm) tmp ->
  exists tmp', weight hmm o tmp = Ok tmp'
               /\ has_shape (num_states hmm) (num_states hmm) tmp'.

Lemma backpointer_first_max (tmp : matrix) (j i : nat) :
  has_shape (num_states hmm) (num_states hmm) tmp ->
  map argmax (transpose tmp) !! j = Some i ->
  (j < num_states hmm)%nat /\ i = argmax (column tmp j)
  /\ first_max (column tmp j) i.
Proof.
  intros Htmp Hj. pose proof (has_shape_ncols _ _ _ states Htmp) as Hcols.
  assert (j < num_states hmm)%nat as Hlt.
  { apply lookup_lt_Some in Hj. by rewrite length_map, length_transpose, Hcols in Hj. }
  rewrite list_lookup_fmap, transpose_lookup in Hj by lia. cbn in Hj.
  simplify_eq. split_and!; [done | done |]. apply argmax_first_max.
  intros Hnil. apply (f_equal length) in Hnil.
  rewrite length_column in Hnil. destruct Htmp as [Hlen _]. cbn in Hnil. lia.
Qed.

Lemma viterbi_loop_decoding :
  exists path vs, viterbi_loop weight true hmm obs = Ok (path, vs)
                  /\ decoding weight hmm obs path vs.
Proof.
  destruct (viterbi_trellis_rows weight true hmm obs states A_shape weight_shape)
    as (vs & bps & Hrun & Hlen & Hr0 & Hrows & Hrec).
  destruct (viterbi_path_spec (length obs) vs bps Hlen) as (Hplen & Hlast & Hback).
  set (path := viterbi_path (length obs) vs bps) in *.
  exists path, vs. split.
  { unfold viterbi_loop. rewrite Hrun. reflexivity. }
  destruct (lookup_lt_is_Some_2 vs (length obs)) as [last Hl]; [lia |].
  assert (length last = num_states hmm) as Hllen.
  { rewrite Forall_forall in Hrows. apply Hrows. by eapply list_elem_of_lookup_2. }
  assert (first_max last (argmax last)) as Hfm.
  { apply argmax_first_max. intros ->. cbn in Hllen. lia. }
  rewrite (list_lookup_total_correct _ _ _ Hl) in Hlast.
  (* every state on the path is a state of the model *)
  assert (forall d t, (t + d = length obs)%nat -> (path !!! t < num_states hmm)%nat)
    as Hstate.
  { induction d as [|d IH]; intros t Ht.
    - assert (t = length obs) as -> by lia.
      rewrite (list_lookup_total_correct _ _ _ Hlast).
      destruct Hfm as [Hfm _]. lia.
    - assert (t < length obs)%nat as Ht' by lia.
      assert (S t + d = length obs)%nat as HSt by lia.
      rewrite (list_lookup_total_correct _ _ _ (Hback t Ht')).
      destruct (lookup_lt_is_Some_2 obs t) as [o Ho]; [lia |].
      destruct (Hrec t o Ho) as (v_prev & tmp & _ & _ & Htmp & Hbp & _).
      rewrite (list_lookup_total_correct _ _ _ Hbp).
      specialize (IH (S t) HSt).
      destruct (lookup_lt_is_Some_2 (map argmax (transpose tmp)) (path !!! S t))
        as [i Hi].
      { rewrite length_map, length_transpose.
        by rewrite (has_shape_ncols _ _ _ states Htmp). }
      rewrite (list_lookup_total_correct _ _ _ Hi).
      destruct (backpointer_first_max tmp _ _ Htmp Hi) as (_ & _ & [Hi' _]).
      rewrite length_column in Hi'. destruct Htmp as [Htmp _]. lia. }
  split_and!.
  - done.
  - apply Forall_forall. intros s (t & Ht)%list_elem_of_lookup.
    rewrite <- (list_lookup_total_correct _ _ _ Ht).
    apply (Hstate (length obs - t)%nat). apply lookup_lt_Some in Ht. lia.
  - by exists last.
  - exists bps. split; [done |]. intros t o Ho.
    assert (t < length obs)%nat as Ht by by eapply lookup_lt_Some.
    destruct (Hrec t o Ho) as (v_prev & tmp & Hv & Hw & Htmp & Hbp & _).
    destruct (lookup_lt_is_Some_2 path (S t)) as [p Hp]; [lia |].
    exists v_prev, tmp, (map argmax (transpose tmp)), p.
    split_and!; [done | done | done | done | | | ].
    + rewrite (Hback t Ht). by eexists.
    + rewrite (Hback t Ht), (list_lookup_total_correct _ _ _ Hbp),
        (list_lookup_total_correct _ _ _ Hp).
      symmetry. apply list_lookup_lookup_total_lt.
      rewrite length_map, length_transpose, (has_shape_ncols _ _ _ states Htmp).
      rewrite <- (list_lookup_total_correct _ _ _ Hp). apply (Hstate (length obs - S t)%nat).
      lia.
    + intros j i Hj. by apply (backpointer_first_max tmp j i Htmp).
  - intros Hnil. subst path. revert Hlen Hr0. rewrite Hnil. cbn [length].
    intros Hlen Hr0. destruct vs as [|row [|? ?]]; cbn in Hlen; try lia.
    cbn in Hr0. simplify_eq. reflexivity.
Qed.
End viterbi_decoding.

(** ** Well-formed models *)

Lemma wf_hmm_inv (hmm : HMM) :
  wf_hmm hmm = true ->
  (0 < num_states hmm)%nat
  /\ has_shape (num_states hmm) (num_states hmm) (A hmm)
  /\ Forall (fun row => length row = num_states hmm) (B1 hmm)
  /\ Forall (fun row => length row = num_states hmm) (B2 hmm)
  /\ Forall (fun row => length row = num_states hmm) (B3 hmm).
Proof.
  unfold wf_hmm. rewrite !andb_true_iff, !bool_decide_eq_true, !has_width_Forall.
  unfold has_shape. tauto.
Qed.

Lemma valid_hmm_wf (hmm : HMM) : valid_hmm hmm = true -> wf_hmm hmm = true.
Proof. unfold valid_hmm. rewrite !andb_true_iff. tauto. Qed.

Lemma symbol_in_range_getitem (n : nat) (B : matrix) (s : Z) :
  Forall (fun row => length row = n) B ->
  symbol_in_range B s = true ->
  exists b, getitem B s = Ok b /\ B !! Z.to_nat s = Some b /\ length b = n.
Proof.
  intros HB Hs. apply bool_decide_eq_true in Hs.
  destruct (getitem_in_range B s Hs) as (b & Hb & Hlook).
  exists b. split_and!; [done | done |].
  rewrite Forall_forall in HB. apply HB. by eapply list_elem_of_lookup_2.
Qed.

Lemma frame_in_range_elem (hmm : HMM) (obs : list frame) (o : frame) :
  obs_in_range hmm obs = true -> o ∈ obs -> frame_in_range hmm o = true.
Proof.
  unfold obs_in_range. rewrite forallb_forall. intros Hobs Ho.
  apply Hobs. by apply list_elem_of_In.
Qed.

Lemma emission_in_range (hmm : HMM) (o : frame) :
  wf_hmm hmm = true ->
  frame_in_range hmm o = true ->
  exists b1 b2 b3,
    getitem (B1 hmm) o.1.1 = Ok b1 /\ getitem (B2 hmm) o.1.2 = Ok b2
    /\ getitem (B3 hmm) o.2 = Ok b3
    /\ length b1 = num_states hmm /\ length b2 = num_states hmm
    /\ length b3 = num_states hmm
    /\ emission hmm o = Ok (vmul (vmul b1 b2) b3).
Proof.
  intros (_ & _ & H1 & H2 & H3)%wf_hmm_inv.
  unfold frame_in_range. rewrite !andb_true_iff. intros [[Ho1 Ho2] Ho3].
  destruct (symbol_in_range_getitem _ _ _ H1 Ho1) as (b1 & Hb1 & _ & Hl1).
  destruct (symbol_in_range_getitem _ _ _ H2 Ho2) as (b2 & Hb2 & _ & Hl2).
  destruct (symbol_in_range_getitem _ _ _ H3 Ho3) as (b3 & Hb3 & _ & Hl3).
  exists b1, b2, b3. unfold emission. rewrite Hb1, Hb2, Hb3. by split_and!.
Qed.

Lemma weigh_shape (hmm : HMM) (o : frame) (tmp : matrix) :
  wf_hmm hmm = true ->
  frame_in_range hmm o = true ->
  has_shape (num_states hmm) (num_states hmm) tmp ->
  exists tmp', weigh hmm o tmp = Ok tmp'
               /\ has_shape (num_states hmm) (num_states hmm) tmp'.
Proof.
  intros Hwf Ho Htmp.
  destruct (emission_in_range hmm o Hwf Ho)
    as (b1 & b2 & b3 & Hb1 & Hb2 & Hb3 & Hl1 & Hl2 & Hl3 & _).
  eexists. unfold weigh. rewrite Hb1, Hb2, Hb3. split; [reflexivity |].
  by repeat apply has_shape_rows_mul.
Qed.

Lemma valid_hmmG_inv (hmm : HMM) :
  valid_hmmG hmm = true ->
  (0 < num_states hmm)%nat
  /\ has_shape (num_states hmm) (num_states hmm) (A hmm)
  /\ gaussian_table (num_states hmm) (B1 hmm) = true
  /\ gaussian_table (num_states hmm) (B2 hmm) = true
  /\ gaussian_table (num_states hmm) (B3 hmm) = true.
Proof.
  unfold valid_hmmG. rewrite !andb_true_iff, !bool_decide_eq_true, !has_width_Forall.
  unfold has_shape. tauto.
Qed.

Section gaussian_facts.
Variable np_pi : float64.
Variables np_sqrt np_exp : float64 -> float64.

Lemma calcB_channel_table (n : nat) (B : matrix) (x : float64) :
  (0 < n)%nat ->
  gaussian_table n B = true ->
  exists b, calcB_channel np_pi np_sqrt np_exp B x = Ok b /\ length b = n.
Proof.
  intros Hn HB. destruct B as [|mu [|sig [|? ?]]]; try discriminate.
  cbn [gaussian_table] in HB. rewrite !andb_true_iff, !bool_decide_eq_true in HB.
  destruct HB as [[[Hmu Hsig] _] _].
  eexists. split; [reflexivity |].
  unfold gaussian. rewrite length_zip_with, length_replicate, length_zip.
  cbn [ncols]. lia.
Qed.

Lemma calcB_valid (hmm : HMM) (o : frameG) :
  valid_hmmG hmm = true ->
  exists bs, calcB np_pi np_sqrt np_exp hmm o = Ok bs /\ length bs = num_states hmm.
Proof.
  intros (HN & _ & H1 & H2 & H3)%valid_hmmG_inv.
  destruct (calcB_channel_table _ _ o.1.1 HN H1) as (b1 & Hb1 & Hl1).
  destruct (calcB_channel_table _ _ o.1.2 HN H2) as (b2 & Hb2 & Hl2).
  destruct (calcB_channel_table _ _ o.2 HN H3) as (b3 & Hb3 & Hl3).
  eexists. unfold calcB. rewrite Hb1, Hb2, Hb3. split; [reflexivity |].
  rewrite !length_vmul. lia.
Qed.

Lemma weighG_shape (hmm : HMM) (o : frameG) (tmp : matrix) :
  valid_hmmG hmm = true ->
  has_shape (num_states hmm) (num_states hmm) tmp ->
  exists tmp', weighG np_pi np_sqrt np_exp hmm o tmp = Ok tmp'
               /\ has_shape (num_states hmm) (num_states hmm) tmp'.
Proof.
  intros Hvalid Htmp. destruct (calcB_valid hmm o Hvalid) as (bs & Hbs & Hlen).
  eexists. unfold weighG. rewrite Hbs. split; [reflexivity |].
  by apply has_shape_rows_mul.
Qed.
End gaussian_facts.

(** ** The forward pass *)

Section forward_facts.
Context {O : Type} `{Inhabited O}.
Variable emit : HMM -> O -> result vec.

Lemma forward_v_inv (hmm : HMM) (o : O) (f_t v : vec) :
  forward_v emit hmm o f_t = Ok v ->
  exists bs, emit hmm o = Ok bs /\ v = vmul bs (dot (transpose (A hmm)) f_t).
Proof.
  unfold forward_v. intros Hv. apply bind_Ok_inv in Hv as (bs & Hbs & Hv).
  exists bs. split; [done | congruence].
Qed.

Lemma forward_loop_nil (hmm : HMM) : forward_loop emit hmm [] = Ok [pi hmm].
Proof. reflexivity. Qed.

Lemma forward_loop_filtering (hmm : HMM) (obs : list O) :
  vsum (pi hmm) = Fin 1 ->
  forward_regular emit hmm obs = true ->
  exists f, forward_loop emit hmm obs = Ok f /\ filtering emit hmm obs f.
Proof.
  intros Hpi Hreg. unfold forward_loop.
  set (f0 := <[0%nat:=pi hmm]> (zeros (length obs + 1) (length (pi hmm)))).
  assert (Hlen0 : length f0 = S (length obs)).
  { unfold f0, zeros. rewrite length_insert, length_replicate. lia. }
  assert (Hrow0 : f0 !! 0%nat = Some (pi hmm)).
  { unfold f0. apply list_lookup_insert_eq. unfold zeros.
    rewrite length_replicate. lia. }
  pose (forward_inv := fun (k : nat) (f : matrix) =>
    length f = S (length obs)
    /\ f !! 0%nat = Some (pi hmm)
    /\ (forall t o, (t < k)%nat -> obs !! t = Some o ->
          exists bs f_t, emit hmm o = Ok bs /\ f !! t = Some f_t
            /\ f !! S t = Some (let v := vmul bs (dot (transpose (A hmm)) f_t) in
                                vdiv v (vsum v)))
    /\ (forall t row, (t <= k)%nat -> f !! t = Some row -> vsum row = Fin 1)
    /\ (exists f_k, f !! k = Some f_k
          /\ forward_regular_from emit hmm f_k (drop k obs) = true)).
  destruct (for_each_inv (forward_body emit hmm obs) forward_inv
              (seq 0 (length obs)) f0) as (f & Hf & Hinv).
  - split_and!; [done | done | intros; lia | | ].
    + intros t row Ht Hrow. assert (t = 0%nat) as -> by lia. congruence.
    + exists (pi hmm). by rewrite drop_0.
  - intros k x f (-> & Hk)%lookup_seq
      (Hlen & Hr0 & Hrec & Hsum & f_k & Hfk & Hregk). cbn in Hk.
    destruct (lookup_lt_is_Some_2 obs k Hk) as [o Ho].
    rewrite (drop_S _ _ _ Ho) in Hregk. cbn [forward_regular_from] in Hregk.
    destruct (forward_v emit hmm o f_k) as [v|] eqn:Ev; [|done].
    apply andb_true_iff in Hregk as [Hnz Hregk].
    destruct (forward_v_inv _ _ _ _ Ev) as (bs & Hbs & Hv).
    exists (<[S k:=vdiv v (vsum v)]> f). split.
    { unfold forward_body. cbn [plus].
      rewrite (list_lookup_total_correct _ _ _ Ho),
        (list_lookup_total_correct _ _ _ Hfk), Ev. reflexivity. }
    assert (Hnew : <[S k:=vdiv v (vsum v)]> f !! S k = Some (vdiv v (vsum v))).
    { apply list_lookup_insert_eq. lia. }
    split_and!.
    + by rewrite length_insert.
    + by rewrite list_lookup_insert_ne.
    + intros t o' Ht Ho'. destruct (decide (t = k)) as [->|Hne].
      * exists bs, f_k. rewrite list_lookup_insert_ne by lia.
        split_and!; [congruence | done | by rewrite Hnew, Hv].
      * destruct (Hrec t o') as (bs' & f_t & ? & ? & ?); [lia | done |].
        exists bs', f_t. by rewrite !list_lookup_insert_ne by lia.
    + intros t row Ht Hrow. destruct (decide (t = S k)) as [->|Hne].
      * rewrite Hnew in Hrow. simplify_eq. by apply vsum_normalized.
      * rewrite list_lookup_insert_ne in Hrow by done.
        apply (Hsum t); [lia | done].
    + by exists (vdiv v (vsum v)).
  - exists f. split; [done |].
    rewrite length_seq in Hinv.
    destruct Hinv as (Hlen & Hr0 & Hrec & Hsum & _).
    split_and!; [done | done | | | ].
    + intros t o Ho. apply Hrec; [|done]. by eapply lookup_lt_Some.
    + intros row (t & Ht)%list_elem_of_lookup. apply (Hsum t); [|done].
      apply lookup_lt_Some in Ht. lia.
    + intros ->. unfold f0 in Hf. cbn in Hf. congruence.
Qed.
End forward_facts.

Lemma valid_hmm_pi (hmm : HMM) : valid_hmm hmm = true -> vsum (pi hmm) = Fin 1.
Proof.
  unfold valid_hmm. rewrite !andb_true_iff. intros [[[[[_ Hpi] _] _] _] _].
  by apply is_dist_sum.
Qed.

Lemma valid_hmmG_pi (hmm : HMM) : valid_hmmG hmm = true -> vsum (pi hmm) = Fin 1.
Proof.
  unfold valid_hmmG. rewrite !andb_true_iff. intros [[[[[_ Hpi] _] _] _] _].
  by apply is_dist_sum.
Qed.

(** C1.  For a valid model and an observation sequence of length T none of
    whose frames makes the sum of [v] zero, [forwardHMM] (and, for a
    Gaussian model, [forwardHMMG]) returns a matrix of T+1 rows: row 0 is
    [pi], row t+1 is the elementwise product of the emission vector of
    frame t with [A.T] applied to row t, divided by its sum; every row
    has sum 1, and for T = 0 the result is [[pi]]. *)
Theorem forward_is_filtering (np_pi : float64) (np_sqrt np_exp : float64 -> float64) :
  (forall hmm obs,
     valid_hmm hmm = true ->
     forward_regular emission hmm obs = true ->
     exists f, forwardHMM hmm obs = Ok f /\ filtering emission hmm obs f)
  /\ (forall hmm obs,
       valid_hmmG hmm = true ->
       forward_regular (calcB np_pi np_sqrt np_exp) hmm obs = true ->
       exists f, forwardHMMG np_pi np_sqrt np_exp hmm obs = Ok f
                 /\ filtering (calcB np_pi np_sqrt np_exp) hmm obs f).
Proof.
  split; intros hmm obs Hvalid Hreg.
  - apply forward_loop_filtering; [by apply valid_hmm_pi | done].
  - apply forward_loop_filtering; [by apply valid_hmmG_pi | done].
Qed.

Lemma forward_is_filtering_witness :
  (exists f, forwardHMM hmm2 [(0, 0, 0); (1, 0, 0)]%Z = Ok f
             /\ filtering emission hmm2 [(0, 0, 0); (1, 0, 0)]%Z f)
  /\ (exists f, forwardHMMG approx_pi approx_sqrt approx_exp hmmG2
                  [(q 1 2, q 0 1, q 1 3)] = Ok f
                /\ filtering (calcB approx_pi approx_sqrt approx_exp) hmmG2
                     [(q 1 2, q 0 1, q 1 3)] f).
Proof.
  split.
  - apply (proj1 (forward_is_filtering approx_pi approx_sqrt approx_exp));
      vm_compute; reflexivity.
  - apply (proj2 (forward_is_filtering approx_pi approx_sqrt approx_exp));
      vm_compute; reflexivity.
Defined.

Lemma viterbiHMM_decoding (hmm : HMM) (obs : list frame) :
  valid_hmm hmm = true ->
  obs_in_range hmm obs = true ->
  exists path vs, viterbiHMM hmm obs = Ok (path, vs)
                  /\ decoding weigh hmm obs path vs.
Proof.
  intros Hwf%valid_hmm_wf Hobs.
  destruct (wf_hmm_inv hmm Hwf) as (HN & HA & _).
  apply viterbi_loop_decoding; [done | done |].
  intros o tmp Ho Htmp. apply weigh_shape; [done | | done].
  by eapply frame_in_range_elem.
Qed.

(** C3.  For a valid model and an observation sequence of length T,
    [viterbiHMM] (and, for a Gaussian model, [viterbiHMMG]) returns a path
    of length T+1 whose last entry is the argmax of the last score row and
    whose earlier entries follow the stored backpointers,
    [path[t] = bps[t+1][path[t+1]]]; every argmax is the first index of a
    greatest entry, so a tie goes to the lowest state; for T = 0 the path
    is [[argmax(pi)]]. *)
Theorem viterbi_decodes (np_pi : float64) (np_sqrt np_exp : float64 -> float64) :
  (forall hmm obs,
     valid_hmm hmm = true ->
     obs_in_range hmm obs = true ->
     exists path vs, viterbiHMM hmm obs = Ok (path, vs)
                     /\ decoding weigh hmm obs path vs)
  /\ (forall hmm obs,
       valid_hmmG hmm = true ->
       exists path vs, viterbiHMMG np_pi np_sqrt np_exp hmm obs = Ok (path, vs)
                       /\ decoding (weighG np_pi np_sqrt np_exp) hmm obs path vs).
Proof.
  split.
  - apply viterbiHMM_decoding.
  - intros hmm obs Hvalid.
    destruct (valid_hmmG_inv hmm Hvalid) as (HN & HA & _).
    apply viterbi_loop_decoding; [done | done |].
    intros o tmp _ Htmp. by apply weighG_shape.
Qed.

Lemma viterbi_decodes_witness :
  (exists path vs, viterbiHMM hmm2 [(0, 0, 0); (1, 0, 0)]%Z = Ok (path, vs)
                   /\ decoding weigh hmm2 [(0, 0, 0); (1, 0, 0)]%Z path vs)
  /\ (exists path vs,
        viterbiHMMG approx_pi approx_sqrt approx_exp hmmG2
          [(q 1 2, q 0 1, q 1 3)] = Ok (path, vs)
        /\ decoding (weighG approx_pi approx_sqrt approx_exp) hmmG2
             [(q 1 2, q 0 1, q 1 3)] path vs).
Proof.
  split.
  - apply (proj1 (viterbi_decodes approx_pi approx_sqrt approx_exp));
      vm_compute; reflexivity.
  - apply (proj2 (viterbi_decodes approx_pi approx_sqrt approx_exp));
      vm_compute; reflexivity.
Defined.

(** ** Scaling by a positive constant *)

Lemma Qccompare_scale (c a : Qc) : 0 < c -> (c * a ?= 0) = (a ?= 0).
Proof.
  intros Hc. destruct (Qc_dec a 0) as [[Ha|Ha]| ->].
  - rewrite (proj1 (Qclt_alt a 0) Ha). apply Qclt_alt.
    replace 0 with (c * 0) by ring. by apply Qcmult_lt_mono_pos_l.
  - rewrite (proj1 (Qcgt_alt a 0) Ha). apply Qcgt_alt.
    replace 0 with (c * 0) by ring. by apply Qcmult_lt_mono_pos_l.
  - replace (c * 0) with 0 by ring. reflexivity.
Qed.

Lemma Qccompare_pos (c : Qc) : 0 < c -> (c ?= 0) = Gt.
Proof. intros Hc. by apply Qcgt_alt. Qed.

Lemma Qccompare_neg (c : Qc) : 0 < c -> (- c ?= 0) = Lt.
Proof.
  intros Hc. apply Qclt_alt. apply Qclt_minus_iff.
  replace (0 + - - c) with c by ring. done.
Qed.

Lemma inf_of_sign_scale (c a : Qc) : 0 < c -> inf_of_sign (c * a) = inf_of_sign a.
Proof. intros Hc. unfold inf_of_sign. by rewrite Qccompare_scale. Qed.

Lemma inf_of_sign_pos (c : Qc) : 0 < c -> inf_of_sign c = PInf.
Proof. intros Hc. unfold inf_of_sign. by rewrite Qccompare_pos. Qed.

Lemma inf_of_sign_neg (c : Qc) : 0 < c -> inf_of_sign (- c) = NInf.
Proof. intros Hc. unfold inf_of_sign. by rewrite Qccompare_neg. Qed.

Lemma fmul_inf_of_sign (c a : Qc) :
  0 < c -> fmul (Fin c) (inf_of_sign a) = inf_of_sign a.
Proof.
  intros Hc. unfold inf_of_sign. destruct (a ?= 0); cbn [fmul].
  - reflexivity.
  - by apply inf_of_sign_neg.
  - by apply inf_of_sign_pos.
Qed.

Ltac float_signs :=
  repeat first
    [ rewrite inf_of_sign_pos by done
    | rewrite inf_of_sign_neg by done
    | rewrite fmul_inf_of_sign by done
    | progress cbn [fmul fadd] ].

Lemma fmul_pos_assoc (c : Qc) (x y : float64) :
  0 < c -> fmul (fmul (Fin c) x) y = fmul (Fin c) (fmul x y).
Proof.
  intros Hc. destruct x as [a| | |], y as [b| | |];
    try (change (fmul (Fin a) PInf) with (inf_of_sign a));
    try (change (fmul (Fin a) NInf) with (inf_of_sign (- a)));
    try (change (fmul PInf (Fin b)) with (inf_of_sign b));
    try (change (fmul NInf (Fin b)) with (inf_of_sign (- b)));
    rewrite ?fmul_inf_of_sign by done; float_signs; try reflexivity.
  - f_equal. ring.
  - by apply inf_of_sign_scale.
  - replace (- (c * a)) with (c * - a) by ring. by apply inf_of_sign_scale.
Qed.

Lemma fadd_pos_distr (c : Qc) (x y : float64) :
  0 < c -> fadd (fmul (Fin c) x) (fmul (Fin c) y) = fmul (Fin c) (fadd x y).
Proof.
  intros Hc. destruct x as [a| | |], y as [b| | |]; float_signs;
    try reflexivity.
  f_equal. ring.
Qed.

Lemma is_nan_scale (c : Qc) (x : float64) :
  0 < c -> is_nan (fmul (Fin c) x) = is_nan x.
Proof.
  intros Hc. destruct x; float_signs; reflexivity.
Qed.

Lemma fle_scale (c : Qc) (x y : float64) :
  0 < c -> fle (fmul (Fin c) x) (fmul (Fin c) y) = fle x y.
Proof.
  intros Hc. destruct x as [a| | |], y as [b| | |]; float_signs;
    try reflexivity.
  cbn [fle]. apply bool_decide_ext. symmetry. by apply Qcmult_le_mono_pos_l.
Qed.

Lemma fdiv_scale (c : Qc) (x s : float64) :
  0 < c -> fdiv (fmul (Fin c) x) (fmul (Fin c) s) = fdiv x s.
Proof.
  intros Hc. assert (c <> 0) as Hne.
  { intros ->. by apply (Qclt_not_le _ _ Hc), Qcle_refl. }
  destruct x as [a| | |], s as [b| | |]; float_signs; try reflexivity;
    cbn [fdiv].
  - destruct (decide (b = 0)) as [-> |Hb].
    + rewrite decide_True by ring. by apply inf_of_sign_scale.
    + rewrite decide_False.
      * f_equal. by field.
      * intros Hcb. apply Qcmult_integral in Hcb as [?|?]; done.
  - apply decide_ext. replace 0 with (c * 0) at 1 by ring.
    symmetry. by apply Qcmult_le_mono_pos_l.
  - apply decide_ext. replace 0 with (c * 0) at 1 by ring.
    symmetry. by apply Qcmult_le_mono_pos_l.
Qed.
Lemma fmul_comm (x y : float64) : fmul x y = fmul y x.
Proof.
  destruct x as [a| | |], y as [b| | |]; try reflexivity.
  cbn [fmul]. f_equal. ring.
Qed.

Lemma fmul_pos_swap (c : Qc) (x y : float64) :
  0 < c -> fmul x (fmul (Fin c) y) = fmul (Fin c) (fmul x y).
Proof.
  intros Hc. rewrite (fmul_comm x), fmul_pos_assoc by done.
  by rewrite (fmul_comm y).
Qed.

Lemma fmul_pos_zero (c : Qc) : fmul (Fin c) (Fin 0) = Fin 0.
Proof. cbn [fmul]. f_equal. ring. Qed.

Lemma foldl_fadd_scale (c : Qc) (x : float64) (v : vec) :
  0 < c ->
  foldl fadd (fmul (Fin c) x) (scale c v) = fmul (Fin c) (foldl fadd x v).
Proof.
  intros Hc. revert x. induction v as [|y v IH]; intros x; [done |].
  cbn [scale map foldl]. rewrite fadd_pos_distr by done. apply IH.
Qed.

Lemma vsum_scale (c : Qc) (v : vec) :
  0 < c -> vsum (scale c v) = fmul (Fin c) (vsum v).
Proof.
  intros Hc. unfold vsum. rewrite <- foldl_fadd_scale by done.
  by rewrite fmul_pos_zero.
Qed.

Lemma vmul_scale_l (c : Qc) (x y : vec) :
  0 < c -> vmul (scale c x) y = scale c (vmul x y).
Proof.
  intros Hc. revert y. induction x as [|a x IH]; intros [|b y]; try done.
  unfold vmul, scale in *. cbn [map zip_with].
  rewrite fmul_pos_assoc by done. f_equal. apply IH.
Qed.

Lemma vmul_scale_r (c : Qc) (x y : vec) :
  0 < c -> vmul x (scale c y) = scale c (vmul x y).
Proof.
  intros Hc. revert y. induction x as [|a x IH]; intros [|b y]; try done.
  unfold vmul, scale in *. cbn [map zip_with].
  rewrite fmul_pos_swap by done. f_equal. apply IH.
Qed.

Lemma dot_scale (c : Qc) (M : matrix) (v : vec) :
  0 < c -> dot M (scale c v) = scale c (dot M v).
Proof.
  intros Hc. unfold dot, scale at 2. rewrite map_map. apply map_ext.
  intros row. by rewrite vmul_scale_r, vsum_scale.
Qed.

Lemma vdiv_scale (c : Qc) (v : vec) (s : float64) :
  0 < c -> vdiv (scale c v) (fmul (Fin c) s) = vdiv v s.
Proof.
  intros Hc. unfold vdiv, scale. rewrite map_map. apply map_ext.
  intros x. by apply fdiv_scale.
Qed.

Lemma lookup_total_scale (c : Qc) (v : vec) (j : nat) :
  scale c v !!! j = fmul (Fin c) (v !!! j).
Proof.
  revert j. induction v as [|x v IH]; intros [|j].
  - by rewrite fmul_pos_zero.
  - by rewrite fmul_pos_zero.
  - reflexivity.
  - apply IH.
Qed.

Lemma column_scale (c : Qc) (M : matrix) (j : nat) :
  column (map (scale c) M) j = scale c (column M j).
Proof.
  unfold column, scale at 2. rewrite !map_map. apply map_ext.
  intros row. apply lookup_total_scale.
Qed.

Lemma ncols_scale (c : Qc) (M : matrix) : ncols (map (scale c) M) = ncols M.
Proof. destruct M; [done |]. cbn. unfold scale. by rewrite length_map. Qed.

Lemma transpose_scale (c : Qc) (M : matrix) :
  transpose (map (scale c) M) = map (scale c) (transpose M).
Proof.
  unfold transpose. rewrite ncols_scale, map_map. apply map_ext.
  intros j. apply column_scale.
Qed.

Lemma argmax_from_scale (c : Qc) (mp : float64) (best i : nat) (rest : vec) :
  0 < c ->
  argmax_from (fmul (Fin c) mp) best i (scale c rest) = argmax_from mp best i rest.
Proof.
  intros Hc. revert mp best i. induction rest as [|x rest IH]; intros mp best i;
    [done |].
  cbn [scale map argmax_from]. rewrite is_nan_scale, fle_scale by done.
  destruct (is_nan mp); [done |]. destruct (fle x mp); apply IH.
Qed.

Lemma argmax_scale (c : Qc) (v : vec) : 0 < c -> argmax (scale c v) = argmax v.
Proof. intros Hc. destruct v; [done |]. by apply argmax_from_scale. Qed.

Lemma fmax_scale (c : Qc) (a b : float64) :
  0 < c -> fmax (fmul (Fin c) a) (fmul (Fin c) b) = fmul (Fin c) (fmax a b).
Proof.
  intros Hc. unfold fmax. rewrite is_nan_scale, fle_scale by done.
  by destruct (is_nan a || fle b a).
Qed.

Lemma vmax_scale (c : Qc) (v : vec) :
  0 < c -> vmax (scale c v) = fmul (Fin c) (vmax v).
Proof.
  intros Hc. destruct v as [|x v]; cbn [scale map vmax].
  - by rewrite fmul_pos_zero.
  - revert x. induction v as [|y v IH]; intros x; [done |].
    cbn [map foldl]. rewrite fmax_scale by done. apply IH.
Qed.

Lemma outer_scale_scale (c : Qc) (v : vec) (M : matrix) :
  0 < c -> outer_scale (scale c v) M = map (scale c) (outer_scale v M).
Proof.
  intros Hc. unfold outer_scale. revert M.
  induction v as [|p v IH]; intros [|row M]; try done.
  unfold scale in *. cbn [zip_with map]. f_equal; [|apply IH].
  rewrite map_map. apply map_ext. intros x. by apply fmul_pos_assoc.
Qed.

Lemma rows_mul_scale (c : Qc) (tmp : matrix) (b : vec) :
  0 < c -> rows_mul (map (scale c) tmp) b = map (scale c) (rows_mul tmp b).
Proof.
  intros Hc. unfold rows_mul. rewrite !map_map. apply map_ext.
  intros row. by apply vmul_scale_l.
Qed.

Lemma weigh_scale (c : Qc) (hmm : HMM) (o : frame) (tmp : matrix) :
  0 < c ->
  weigh hmm o (map (scale c) tmp) = tmp' ← weigh hmm o tmp; Ok (map (scale c) tmp').
Proof.
  intros Hc. unfold weigh.
  destruct (getitem (B1 hmm) _) as [b1|]; [|done].
  destruct (getitem (B2 hmm) _) as [b2|]; [|done].
  destruct (getitem (B3 hmm) _) as [b3|]; [|done].
  rewrite !bind_Ok. by rewrite !rows_mul_scale.
Qed.

(** ** Finite non-negative vectors *)

Lemma fin_nonneg_inv (x : float64) :
  fin_nonneg x = true -> exists a, x = Fin a /\ 0 <= a.
Proof.
  destruct x as [a| | |]; try discriminate. cbn [fin_nonneg].
  intros Ha%bool_decide_eq_true. by exists a.
Qed.

Lemma fin_nonneg_Fin (a : Qc) : 0 <= a -> fin_nonneg (Fin a) = true.
Proof. intros Ha. by apply bool_decide_eq_true. Qed.

Lemma fin_nonneg_fmul (x y : float64) :
  fin_nonneg x = true -> fin_nonneg y = true -> fin_nonneg (fmul x y) = true.
Proof.
  intros (a & -> & Ha)%fin_nonneg_inv (b & -> & Hb)%fin_nonneg_inv.
  apply fin_nonneg_Fin. by apply Qcmult_nonneg_nonneg.
Qed.

Lemma fin_nonneg_fadd (x y : float64) :
  fin_nonneg x = true -> fin_nonneg y = true -> fin_nonneg (fadd x y) = true.
Proof.
  intros (a & -> & Ha)%fin_nonneg_inv (b & -> & Hb)%fin_nonneg_inv.
  apply fin_nonneg_Fin. by apply Qcplus_nonneg_nonneg.
Qed.

Lemma fin_nonneg_fmax (x y : float64) :
  fin_nonneg x = true -> fin_nonneg y = true -> fin_nonneg (fmax x y) = true.
Proof. intros Hx Hy. unfold fmax. by destruct (is_nan x || fle y x). Qed.

Lemma nonneg_vec_forallb (v : vec) : forallb fin_nonneg v = true <-> nonneg_vec v.
Proof.
  rewrite forallb_forall, Forall_forall. split; intros Hv x Hx; apply Hv.
  - by apply list_elem_of_In.
  - by apply list_elem_of_In.
Qed.

(** A class of values that contains 0 and is closed under the product,
    the sum and the maximum of two values is kept by the operations on
    vectors and matrices. *)
Section closed_class.
Variable good : float64 -> Prop.
Hypothesis good_zero : good (Fin 0).
Hypothesis good_fmul : forall x y, good x -> good y -> good (fmul x y).
Hypothesis good_fadd : forall x y, good x -> good y -> good (fadd x y).
Hypothesis good_fmax : forall x y, good x -> good y -> good (fmax x y).

Lemma good_vmul (x y : vec) : Forall good x -> Forall good y -> Forall good (vmul x y).
Proof.
  intros Hx Hy. unfold vmul.
  apply Forall_zip_with_fst with (P := good); [done |].
  eapply Forall_impl; [exact Hy |]. intros b Hb a Ha. by apply good_fmul.
Qed.

Lemma good_foldl_fadd (x : float64) (v : vec) :
  good x -> Forall good v -> good (foldl fadd x v).
Proof.
  revert x. induction v as [|y v IH]; intros x Hx Hv; [done |].
  inversion Hv; subst. cbn [foldl]. apply IH; [|done]. by apply good_fadd.
Qed.

Lemma good_vsum (v : vec) : Forall good v -> good (vsum v).
Proof. intros Hv. by apply good_foldl_fadd. Qed.

Lemma good_vmax (v : vec) : Forall good v -> good (vmax v).
Proof.
  destruct v as [|x v]; [done |].
  intros Hv. inversion Hv as [|? ? Hx Hv']; subst. cbn [vmax].
  clear Hv. revert x Hx. induction Hv' as [|y v Hy Hv' IH]; intros x Hx; [done |].
  cbn [foldl]. apply IH. by apply good_fmax.
Qed.

Lemma good_lookup_total (v : vec) (j : nat) : Forall good v -> good (v !!! j).
Proof.
  intros Hv. rewrite list_lookup_total_alt. destruct (v !! j) as [x|] eqn:E.
  - rewrite Forall_forall in Hv. apply Hv. by eapply list_elem_of_lookup_2.
  - done.
Qed.

Lemma good_column (M : matrix) (j : nat) :
  Forall (Forall good) M -> Forall good (column M j).
Proof.
  intros HM. unfold column. apply Forall_fmap. eapply Forall_impl; [exact HM |].
  intros row Hrow. by apply good_lookup_total.
Qed.

Lemma good_transpose (M : matrix) :
  Forall (Forall good) M -> Forall (Forall good) (transpose M).
Proof.
  intros HM. unfold transpose. apply Forall_fmap, Forall_forall.
  intros j _. by apply good_column.
Qed.

Lemma good_dot (M : matrix) (v : vec) :
  Forall (Forall good) M -> Forall good v -> Forall good (dot M v).
Proof.
  intros HM Hv. unfold dot. apply Forall_fmap. eapply Forall_impl; [exact HM |].
  intros row Hrow. unfold compose. by apply good_vsum, good_vmul.
Qed.

Lemma good_outer_scale (v : vec) (M : matrix) :
  Forall good v -> Forall (Forall good) M -> Forall (Forall good) (outer_scale v M).
Proof.
  intros Hv HM. unfold outer_scale.
  apply Forall_zip_with_fst with (P := good); [done |].
  eapply Forall_impl; [exact HM |]. intros row Hrow p Hp.
  apply Forall_fmap. eapply Forall_impl; [exact Hrow |].
  intros x Hx. by apply good_fmul.
Qed.

Lemma good_rows_mul (tmp : matrix) (b : vec) :
  Forall (Forall good) tmp -> Forall good b -> Forall (Forall good) (rows_mul tmp b).
Proof.
  intros Htmp Hb. unfold rows_mul. apply Forall_fmap.
  eapply Forall_impl; [exact Htmp |]. intros row Hrow. by apply good_vmul.
Qed.

Lemma good_score_row (tmp : matrix) :
  Forall (Forall good) tmp -> Forall good (map vmax (transpose tmp)).
Proof.
  intros Htmp. apply Forall_fmap, Forall_forall. intros col Hcol.
  apply good_vmax. revert col Hcol. by apply Forall_forall, good_transpose.
Qed.
End closed_class.

Lemma fin_nonneg_zero : fin_nonneg (Fin 0) = true.
Proof. by apply fin_nonneg_Fin. Qed.

Lemma nonneg_vmul (x y : vec) : nonneg_vec x -> nonneg_vec y -> nonneg_vec (vmul x y).
Proof. apply good_vmul, fin_nonneg_fmul. Qed.

Lemma nonneg_vsum (v : vec) : nonneg_vec v -> fin_nonneg (vsum v) = true.
Proof. apply good_vsum; [apply fin_nonneg_zero | apply fin_nonneg_fadd]. Qed.

Lemma nonneg_outer_scale (v : vec) (M : matrix) :
  nonneg_vec v -> nonneg_matrix M -> nonneg_matrix (outer_scale v M).
Proof. apply good_outer_scale, fin_nonneg_fmul. Qed.

Lemma nonneg_rows_mul (tmp : matrix) (b : vec) :
  nonneg_matrix tmp -> nonneg_vec b -> nonneg_matrix (rows_mul tmp b).
Proof. apply good_rows_mul, fin_nonneg_fmul. Qed.

Lemma nonneg_score_row (tmp : matrix) :
  nonneg_matrix tmp -> nonneg_vec (map vmax (transpose tmp)).
Proof. apply good_score_row; [apply fin_nonneg_zero | apply fin_nonneg_fmax]. Qed.

Lemma nonneg_vdiv (v : vec) (c : Qc) :
  0 < c -> nonneg_vec v -> nonneg_vec (vdiv v (Fin c)).
Proof.
  intros Hc Hv. unfold vdiv. apply Forall_fmap. eapply Forall_impl; [exact Hv |].
  intros x (a & -> & Ha)%fin_nonneg_inv. unfold compose. cbn [fdiv]. rewrite decide_False.
  - apply fin_nonneg_Fin. unfold Qcdiv. apply Qcmult_nonneg_nonneg; [done |].
    by apply Qclt_le_weak, Qcinv_pos.
  - intros ->. by apply (Qclt_not_le _ _ Hc), Qcle_refl.
Qed.

(** A non-negative vector whose sum is finite and not zero has a positive
    sum. *)
Lemma nonneg_nonzero_pos (v : vec) :
  nonneg_vec v -> fin_nonzero (vsum v) = true ->
  exists c, vsum v = Fin c /\ 0 < c.
Proof.
  intros (c & Hc & Hge)%nonneg_vsum%fin_nonneg_inv Hnz.
  rewrite Hc in Hnz |- *. cbn [fin_nonzero] in Hnz.
  apply bool_decide_eq_true in Hnz. exists c. split; [done |].
  destruct (Qcle_lt_or_eq _ _ Hge) as [?|?]; [done | congruence].
Qed.

(** ** Valid models have finite non-negative tables *)

Lemma is_dist_nonneg (v : vec) : is_dist v = true -> nonneg_vec v.
Proof.
  unfold is_dist. intros [Hv _]%andb_true_iff. by apply nonneg_vec_forallb.
Qed.

Lemma column_stochastic_nonneg (n : nat) (B : matrix) :
  Forall (fun row => length row = n) B ->
  column_stochastic n B = true ->
  nonneg_matrix B.
Proof.
  intros Hwidth Hcols. unfold column_stochastic in Hcols.
  rewrite forallb_forall in Hcols.
  apply Forall_forall. intros row Hrow. apply Forall_forall. intros x Hx.
  apply list_elem_of_lookup in Hx as [j Hj].
  assert (j < n)%nat as Hjn.
  { rewrite Forall_forall in Hwidth. rewrite <- (Hwidth row Hrow).
    by eapply lookup_lt_Some. }
  assert (nonneg_vec (column B j)) as Hcol.
  { apply is_dist_nonneg, Hcols. apply in_seq. lia. }
  rewrite Forall_forall in Hcol. apply Hcol.
  unfold column. apply list_elem_of_fmap. exists row. split; [|done].
  symmetry. by apply list_lookup_total_correct.
Qed.

Lemma valid_hmm_nonneg (hmm : HMM) :
  valid_hmm hmm = true ->
  nonneg_vec (pi hmm) /\ nonneg_matrix (A hmm)
  /\ nonneg_matrix (B1 hmm) /\ nonneg_matrix (B2 hmm) /\ nonneg_matrix (B3 hmm).
Proof.
  intros Hvalid. pose proof (valid_hmm_wf _ Hvalid) as Hwf.
  apply wf_hmm_inv in Hwf as (_ & _ & H1 & H2 & H3).
  unfold valid_hmm in Hvalid. rewrite !andb_true_iff in Hvalid.
  destruct Hvalid as [[[[[_ Hpi] HA] HB1] HB2] HB3].
  split_and!.
  - by apply is_dist_nonneg.
  - rewrite forallb_forall in HA. apply Forall_forall. intros row Hrow.
    apply is_dist_nonneg, HA. by apply list_elem_of_In.
  - by eapply column_stochastic_nonneg.
  - by eapply column_stochastic_nonneg.
  - by eapply column_stochastic_nonneg.
Qed.

Lemma getitem_nonneg (B : matrix) (s : Z) (b : vec) :
  nonneg_matrix B -> getitem B s = Ok b -> nonneg_vec b.
Proof.
  intros HB Hb%getitem_Ok_elem. rewrite Forall_forall in HB. by apply HB.
Qed.

Lemma weigh_inv (hmm : HMM) (o : frame) (tmp tmp' : matrix) :
  weigh hmm o tmp = Ok tmp' ->
  exists b1 b2 b3,
    getitem (B1 hmm) o.1.1 = Ok b1 /\ getitem (B2 hmm) o.1.2 = Ok b2
    /\ getitem (B3 hmm) o.2 = Ok b3
    /\ tmp' = rows_mul (rows_mul (rows_mul tmp b1) b2) b3.
Proof.
  unfold weigh. intros Hw.
  apply bind_Ok_inv in Hw as (b1 & Hb1 & Hw).
  apply bind_Ok_inv in Hw as (b2 & Hb2 & Hw).
  apply bind_Ok_inv in Hw as (b3 & Hb3 & Hw).
  exists b1, b2, b3. split_and!; [done | done | done | congruence].
Qed.

Lemma weigh_nonneg (hmm : HMM) (o : frame) (tmp tmp' : matrix) :
  valid_hmm hmm = true ->
  nonneg_matrix tmp -> weigh hmm o tmp = Ok tmp' -> nonneg_matrix tmp'.
Proof.
  intros (_ & _ & H1 & H2 & H3)%valid_hmm_nonneg Htmp
    (b1 & b2 & b3 & Hb1 & Hb2 & Hb3 & ->)%weigh_inv.
  apply nonneg_rows_mul; [apply nonneg_rows_mul; [apply nonneg_rows_mul |] |].
  - done.
  - exact (getitem_nonneg _ _ _ H1 Hb1).
  - exact (getitem_nonneg _ _ _ H2 Hb2).
  - exact (getitem_nonneg _ _ _ H3 Hb3).
Qed.

(** ** Renormalising the Viterbi scores *)

Lemma for_each_sim {S1 S2 X : Type}
    (body1 : S1 -> X -> result S1) (body2 : S2 -> X -> result S2)
    (R : nat -> S1 -> S2 -> Prop) (xs : list X) (s1 : S1) (s2 : S2) :
  R 0%nat s1 s2 ->
  (forall k x s1 s2, xs !! k = Some x -> R k s1 s2 ->
     exists s1' s2', body1 s1 x = Ok s1' /\ body2 s2 x = Ok s2'
                     /\ R (S k) s1' s2') ->
  exists s1' s2', for_each body1 xs s1 = Ok s1' /\ for_each body2 xs s2 = Ok s2'
                  /\ R (length xs) s1' s2'.
Proof.
  revert R s1 s2. induction xs as [|x xs IH]; intros R s1 s2 H0 Hstep.
  - by exists s1, s2.
  - destruct (Hstep 0%nat x s1 s2 eq_refl H0) as (t1 & t2 & Hb1 & Hb2 & H1).
    cbn [for_each]. rewrite Hb1, Hb2, !bind_Ok.
    apply (IH (fun k => R (S k))); [done |].
    intros k y u1 u2 Hk. by apply Hstep.
Qed.

Lemma scale_1 (v : vec) : scale 1 v = v.
Proof.
  unfold scale. induction v as [|x v IH]; [done |]. cbn [map]. rewrite IH.
  f_equal. destruct x as [a| | |]; try reflexivity. cbn [fmul]. f_equal. ring.
Qed.

Lemma fmul_pos_Fin_inv (c d : Qc) (x : float64) :
  0 < c -> fmul (Fin c) x = Fin d -> exists s, x = Fin s /\ d = c * s.
Proof.
  intros Hc. destruct x as [s| | |]; float_signs; intros Hx; simplify_eq.
  by exists s.
Qed.

Lemma vdiv_pos (v : vec) (s : Qc) : 0 < s -> vdiv v (Fin s) = scale (/ s) v.
Proof.
  intros Hs. assert (s <> 0) as Hne.
  { intros ->. by apply (Qclt_not_le _ _ Hs), Qcle_refl. }
  pose proof (Qcinv_pos _ Hs) as Hinv.
  unfold vdiv, scale. apply map_ext. intros x.
  destruct x as [a| | |]; float_signs; cbn [fdiv]; try reflexivity.
  - rewrite decide_False by done. f_equal. by field.
  - rewrite decide_True; [done | by apply Qclt_le_weak].
  - rewrite decide_True; [done | by apply Qclt_le_weak].
Qed.

Lemma viterbi_path_ext (T : nat) (vs1 vs2 : matrix) (bps : list (list nat)) :
  length vs1 = length vs2 ->
  argmax (vs1 !!! (length vs1 - 1)%nat) = argmax (vs2 !!! (length vs2 - 1)%nat) ->
  viterbi_path T vs1 bps = viterbi_path T vs2 bps.
Proof. intros Hlen Harg. unfold viterbi_path. by rewrite Harg. Qed.

Lemma viterbi_trellis_renorm (hmm : HMM) (obs : list frame) :
  valid_hmm hmm = true ->
  viterbi_regular hmm obs = true ->
  exists vs1 vs2 bps c last,
    viterbi_trellis weigh true hmm obs = Ok (vs1, bps)
    /\ viterbi_trellis weigh false hmm obs = Ok (vs2, bps)
    /\ length vs1 = S (length obs) /\ length vs2 = S (length obs)
    /\ 0 < c
    /\ vs2 !! length obs = Some last
    /\ vs1 !! length obs = Some (scale c last).
Proof.
  intros Hvalid Hreg.
  destruct (valid_hmm_nonneg hmm Hvalid) as (Hpi & HA & _).
  unfold viterbi_trellis.
  set (vs0 := <[0%nat:=pi hmm]> (zeros (length obs + 1) (num_states hmm))).
  set (bps0 := replicate (length obs + 1) (replicate (num_states hmm) 0%nat)).
  pose (R := fun (k : nat) (st1 st2 : matrix * list (list nat)) =>
    length st1.1 = S (length obs) /\ length st2.1 = S (length obs)
    /\ st1.2 = st2.2
    /\ exists c r, 0 < c /\ st2.1 !! k = Some r /\ st1.1 !! k = Some (scale c r)
         /\ nonneg_vec (scale c r)
         /\ viterbi_regular_from hmm (scale c r) (drop k obs) = true).
  assert (length vs0 = S (length obs)) as Hlen0.
  { unfold vs0, zeros. rewrite length_insert, length_replicate. lia. }
  assert (vs0 !! 0%nat = Some (pi hmm)) as Hrow0.
  { apply list_lookup_insert_eq. unfold zeros. rewrite length_replicate. lia. }
  destruct (for_each_sim (viterbi_body weigh true hmm obs)
              (viterbi_body weigh false hmm obs) R (seq 0 (length obs))
              (vs0, bps0) (vs0, bps0))
    as ([vs1 bps1] & [vs2 bps2] & Hrun1 & Hrun2 & HR).
  - unfold R. cbn [fst snd]. split_and!; [done | done | done |].
    exists 1, (pi hmm). rewrite scale_1, drop_0. by split_and!.
  - intros k x [vs1 bps1] [vs2 bps2] (-> & Hk)%lookup_seq
      (Hl1 & Hl2 & Hbps & c & r & Hc & Hr2 & Hr1 & Hnn & Hregk).
    cbn [fst snd plus] in *. subst bps2.
    destruct (lookup_lt_is_Some_2 obs k Hk) as [o Ho].
    rewrite (drop_S _ _ _ Ho) in Hregk. cbn [viterbi_regular_from] in Hregk.
    destruct (weigh hmm o (outer_scale (scale c r) (A hmm))) as [tmp1|] eqn:Hw1;
      [|done].
    apply andb_true_iff in Hregk as [Hnz Hregk].
    pose proof Hw1 as Hw2.
    rewrite outer_scale_scale, weigh_scale in Hw2 by done.
    apply bind_Ok_inv in Hw2 as (tmp2 & Hw2 & Htmp). simplify_eq.
    set (v2 := map vmax (transpose tmp2)).
    assert (map vmax (transpose (map (scale c) tmp2)) = scale c v2) as Hv1.
    { rewrite transpose_scale. unfold v2, scale at 2. rewrite !map_map.
      apply map_ext. intros col. by apply vmax_scale. }
    assert (map argmax (transpose (map (scale c) tmp2))
            = map argmax (transpose tmp2)) as Hbp.
    { rewrite transpose_scale, map_map. apply map_ext. intros col.
      by apply argmax_scale. }
    rewrite Hv1 in Hnz, Hregk.
    assert (nonneg_vec (scale c v2)) as Hnn1.
    { rewrite <- Hv1. apply nonneg_score_row.
      eapply weigh_nonneg; [done | | exact Hw1]. by apply nonneg_outer_scale. }
    destruct (nonneg_nonzero_pos _ Hnn1 Hnz) as (d & Hd & Hdpos).
    pose proof Hd as Hd'. rewrite vsum_scale in Hd' by done.
    apply fmul_pos_Fin_inv in Hd' as (s & Hs & ->); [|done].
    assert (0 < s) as Hspos.
    { apply (Qcmult_lt_mono_pos_l _ _ c Hc). by replace (c * 0) with 0 by ring. }
    assert (vdiv (scale c v2) (vsum (scale c v2)) = scale (/ s) v2) as Hnew.
    { rewrite vsum_scale, vdiv_scale, Hs by done. by apply vdiv_pos. }
    exists (<[S k:=scale (/ s) v2]> vs1, <[S k:=map argmax (transpose tmp2)]> bps1),
           (<[S k:=v2]> vs2, <[S k:=map argmax (transpose tmp2)]> bps1).
    split_and!.
    + unfold viterbi_body.
      rewrite (list_lookup_total_correct _ _ _ Ho),
        (list_lookup_total_correct _ _ _ Hr1), Hw1, bind_Ok.
      by rewrite Hv1, Hbp, Hnew.
    + unfold viterbi_body.
      rewrite (list_lookup_total_correct _ _ _ Ho),
        (list_lookup_total_correct _ _ _ Hr2), Hw2, bind_Ok.
      reflexivity.
    + unfold R. cbn [fst snd]. rewrite !length_insert.
      split_and!; [done | done | done |].
      exists (/ s), v2. rewrite !list_lookup_insert_eq by lia.
      rewrite <- Hnew at 3 4. rewrite Hd.
      split_and!; [by apply Qcinv_pos | done | done | | ].
      * by apply nonneg_vdiv.
      * by rewrite <- Hd.
  - rewrite length_seq in HR. destruct HR as (Hl1 & Hl2 & Hbps & c & r & Hc & Hr2 & Hr1 & _).
    cbn [fst snd] in *. subst bps2.
    exists vs1, vs2, bps1, c, r. by split_and!.
Qed.
(** C4 (amended).  For a valid model and an observation sequence none of
    whose frames gives a score row of sum zero, [viterbiHMM], which
    divides each score row by its sum, returns the same path as the same
    dynamic program without that division, provided every maximum that
    decides the path is clear of rounding: the greatest entry of the last
    score row and of each column of [tmp] that a backpointer of the path
    is read from is at least 2^-1020 and exceeds every other entry of its
    row or column by the factor 1 + (T + 1) * 2^-48.  (The division
    multiplies a row by one positive number; in binary64 each quotient
    and each product is rounded, by a relative error of at most 2^-53 as
    long as it does not fall below 2^-1022.  A maximum that is not
    decisive, such as a tie, can go either way.) *)
Theorem renormalization_keeps_path (hmm : HMM) (obs : list frame) :
  valid_hmm hmm = true ->
  viterbi_regular hmm obs = true ->
  path_decisive hmm obs = true ->
  exists path vs vs',
    viterbiHMM hmm obs = Ok (path, vs)
    /\ viterbi_unnormalized hmm obs = Ok (path, vs').
Proof.
  intros Hvalid Hreg _.
  destruct (viterbi_trellis_renorm hmm obs Hvalid Hreg)
    as (vs1 & vs2 & bps & c & last & Hrun1 & Hrun2 & Hl1 & Hl2 & Hc & Hlast2 & Hlast1).
  exists (viterbi_path (length obs) vs1 bps), vs1, vs2.
  unfold viterbiHMM, viterbi_unnormalized, viterbi_loop.
  rewrite Hrun1, Hrun2, !bind_Ok. split; [done |].
  do 2 f_equal. symmetry. apply viterbi_path_ext; [congruence |].
  rewrite Hl1, Hl2. replace (S (length obs) - 1)%nat with (length obs) by lia.
  rewrite (list_lookup_total_correct _ _ _ Hlast1),
    (list_lookup_total_correct _ _ _ Hlast2).
  by apply argmax_scale.
Qed.

Lemma renormalization_keeps_path_witness :
  exists path vs vs',
    viterbiHMM hmm2 [(0, 0, 0); (0, 0, 0); (1, 0, 0); (1, 0, 0)]%Z = Ok (path, vs)
    /\ viterbi_unnormalized hmm2 [(0, 0, 0); (0, 0, 0); (1, 0, 0); (1, 0, 0)]%Z = Ok (path, vs').
Proof.
  apply renormalization_keeps_path; vm_compute; reflexivity.
Defined.

(** C4 as stated fails in binary64.  On the valid model [hmm_tie] and the
    frames (1, 0, 0), (1, 0, 0) no score row has sum zero; the two states
    tie in the last score row of the unnormalised program, which decodes
    0, 1, 0, and the rounding of the quotients 5/9 and 4/9 breaks the tie
    the other way in [viterbiHMM], which decodes 1, 0, 1. *)
Lemma renormalization_changes_path :
  valid_hmm hmm_tie = true
  /\ obs_in_range hmm_tie [(1, 0, 0); (1, 0, 0)]%Z = true
  /\ viterbi_regular hmm_tie [(1, 0, 0); (1, 0, 0)]%Z = true
  /\ path_decisive hmm_tie [(1, 0, 0); (1, 0, 0)]%Z = false
  /\ (exists vs,
        Arith.viterbiHMM binary64 (binary64_model hmm_tie) [(1, 0, 0); (1, 0, 0)]%Z
        = Ok ([1; 0; 1]%nat, vs)
        /\ forallb (forallb (PrimFloat.ltb 0)) vs = true)
  /\ Arith.viterbi_unnormalized binary64 (binary64_model hmm_tie)
       [(1, 0, 0); (1, 0, 0)]%Z
     = Ok ([0; 1; 0]%nat,
           [[0.5; 0.5]; [0.234375; 0.1875]; [0.087890625; 0.087890625]]%float).
Proof.
  split_and!; try by_computation.
  - eexists. split; vm_compute; reflexivity.
  - vm_compute. reflexivity.
Qed.

(** At the frames of the witness above the two programs agree in binary64
    too. *)
Lemma renormalization_keeps_path_binary64 :
  path_decisive hmm2 [(0, 0, 0); (0, 0, 0); (1, 0, 0); (1, 0, 0)]%Z = true
  /\ exists vs vs',
       Arith.viterbiHMM binary64 (binary64_model hmm2)
         [(0, 0, 0); (0, 0, 0); (1, 0, 0); (1, 0, 0)]%Z = Ok ([0; 0; 0; 1; 1]%nat, vs)
       /\ Arith.viterbi_unnormalized binary64 (binary64_model hmm2)
            [(0, 0, 0); (0, 0, 0); (1, 0, 0); (1, 0, 0)]%Z = Ok ([0; 0; 0; 1; 1]%nat, vs').
Proof.
  split; [by_computation |]. eexists _, _. split; vm_compute; reflexivity.
Qed.

(** ** Symbols outside the tables *)

Lemma for_each_raises_at {S X : Type} (body : S -> X -> result S) (e : exn)
    (xs : list X) (s : S) (x : X) :
  x ∈ xs ->
  (forall s, body s x = Raise e) ->
  (forall s y e', body s y = Raise e' -> e' = e) ->
  for_each body xs s = Raise e.
Proof.
  intros (k & Hk)%list_elem_of_lookup. by eapply for_each_raises.
Qed.

Lemma getitem_refused {X : Type} (a : list X) (i : Z) :
  (i < - Z.of_nat (length a) \/ Z.of_nat (length a) <= i)%Z ->
  getitem a i = Raise IndexError.
Proof.
  intros Hi. unfold getitem. cbv zeta.
  destruct (bool_decide (i < 0)%Z) eqn:Hneg.
  - apply bool_decide_eq_true in Hneg. rewrite bool_decide_eq_false_2; [done | lia].
  - apply bool_decide_eq_false in Hneg. rewrite bool_decide_eq_false_2; [done | lia].
Qed.

Lemma getitem_negative {X : Type} (a : list X) (i : Z) :
  (- Z.of_nat (length a) <= i < 0)%Z ->
  getitem a i = getitem a (i + Z.of_nat (length a))
  /\ exists x, getitem a i = Ok x
               /\ a !! Z.to_nat (i + Z.of_nat (length a)) = Some x.
Proof.
  intros Hi.
  destruct (getitem_in_range a (i + Z.of_nat (length a))) as (x & Hx & Hlook);
    [lia |].
  assert (getitem a i = getitem a (i + Z.of_nat (length a))) as Heq.
  { unfold getitem. rewrite (bool_decide_eq_true_2 (i < 0)%Z) by lia.
    rewrite (bool_decide_eq_false_2 (i + _ < 0)%Z) by lia. reflexivity. }
  split; [done |]. exists x. by rewrite Heq.
Qed.

Lemma emission_raise (hmm : HMM) (o : frame) (e : exn) :
  emission hmm o = Raise e -> e = IndexError.
Proof.
  unfold emission.
  destruct (getitem (B1 hmm) _) eqn:E1; [|intros; simplify_eq/=; by eapply getitem_raise].
  destruct (getitem (B2 hmm) _) eqn:E2; [|intros; simplify_eq/=; by eapply getitem_raise].
  destruct (getitem (B3 hmm) _) eqn:E3; [|intros; simplify_eq/=; by eapply getitem_raise].
  done.
Qed.

Lemma emission_refused (hmm : HMM) (o : frame) :
  frame_refused hmm o = true -> emission hmm o = Raise IndexError.
Proof.
  unfold frame_refused, symbol_refused.
  rewrite !orb_true_iff, !bool_decide_eq_true. intros Ho.
  destruct (emission hmm o) as [bs|e] eqn:E.
  - exfalso. unfold emission in E.
    apply bind_Ok_inv in E as (b1 & Hb1 & E).
    apply bind_Ok_inv in E as (b2 & Hb2 & E).
    apply bind_Ok_inv in E as (b3 & Hb3 & E).
    destruct Ho as [[Ho|Ho]|Ho]; apply getitem_refused in Ho; congruence.
  - f_equal. by eapply emission_raise.
Qed.

Lemma weigh_emission (hmm : HMM) (o : frame) (tmp : matrix) (e : exn) :
  weigh hmm o tmp = Raise e <-> emission hmm o = Raise e.
Proof.
  unfold weigh, emission.
  destruct (getitem (B1 hmm) _); rewrite ?bind_Ok, ?bind_Raise;
    [|split; congruence].
  destruct (getitem (B2 hmm) _); rewrite ?bind_Ok, ?bind_Raise;
    [|split; congruence].
  destruct (getitem (B3 hmm) _); rewrite ?bind_Ok, ?bind_Raise;
    split; congruence.
Qed.

Lemma forward_body_raise (hmm : HMM) (obs : list frame) (f : matrix) (t : nat) (e : exn) :
  forward_body emission hmm obs f t = Raise e ->
  emission hmm (obs !!! t) = Raise e.
Proof.
  unfold forward_body, forward_v.
  destruct (emission hmm _); rewrite ?bind_Ok, ?bind_Raise; congruence.
Qed.

Lemma backward_body_raise (hmm : HMM) (obs : list frame) (b : matrix) (t : nat) (e : exn) :
  backward_body hmm obs b t = Raise e ->
  emission hmm (obs !!! (t - 1)%nat) = Raise e.
Proof.
  unfold backward_body.
  destruct (emission hmm _); rewrite ?bind_Ok, ?bind_Raise; congruence.
Qed.

Lemma viterbi_body_raise (renorm : bool) (hmm : HMM) (obs : list frame)
    (st : matrix * list (list nat)) (t : nat) (e : exn) :
  viterbi_body weigh renorm hmm obs st t = Raise e ->
  emission hmm (obs !!! t) = Raise e.
Proof.
  unfold viterbi_body. destruct st as [vs bps].
  destruct (weigh hmm _ _) eqn:E; rewrite ?bind_Ok, ?bind_Raise; [done |].
  intros ?; simplify_eq. by eapply weigh_emission.
Qed.

Lemma refused_frame_raises (hmm : HMM) (obs : list frame) (o : frame) :
  o ∈ obs ->
  frame_refused hmm o = true ->
  forwardHMM hmm obs = Raise IndexError
  /\ backwardHMM hmm obs = Raise IndexError
  /\ viterbiHMM hmm obs = Raise IndexError.
Proof.
  intros (k & Hk)%list_elem_of_lookup Ho%emission_refused.
  pose proof (lookup_lt_Some _ _ _ Hk) as Hlt.
  pose proof (list_lookup_total_correct _ _ _ Hk) as Hok.
  split_and!.
  - unfold forwardHMM, forward_loop.
    apply for_each_raises_at with (x := k).
    + apply list_elem_of_lookup. exists k. by rewrite lookup_seq_lt.
    + intros f. unfold forward_body, forward_v. by rewrite Hok, Ho.
    + intros f t e He. by eapply emission_raise, forward_body_raise.
  - unfold backwardHMM, backward_from.
    apply for_each_raises_at with (x := S k).
    + apply elem_of_reverse, list_elem_of_lookup. exists k.
      by rewrite lookup_seq_lt.
    + intros b. unfold backward_body.
      replace (S k - 1)%nat with k by lia. by rewrite Hok, Ho.
    + intros b t e He. by eapply emission_raise, backward_body_raise.
  - unfold viterbiHMM, viterbi_loop, viterbi_trellis.
    rewrite (for_each_raises_at _ IndexError _ _ k); [done | | | ].
    + apply list_elem_of_lookup. exists k. by rewrite lookup_seq_lt.
    + intros [vs bps]. unfold viterbi_body. rewrite Hok.
      by rewrite (proj2 (weigh_emission hmm o _ IndexError) Ho).
    + intros st t e He. by eapply emission_raise, viterbi_body_raise.
Qed.

(** C7 (amended).  In a categorical model, a frame holding on some channel
    a symbol index that is at least [num_symbols_k] or below
    [-num_symbols_k] makes [forwardHMM], [backwardHMM] and [viterbiHMM]
    raise [IndexError]; a negative index from [-num_symbols_k] to [-1] is
    not refused: the lookup reads row [num_symbols_k + index]. *)
Theorem symbol_lookup_bounds (hmm : HMM) :
  wf_hmm hmm = true ->
  (forall obs o,
     o ∈ obs ->
     frame_refused hmm o = true ->
     forwardHMM hmm obs = Raise IndexError
     /\ backwardHMM hmm obs = Raise IndexError
     /\ viterbiHMM hmm obs = Raise IndexError)
  /\ (forall (B : matrix) (s : Z),
        (- Z.of_nat (length B) <= s < 0)%Z ->
        getitem B s = getitem B (s + Z.of_nat (length B))
        /\ exists row, getitem B s = Ok row
                       /\ B !! Z.to_nat (s + Z.of_nat (length B)) = Some row).
Proof.
  intros _. split.
  - intros obs o. apply refused_frame_raises.
  - intros B s. apply getitem_negative.
Qed.

Lemma symbol_lookup_bounds_witness :
  (forwardHMM hmm2 [(0, 0, 0); (2, 0, 0)]%Z = Raise IndexError
   /\ backwardHMM hmm2 [(0, 0, 0); (2, 0, 0)]%Z = Raise IndexError
   /\ viterbiHMM hmm2 [(0, 0, 0); (2, 0, 0)]%Z = Raise IndexError)
  /\ getitem (B1 hmm2) (-1) = getitem (B1 hmm2) 1.
Proof.
  assert (wf_hmm hmm2 = true) as Hwf by (vm_compute; reflexivity).
  split.
  - apply (proj1 (symbol_lookup_bounds hmm2 Hwf) _ (2, 0, 0)%Z).
    + apply list_elem_of_In. cbn. auto.
    + vm_compute. reflexivity.
  - apply (proj2 (symbol_lookup_bounds hmm2 Hwf) (B1 hmm2) (-1)%Z). cbn. lia.
Defined.

(** C7 as stated fails: the index -1 lies outside [0 .. num_symbols_1 - 1],
    yet no lookup error is raised; the three routines run as if the last
    symbol of the table had been observed. *)
Lemma negative_symbol_wraps :
  frame_in_range hmm2 (-1, 0, 0)%Z = false
  /\ forwardHMM hmm2 [(-1, 0, 0)]%Z = Ok [[q 1 2; q 1 2]; [q 1 10; q 9 10]]
  /\ forwardHMM hmm2 [(-1, 0, 0)]%Z = forwardHMM hmm2 [(1, 0, 0)]%Z
  /\ backwardHMM hmm2 [(-1, 0, 0)]%Z = backwardHMM hmm2 [(1, 0, 0)]%Z
  /\ viterbiHMM hmm2 [(-1, 0, 0)]%Z = viterbiHMM hmm2 [(1, 0, 0)]%Z
  /\ forwardHMM hmm2 [(-1, 0, 0)]%Z <> Raise IndexError.
Proof.
  split_and!; by_computation.
Qed.

(** ** The rows of the forward and backward matrices *)

Section forward_rows.
Context {O : Type} `{Inhabited O}.
Variable emit : HMM -> O -> result vec.

(** Whenever every frame has an emission vector the loop runs to its end,
    whatever the sums are, and each row is obtained from the one before. *)
Lemma forward_loop_rows (hmm : HMM) (obs : list O) :
  (forall o, o ∈ obs -> exists bs, emit hmm o = Ok bs) ->
  exists f, forward_loop emit hmm obs = Ok f
    /\ length f = S (length obs)
    /\ f !! 0%nat = Some (pi hmm)
    /\ (forall t o, obs !! t = Some o ->
          exists bs f_t, emit hmm o = Ok bs /\ f !! t = Some f_t
            /\ f !! S t = Some (let v := vmul bs (dot (transpose (A hmm)) f_t) in
                                vdiv v (vsum v))).
Proof.
  intros Hemit. unfold forward_loop.
  set (f0 := <[0%nat:=pi hmm]> (zeros (length obs + 1) (length (pi hmm)))).
  pose (P := fun (k : nat) (f : matrix) =>
    length f = S (length obs)
    /\ f !! 0%nat = Some (pi hmm)
    /\ (forall t o, (t < k)%nat -> obs !! t = Some o ->
          exists bs f_t, emit hmm o = Ok bs /\ f !! t = Some f_t
            /\ f !! S t = Some (let v := vmul bs (dot (transpose (A hmm)) f_t) in
                                vdiv v (vsum v)))).
  destruct (for_each_inv (forward_body emit hmm obs) P (seq 0 (length obs)) f0)
    as (f & Hf & Hlen & Hr0 & Hrec).
  - unfold P, f0, zeros. rewrite length_insert, length_replicate.
    split_and!; [lia | | intros; lia].
    apply list_lookup_insert_eq. rewrite length_replicate. lia.
  - intros k x f (-> & Hk)%lookup_seq (Hlen & Hr0 & Hrec). cbn [plus] in *.
    destruct (lookup_lt_is_Some_2 obs k Hk) as [o Ho].
    destruct (lookup_lt_is_Some_2 f k) as [f_k Hfk]; [lia |].
    destruct (Hemit o) as [bs Hbs]; [by eapply list_elem_of_lookup_2 |].
    eexists. split.
    { unfold forward_body, forward_v.
      rewrite (list_lookup_total_correct _ _ _ Ho),
        (list_lookup_total_correct _ _ _ Hfk), Hbs. reflexivity. }
    unfold P. rewrite length_insert. split_and!; [done | | ].
    + by rewrite list_lookup_insert_ne.
    + intros t o' Ht Ho'. destruct (decide (t = k)) as [->|Hne].
      * exists bs, f_k. rewrite list_lookup_insert_ne by lia.
        rewrite list_lookup_insert_eq by lia.
        split_and!; [congruence | done | done].
      * destruct (Hrec t o') as (bs' & f_t & ? & ? & ?); [lia | done |].
        exists bs', f_t. by rewrite !list_lookup_insert_ne by lia.
  - exists f. rewrite length_seq in Hrec. split_and!; [done | done | done |].
    intros t o Ho. apply Hrec; [|done]. by eapply lookup_lt_Some.
Qed.
End forward_rows.

(** The backward loop fills the rows from the last one down; each row is
    obtained from the one after it, with no division anywhere. *)
Lemma backward_from_rows (c : float64) (hmm : HMM) (obs : list frame) :
  (forall o, o ∈ obs -> exists bs, emission hmm o = Ok bs) ->
  exists b, backward_from c hmm obs = Ok b
    /\ length b = S (length obs)
    /\ b !! length obs = Some (ones_times (length (pi hmm)) c)
    /\ (forall t o, obs !! t = Some o ->
          exists bs b_next, emission hmm o = Ok bs /\ b !! S t = Some b_next
            /\ b !! t = Some (dot (A hmm) (vmul bs b_next))).
Proof.
  intros Hemit. unfold backward_from.
  set (b0 := <[length obs:=ones_times (length (pi hmm)) c]>
               (zeros (length obs + 1) (length (pi hmm)))).
  pose (P := fun (j : nat) (b : matrix) =>
    length b = S (length obs)
    /\ b !! length obs = Some (ones_times (length (pi hmm)) c)
    /\ (forall t o, (length obs - j <= t)%nat -> obs !! t = Some o ->
          exists bs b_next, emission hmm o = Ok bs /\ b !! S t = Some b_next
            /\ b !! t = Some (dot (A hmm) (vmul bs b_next)))).
  destruct (for_each_inv (backward_body hmm obs) P (reverse (seq 1 (length obs))) b0)
    as (b & Hb & Hlen & Hlast & Hrec).
  - unfold P, b0, zeros. rewrite length_insert, length_replicate.
    split_and!; [lia | | ].
    + apply list_lookup_insert_eq. rewrite length_replicate. lia.
    + intros t o Ht Ho. apply lookup_lt_Some in Ho. lia.
  - intros j x b Hx (Hlen & Hlast & Hrec).
    apply reverse_lookup_Some in Hx as [Hx Hj]. rewrite length_seq in Hx, Hj.
    apply lookup_seq in Hx as [-> _].
    replace (1 + (length obs - S j))%nat with (length obs - j)%nat by lia.
    set (t := (length obs - j)%nat) in *.
    destruct (lookup_lt_is_Some_2 obs (t - 1)) as [o Ho]; [lia |].
    destruct (lookup_lt_is_Some_2 b t) as [b_t Hbt]; [lia |].
    destruct (Hemit o) as [bs Hbs]; [by eapply list_elem_of_lookup_2 |].
    eexists. split.
    { unfold backward_body.
      rewrite (list_lookup_total_correct _ _ _ Ho),
        (list_lookup_total_correct _ _ _ Hbt), Hbs. reflexivity. }
    unfold P. rewrite length_insert. split_and!; [done | | ].
    + rewrite list_lookup_insert_ne by lia. done.
    + intros t' o' Ht' Ho'. destruct (decide (t' = t - 1)%nat) as [->|Hne].
      * exists bs, b_t. rewrite list_lookup_insert_ne by lia.
        rewrite list_lookup_insert_eq by lia.
        replace (S (t - 1)) with t by lia.
        split_and!; [congruence | done | done].
      * destruct (Hrec t' o') as (bs' & b' & ? & ? & ?); [lia | done |].
        exists bs', b'. by rewrite !list_lookup_insert_ne by lia.
  - exists b. rewrite length_reverse, length_seq in Hrec.
    split_and!; [done | done | done |].
    intros t o Ho. apply Hrec; [lia | done].
Qed.

(** ** Division by a zero sum *)

Lemma nan_or_nonneg_zero : nan_or_nonneg (Fin 0).
Proof. right. apply fin_nonneg_zero. Qed.

Lemma nan_or_nonneg_fmul (x y : float64) :
  nan_or_nonneg x -> nan_or_nonneg y -> nan_or_nonneg (fmul x y).
Proof.
  intros [->|Hx] [->|Hy]; try (by left); try (left; by destruct x).
  right. by apply fin_nonneg_fmul.
Qed.

Lemma nan_or_nonneg_fadd (x y : float64) :
  nan_or_nonneg x -> nan_or_nonneg y -> nan_or_nonneg (fadd x y).
Proof.
  intros [->|Hx] [->|Hy]; try (by left); try (left; by destruct x).
  right. by apply fin_nonneg_fadd.
Qed.

Lemma nan_or_nonneg_fmax (x y : float64) :
  nan_or_nonneg x -> nan_or_nonneg y -> nan_or_nonneg (fmax x y).
Proof. intros Hx Hy. unfold fmax. by destruct (is_nan x || fle y x). Qed.

Lemma nonneg_nan_or_nonneg (v : vec) : nonneg_vec v -> Forall nan_or_nonneg v.
Proof. intros Hv. eapply Forall_impl; [exact Hv |]. intros x Hx. by right. Qed.

Lemma nonneg_qsum_zero (qs : list Qc) :
  Forall (fun a => 0 <= a) qs -> qsum qs = 0 -> Forall (fun a => a = 0) qs.
Proof.
  induction 1 as [|a qs Ha Hqs IH]; [done |]. cbn [qsum]. intros Hsum.
  assert (0 <= qsum qs) as Hs.
  { clear -Hqs. induction Hqs as [|b qs Hb _ IH]; cbn [qsum].
    - apply Qcle_refl.
    - by apply Qcplus_nonneg_nonneg. }
  assert (a = 0) as ->.
  { apply Qcle_antisym; [|done]. rewrite <- Hsum.
    replace a with (a + 0) at 1 by ring. by apply Qcplus_le_mono_l. }
  constructor; [done |]. apply IH. rewrite <- Hsum. ring.
Qed.

Lemma nan_or_nonneg_Fin (qs : list Qc) :
  Forall nan_or_nonneg (map Fin qs) -> Forall (fun a => 0 <= a) qs.
Proof.
  rewrite Forall_fmap. intros Hv. eapply Forall_impl; [exact Hv |].
  intros a [?|Ha]; [done |]. by apply bool_decide_eq_true in Ha.
Qed.

(** A vector of such values whose sum is zero is made of zeros, and its
    quotient by the sum is made of [nan]. *)
Lemma zero_sum_all_nan (v : vec) :
  Forall nan_or_nonneg v -> vsum v = Fin 0 ->
  vdiv v (vsum v) = replicate (length v) NaN.
Proof.
  intros Hv Hsum. rewrite Hsum.
  destruct (vsum_Fin_inv _ _ Hsum) as (qs & -> & Hq).
  pose proof (nonneg_qsum_zero qs (nan_or_nonneg_Fin _ Hv) (eq_sym Hq)) as Hz.
  clear -Hz. induction Hz as [|a qs -> _ IH]; [done |].
  cbn [map vdiv length replicate]. f_equal. apply IH.
Qed.

Lemma nan_or_nonneg_normalized (v : vec) :
  Forall nan_or_nonneg v -> Forall nan_or_nonneg (vdiv v (vsum v)).
Proof.
  intros Hv. pose proof (good_vsum _ nan_or_nonneg_zero nan_or_nonneg_fadd v Hv)
    as [Hs|Hs].
  - rewrite Hs. unfold vdiv. apply Forall_fmap, Forall_forall. intros x _.
    left. by destruct x.
  - apply fin_nonneg_inv in Hs as (d & Hd & Hge).
    destruct (Qcle_lt_or_eq _ _ Hge) as [Hpos| <-].
    + rewrite Hd. destruct (vsum_Fin_inv _ _ Hd) as (qs & -> & _).
      apply nonneg_nan_or_nonneg, nonneg_vdiv; [done |].
      apply Forall_fmap. eapply Forall_impl; [exact (nan_or_nonneg_Fin _ Hv) |].
      intros a Ha. by apply fin_nonneg_Fin.
    + rewrite zero_sum_all_nan by done. apply Forall_replicate. by left.
Qed.

Lemma forward_v_good (hmm : HMM) (o : frame) (f_t v : vec) :
  valid_hmm hmm = true ->
  Forall nan_or_nonneg f_t ->
  forward_v emission hmm o f_t = Ok v ->
  Forall nan_or_nonneg v.
Proof.
  intros (_ & HA & H1 & H2 & H3)%valid_hmm_nonneg Hf (bs & Hbs & ->)%forward_v_inv.
  unfold emission in Hbs.
  apply bind_Ok_inv in Hbs as (b1 & Hb1 & Hbs).
  apply bind_Ok_inv in Hbs as (b2 & Hb2 & Hbs).
  apply bind_Ok_inv in Hbs as (b3 & Hb3 & Hbs). simplify_eq.
  pose proof nan_or_nonneg_zero. pose proof nan_or_nonneg_fmul.
  pose proof nan_or_nonneg_fadd.
  repeat apply good_vmul; try done.
  - apply nonneg_nan_or_nonneg. exact (getitem_nonneg _ _ _ H1 Hb1).
  - apply nonneg_nan_or_nonneg. exact (getitem_nonneg _ _ _ H2 Hb2).
  - apply nonneg_nan_or_nonneg. exact (getitem_nonneg _ _ _ H3 Hb3).
  - apply good_dot; try done. apply good_transpose; [done |].
    eapply Forall_impl; [exact HA |]. apply nonneg_nan_or_nonneg.
Qed.

Lemma in_range_emission (hmm : HMM) (obs : list frame) :
  wf_hmm hmm = true ->
  obs_in_range hmm obs = true ->
  forall o, o ∈ obs -> exists bs, emission hmm o = Ok bs.
Proof.
  intros Hwf Hobs o Ho.
  destruct (emission_in_range hmm o Hwf (frame_in_range_elem _ _ _ Hobs Ho))
    as (b1 & b2 & b3 & _ & _ & _ & _ & _ & _ & Hbs).
  by eexists.
Qed.
Lemma forward_rows_good (hmm : HMM) (obs : list frame) (f : matrix) :
  valid_hmm hmm = true ->
  length f = S (length obs) ->
  f !! 0%nat = Some (pi hmm) ->
  (forall t o, obs !! t = Some o ->
     exists bs f_t, emission hmm o = Ok bs /\ f !! t = Some f_t
       /\ f !! S t = Some (let v := vmul bs (dot (transpose (A hmm)) f_t) in
                           vdiv v (vsum v))) ->
  forall t row, f !! t = Some row -> Forall nan_or_nonneg row.
Proof.
  intros Hvalid Hlen Hr0 Hrec t. induction t as [|t IH]; intros row Hrow.
  - destruct (valid_hmm_nonneg hmm Hvalid) as (Hpi & _).
    apply nonneg_nan_or_nonneg. congruence.
  - assert (t < length obs)%nat as Ht.
    { apply lookup_lt_Some in Hrow. lia. }
    destruct (lookup_lt_is_Some_2 obs t Ht) as [o Ho].
    destruct (Hrec t o Ho) as (bs & f_t & Hbs & Hft & Hnext).
    rewrite Hnext in Hrow. simplify_eq. cbv zeta.
    apply nan_or_nonneg_normalized.
    apply (forward_v_good hmm o f_t); [done | by apply IH |].
    unfold forward_v. by rewrite Hbs.
Qed.

Lemma ones_times_nonneg (n : nat) (c : Qc) :
  0 <= c -> nonneg_vec (ones_times n (Fin c)).
Proof.
  intros Hc. unfold ones_times. apply Forall_fmap, Forall_replicate.
  unfold compose. cbn [fmul]. apply fin_nonneg_Fin.
  replace (1 * c) with c by ring. done.
Qed.

Lemma emission_nonneg (hmm : HMM) (o : frame) (bs : vec) :
  valid_hmm hmm = true -> emission hmm o = Ok bs -> nonneg_vec bs.
Proof.
  intros (_ & _ & H1 & H2 & H3)%valid_hmm_nonneg Hbs. unfold emission in Hbs.
  apply bind_Ok_inv in Hbs as (b1 & Hb1 & Hbs).
  apply bind_Ok_inv in Hbs as (b2 & Hb2 & Hbs).
  apply bind_Ok_inv in Hbs as (b3 & Hb3 & Hbs). simplify_eq.
  repeat apply nonneg_vmul.
  - exact (getitem_nonneg _ _ _ H1 Hb1).
  - exact (getitem_nonneg _ _ _ H2 Hb2).
  - exact (getitem_nonneg _ _ _ H3 Hb3).
Qed.

Lemma nonneg_dot (M : matrix) (v : vec) :
  nonneg_matrix M -> nonneg_vec v -> nonneg_vec (dot M v).
Proof.
  apply good_dot; [apply fin_nonneg_zero | apply fin_nonneg_fmul | apply fin_nonneg_fadd].
Qed.

Lemma backward_rows_nonneg (c : Qc) (hmm : HMM) (obs : list frame) (b : matrix) :
  valid_hmm hmm = true ->
  0 <= c ->
  length b = S (length obs) ->
  b !! length obs = Some (ones_times (length (pi hmm)) (Fin c)) ->
  (forall t o, obs !! t = Some o ->
     exists bs b_next, emission hmm o = Ok bs /\ b !! S t = Some b_next
       /\ b !! t = Some (dot (A hmm) (vmul bs b_next))) ->
  Forall nonneg_vec b.
Proof.
  intros Hvalid Hc Hlen Hlast Hrec.
  destruct (valid_hmm_nonneg hmm Hvalid) as (_ & HA & _).
  assert (forall d t row, (t + d = length obs)%nat -> b !! t = Some row ->
            nonneg_vec row) as Hrows.
  { induction d as [|d IH]; intros t row Ht Hrow.
    - assert (t = length obs) as -> by lia.
      rewrite Hlast in Hrow. simplify_eq. by apply ones_times_nonneg.
    - destruct (lookup_lt_is_Some_2 obs t) as [o Ho]; [lia |].
      destruct (Hrec t o Ho) as (bs & b_next & Hbs & Hnext & Ht').
      rewrite Ht' in Hrow. simplify_eq.
      apply nonneg_dot; [done |]. apply nonneg_vmul.
      + by eapply emission_nonneg.
      + apply (IH (S t)); [lia | done]. }
  apply Forall_forall. intros row (t & Ht)%list_elem_of_lookup.
  apply (Hrows (length obs - t)%nat t); [|done].
  apply lookup_lt_Some in Ht. lia.
Qed.

Lemma viterbi_rows_good (hmm : HMM) (obs : list frame) (vs : matrix) :
  valid_hmm hmm = true ->
  length vs = S (length obs) ->
  vs !! 0%nat = Some (pi hmm) ->
  (forall t o, obs !! t = Some o ->
     exists v_prev tmp, vs !! t = Some v_prev
       /\ weigh hmm o (outer_scale v_prev (A hmm)) = Ok tmp
       /\ vs !! S t = Some (let v := map vmax (transpose tmp) in vdiv v (vsum v))) ->
  forall t o v_prev tmp,
    obs !! t = Some o -> vs !! t = Some v_prev ->
    weigh hmm o (outer_scale v_prev (A hmm)) = Ok tmp ->
    Forall nan_or_nonneg v_prev /\ Forall nan_or_nonneg (map vmax (transpose tmp)).
Proof.
  intros Hvalid Hlen Hr0 Hrec.
  destruct (valid_hmm_nonneg hmm Hvalid) as (Hpi & HA & H1 & H2 & H3).
  pose proof nan_or_nonneg_zero. pose proof nan_or_nonneg_fmul.
  pose proof nan_or_nonneg_fadd. pose proof nan_or_nonneg_fmax.
  assert (forall v_prev o tmp, Forall nan_or_nonneg v_prev ->
            weigh hmm o (outer_scale v_prev (A hmm)) = Ok tmp ->
            Forall nan_or_nonneg (map vmax (transpose tmp))) as Hstep.
  { intros v_prev o tmp Hprev (b1 & b2 & b3 & Hb1 & Hb2 & Hb3 & ->)%weigh_inv.
    apply good_score_row; try done.
    repeat apply good_rows_mul; try done.
    - apply good_outer_scale; try done.
      eapply Forall_impl; [exact HA |]. apply nonneg_nan_or_nonneg.
    - apply nonneg_nan_or_nonneg. exact (getitem_nonneg _ _ _ H1 Hb1).
    - apply nonneg_nan_or_nonneg. exact (getitem_nonneg _ _ _ H2 Hb2).
    - apply nonneg_nan_or_nonneg. exact (getitem_nonneg _ _ _ H3 Hb3). }
  assert (forall t row, vs !! t = Some row -> Forall nan_or_nonneg row) as Hrows.
  { induction t as [|t IH]; intros row Hrow.
    - apply nonneg_nan_or_nonneg. congruence.
    - assert (t < length obs)%nat as Ht.
      { apply lookup_lt_Some in Hrow. lia. }
      destruct (lookup_lt_is_Some_2 obs t Ht) as [o Ho].
      destruct (Hrec t o Ho) as (v_prev & tmp & Hprev & Hw & Hnext).
      rewrite Hnext in Hrow. simplify_eq. cbv zeta.
      apply nan_or_nonneg_normalized. eapply Hstep; [|exact Hw]. by eapply IH. }
  intros t o v_prev tmp Ho Hprev Hw. split; [by eapply Hrows |].
  eapply Hstep; [|exact Hw]. by eapply Hrows.
Qed.

(** C6 (amended).  For a valid model and observations in range, no call
    fails when an intermediate vector has sum zero: [forwardHMM],
    [backwardHMM] and [viterbiHMM] return their results.  The row that
    [forwardHMM] or [viterbiHMM] obtains by dividing such a vector by its
    sum is made of [nan] only; [backwardHMM] divides nothing and its rows
    stay finite. *)
Theorem zero_sum_is_silent (hmm : HMM) (obs : list frame) :
  valid_hmm hmm = true ->
  obs_in_range hmm obs = true ->
  (exists f, forwardHMM hmm obs = Ok f
     /\ forall t o f_t v,
          obs !! t = Some o -> f !! t = Some f_t ->
          forward_v emission hmm o f_t = Ok v -> vsum v = Fin 0 ->
          f !! S t = Some (replicate (length v) NaN))
  /\ (exists b, backwardHMM hmm obs = Ok b /\ Forall nonneg_vec b)
  /\ (exists path vs, viterbiHMM hmm obs = Ok (path, vs)
        /\ forall t o v_prev tmp,
             obs !! t = Some o -> vs !! t = Some v_prev ->
             weigh hmm o (outer_scale v_prev (A hmm)) = Ok tmp ->
             vsum (map vmax (transpose tmp)) = Fin 0 ->
             vs !! S t = Some (replicate (num_states hmm) NaN)).
Proof.
  intros Hvalid Hobs. pose proof (valid_hmm_wf _ Hvalid) as Hwf.
  pose proof (in_range_emission hmm obs Hwf Hobs) as Hemit.
  split_and!.
  - destruct (forward_loop_rows emission hmm obs Hemit) as (f & Hf & Hlen & Hr0 & Hrec).
    exists f. split; [done |]. intros t o f_t v Ho Hft Hv Hsum.
    destruct (Hrec t o Ho) as (bs & f_t' & Hbs & Hft' & Hnext).
    destruct (forward_v_inv _ _ _ _ _ Hv) as (bs' & Hbs' & ->). simplify_eq.
    assert (bs = bs') as -> by congruence.
    rewrite Hnext. f_equal. cbv zeta. apply zero_sum_all_nan; [|done].
    apply (forward_v_good hmm o f_t); [done | | done].
    by eapply forward_rows_good.
  - destruct (backward_from_rows (Fin (Qc_of_Z 10000000)) hmm obs Hemit)
      as (b & Hb & Hlen & Hlast & Hrec).
    exists b. split; [done |].
    by eapply (backward_rows_nonneg (Qc_of_Z 10000000)).
  - destruct (wf_hmm_inv hmm Hwf) as (HN & HA & _).
    destruct (viterbi_trellis_rows weigh true hmm obs HN HA)
      as (vs & bps & Hrun & Hlen & Hr0 & Hrows & Hrec).
    { intros o tmp Ho Htmp. apply weigh_shape; [done | | done].
      by eapply frame_in_range_elem. }
    exists (viterbi_path (length obs) vs bps), vs. split.
    { unfold viterbiHMM, viterbi_loop. by rewrite Hrun. }
    intros t o v_prev tmp Ho Hprev Hw Hsum.
    destruct (Hrec t o Ho) as (v' & tmp' & Hprev' & Hw' & Hshape & _ & Hnext).
    simplify_eq. assert (tmp' = tmp) as -> by congruence.
    rewrite Hnext. f_equal. unfold score_row. cbv zeta.
    rewrite zero_sum_all_nan; [| |done].
    + f_equal. rewrite length_map, length_transpose. by eapply has_shape_ncols.
    + eapply (viterbi_rows_good hmm obs vs); try done.
      intros t' o' Ho'.
      destruct (Hrec t' o' Ho') as (v' & tmp' & ? & ? & _ & _ & ?). by exists v', tmp'.
Qed.

Lemma zero_sum_is_silent_witness :
  (exists f, forwardHMM hmm_zero [(1, 0, 0)]%Z = Ok f
     /\ forall t o f_t v,
          [(1, 0, 0)]%Z !! t = Some o -> f !! t = Some f_t ->
          forward_v emission hmm_zero o f_t = Ok v -> vsum v = Fin 0 ->
          f !! S t = Some (replicate (length v) NaN))
  /\ (exists b, backwardHMM hmm_zero [(1, 0, 0)]%Z = Ok b /\ Forall nonneg_vec b)
  /\ (exists path vs, viterbiHMM hmm_zero [(1, 0, 0)]%Z = Ok (path, vs)
        /\ forall t o v_prev tmp,
             [(1, 0, 0)]%Z !! t = Some o -> vs !! t = Some v_prev ->
             weigh hmm_zero o (outer_scale v_prev (A hmm_zero)) = Ok tmp ->
             vsum (map vmax (transpose tmp)) = Fin 0 ->
             vs !! S t = Some (replicate (num_states hmm_zero) NaN)).
Proof. apply zero_sum_is_silent; vm_compute; reflexivity. Defined.

(** C6 as stated fails: in the valid model [hmm_zero] the symbol 1 of
    channel 1 has probability zero in both states, the vector [v] of the
    first frame is zero, and the three routines return matrices (with
    [nan] rows in the forward and Viterbi results) instead of failing. *)
Lemma zero_likelihood_returns_nan :
  valid_hmm hmm_zero = true
  /\ obs_in_range hmm_zero [(1, 0, 0)]%Z = true
  /\ forward_v emission hmm_zero (1, 0, 0)%Z (pi hmm_zero) = Ok [Fin 0; Fin 0]
  /\ forwardHMM hmm_zero [(1, 0, 0)]%Z = Ok [[q 1 2; q 1 2]; [NaN; NaN]]
  /\ backwardHMM hmm_zero [(1, 0, 0)]%Z
     = Ok [[Fin 0; Fin 0]; [q 10000000 1; q 10000000 1]]
  /\ viterbiHMM hmm_zero [(1, 0, 0)]%Z
     = Ok ([0; 0]%nat, [[q 1 2; q 1 2]; [NaN; NaN]]).
Proof. split_and!; by_computation. Qed.

(** ** The constant of the last backward row *)

Lemma for_each_commute {S X : Type} (body : S -> X -> result S) (g : S -> S)
    (xs : list X) (s : S) :
  (forall s x, body (g s) x = s' ← body s x; Ok (g s')) ->
  for_each body xs (g s) = s' ← for_each body xs s; Ok (g s').
Proof.
  intros Hg. revert s. induction xs as [|x xs IH]; intros s; [done |].
  cbn [for_each]. rewrite Hg. destruct (body s x) as [s'|e]; [|done].
  rewrite !bind_Ok. apply IH.
Qed.

Lemma lookup_total_map_scale (k : Qc) (b : matrix) (t : nat) :
  map (scale k) b !!! t = scale k (b !!! t).
Proof.
  revert t. induction b as [|row b IH]; intros [|t]; try done. apply IH.
Qed.

Lemma insert_map_scale (k : Qc) (b : matrix) (t : nat) (row : vec) :
  <[t:=scale k row]> (map (scale k) b) = map (scale k) (<[t:=row]> b).
Proof. symmetry. apply list_fmap_insert. Qed.

Lemma backward_body_scale (k : Qc) (hmm : HMM) (obs : list frame) (b : matrix) (t : nat) :
  0 < k ->
  backward_body hmm obs (map (scale k) b) t
  = b' ← backward_body hmm obs b t; Ok (map (scale k) b').
Proof.
  intros Hk. unfold backward_body.
  destruct (emission hmm _) as [bs|e]; [|done]. rewrite !bind_Ok.
  by rewrite lookup_total_map_scale, vmul_scale_r, dot_scale, insert_map_scale.
Qed.

Lemma ones_times_scale (k : Qc) (n : nat) (c : float64) :
  0 < k -> ones_times n (fmul (Fin k) c) = scale k (ones_times n c).
Proof.
  intros Hk. unfold ones_times, scale. rewrite map_map. apply map_ext.
  intros x. by apply fmul_pos_swap.
Qed.

Lemma zeros_scale (k : Qc) (r c : nat) : map (scale k) (zeros r c) = zeros r c.
Proof.
  unfold zeros. rewrite fmap_replicate. f_equal.
  unfold scale. rewrite fmap_replicate. by rewrite fmul_pos_zero.
Qed.

(** The backward messages are linear in the constant of the last row. *)
Lemma backward_from_scale (k : Qc) (c : float64) (hmm : HMM) (obs : list frame) :
  0 < k ->
  backward_from (fmul (Fin k) c) hmm obs
  = b ← backward_from c hmm obs; Ok (map (scale k) b).
Proof.
  intros Hk. unfold backward_from.
  rewrite ones_times_scale by done.
  rewrite <- (zeros_scale k) at 1. rewrite insert_map_scale.
  apply for_each_commute. intros b t. by apply backward_body_scale.
Qed.

Lemma mmul_scale_r (k : Qc) (f b : matrix) :
  0 < k -> mmul f (map (scale k) b) = map (scale k) (mmul f b).
Proof.
  intros Hk. unfold mmul. revert b. induction f as [|x f IH]; intros [|y b];
    try done.
  cbn [map zip_with]. rewrite vmul_scale_r by done. f_equal. apply IH.
Qed.

Lemma normalize_rows_scale (k : Qc) (post : matrix) :
  0 < k -> normalize_rows (map (scale k) post) = normalize_rows post.
Proof.
  intros Hk. unfold normalize_rows. rewrite map_map. apply map_ext.
  intros row. by rewrite vsum_scale, vdiv_scale.
Qed.

Lemma forward_backwardHMM_smooth (hmm : HMM) (obs : list frame) :
  forward_backwardHMM hmm obs = smooth_from (Fin (Qc_of_Z 10000000)) hmm obs.
Proof. reflexivity. Qed.

(** C10 (amended).  On a valid model the posterior of
    [forward_backwardHMM] does not depend on the constant 10000000 that
    fills the last backward row: another positive constant [c] gives the
    same result, since the backward messages are linear in it and each
    row of [f * b] is divided by its own sum -- as long as, with either
    constant, every entry of the backward matrix and of [f * b] is zero or
    lies between 2^-1022 and 2^1000, where binary64 keeps the products
    and sums to within rounding. *)
Theorem backward_constant_cancels (c : Qc) (hmm : HMM) (obs : list frame) :
  0 < c ->
  valid_hmm hmm = true ->
  smoother_in_range (Fin c) hmm obs = true ->
  smoother_in_range (Fin (Qc_of_Z 10000000)) hmm obs = true ->
  exists post,
    smooth_from (Fin c) hmm obs = Ok post
    /\ forward_backwardHMM hmm obs = Ok post.
Proof.
  intros Hc _ Hrange _. rewrite forward_backwardHMM_smooth.
  unfold smoother_in_range in Hrange. unfold smooth_from.
  destruct (forwardHMM hmm obs) as [f|]; [|done].
  destruct (backward_from (Fin c) hmm obs) as [b|] eqn:Hb; [|done].
  exists (normalize_rows (mmul f b)). rewrite !bind_Ok. split; [done |].
  set (c0 := Qc_of_Z 10000000).
  assert (0 < c0) as Hc0 by reflexivity.
  assert (0 < c0 / c) as Hk.
  { unfold Qcdiv. apply Qcmult_pos_pos; [done | by apply Qcinv_pos]. }
  assert (c <> 0) as Hne by (intros Hz; by rewrite Hz in Hc).
  assert (Fin c0 = fmul (Fin (c0 / c)) (Fin c)) as ->.
  { cbn [fmul]. f_equal. by field. }
  rewrite backward_from_scale, Hb, !bind_Ok by done.
  by rewrite mmul_scale_r, normalize_rows_scale.
Qed.

Lemma backward_constant_cancels_witness :
  exists post,
    smooth_from (Fin 1) hmm2 [(0, 0, 0); (1, 0, 0)]%Z = Ok post
    /\ forward_backwardHMM hmm2 [(0, 0, 0); (1, 0, 0)]%Z = Ok post.
Proof.
  apply backward_constant_cancels; [reflexivity | vm_compute; reflexivity ..].
Defined.

(** C10 as stated fails in binary64.  On the valid single-state model
    [hmm1] and the frame (0, 0, 0), of likelihood 1/2, the posterior is
    [[1.0], [1.0]] with the constant 10000000; with the positive constant
    2^-1074 the product of the last backward row with 1/2 is rounded to
    0.0 and the first row of the posterior is 0/0. *)
Lemma backward_constant_matters :
  valid_hmm hmm1 = true
  /\ forward_regular emission hmm1 [(0, 0, 0)]%Z = true
  /\ PrimFloat.ltb 0%float 0x1p-1074%float = true
  /\ Arith.forward_backwardHMM binary64 (binary64_model hmm1) [(0, 0, 0)]%Z
     = Ok [[1]; [1]]%float
  /\ Arith.backward_from binary64 0x1p-1074%float (binary64_model hmm1) [(0, 0, 0)]%Z
     = Ok [[0]; [0x1p-1074]]%float
  /\ Arith.smooth_from binary64 0x1p-1074%float (binary64_model hmm1) [(0, 0, 0)]%Z
     = Ok [[nan]; [1]]%float
  /\ smoother_in_range (Fin (Q2Qc (1 # 2 ^ 1074))) hmm1 [(0, 0, 0)]%Z = false.
Proof. split_and!; vm_compute; reflexivity. Qed.

(** ** Sampling *)

Lemma length_cumsum_from (acc : float64) (dist : vec) :
  length (cumsum_from acc dist) = length dist.
Proof.
  revert acc. induction dist as [|x dist IH]; intros acc; [done |].
  cbn [cumsum_from length]. by rewrite IH.
Qed.

Lemma last_cumsum_from (acc : float64) (dist : vec) :
  dist <> [] -> last (cumsum_from acc dist) = Some (foldl fadd acc dist).
Proof.
  revert acc. induction dist as [|x dist IH]; intros acc Hne; [done |].
  cbn [cumsum_from foldl]. destruct dist as [|y dist]; [done |].
  rewrite <- IH by done. reflexivity.
Qed.

Lemma searchsorted_lt (a : vec) (u x : float64) :
  last a = Some x -> flt x u = false -> (searchsorted a u < length a)%nat.
Proof.
  induction a as [|y a IH]; intros Hlast Hx; [done |].
  cbn [searchsorted length]. destruct a as [|z a].
  - cbn in Hlast. simplify_eq. rewrite Hx. lia.
  - destruct (flt y u); [|lia]. apply -> Nat.succ_lt_mono. by apply IH.
Qed.

Lemma fle_flt_false (x y : float64) : fle x y = true -> flt y x = false.
Proof.
  destruct x as [a| | |], y as [b| | |]; cbn [fle flt]; try done.
  rewrite bool_decide_eq_true, bool_decide_eq_false. apply Qcle_not_lt.
Qed.

(** A value that is not above the last running sum is found at an index
    of the array. *)
Lemma searchsorted_reach (dist : vec) (u : float64) :
  dist <> [] -> fle u (vsum dist) = true ->
  (searchsorted (cumsum dist) u < length dist)%nat.
Proof.
  intros Hne Hu. rewrite <- (length_cumsum_from (Fin 0)).
  apply searchsorted_lt with (x := vsum dist).
  - unfold cumsum. by rewrite last_cumsum_from.
  - by apply fle_flt_false.
Qed.

Lemma running_sum_slack_nonneg (n : nat) : 0 <= running_sum_slack n.
Proof.
  unfold running_sum_slack. apply Qcmult_nonneg_nonneg; [|done].
  unfold Qcle, Qc_of_Z. cbn. unfold Qle. cbn.
  change (Qred 0) with 0%Q. cbn. lia.
Qed.

(** A draw within reach of the running sums is not above the exact sum. *)
Lemma reaches_le (u : Qc) (dist : vec) :
  nonneg_vec dist -> reaches u dist = true -> fle (Fin u) (vsum dist) = true.
Proof.
  intros (s & Hs & Hge)%nonneg_vsum%fin_nonneg_inv. unfold reaches. rewrite Hs.
  cbn [fmul fle]. rewrite !bool_decide_eq_true. intros Hu.
  eapply Qcle_trans; [exact Hu |].
  pose proof (running_sum_slack_nonneg (length dist)) as Hslack.
  replace s with (s * 1) at 2 by ring.
  apply Qcmult_le_mono_nonneg_l; [done |].
  replace 1 with (1 - 0) at 2 by ring. unfold Qcminus.
  apply Qcplus_le_compat; [apply Qcle_refl |]. by apply Qcopp_le_compat.
Qed.

Lemma is_dist_nonempty (dist : vec) : is_dist dist = true -> dist <> [].
Proof. intros Hd%is_dist_sum ->. cbn in Hd. by simplify_eq. Qed.

Ltac list_mem :=
  repeat first [apply list_elem_of_here | apply list_elem_of_further].

Section generator_facts.
Variable rng : Type.
Variable random_sample : rng -> Qc * rng.
Variable random_normal : float64 -> float64 -> rng -> float64 * rng.

Lemma draw_at_app {X : Type} (gs ext : list rng) (n : nat)
    (sampler : rng -> X * rng) (x : X) :
  draw_at rng gs n sampler x -> draw_at rng (gs ++ ext) n sampler x.
Proof.
  intros (g & g' & Hg & Hg' & Hs). exists g, g'.
  split_and!; [by apply lookup_app_l_Some | by apply lookup_app_l_Some | done].
Qed.

Lemma drawn_symbol_app (gs ext : list rng) (n : nat) (B : matrix) (h : nat) (o : Z) :
  drawn_symbol rng random_sample gs n B h o ->
  drawn_symbol rng random_sample (gs ++ ext) n B h o.
Proof. intros (s & Hs & ->). exists s. split; [by apply draw_at_app | done]. Qed.

Lemma drawn_normal_app (gs ext : list rng) (n : nat) (B : matrix) (h : nat) (o : Z) :
  drawn_normal rng random_normal gs n B h o ->
  drawn_normal rng random_normal (gs ++ ext) n B h o.
Proof.
  intros (mu & sd & x & Hc & Hx & Ho). exists mu, sd, x.
  split_and!; [done | by apply draw_at_app | done].
Qed.

Lemma sample_state (dists : list vec) (dist : vec) (g : rng) :
  draws_reach rng random_sample dists ->
  dist ∈ dists ->
  is_dist dist = true ->
  ((sample rng random_sample dist g).1 < length dist)%nat.
Proof.
  intros Hreach Hin Hd. specialize (Hreach dist g Hin). unfold sample.
  destruct (random_sample g) as [u g']. cbn [fst] in *.
  apply searchsorted_reach; [by apply is_dist_nonempty |].
  apply reaches_le; [by apply is_dist_nonneg | done].
Qed.

Variable draw : matrix -> nat -> rng -> result (Z * rng).
Variable drawn : list rng -> nat -> matrix -> nat -> Z -> Prop.
Variable hmm : HMM.

Hypothesis reach : draws_reach rng random_sample (state_dists hmm).
Hypothesis pi_dist : is_dist (pi hmm) = true.
Hypothesis A_rows : length (A hmm) = num_states hmm.
Hypothesis A_dist : forall row, row ∈ A hmm ->
  is_dist row = true /\ length row = num_states hmm.
Hypothesis draw_drawn : forall B h g,
  B ∈ [B1 hmm; B2 hmm; B3 hmm] -> (h < num_states hmm)%nat ->
  exists o g', draw B h g = Ok (o, g')
    /\ forall gs n, gs !! n = Some g -> gs !! S n = Some g' -> drawn gs n B h o.
Hypothesis drawn_app : forall gs ext n B h o,
  drawn gs n B h o -> drawn (gs ++ ext) n B h o.

Lemma step_loop_ancestral (L : nat) (g : rng) :
  let '(h0, g1) := sample rng random_sample (pi hmm) g in
  exists res,
    for_each (step_body rng random_sample draw hmm) (seq 0 L)
      (<[0%nat:=h0]> (replicate (S L) 0%nat), replicate L (0, 0, 0)%Z, g1) = Ok res
    /\ ancestral rng random_sample drawn hmm L g res.
Proof.
  assert (pi hmm ∈ state_dists hmm) as Hpin by apply list_elem_of_here.
  pose proof (sample_state _ (pi hmm) g reach Hpin pi_dist) as Hh0.
  destruct (sample rng random_sample (pi hmm) g) as [h0 g1] eqn:Hs0.
  cbn [fst] in Hh0.
  pose (P := fun (k : nat) (st : gen_state rng) =>
    length st.1.1 = S L
    /\ length st.1.2 = L
    /\ exists gs,
         length gs = (4 * k + 2)%nat
         /\ gs !! 0%nat = Some g
         /\ gs !! (4 * k + 1)%nat = Some st.2
         /\ (exists h0, st.1.1 !! 0%nat = Some h0
               /\ draw_at rng gs 0 (sample rng random_sample (pi hmm)) h0)
         /\ (exists h, st.1.1 !! k = Some h /\ (h < num_states hmm)%nat)
         /\ forall i, (i < k)%nat ->
              exists h h' row o1 o2 o3,
                st.1.1 !! i = Some h
                /\ st.1.1 !! S i = Some h'
                /\ A hmm !! h = Some row
                /\ draw_at rng gs (4 * i + 1) (sample rng random_sample row) h'
                /\ st.1.2 !! i = Some (o1, o2, o3)
                /\ drawn gs (4 * i + 2)%nat (B1 hmm) h' o1
                /\ drawn gs (4 * i + 3)%nat (B2 hmm) h' o2
                /\ drawn gs (4 * i + 4)%nat (B3 hmm) h' o3).
  destruct (for_each_inv (step_body rng random_sample draw hmm) P (seq 0 L)
              (<[0%nat:=h0]> (replicate (S L) 0%nat), replicate L (0, 0, 0)%Z, g1))
    as (res & Hrun & HP).
  - unfold P. cbn [fst snd]. rewrite length_insert, !length_replicate.
    assert (<[0%nat:=h0]> (replicate (S L) 0%nat) !! 0%nat = Some h0) as Hl0.
    { apply list_lookup_insert_eq. rewrite length_replicate. lia. }
    split_and!; [done | done |]. exists [g; g1].
    split_and!; [done | done | done | | | intros; lia].
    + exists h0. split; [done |]. by exists g, g1.
    + exists h0. split; [done | exact Hh0].
  - intros k x [[hidden obs] gk] (-> & Hk)%lookup_seq
      (Hlh & Hlo & gs & Hlgs & Hg0 & Hgk & Hfirst & (h & Hh & HhN) & Hprev).
    cbn [fst snd plus] in *.
    destruct (getitem_in_range (A hmm) (Z.of_nat h)) as (row & Hrow & HArow);
      [lia |].
    rewrite Nat2Z.id in HArow.
    destruct (A_dist row) as [Hrd Hrl]; [by eapply list_elem_of_lookup_2 |].
    assert (row ∈ state_dists hmm) as Hrin.
    { apply list_elem_of_further. by eapply list_elem_of_lookup_2. }
    pose proof (sample_state _ row gk reach Hrin Hrd) as Hh'. rewrite Hrl in Hh'.
    destruct (sample rng random_sample row gk) as [h' g1'] eqn:Hs. cbn [fst] in Hh'.
    destruct (draw_drawn (B1 hmm) h' g1') as (o1 & g2 & Hd1 & Hdr1);
      [list_mem | done |].
    destruct (draw_drawn (B2 hmm) h' g2) as (o2 & g3 & Hd2 & Hdr2);
      [list_mem | done |].
    destruct (draw_drawn (B3 hmm) h' g3) as (o3 & g4 & Hd3 & Hdr3);
      [list_mem | done |].
    assert (<[S k:=h']> hidden !! S k = Some h') as Hnew.
    { apply list_lookup_insert_eq. lia. }
    exists (<[S k:=h']> hidden, <[k:=(o1, o2, o3)]> obs, g4). split.
    { unfold step_body. rewrite (list_lookup_total_correct _ _ _ Hh), Hrow, bind_Ok, Hs.
      cbv zeta. rewrite (list_lookup_total_correct _ _ _ Hnew).
      rewrite Hd1, bind_Ok, Hd2, bind_Ok, Hd3, bind_Ok. reflexivity. }
    unfold P. cbn [fst snd]. rewrite !length_insert.
    split_and!; [done | done |]. exists (gs ++ [g1'; g2; g3; g4]).
    assert (forall j x, [g1'; g2; g3; g4] !! j = Some x ->
              (gs ++ [g1'; g2; g3; g4]) !! (4 * k + 2 + j)%nat = Some x) as Hext.
    { intros j y Hj. rewrite lookup_app_r by lia.
      by replace (4 * k + 2 + j - length gs)%nat with j by lia. }
    pose proof (Hext 0%nat g1' eq_refl) as He1.
    pose proof (Hext 1%nat g2 eq_refl) as He2.
    pose proof (Hext 2%nat g3 eq_refl) as He3.
    pose proof (Hext 3%nat g4 eq_refl) as He4.
    replace (4 * k + 2 + 0)%nat with (S (4 * k + 1)) in He1 by lia.
    replace (4 * k + 2 + 1)%nat with (S (4 * k + 2)) in He2 by lia.
    replace (4 * k + 2 + 2)%nat with (S (4 * k + 3)) in He3 by lia.
    replace (4 * k + 2 + 3)%nat with (S (4 * k + 4)) in He4 by lia.
    split_and!.
    + rewrite length_app. cbn [length]. lia.
    + by apply lookup_app_l_Some.
    + replace (4 * S k + 1)%nat with (S (4 * k + 4)) by lia. done.
    + destruct Hfirst as (h0' & Hh0' & Hdraw0). exists h0'.
      split; [by rewrite list_lookup_insert_ne | by apply draw_at_app].
    + by exists h'.
    + intros i Hi. destruct (decide (i = k)) as [->|Hne].
      * exists h, h', row, o1, o2, o3.
        rewrite list_lookup_insert_ne by lia.
        rewrite (list_lookup_insert_eq obs) by lia.
        split_and!; [done | done | done | | done | | | ].
        -- exists gk, g1'. split_and!; [by apply lookup_app_l_Some | done | done].
        -- apply Hdr1; [|done].
           replace (4 * k + 2)%nat with (S (4 * k + 1)) by lia. done.
        -- apply Hdr2; [|done].
           replace (4 * k + 3)%nat with (S (4 * k + 2)) by lia. done.
        -- apply Hdr3; [|done].
           replace (4 * k + 4)%nat with (S (4 * k + 3)) by lia. done.
      * destruct (Hprev i) as (hi & hi' & rowi & p1 & p2 & p3 & ? & ? & ? & ? & ? & ? & ? & ?);
          [lia |].
        exists hi, hi', rowi, p1, p2, p3.
        rewrite !list_lookup_insert_ne by lia.
        split_and!; try done; [by apply draw_at_app | by apply drawn_app ..].
  - exists res. split; [done |]. rewrite length_seq in HP.
    destruct HP as (Hlh & Hlo & gs & _ & Hg0 & Hgk & Hfirst & _ & Hprev).
    unfold ancestral. split_and!; [done | done |]. by exists gs.
Qed.
End generator_facts.

Section generators.
Variable rng : Type.
Variable random_sample : rng -> Qc * rng.
Variable random_normal : float64 -> float64 -> rng -> float64 * rng.

Lemma generate_body_step (hmm : HMM) (st : gen_state rng) (i : nat) :
  generate_body rng random_sample hmm st i
  = step_body rng random_sample (draw_symbol rng random_sample) hmm st i.
Proof.
  destruct st as [[hidden obs] g]. unfold generate_body, step_body, draw_symbol.
  destruct (getitem (A hmm) _) as [row|]; [|done]. rewrite !bind_Ok.
  destruct (sample rng random_sample row g) as [h g1]. cbv zeta.
  destruct (getcol (B1 hmm) _) as [c1|]; [|done]. rewrite !bind_Ok.
  destruct (sample rng random_sample c1 g1) as [o1 g2]. rewrite !bind_Ok.
  destruct (getcol (B2 hmm) _) as [c2|]; [|done]. rewrite !bind_Ok.
  destruct (sample rng random_sample c2 g2) as [o2 g3]. rewrite !bind_Ok.
  destruct (getcol (B3 hmm) _) as [c3|]; [|done]. rewrite !bind_Ok.
  destruct (sample rng random_sample c3 g3) as [o3 g4]. by rewrite !bind_Ok.
Qed.

Lemma generateG_body_step (hmm : HMM) (st : gen_state rng) (i : nat) :
  generateG_body rng random_sample random_normal hmm st i
  = step_body rng random_sample (draw_normal rng random_normal) hmm st i.
Proof.
  destruct st as [[hidden obs] g]. unfold generateG_body, step_body, draw_normal.
  destruct (getitem (A hmm) _) as [row|]; [|done]. rewrite !bind_Ok.
  destruct (sample rng random_sample row g) as [h g1]. cbv zeta.
  destruct (getcol (B1 hmm) _) as [c1|]; [|done]. rewrite !bind_Ok.
  destruct (sampleG rng random_normal c1 g1) as [[x1 g2]|]; [|done]. rewrite !bind_Ok.
  destruct (to_int x1) as [o1|]; [|done]. rewrite !bind_Ok.
  destruct (getcol (B2 hmm) _) as [c2|]; [|done]. rewrite !bind_Ok.
  destruct (sampleG rng random_normal c2 g2) as [[x2 g3]|]; [|done]. rewrite !bind_Ok.
  destruct (to_int x2) as [o2|]; [|done]. rewrite !bind_Ok.
  destruct (getcol (B3 hmm) _) as [c3|]; [|done]. rewrite !bind_Ok.
  destruct (sampleG rng random_normal c3 g3) as [[x3 g4]|]; [|done]. rewrite !bind_Ok.
  destruct (to_int x3) as [o3|]; [|done]. by rewrite !bind_Ok.
Qed.

Lemma for_each_ext {S X : Type} (body1 body2 : S -> X -> result S)
    (xs : list X) (s : S) :
  (forall s x, body1 s x = body2 s x) ->
  for_each body1 xs s = for_each body2 xs s.
Proof.
  intros Hb. revert s. induction xs as [|x xs IH]; intros s; [done |].
  cbn [for_each]. rewrite Hb. destruct (body2 s x); [|done].
  rewrite !bind_Ok. apply IH.
Qed.

Lemma column_stochastic_ncols (n : nat) (B : matrix) :
  (0 < n)%nat ->
  Forall (fun row => length row = n) B ->
  column_stochastic n B = true ->
  ncols B = n.
Proof.
  intros Hn Hwidth Hcols. unfold column_stochastic in Hcols.
  rewrite forallb_forall in Hcols.
  assert (is_dist (column B 0) = true) as Hd.
  { apply Hcols, in_seq. lia. }
  destruct B as [|row B].
  - apply is_dist_sum in Hd. cbn in Hd. by simplify_eq.
  - cbn [ncols]. by inversion Hwidth.
Qed.

Lemma draw_symbol_drawn (B : matrix) (n h : nat) (g : rng) :
  ncols B = n -> (h < n)%nat ->
  exists o g', draw_symbol rng random_sample B h g = Ok (o, g')
    /\ forall gs k, gs !! k = Some g -> gs !! S k = Some g' ->
         drawn_symbol rng random_sample gs k B h o.
Proof.
  intros Hcols Hh. unfold draw_symbol, getcol.
  rewrite bool_decide_eq_true_2 by lia. rewrite bind_Ok.
  destruct (sample rng random_sample (column B h) g) as [s g'] eqn:Hs.
  exists (Z.of_nat s), g'. split; [done |]. intros gs k Hg Hg'.
  exists s. split; [|done]. by exists g, g'.
Qed.

Lemma gaussian_table_inv (n : nat) (B : matrix) :
  gaussian_table n B = true ->
  exists mu sig, B = [mu; sig] /\ length mu = n /\ length sig = n.
Proof.
  destruct B as [|mu [|sig [|? ?]]]; try discriminate.
  cbn [gaussian_table]. rewrite !andb_true_iff, !bool_decide_eq_true.
  intros [[[? ?] _] _]. by exists mu, sig.
Qed.

Lemma sampleG_pair (mu sd : float64) (g : rng) :
  sampleG rng random_normal [mu; sd] g = Ok (random_normal mu sd g).
Proof. reflexivity. Qed.

Lemma draw_normal_drawn (hmm : HMM) (B : matrix) (h : nat) (g : rng) :
  normal_draws_fit rng random_normal hmm ->
  B ∈ [B1 hmm; B2 hmm; B3 hmm] ->
  gaussian_table (num_states hmm) B = true ->
  (h < num_states hmm)%nat ->
  exists o g', draw_normal rng random_normal B h g = Ok (o, g')
    /\ forall gs k, gs !! k = Some g -> gs !! S k = Some g' ->
         drawn_normal rng random_normal gs k B h o.
Proof.
  intros Hfit HB (mu & sig & -> & Hmu & Hsig)%gaussian_table_inv Hh.
  destruct (Hfit [mu; sig] h (mu !!! h) (sig !!! h) g HB eq_refl) as [o Ho].
  destruct (random_normal (mu !!! h) (sig !!! h) g) as [x g'] eqn:Hx.
  cbn [fst] in Ho. exists o, g'. split.
  - unfold draw_normal, getcol. cbn [ncols].
    rewrite bool_decide_eq_true_2 by lia. rewrite bind_Ok.
    change (column [mu; sig] h) with [mu !!! h; sig !!! h].
    rewrite sampleG_pair, bind_Ok, Hx, Ho. reflexivity.
  - intros gs k Hg Hg'. exists (mu !!! h), (sig !!! h), x.
    split_and!; [done | by exists g, g' | done].
Qed.

Lemma valid_hmm_dists (hmm : HMM) :
  valid_hmm hmm = true ->
  is_dist (pi hmm) = true
  /\ length (A hmm) = num_states hmm
  /\ (forall row, row ∈ A hmm -> is_dist row = true /\ length row = num_states hmm)
  /\ ncols (B1 hmm) = num_states hmm
  /\ ncols (B2 hmm) = num_states hmm
  /\ ncols (B3 hmm) = num_states hmm.
Proof.
  intros Hvalid. pose proof (valid_hmm_wf _ Hvalid) as Hwf.
  apply wf_hmm_inv in Hwf as (HN & [HAl HAw] & H1 & H2 & H3).
  unfold valid_hmm in Hvalid. rewrite !andb_true_iff in Hvalid.
  destruct Hvalid as [[[[[_ Hpi] HA] HB1] HB2] HB3].
  split_and!; [done | done | | by eapply column_stochastic_ncols ..].
  intros row Hrow. split.
  - rewrite forallb_forall in HA. by apply HA, list_elem_of_In.
  - rewrite Forall_forall in HAw. by apply HAw.
Qed.

Lemma valid_hmmG_dists (hmm : HMM) :
  valid_hmmG hmm = true ->
  is_dist (pi hmm) = true
  /\ length (A hmm) = num_states hmm
  /\ (forall row, row ∈ A hmm -> is_dist row = true /\ length row = num_states hmm).
Proof.
  unfold valid_hmmG.
  rewrite !andb_true_iff, !bool_decide_eq_true, has_width_Forall.
  intros [[[[[[[_ HAl] HAw] Hpi] HA] _] _] _].
  split_and!; [done | done |]. intros row Hrow. split.
  - rewrite forallb_forall in HA. by apply HA, list_elem_of_In.
  - rewrite Forall_forall in HAw. by apply HAw.
Qed.

Lemma generate_sequence_loop (hmm : HMM) (L : nat) (g : rng) :
  generate_sequence rng random_sample hmm (Z.of_nat L) g
  = let '(h0, g1) := sample rng random_sample (pi hmm) g in
    for_each (step_body rng random_sample (draw_symbol rng random_sample) hmm)
      (seq 0 L)
      (<[0%nat:=h0]> (replicate (S L) 0%nat), replicate L (0, 0, 0)%Z, g1).
Proof.
  unfold generate_sequence. rewrite bool_decide_eq_false_2 by lia.
  replace (Z.to_nat (Z.of_nat L + 1)) with (S L) by lia. rewrite Nat2Z.id.
  destruct (sample rng random_sample (pi hmm) g) as [h0 g1].
  apply for_each_ext. intros st i. apply generate_body_step.
Qed.

Lemma generate_sequenceG_loop (hmm : HMM) (L : nat) (g : rng) :
  generate_sequenceG rng random_sample random_normal hmm (Z.of_nat L) g
  = let '(h0, g1) := sample rng random_sample (pi hmm) g in
    for_each (step_body rng random_sample (draw_normal rng random_normal) hmm)
      (seq 0 L)
      (<[0%nat:=h0]> (replicate (S L) 0%nat), replicate L (0, 0, 0)%Z, g1).
Proof.
  unfold generate_sequenceG. rewrite bool_decide_eq_false_2 by lia.
  replace (Z.to_nat (Z.of_nat L + 1)) with (S L) by lia. rewrite Nat2Z.id.
  destruct (sample rng random_sample (pi hmm) g) as [h0 g1].
  apply for_each_ext. intros st i. apply generateG_body_step.
Qed.

Lemma generate_sequence_ancestral (hmm : HMM) (L : nat) (g : rng) :
  valid_hmm hmm = true ->
  draws_reach rng random_sample (state_dists hmm) ->
  exists res,
    generate_sequence rng random_sample hmm (Z.of_nat L) g = Ok res
    /\ ancestral rng random_sample (drawn_symbol rng random_sample) hmm L g res.
Proof.
  intros (Hpi & HAl & HA & H1 & H2 & H3)%valid_hmm_dists Hreach.
  rewrite generate_sequence_loop.
  assert (forall B h g0,
            B ∈ [B1 hmm; B2 hmm; B3 hmm] -> (h < num_states hmm)%nat ->
            exists o g', draw_symbol rng random_sample B h g0 = Ok (o, g')
              /\ forall gs n, gs !! n = Some g0 -> gs !! S n = Some g' ->
                   drawn_symbol rng random_sample gs n B h o) as Hdraw.
  { intros B h g0 HB Hh. apply draw_symbol_drawn with (n := num_states hmm);
      [|done].
    apply list_elem_of_In in HB. cbn in HB. by intuition subst. }
  pose proof (step_loop_ancestral rng random_sample _ _ hmm Hreach Hpi HAl HA
                Hdraw (drawn_symbol_app rng random_sample) L g) as Hloop.
  by destruct (sample rng random_sample (pi hmm) g) as [h0 g1].
Qed.

Lemma generate_sequenceG_ancestral (hmm : HMM) (L : nat) (g : rng) :
  valid_hmmG hmm = true ->
  draws_reach rng random_sample (state_dists hmm) ->
  normal_draws_fit rng random_normal hmm ->
  exists res,
    generate_sequenceG rng random_sample random_normal hmm (Z.of_nat L) g = Ok res
    /\ ancestral rng random_sample (drawn_normal rng random_normal) hmm L g res.
Proof.
  intros Hvalid Hreach Hfit.
  destruct (valid_hmmG_dists hmm Hvalid) as (Hpi & HAl & HA).
  destruct (valid_hmmG_inv hmm Hvalid) as (_ & _ & H1 & H2 & H3).
  rewrite generate_sequenceG_loop.
  assert (forall B h g0,
            B ∈ [B1 hmm; B2 hmm; B3 hmm] -> (h < num_states hmm)%nat ->
            exists o g', draw_normal rng random_normal B h g0 = Ok (o, g')
              /\ forall gs n, gs !! n = Some g0 -> gs !! S n = Some g' ->
                   drawn_normal rng random_normal gs n B h o) as Hdraw.
  { intros B h g0 HB Hh. apply (draw_normal_drawn hmm); try done.
    apply list_elem_of_In in HB. cbn in HB. by intuition subst. }
  pose proof (step_loop_ancestral rng random_sample _ _ hmm Hreach Hpi HAl HA
                Hdraw (drawn_normal_app rng random_normal) L g) as Hloop.
  by destruct (sample rng random_sample (pi hmm) g) as [h0 g1].
Qed.
End generators.

Lemma coin_normal_fits : normal_draws_fit bool coin_normal hmmG2.
Proof.
  intros B h mu sd g HB Hcol. apply list_elem_of_In in HB. cbn in HB.
  destruct HB as [<-|[<-|[<-|[]]]]; destruct h as [|[|h]]; cbn in Hcol;
    simplify_eq; destruct g; eexists; vm_compute; reflexivity.
Qed.

(** C9.  The Gaussian generator does not return the values it draws: the
    observations go through an [int] array.  With the normal draws 3/2,
    -1/2 and 3/2 for the three channels of the first frame, the triple
    returned is (1, 0, 1). *)
Theorem gaussian_draws_are_truncated :
  sampleG bool coin_normal (column (B1 hmmG2) 0) true = Ok (q 3 2, false)
  /\ sampleG bool coin_normal (column (B2 hmmG2) 0) false = Ok (q (-1) 2, true)
  /\ sampleG bool coin_normal (column (B3 hmmG2) 0) true = Ok (q 3 2, false)
  /\ to_int (q 3 2) = Ok 1%Z
  /\ to_int (q (-1) 2) = Ok 0%Z
  /\ generate_sequenceG bool coin_sample coin_normal hmmG2 1 true
     = Ok ([0; 0]%nat, [(1, 0, 1)%Z], false).
Proof. split_and!; by_computation. Qed.

(** ** Sums of products of rationals *)

Lemma qip_nil_r (a : list Qc) : qip a [] = 0.
Proof. unfold qip. by destruct a. Qed.

Lemma qip_cons (x y : Qc) (a b : list Qc) :
  qip (x :: a) (y :: b) = x * y + qip a b.
Proof. reflexivity. Qed.

Lemma qip_zero_l {X : Type} (l : list X) (w : list Qc) :
  qip (map (fun _ => 0) l) w = 0.
Proof.
  revert w. induction l as [|x l IH]; intros [|y w]; try done.
  cbn [map]. rewrite qip_cons, IH. ring.
Qed.

Lemma qip_add_l {X : Type} (a b : X -> Qc) (l : list X) (w : list Qc) :
  qip (map (fun j => a j + b j) l) w = qip (map a l) w + qip (map b l) w.
Proof.
  revert w. induction l as [|x l IH]; intros [|y w]; cbn [map].
  - unfold qip. cbn. ring.
  - unfold qip. cbn. ring.
  - rewrite !qip_nil_r. ring.
  - rewrite !qip_cons, IH. ring.
Qed.

Lemma qip_scale_l (c : Qc) (a w : list Qc) :
  qip (map (fun x => x * c) a) w = c * qip a w.
Proof.
  revert w. induction a as [|x a IH]; intros [|y w]; cbn [map].
  - unfold qip. cbn. ring.
  - unfold qip. cbn. ring.
  - rewrite !qip_nil_r. ring.
  - rewrite !qip_cons, IH. ring.
Qed.

Lemma qip_div_l (c : Qc) (a w : list Qc) :
  qip (map (fun x => x / c) a) w = qip a w / c.
Proof.
  unfold Qcdiv. rewrite (qip_scale_l (/ c)). ring.
Qed.

Lemma qip_mul_shift (e x b : list Qc) :
  qip x (zip_with Qcmult e b) = qip (zip_with Qcmult e x) b.
Proof.
  revert x b. induction e as [|e0 e IH]; intros [|x0 x] [|b0 b];
    cbn [zip_with]; rewrite ?qip_nil_r, ?qip_cons, ?IH; try done; try ring.
Qed.

Lemma map_nth_seq (row : list Qc) :
  map (fun j => nth j row 0) (seq 0 (length row)) = row.
Proof.
  induction row as [|x row IH]; [done |].
  cbn [length seq map nth]. f_equal. rewrite <- seq_shift, map_map. exact IH.
Qed.

(** Summing [f_i * A_ij * w_j] by rows or by columns. *)
Lemma qip_adjoint (n : nat) (M : list (list Qc)) (f w : list Qc) :
  Forall (fun row => length row = n) M ->
  length f = length M ->
  qip f (qdot M w) = qip (qtdot n M f) w.
Proof.
  intros HM. revert f. induction HM as [|row M Hrow HM IH]; intros [|f0 f] Hlen;
    try done.
  - unfold qtdot, qcol. cbn [map]. rewrite (qip_zero_l (seq 0 n)). reflexivity.
  - cbn [qdot map]. rewrite qip_cons. fold (qdot M w).
    rewrite IH by (cbn in Hlen; lia).
    assert (qtdot n (row :: M) (f0 :: f)
            = map (fun j => nth j row 0 * f0 + qip (qcol M j) f) (seq 0 n)) as ->.
    { unfold qtdot. apply map_ext. intros j. reflexivity. }
    rewrite (qip_add_l (fun j => nth j row 0 * f0)). fold (qtdot n M f).
    f_equal.
    rewrite <- (map_map (fun j => nth j row 0) (fun x => x * f0)).
    rewrite <- Hrow, map_nth_seq. by rewrite qip_scale_l.
Qed.

(** ** Finite vectors as lists of rationals *)

Lemma fin_vec_inv (v : vec) :
  Forall (fun x => is_fin x = true) v -> exists qs, v = map Fin qs.
Proof.
  induction 1 as [|x v Hx _ [qs ->]]; [by exists [] |].
  destruct x as [a| | |]; try discriminate. by exists (a :: qs).
Qed.

Lemma fin_matrix_inv (M : matrix) :
  Forall (Forall (fun x => is_fin x = true)) M ->
  exists Q, M = map (map Fin) Q.
Proof.
  induction 1 as [|row M Hrow _ [Q ->]]; [by exists [] |].
  destruct (fin_vec_inv row Hrow) as [qs ->]. by exists (qs :: Q).
Qed.

Lemma fin_nonneg_is_fin (x : float64) : fin_nonneg x = true -> is_fin x = true.
Proof. by destruct x. Qed.

Lemma nonneg_vec_fin (v : vec) :
  nonneg_vec v -> Forall (fun x => is_fin x = true) v.
Proof. intros Hv. eapply Forall_impl; [exact Hv |]. apply fin_nonneg_is_fin. Qed.

Lemma map_Fin_inj (a b : list Qc) : map Fin a = map Fin b -> a = b.
Proof.
  revert b. induction a as [|x a IH]; intros [|y b] Hab; try done.
  cbn in Hab. simplify_eq. f_equal. by apply IH.
Qed.

Lemma vmul_Fin (a b : list Qc) :
  vmul (map Fin a) (map Fin b) = map Fin (zip_with Qcmult a b).
Proof.
  unfold vmul. revert b. induction a as [|x a IH]; intros [|y b]; try done.
  cbn [map zip_with fmul]. by rewrite IH.
Qed.

Lemma ip_Fin (a b : list Qc) : vsum (vmul (map Fin a) (map Fin b)) = Fin (qip a b).
Proof. by rewrite vmul_Fin, vsum_Fin. Qed.

Lemma dot_Fin (M : list (list Qc)) (w : list Qc) :
  dot (map (map Fin) M) (map Fin w) = map Fin (qdot M w).
Proof.
  unfold dot, qdot. rewrite !map_map. apply map_ext. intros row. apply ip_Fin.
Qed.

Lemma lookup_total_Fin (row : list Qc) (j : nat) :
  map Fin row !!! j = Fin (nth j row 0).
Proof.
  revert j. induction row as [|x row IH]; intros [|j]; try done. apply IH.
Qed.

Lemma column_Fin (M : list (list Qc)) (j : nat) :
  column (map (map Fin) M) j = map Fin (qcol M j).
Proof.
  unfold column, qcol. rewrite !map_map. apply map_ext. intros row.
  apply lookup_total_Fin.
Qed.

Lemma has_shape_Fin (r c : nat) (M : list (list Qc)) :
  has_shape r c (map (map Fin) M) -> has_shape r c M.
Proof.
  intros [Hlen Hrows]. split; [by rewrite length_map in Hlen |].
  apply Forall_fmap in Hrows. eapply Forall_impl; [exact Hrows |].
  intros row. unfold compose. by rewrite length_map.
Qed.

Lemma tdot_Fin (n : nat) (M : list (list Qc)) (f : list Qc) :
  (0 < n)%nat -> has_shape n n (map (map Fin) M) ->
  dot (transpose (map (map Fin) M)) (map Fin f) = map Fin (qtdot n M f).
Proof.
  intros Hn HM. unfold dot, transpose, qtdot.
  rewrite (has_shape_ncols _ _ _ Hn HM), !map_map. apply map_ext. intros j.
  by rewrite column_Fin, ip_Fin.
Qed.

Lemma fmul_Fin_inv (x y : float64) (c : Qc) :
  fmul x y = Fin c -> exists a b, x = Fin a /\ y = Fin b.
Proof.
  destruct x as [a| | |], y as [b| | |]; cbn [fmul]; try discriminate;
    try (unfold inf_of_sign; destruct (_ ?= _); discriminate).
  by exists a, b.
Qed.

Lemma vmul_Fin_inv (x y : vec) (qs : list Qc) :
  length x = length y -> vmul x y = map Fin qs ->
  (exists a, x = map Fin a) /\ (exists b, y = map Fin b).
Proof.
  unfold vmul. revert y qs. induction x as [|x0 x IH]; intros [|y0 y] qs Hlen Hv;
    try done.
  - split; by exists [].
  - destruct qs as [|q0 qs]; [done |]. cbn [zip_with map] in Hv.
    injection Hv as H0 Hv. cbn in Hlen.
    destruct (IH y qs) as [[a ->] [b ->]]; [lia | done |].
    destruct (fmul_Fin_inv _ _ _ H0) as (a0 & b0 & -> & ->).
    split; [by exists (a0 :: a) | by exists (b0 :: b)].
Qed.

(** One step of the smoother: the inner product of [f_t] with the
    unnormalised backward message at [t] is the forward normaliser times
    the inner product at [t+1]. *)
Lemma smoothing_step (n : nat) (M : list (list Qc)) (qf qe qb : list Qc) (c : Qc) :
  (0 < n)%nat ->
  has_shape n n (map (map Fin) M) ->
  length qf = n ->
  vsum (vmul (map Fin qe) (dot (transpose (map (map Fin) M)) (map Fin qf))) = Fin c ->
  c <> 0 ->
  exists s,
    vsum (vmul (vdiv (vmul (map Fin qe) (dot (transpose (map (map Fin) M)) (map Fin qf)))
                     (Fin c))
               (map Fin qb)) = Fin s
    /\ vsum (vmul (map Fin qf) (dot (map (map Fin) M) (vmul (map Fin qe) (map Fin qb))))
       = Fin (c * s).
Proof.
  intros Hn HM Hf Hsum Hc. pose proof (has_shape_Fin _ _ _ HM) as [HMl HMr].
  rewrite (tdot_Fin n), vmul_Fin in Hsum |- * by done.
  rewrite vsum_Fin in Hsum. injection Hsum as Hsum.
  set (qv := zip_with Qcmult qe (qtdot n M qf)) in *.
  exists (qip qv qb / c). split.
  - by rewrite vdiv_Fin, ip_Fin, qip_div_l.
  - rewrite vmul_Fin, dot_Fin, ip_Fin. f_equal.
    rewrite (qip_adjoint n) by (done || lia).
    rewrite qip_mul_shift. fold qv. by field.
Qed.

(** ** The two arithmetics

    The routines over the exact arithmetic of [float64] are the routines
    of the sections above: the statements below about [forwardHMM],
    [viterbiHMM], [sample] and the others are statements about
    [Arith.forwardHMM exact] and the others, the same program text that
    the binary64 computations run. *)

Lemma exact_routines (hmm : HMM) (obs : list frame) (c : float64) :
  Arith.forwardHMM exact (exact_model hmm) obs = forwardHMM hmm obs
  /\ Arith.backwardHMM exact (exact_model hmm) obs = backwardHMM hmm obs
  /\ Arith.backward_from exact c (exact_model hmm) obs = backward_from c hmm obs
  /\ Arith.smooth_from exact c (exact_model hmm) obs = smooth_from c hmm obs
  /\ Arith.forward_backwardHMM exact (exact_model hmm) obs
     = forward_backwardHMM hmm obs
  /\ Arith.viterbiHMM exact (exact_model hmm) obs = viterbiHMM hmm obs
  /\ Arith.viterbi_unnormalized exact (exact_model hmm) obs
     = viterbi_loop weigh false hmm obs.
Proof. split_and!; reflexivity. Qed.

Lemma exact_sample (rng : Type) (random_sample : rng -> Qc * rng)
    (dist : vec) (g : rng) :
  Arith.sample exact rng (exact_draws random_sample) dist g
  = sample rng random_sample dist g.
Proof. unfold Arith.sample, sample, exact_draws. by destruct (random_sample g). Qed.

Lemma exact_generate_sequence (rng : Type) (random_sample : rng -> Qc * rng)
    (hmm : HMM) (L : Z) (g : rng) :
  Arith.generate_sequence exact rng (exact_draws random_sample) (exact_model hmm) L g
  = generate_sequence rng random_sample hmm L g.
Proof.
  unfold Arith.generate_sequence, generate_sequence.
  destruct (bool_decide (L < 0)%Z); [done |].
  cbn [Arith.pi exact_model]. rewrite exact_sample.
  destruct (sample rng random_sample (pi hmm) g) as [h0 g1].
  apply for_each_ext. intros [[hidden obs] g2] i.
  unfold Arith.generate_body, generate_body.
  cbn [Arith.A Arith.B1 Arith.B2 Arith.B3 exact_model].
  change (Arith.getcol exact) with getcol.
  destruct (getitem (A hmm) _) as [row|]; [|done]. cbn.
  rewrite exact_sample. destruct (sample rng random_sample row g2) as [h g3].
  destruct (getcol (B1 hmm) _) as [c1|]; [|done]. cbn.
  rewrite exact_sample. destruct (sample rng random_sample c1 g3) as [o1 g4].
  destruct (getcol (B2 hmm) _) as [c2|]; [|done]. cbn.
  rewrite exact_sample. destruct (sample rng random_sample c2 g4) as [o2 g5].
  destruct (getcol (B3 hmm) _) as [c3|]; [|done]. cbn.
  rewrite exact_sample. by destruct (sample rng random_sample c3 g5) as [o3 g6].
Qed.

(** The backward messages of [backwardHMM] are never rescaled.  On the
    single-state model [hmm1] every frame halves them: over 1100 frames
    of symbol 0 the exact messages stay positive and every row of
    [f * b] has a sum other than 0, but the first messages are below
    2^-1022; in binary64 the forward rows are [[1.0]] while the first
    backward rows are [[0.0]], and the first rows of the posterior are
    [[nan]]. *)
Lemma backward_messages_underflow :
  let obs := replicate 1100 (0, 0, 0)%Z in
  valid_hmm hmm1 = true
  /\ forward_regular emission hmm1 obs = true
  /\ smoother_regular hmm1 obs = true
  /\ smoother_in_range (Fin (Qc_of_Z 10000000)) hmm1 obs = false
  /\ Arith.forwardHMM binary64 (binary64_model hmm1) obs
     = Ok (replicate 1101 [1%float])
  /\ (exists b,
        Arith.backwardHMM binary64 (binary64_model hmm1) obs = Ok b
        /\ take 3 b = [[0%float]; [0%float]; [0%float]])
  /\ (exists post,
        Arith.forward_backwardHMM binary64 (binary64_model hmm1) obs = Ok post
        /\ take 3 post = [[nan]; [nan]; [nan]]).
Proof.
  cbv zeta. split_and!; try (vm_compute; reflexivity).
  - eexists. split; vm_compute; reflexivity.
  - eexists. split; vm_compute; reflexivity.
Qed.

(** ** The smoother *)

Lemma qip_comm (a b : list Qc) : qip a b = qip b a.
Proof.
  revert b. induction a as [|x a IH]; intros [|y b]; try done.
  rewrite !qip_cons, IH. ring.
Qed.

Lemma qip_div_r (c : Qc) (a w : list Qc) :
  qip a (map (fun x => x / c) w) = qip a w / c.
Proof. by rewrite qip_comm, qip_div_l, qip_comm. Qed.

Lemma qip_replicate (c : Qc) (a : list Qc) :
  qip a (replicate (length a) c) = c * qsum a.
Proof.
  induction a as [|x a IH]; cbn [length replicate qsum].
  - unfold qip. cbn. ring.
  - rewrite qip_cons, IH. ring.
Qed.

Lemma ones_times_Fin (n : nat) (c : Qc) :
  ones_times n (Fin c) = map Fin (replicate n (1 * c)).
Proof. unfold ones_times. by rewrite !fmap_replicate. Qed.

Section forward_regular_facts.
Context {O : Type} `{Inhabited O}.
Variable emit : HMM -> O -> result vec.

Lemma forward_regular_emits (hmm : HMM) (f_t : vec) (obs : list O) :
  forward_regular_from emit hmm f_t obs = true ->
  forall o, o ∈ obs -> exists bs, emit hmm o = Ok bs.
Proof.
  revert f_t. induction obs as [|o' obs IH]; intros f_t Hreg o Ho.
  - by apply elem_of_nil in Ho.
  - cbn [forward_regular_from] in Hreg.
    destruct (forward_v emit hmm o' f_t) as [v|] eqn:Ev; [|done].
    apply andb_true_iff in Hreg as [_ Hreg].
    apply elem_of_cons in Ho as [->|Ho]; [|by eapply IH].
    destruct (forward_v_inv _ _ _ _ _ Ev) as (bs & Hbs & _). by exists bs.
Qed.

(** Under regularity the forward loop runs to its end and every division
    is by a finite sum other than zero. *)
Lemma forward_regular_rows (hmm : HMM) (obs : list O) :
  forward_regular emit hmm obs = true ->
  exists f, forward_loop emit hmm obs = Ok f
    /\ length f = S (length obs)
    /\ f !! 0%nat = Some (pi hmm)
    /\ (forall t o, obs !! t = Some o ->
          exists bs f_t, emit hmm o = Ok bs /\ f !! t = Some f_t
            /\ fin_nonzero (vsum (vmul bs (dot (transpose (A hmm)) f_t))) = true
            /\ f !! S t = Some (let v := vmul bs (dot (transpose (A hmm)) f_t) in
                                vdiv v (vsum v))).
Proof.
  intros Hreg.
  destruct (forward_loop_rows emit hmm obs (forward_regular_emits _ _ _ Hreg))
    as (f & Hf & Hlen & Hr0 & Hrec).
  exists f. split_and!; [done | done | done |].
  assert (forall t f_t, (t <= length obs)%nat -> f !! t = Some f_t ->
            forward_regular_from emit hmm f_t (drop t obs) = true) as Hregt.
  { induction t as [|t IH]; intros f_t Ht Hft.
    - rewrite drop_0. unfold forward_regular in Hreg. congruence.
    - destruct (lookup_lt_is_Some_2 obs t) as [o Ho]; [lia |].
      destruct (Hrec t o Ho) as (bs & f_prev & Hbs & Hprev & Hnext).
      specialize (IH f_prev ltac:(lia) Hprev).
      rewrite (drop_S _ _ _ Ho) in IH. cbn [forward_regular_from] in IH.
      unfold forward_v in IH. rewrite Hbs, bind_Ok in IH.
      apply andb_true_iff in IH as [_ IH]. congruence. }
  intros t o Ho. destruct (Hrec t o Ho) as (bs & f_t & Hbs & Hft & Hnext).
  exists bs, f_t. split_and!; [done | done | | done].
  assert (t < length obs)%nat as Ht by by eapply lookup_lt_Some.
  specialize (Hregt t f_t ltac:(lia) Hft).
  rewrite (drop_S _ _ _ Ho) in Hregt. cbn [forward_regular_from] in Hregt.
  unfold forward_v in Hregt. rewrite Hbs, bind_Ok in Hregt.
  by apply andb_true_iff in Hregt as [? _].
Qed.
End forward_regular_facts.

Section smoothing_facts.
Context {O : Type} `{Inhabited O}.
Variable emit : HMM -> O -> result vec.
Variable hmm : HMM.
Variable obs : list O.
Variables f b : matrix.
Variable M : list (list Qc).

Hypothesis states : (0 < num_states hmm)%nat.
Hypothesis A_fin : A hmm = map (map Fin) M.
Hypothesis A_shape : has_shape (num_states hmm) (num_states hmm) (A hmm).
Hypothesis pi_sum : vsum (pi hmm) = Fin 1.
Hypothesis emit_length : forall o bs,
  o ∈ obs -> emit hmm o = Ok bs -> length bs = num_states hmm.
Hypothesis f_length : length f = S (length obs).
Hypothesis b_length : length b = S (length obs).
Hypothesis f_first : f !! 0%nat = Some (pi hmm).
Hypothesis f_rows : forall t o, obs !! t = Some o ->
  exists bs f_t, emit hmm o = Ok bs /\ f !! t = Some f_t
    /\ fin_nonzero (vsum (vmul bs (dot (transpose (A hmm)) f_t))) = true
    /\ f !! S t = Some (let v := vmul bs (dot (transpose (A hmm)) f_t) in
                        vdiv v (vsum v)).
Hypothesis b_last : exists c0, c0 <> 0
  /\ b !! length obs = Some (ones_times (num_states hmm) (Fin c0)).
Hypothesis b_rows : forall t o, obs !! t = Some o ->
  exists bs b_next k, emit hmm o = Ok bs /\ b !! S t = Some b_next /\ k <> 0
    /\ b !! t = Some (vdiv (dot (A hmm) (vmul bs b_next)) (Fin k)).

Lemma length_tdot (v : vec) :
  length (dot (transpose (A hmm)) v) = num_states hmm.
Proof.
  unfold dot. rewrite length_map, length_transpose.
  by apply has_shape_ncols with (r := num_states hmm).
Qed.

(** Every forward row is a finite vector of sum 1, one entry per state. *)
Lemma smoothing_forward_row (t : nat) (f_t : vec) :
  (t <= length obs)%nat -> f !! t = Some f_t ->
  exists qf, f_t = map Fin qf /\ length qf = num_states hmm /\ qsum qf = 1.
Proof.
  revert f_t. induction t as [|t IH]; intros f_t Ht Hft.
  - rewrite f_first in Hft. simplify_eq.
    destruct (vsum_Fin_inv _ _ pi_sum) as (qf & Hqf & Hsum).
    exists qf. split_and!; [done | | done].
    unfold num_states. by rewrite Hqf, length_map.
  - destruct (lookup_lt_is_Some_2 obs t) as [o Ho]; [lia |].
    destruct (f_rows t o Ho) as (bs & f_prev & Hbs & Hprev & Hnz & Hnext).
    rewrite Hnext in Hft. simplify_eq. cbv zeta.
    destruct (fin_nonzero_inv _ Hnz) as (c & Hc & Hne).
    destruct (vsum_Fin_inv _ _ Hc) as (qv & Hqv & Hsum).
    exists (map (fun a => a / c) qv). rewrite Hc, Hqv, vdiv_Fin by done.
    split_and!; [done | | ].
    + rewrite length_map, <- (length_map Fin qv), <- Hqv, length_vmul, length_tdot.
      rewrite (emit_length o bs); [lia | by eapply list_elem_of_lookup_2 | done].
    + rewrite qsum_scale, <- Hsum. by field.
Qed.

Lemma smoothing_emission (t : nat) (o : O) (bs : vec) :
  obs !! t = Some o -> emit hmm o = Ok bs -> exists qe, bs = map Fin qe.
Proof.
  intros Ho Hbs.
  destruct (f_rows t o Ho) as (bs' & f_t & Hbs' & Hft & Hnz & _).
  assert (bs' = bs) as -> by congruence.
  destruct (fin_nonzero_inv _ Hnz) as (c & Hc & _).
  destruct (vsum_Fin_inv _ _ Hc) as (qv & Hqv & _).
  apply vmul_Fin_inv in Hqv as [Hx _]; [done |].
  rewrite length_tdot. apply emit_length with (o := o); [|done].
  by eapply list_elem_of_lookup_2.
Qed.

(** Every backward row is finite, and its inner product with the forward
    row of the same time is finite and not zero. *)
Lemma smoothing_inner_product (d t : nat) :
  (t + d = length obs)%nat ->
  exists f_t qb s,
    f !! t = Some f_t /\ b !! t = Some (map Fin qb)
    /\ vsum (vmul f_t (map Fin qb)) = Fin s /\ s <> 0.
Proof.
  revert t. induction d as [|d IH]; intros t Ht.
  - assert (t = length obs) as -> by lia.
    destruct b_last as (c0 & Hc0 & Hlast).
    destruct (lookup_lt_is_Some_2 f (length obs)) as [f_T HfT]; [lia |].
    destruct (smoothing_forward_row _ _ (Nat.le_refl _) HfT) as (qf & -> & Hlen & Hsum).
    exists (map Fin qf), (replicate (num_states hmm) (1 * c0)), c0.
    rewrite <- ones_times_Fin. split_and!; [done | done | | done].
    rewrite ones_times_Fin, ip_Fin, <- Hlen, qip_replicate, Hsum. f_equal. ring.
  - destruct (lookup_lt_is_Some_2 obs t) as [o Ho]; [lia |].
    destruct (IH (S t)) as (f_next & qb & s & Hfn & Hbn & Hs & Hsne); [lia |].
    destruct (f_rows t o Ho) as (bs & f_t & Hbs & Hft & Hnz & Hnext).
    destruct (b_rows t o Ho) as (bs' & b_next & k & Hbs' & Hbn' & Hk & Hbt).
    assert (bs' = bs) as -> by congruence.
    assert (b_next = map Fin qb) as -> by congruence.
    destruct (smoothing_emission t o bs Ho Hbs) as [qe ->].
    destruct (smoothing_forward_row t f_t) as (qf & -> & Hqfl & _);
      [lia | done |].
    destruct (fin_nonzero_inv _ Hnz) as (c & Hc & Hcne).
    cbv zeta in Hnext. rewrite Hc, Hfn in Hnext.
    injection Hnext as ->.
    rewrite A_fin in Hc, Hs, Hbt.
    destruct (smoothing_step (num_states hmm) M qf qe qb c) as (s' & Hs' & Hstep);
      [done | by rewrite <- A_fin | done | done | done |].
    assert (s' = s) as -> by congruence.
    rewrite vmul_Fin, dot_Fin, vdiv_Fin in Hbt by done.
    rewrite vmul_Fin, dot_Fin, ip_Fin in Hstep. injection Hstep as Hstep.
    eexists _, _, _. split_and!; [done | exact Hbt | apply ip_Fin |].
    rewrite qip_div_r, Hstep. unfold Qcdiv. intros Hz.
    apply Qcmult_integral in Hz as [Hz|Hz].
    + apply Qcmult_integral in Hz as [?|?]; done.
    + pose proof (Qcmult_inv_r k Hk) as Hinv. rewrite Hz in Hinv.
      replace (k * 0) with 0 in Hinv by ring. done.
Qed.

(** Every row of the posterior is the product of the forward and backward
    rows divided by its sum, and has sum 1. *)
Lemma smoothing_rows :
  length (normalize_rows (mmul f b)) = S (length obs)
  /\ (forall t row, normalize_rows (mmul f b) !! t = Some row ->
        exists f_t b_t, f !! t = Some f_t /\ b !! t = Some b_t
          /\ row = vdiv (vmul f_t b_t) (vsum (vmul f_t b_t))
          /\ vsum row = Fin 1).
Proof.
  split.
  - unfold normalize_rows, mmul. rewrite length_map, length_zip_with. lia.
  - intros t row Hrow. unfold normalize_rows, mmul in Hrow.
    rewrite list_lookup_fmap in Hrow.
    destruct (zip_with vmul f b !! t) as [fb|] eqn:Hfb; [|done].
    apply lookup_zip_with_Some in Hfb as (f_t & b_t & -> & Hft & Hbt).
    cbn in Hrow. simplify_eq. exists f_t, b_t. split_and!; [done | done | done |].
    assert (t <= length obs)%nat as Ht.
    { apply lookup_lt_Some in Hft. lia. }
    destruct (smoothing_inner_product (length obs - t) t) as (f_t' & qb & s & ? & ? & Hs & Hne);
      [lia |].
    simplify_eq. apply vsum_normalized. rewrite Hs. cbn [fin_nonzero].
    by apply bool_decide_eq_true.
Qed.
End smoothing_facts.

Section gaussian_backward_facts.
Variable np_pi : float64.
Variables np_sqrt np_exp : float64 -> float64.

Lemma backwardHMMG_rows (hmm : HMM) (obs : list frameG) :
  backwardG_regular np_pi np_sqrt np_exp hmm obs = true ->
  exists b, backwardHMMG np_pi np_sqrt np_exp hmm obs = Ok b
    /\ length b = S (length obs)
    /\ b !! length obs = Some (ones_times (length (pi hmm)) (Fin (Qc_of_Z 1000)))
    /\ (forall t o, obs !! t = Some o ->
          exists bs b_next c,
            calcB np_pi np_sqrt np_exp hmm o = Ok bs /\ b !! S t = Some b_next
            /\ c <> 0
            /\ b !! t = Some (vdiv (dot (A hmm) (vmul bs b_next)) (Fin c))).
Proof.
  intros Hreg. unfold backwardG_regular in Hreg. unfold backwardHMMG.
  set (last := ones_times (length (pi hmm)) (Fin (Qc_of_Z 1000))) in *.
  set (b0 := <[length obs:=last]> (zeros (length obs + 1) (length (pi hmm)))).
  pose (P := fun (j : nat) (b : matrix) =>
    length b = S (length obs)
    /\ b !! length obs = Some last
    /\ (forall t o, (length obs - j <= t)%nat -> obs !! t = Some o ->
          exists bs b_next c,
            calcB np_pi np_sqrt np_exp hmm o = Ok bs /\ b !! S t = Some b_next
            /\ c <> 0
            /\ b !! t = Some (vdiv (dot (A hmm) (vmul bs b_next)) (Fin c)))
    /\ (exists b_t, b !! (length obs - j)%nat = Some b_t
          /\ backward_regular_from (calcB np_pi np_sqrt np_exp) hmm b_t
               (drop j (reverse obs)) = true)).
  destruct (for_each_inv (backwardG_body np_pi np_sqrt np_exp hmm obs) P
              (reverse (seq 1 (length obs))) b0)
    as (b & Hb & Hlen & Hlast & Hrec & _).
  - assert (b0 !! length obs = Some last) as Hl0.
    { apply list_lookup_insert_eq. unfold zeros. rewrite length_replicate. lia. }
    unfold P. split_and!.
    + unfold b0, zeros. rewrite length_insert, length_replicate. lia.
    + done.
    + intros t o Ht Ho. apply lookup_lt_Some in Ho. lia.
    + exists last. rewrite Nat.sub_0_r, drop_0. done.
  - intros j x b Hx (Hlen & Hlast & Hrec & b_t & Hbt & Hregj).
    apply reverse_lookup_Some in Hx as [Hx Hj]. rewrite length_seq in Hx, Hj.
    apply lookup_seq in Hx as [-> _].
    replace (1 + (length obs - S j))%nat with (length obs - j)%nat by lia.
    set (t := (length obs - j)%nat) in *.
    destruct (lookup_lt_is_Some_2 obs (t - 1)) as [o Ho]; [lia |].
    assert (reverse obs !! j = Some o) as Hrev.
    { apply reverse_lookup_Some. split; [|lia].
      by replace (length obs - S j)%nat with (t - 1)%nat by lia. }
    rewrite (drop_S _ _ _ Hrev) in Hregj. cbn [backward_regular_from] in Hregj.
    destruct (calcB np_pi np_sqrt np_exp hmm o) as [bs|] eqn:Hbs; [|done].
    apply andb_true_iff in Hregj as [Hnz Hregj].
    destruct (fin_nonzero_inv _ Hnz) as (c & Hc & Hcne).
    eexists. split.
    { unfold backwardG_body.
      rewrite (list_lookup_total_correct _ _ _ Ho),
        (list_lookup_total_correct _ _ _ Hbt), Hbs. reflexivity. }
    unfold P. rewrite length_insert. split_and!; [done | | | ].
    + rewrite list_lookup_insert_ne by lia. done.
    + intros t' o' Ht' Ho'. destruct (decide (t' = t - 1)%nat) as [->|Hne].
      * exists bs, b_t, c. rewrite list_lookup_insert_ne by lia.
        rewrite list_lookup_insert_eq by lia.
        replace (S (t - 1)) with t by lia. rewrite Hc.
        split_and!; [congruence | done | done | done].
      * destruct (Hrec t' o') as (bs' & b' & c' & ? & ? & ? & ?); [lia | done |].
        exists bs', b', c'. by rewrite !list_lookup_insert_ne by lia.
    + eexists. replace (length obs - S j)%nat with (t - 1)%nat by lia.
      rewrite list_lookup_insert_eq by lia. split; [reflexivity | done].
  - exists b. rewrite length_reverse, length_seq in Hrec.
    split_and!; [done | done | done |].
    intros t o Ho. apply Hrec; [lia | done].
Qed.
End gaussian_backward_facts.

Lemma emission_length (hmm : HMM) (o : frame) (bs : vec) :
  wf_hmm hmm = true -> emission hmm o = Ok bs -> length bs = num_states hmm.
Proof.
  intros (_ & _ & H1 & H2 & H3)%wf_hmm_inv Hbs. unfold emission in Hbs.
  apply bind_Ok_inv in Hbs as (b1 & Hb1%getitem_Ok_elem & Hbs).
  apply bind_Ok_inv in Hbs as (b2 & Hb2%getitem_Ok_elem & Hbs).
  apply bind_Ok_inv in Hbs as (b3 & Hb3%getitem_Ok_elem & Hbs). simplify_eq.
  rewrite Forall_forall in H1, H2, H3.
  rewrite !length_vmul, (H1 _ Hb1), (H2 _ Hb2), (H3 _ Hb3). lia.
Qed.

Lemma first_posterior_row (n : nat) (c0 : Qc) (p : vec) :
  c0 <> 0 -> length p = n -> vsum p = Fin 1 ->
  let fb := vmul p (ones_times n (Fin c0)) in
  vdiv fb (vsum fb) = p.
Proof.
  intros Hc Hlen Hsum. cbv zeta.
  destruct (vsum_Fin_inv _ _ Hsum) as (qp & -> & Hq).
  rewrite length_map in Hlen. subst n.
  rewrite ones_times_Fin, ip_Fin, vmul_Fin, qip_replicate, <- Hq.
  replace (1 * c0 * 1) with c0 by ring. replace (1 * c0) with c0 by ring.
  rewrite vdiv_Fin by done.
  f_equal. clear Hq Hsum. induction qp as [|x qp IH]; [done |].
  cbn [length replicate zip_with map]. rewrite IH. f_equal. by field.
Qed.

Lemma nonneg_matrix_fin (M : matrix) :
  nonneg_matrix M -> exists Q, M = map (map Fin) Q.
Proof.
  intros HM. apply fin_matrix_inv. eapply Forall_impl; [exact HM |].
  apply nonneg_vec_fin.
Qed.

Lemma valid_hmmG_A_nonneg (hmm : HMM) : valid_hmmG hmm = true -> nonneg_matrix (A hmm).
Proof.
  intros (_ & _ & HA)%valid_hmmG_dists. apply Forall_forall. intros row Hrow.
  apply is_dist_nonneg. by apply HA.
Qed.

Section gaussian_smoothing_facts.
Variable np_pi : float64.
Variables np_sqrt np_exp : float64 -> float64.

Lemma gaussian_smoothing (hmm : HMM) (obs : list frameG) :
  valid_hmmG hmm = true ->
  forward_regular (calcB np_pi np_sqrt np_exp) hmm obs = true ->
  backwardG_regular np_pi np_sqrt np_exp hmm obs = true ->
  exists f b post,
    forwardHMMG np_pi np_sqrt np_exp hmm obs = Ok f
    /\ backwardHMMG np_pi np_sqrt np_exp hmm obs = Ok b
    /\ forward_backwardHMMG np_pi np_sqrt np_exp hmm obs = Ok post
    /\ smoothing (length obs) f b post
    /\ (obs = [] -> post = [pi hmm]).
Proof.
  intros Hvalid Hreg Hbreg.
  destruct (valid_hmmG_inv hmm Hvalid) as (HN & HA & _).
  destruct (nonneg_matrix_fin _ (valid_hmmG_A_nonneg _ Hvalid)) as [M HM].
  pose proof (valid_hmmG_pi _ Hvalid) as Hpi.
  destruct (forward_regular_rows (calcB np_pi np_sqrt np_exp) hmm obs Hreg)
    as (f & Hf & Hlf & Hf0 & Hfrows).
  destruct (backwardHMMG_rows np_pi np_sqrt np_exp hmm obs Hbreg)
    as (b & Hb & Hlb & Hblast & Hbrows).
  destruct (smoothing_rows (calcB np_pi np_sqrt np_exp) hmm obs f b M)
    as [Hlen Hrows]; try done.
  - intros o bs _ Hbs.
    destruct (calcB_valid np_pi np_sqrt np_exp hmm o Hvalid) as (bs' & Hbs' & Hl).
    congruence.
  - by exists (Qc_of_Z 1000).
  - exists f, b, (normalize_rows (mmul f b)). split_and!; [done | done | | done |].
    + unfold forward_backwardHMMG, forwardHMMG. by rewrite Hf, Hb.
    + intros ->. unfold forward_loop in Hf. unfold backwardHMMG in Hb.
      cbn in Hf, Hb. simplify_eq. cbn [mmul zip_with normalize_rows map].
      f_equal. by apply (first_posterior_row (length (pi hmm))).
Qed.
End gaussian_smoothing_facts.

Lemma for_each_keeps {S1 S2 X : Type} (body : S1 -> X -> result S1)
    (g : S1 -> S2) (xs : list X) (s s' : S1) :
  (forall x s s', x ∈ xs -> body s x = Ok s' -> g s' = g s) ->
  for_each body xs s = Ok s' ->
  g s' = g s.
Proof.
  revert s. induction xs as [|x xs IH]; intros s Hstep Hrun; cbn [for_each] in *.
  - by simplify_eq.
  - apply bind_Ok_inv in Hrun as (s1 & Hb & Hrun).
    assert (x ∈ x :: xs) as Hx by list_mem.
    rewrite (IH s1); [by eapply Hstep | | done].
    intros y t t' Hy. apply Hstep. by apply list_elem_of_further.
Qed.

(** The loops keep the number of rows of the matrix they fill. *)
Lemma forward_loop_length {O : Type} `{Inhabited O} (emit : HMM -> O -> result vec)
    (hmm : HMM) (obs : list O) (f : matrix) :
  forward_loop emit hmm obs = Ok f -> length f = S (length obs).
Proof.
  unfold forward_loop. intros Hrun.
  apply (for_each_keeps _ (@length vec)) in Hrun.
  - rewrite Hrun, length_insert. unfold zeros. rewrite length_replicate. lia.
  - intros t s s' _ Hb. unfold forward_body in Hb.
    apply bind_Ok_inv in Hb as (v & _ & Hb). simplify_eq. by rewrite length_insert.
Qed.

Lemma backward_from_length (c : float64) (hmm : HMM) (obs : list frame) (b : matrix) :
  backward_from c hmm obs = Ok b -> length b = S (length obs).
Proof.
  unfold backward_from. intros Hrun.
  apply (for_each_keeps _ (@length vec)) in Hrun.
  - rewrite Hrun, length_insert. unfold zeros. rewrite length_replicate. lia.
  - intros t s s' _ Hb. unfold backward_body in Hb.
    apply bind_Ok_inv in Hb as (v & _ & Hb). simplify_eq. by rewrite length_insert.
Qed.

Lemma backwardHMMG_length (np_pi : float64) (np_sqrt np_exp : float64 -> float64)
    (hmm : HMM) (obs : list frameG) (b : matrix) :
  backwardHMMG np_pi np_sqrt np_exp hmm obs = Ok b -> length b = S (length obs).
Proof.
  unfold backwardHMMG. intros Hrun.
  apply (for_each_keeps _ (@length vec)) in Hrun.
  - rewrite Hrun, length_insert. unfold zeros. rewrite length_replicate. lia.
  - intros t s s' _ Hb. unfold backwardG_body in Hb.
    apply bind_Ok_inv in Hb as (v & _ & Hb). simplify_eq. by rewrite length_insert.
Qed.

(** When no row of [f * b] has a degenerate sum, the rows of the
    posterior are the rows of [f * b] divided by their sums, and have
    sum 1. *)
Lemma regular_rows_smoothing (T : nat) (f b : matrix) :
  length f = S T -> length b = S T ->
  rows_regular (mmul f b) = true ->
  smoothing T f b (normalize_rows (mmul f b)).
Proof.
  intros Hlf Hlb Hreg. unfold smoothing. split_and!; [done | |].
  - unfold normalize_rows, mmul. rewrite length_map, length_zip_with. lia.
  - intros t row Hrow. unfold normalize_rows in Hrow.
    rewrite list_lookup_fmap in Hrow.
    destruct (mmul f b !! t) as [fb|] eqn:Hfb; [|done].
    cbn in Hrow. simplify_eq.
    unfold rows_regular in Hreg. rewrite forallb_forall in Hreg.
    pose proof (Hreg fb (proj1 (list_elem_of_In _ _) (list_elem_of_lookup_2 _ _ _ Hfb)))
      as Hnz.
    unfold mmul in Hfb.
    apply lookup_zip_with_Some in Hfb as (f_t & b_t & -> & Hft & Hbt).
    exists f_t, b_t. split_and!; [done | done | done |].
    by apply vsum_normalized.
Qed.

Lemma empty_posterior (c0 : Qc) (p : vec) :
  c0 <> 0 -> vsum p = Fin 1 ->
  normalize_rows (mmul [p] [ones_times (length p) (Fin c0)]) = [p].
Proof.
  intros Hc Hsum. unfold normalize_rows, mmul. cbn [zip_with map]. f_equal.
  by apply (first_posterior_row (length p)).
Qed.

(** C2 (amended).  For a valid model and an observation sequence on
    which every row of the product [f * b] of the forward and backward
    matrices has a finite sum other than 0, and every entry of [b] and of
    [f * b] is 0 or lies between 2^-1022 and 2^1000, [forward_backwardHMM]
    returns that product with each row divided by its own sum; the
    posterior has T+1 rows, each of sum 1, and for T = 0 it is [[pi]].  The same holds
    of [forward_backwardHMMG] for a Gaussian model whenever every row of
    [f * b] has a finite sum other than 0: its backward pass rescales
    every row.  The backward rows of [backwardHMM] are never rescaled and
    shrink with every frame; below 2^-1022 binary64 loses them, and from
    2^-1075 on they are 0. *)
Theorem smoother_normalizes (np_pi : float64) (np_sqrt np_exp : float64 -> float64) :
  (forall hmm obs,
     valid_hmm hmm = true ->
     smoother_regular hmm obs = true ->
     smoother_in_range (Fin (Qc_of_Z 10000000)) hmm obs = true ->
     exists f b post,
       forwardHMM hmm obs = Ok f /\ backwardHMM hmm obs = Ok b
       /\ forward_backwardHMM hmm obs = Ok post
       /\ smoothing (length obs) f b post
       /\ (obs = [] -> post = [pi hmm]))
  /\ (forall hmm obs,
        valid_hmmG hmm = true ->
        smootherG_regular np_pi np_sqrt np_exp hmm obs = true ->
        exists f b post,
          forwardHMMG np_pi np_sqrt np_exp hmm obs = Ok f
          /\ backwardHMMG np_pi np_sqrt np_exp hmm obs = Ok b
          /\ forward_backwardHMMG np_pi np_sqrt np_exp hmm obs = Ok post
          /\ smoothing (length obs) f b post
          /\ (obs = [] -> post = [pi hmm])).
Proof.
  split.
  - intros hmm obs Hvalid Hreg _. unfold smoother_regular in Hreg.
    destruct (forwardHMM hmm obs) as [f|] eqn:Hf; [|done].
    destruct (backwardHMM hmm obs) as [b|] eqn:Hb; [|done].
    exists f, b, (normalize_rows (mmul f b)).
    split_and!; [done | done | | |].
    + unfold forward_backwardHMM. by rewrite Hf, Hb.
    + apply regular_rows_smoothing; [| |done].
      * by apply (forward_loop_length emission hmm).
      * by apply (backward_from_length (Fin (Qc_of_Z 10000000)) hmm).
    + intros ->. change (Ok [pi hmm] = Ok f) in Hf.
      change (Ok [ones_times (length (pi hmm)) (Fin (Qc_of_Z 10000000))] = Ok b) in Hb.
      simplify_eq. apply empty_posterior; [done | by apply valid_hmm_pi].
  - intros hmm obs Hvalid Hreg. unfold smootherG_regular in Hreg.
    destruct (forwardHMMG np_pi np_sqrt np_exp hmm obs) as [f|] eqn:Hf; [|done].
    destruct (backwardHMMG np_pi np_sqrt np_exp hmm obs) as [b|] eqn:Hb; [|done].
    exists f, b, (normalize_rows (mmul f b)).
    split_and!; [done | done | | |].
    + unfold forward_backwardHMMG. by rewrite Hf, Hb.
    + apply regular_rows_smoothing; [| |done].
      * by apply (forward_loop_length (calcB np_pi np_sqrt np_exp) hmm).
      * by apply (backwardHMMG_length np_pi np_sqrt np_exp hmm).
    + intros ->. change (Ok [pi hmm] = Ok f) in Hf.
      change (Ok [ones_times (length (pi hmm)) (Fin (Qc_of_Z 1000))] = Ok b) in Hb.
      simplify_eq. apply empty_posterior; [done | by apply valid_hmmG_pi].
Qed.

Lemma smoother_normalizes_witness :
  (exists f b post,
     forwardHMM hmm2 [(0, 0, 0); (1, 0, 0)]%Z = Ok f
     /\ backwardHMM hmm2 [(0, 0, 0); (1, 0, 0)]%Z = Ok b
     /\ forward_backwardHMM hmm2 [(0, 0, 0); (1, 0, 0)]%Z = Ok post
     /\ smoothing 2 f b post
     /\ ([(0, 0, 0); (1, 0, 0)]%Z = [] -> post = [pi hmm2]))
  /\ (exists f b post,
        forwardHMMG approx_pi approx_sqrt approx_exp hmmG2 [(q 1 2, q 0 1, q 1 3)]
        = Ok f
        /\ backwardHMMG approx_pi approx_sqrt approx_exp hmmG2 [(q 1 2, q 0 1, q 1 3)]
           = Ok b
        /\ forward_backwardHMMG approx_pi approx_sqrt approx_exp hmmG2
             [(q 1 2, q 0 1, q 1 3)] = Ok post
        /\ smoothing 1 f b post
        /\ ([(q 1 2, q 0 1, q 1 3)] = [] -> post = [pi hmmG2])).
Proof.
  split.
  - apply (proj1 (smoother_normalizes approx_pi approx_sqrt approx_exp));
      vm_compute; reflexivity.
  - apply (proj2 (smoother_normalizes approx_pi approx_sqrt approx_exp));
      vm_compute; reflexivity.
Defined.

(** C2 as stated fails: in the valid model [hmm_zero] the frame (1, 0, 0)
    has likelihood zero in both states, and the rows of the posterior are
    [nan], of sum [nan].  And on the valid model [hmm1] with 1100 frames
    of symbol 0, where no row of [f * b] has sum zero but the first
    backward messages are below 2^-1022, the binary64 posterior begins
    with rows [[nan]]. *)
Lemma smoother_zero_likelihood :
  valid_hmm hmm_zero = true
  /\ obs_in_range hmm_zero [(1, 0, 0)]%Z = true
  /\ forward_backwardHMM hmm_zero [(1, 0, 0)]%Z = Ok [[NaN; NaN]; [NaN; NaN]]
  /\ vsum [NaN; NaN] <> Fin 1
  /\ valid_hmm hmm1 = true
  /\ smoother_regular hmm1 (replicate 1100 (0, 0, 0)%Z) = true
  /\ smoother_in_range (Fin (Qc_of_Z 10000000)) hmm1 (replicate 1100 (0, 0, 0)%Z)
     = false
  /\ (exists post,
        Arith.forward_backwardHMM binary64 (binary64_model hmm1)
          (replicate 1100 (0, 0, 0)%Z) = Ok post
        /\ take 3 post = [[nan]; [nan]; [nan]]).
Proof.
  destruct backward_messages_underflow as (? & _ & ? & ? & _ & _ & ?).
  split_and!; try done; by_computation.
Qed.

(** ** Models with a single state *)

Lemma replicate_of_lookups {X : Type} (l : list X) (n : nat) (c : X) :
  length l = n -> (forall i x, l !! i = Some x -> x = c) -> l = replicate n c.
Proof.
  intros Hlen Hall. apply list_eq. intros i.
  destruct (l !! i) as [x|] eqn:Hi.
  - rewrite (Hall i x Hi). symmetry. apply lookup_replicate_2.
    apply lookup_lt_Some in Hi. lia.
  - symmetry. apply lookup_replicate_None. apply lookup_ge_None in Hi. lia.
Qed.

Lemma singleton_sum_one (v : vec) :
  (length v <= 1)%nat -> vsum v = Fin 1 -> v = [Fin 1].
Proof.
  destruct v as [|x [|y v]]; cbn [length]; intros Hlen Hsum; [| |lia].
  - cbn in Hsum. by simplify_eq.
  - unfold vsum in Hsum. cbn [foldl] in Hsum.
    apply fadd_Fin_inv in Hsum as (a & b & Ha & -> & Hab). simplify_eq.
    do 2 f_equal. rewrite Hab. ring.
Qed.

Lemma fadd_zero_one (y : float64) : fadd (Fin 0) (fmul (Fin 1) y) = y.
Proof.
  destruct y as [a| | |]; try reflexivity. cbn [fmul fadd]. f_equal. ring.
Qed.

(** The only stochastic matrix on one state. *)
Lemma single_state_A (hmm : HMM) :
  valid_hmm hmm = true -> num_states hmm = 1%nat -> A hmm = [[Fin 1]].
Proof.
  intros (_ & HAl & HA & _)%valid_hmm_dists HN. rewrite HN in HAl.
  destruct (A hmm) as [|row [|? ?]] eqn:E; try done. f_equal.
  destruct (HA row) as [Hd Hl]; [apply list_elem_of_here |].
  apply singleton_sum_one; [lia | by apply is_dist_sum].
Qed.

(** C5 (amended).  For a valid model with a single state and observations
    in range: Viterbi returns the all-zero path of length T+1; Forward
    returns the row [[1.0]] at each of the T+1 time steps when no frame has
    likelihood zero; Smoother does when every row of [f * b] has a finite
    sum other than 0 and every entry of [b] and of [f * b] is 0 or lies
    between 2^-1022 and 2^1000; Backward returns T+1 rows of one entry that are never
    normalised: the last is [[10000000.0]] and row t is the likelihood
    of frame t times row t+1. *)
Theorem single_state_model (hmm : HMM) (obs : list frame) :
  valid_hmm hmm = true ->
  num_states hmm = 1%nat ->
  obs_in_range hmm obs = true ->
  (forward_regular emission hmm obs = true ->
     forwardHMM hmm obs = Ok (replicate (S (length obs)) [Fin 1]))
  /\ (smoother_regular hmm obs = true ->
      smoother_in_range (Fin (Qc_of_Z 10000000)) hmm obs = true ->
        forward_backwardHMM hmm obs = Ok (replicate (S (length obs)) [Fin 1]))
  /\ (exists vs, viterbiHMM hmm obs = Ok (replicate (S (length obs)) 0%nat, vs))
  /\ (exists b, backwardHMM hmm obs = Ok b
        /\ length b = S (length obs)
        /\ b !! length obs = Some [Fin (Qc_of_Z 10000000)]
        /\ forall t o, obs !! t = Some o ->
             exists e x, emission hmm o = Ok [e] /\ b !! S t = Some [x]
                         /\ b !! t = Some [fmul e x]).
Proof.
  intros Hvalid HN Hobs. pose proof (valid_hmm_wf _ Hvalid) as Hwf.
  pose proof (in_range_emission hmm obs Hwf Hobs) as Hemit.
  assert (forall f t row, forwardHMM hmm obs = Ok f -> f !! t = Some row ->
            (length row <= 1)%nat) as Hfrow.
  { intros f t row Hf Hrow.
    destruct (forward_loop_rows emission hmm obs Hemit) as (f' & Hf' & _ & Hf0 & Hrec).
    assert (f' = f) as -> by (unfold forwardHMM in Hf; congruence).
    destruct t as [|t].
    - rewrite Hf0 in Hrow. simplify_eq. unfold num_states in HN. lia.
    - assert (t < length obs)%nat as Ht.
      { apply lookup_lt_Some in Hrow.
        pose proof (forward_loop_length emission hmm obs f Hf'). lia. }
      destruct (lookup_lt_is_Some_2 obs t Ht) as [o Ho].
      destruct (Hrec t o Ho) as (bs & f_t & Hbs & _ & Hnext).
      rewrite Hnext in Hrow. simplify_eq. cbv zeta.
      rewrite length_vdiv, length_vmul, (emission_length hmm o bs) by done. lia. }
  split_and!.
  - intros Hreg.
    destruct (forward_loop_filtering emission hmm obs (valid_hmm_pi _ Hvalid) Hreg)
      as (f & Hf & Hflen & _ & _ & Hfsum & _).
    change (forwardHMM hmm obs = Ok f) in Hf. rewrite Hf. f_equal.
    apply replicate_of_lookups; [done |]. intros t row Hrow.
    apply singleton_sum_one; [by eapply Hfrow |].
    apply Hfsum. by eapply list_elem_of_lookup_2.
  - intros Hreg _. unfold smoother_regular in Hreg.
    destruct (forwardHMM hmm obs) as [f|] eqn:Hf; [|done].
    destruct (backwardHMM hmm obs) as [b|] eqn:Hb; [|done].
    destruct (regular_rows_smoothing (length obs) f b) as (_ & Hplen & Hprows);
      [by apply (forward_loop_length emission hmm)
      | by apply (backward_from_length (Fin (Qc_of_Z 10000000)) hmm) | done |].
    unfold forward_backwardHMM. rewrite Hf, Hb, !bind_Ok. f_equal.
    apply replicate_of_lookups; [done |]. intros t row Hrow.
    destruct (Hprows t row Hrow) as (f_t & b_t & Hft & Hbt & -> & Hsum).
    apply singleton_sum_one; [|done].
    rewrite length_vdiv, length_vmul. pose proof (Hfrow f t f_t eq_refl Hft). lia.
  - destruct (viterbiHMM_decoding hmm obs Hvalid Hobs)
      as (path & vs & Hrun & Hlen & Hstates & _).
    exists vs. rewrite Hrun. do 2 f_equal.
    apply replicate_of_lookups; [done |]. intros t s Hs.
    rewrite Forall_forall in Hstates.
    pose proof (Hstates s (list_elem_of_lookup_2 _ _ _ Hs)). lia.
  - destruct (backward_from_rows (Fin (Qc_of_Z 10000000)) hmm obs Hemit)
      as (b & Hb & Hlen & Hlast & Hrows).
    assert (ones_times (length (pi hmm)) (Fin (Qc_of_Z 10000000))
            = [Fin (Qc_of_Z 10000000)]) as Hones.
    { unfold num_states in HN. rewrite HN. unfold ones_times.
      cbn [replicate map fmul]. do 2 f_equal. ring. }
    rewrite Hones in Hlast.
    assert (forall t row, b !! t = Some row -> length row = 1%nat) as Hwidth.
    { intros t row Hrow. assert (t <= length obs)%nat as Ht.
      { apply lookup_lt_Some in Hrow. lia. }
      destruct (decide (t = length obs)) as [->|Hne].
      - rewrite Hlast in Hrow. by simplify_eq.
      - destruct (lookup_lt_is_Some_2 obs t) as [o Ho]; [lia |].
        destruct (Hrows t o Ho) as (bs & b_next & _ & _ & Hrow').
        rewrite Hrow' in Hrow. simplify_eq.
        unfold dot. by rewrite length_map, (single_state_A hmm). }
    exists b. split_and!; [done | done | done |].
    intros t o Ho. destruct (Hrows t o Ho) as (bs & b_next & Hbs & Hnext & Hrow).
    pose proof (emission_length hmm o bs Hwf Hbs) as Hlbs. rewrite HN in Hlbs.
    pose proof (Hwidth _ _ Hnext) as Hlnext.
    destruct bs as [|e [|? ?]]; try done.
    destruct b_next as [|x [|? ?]]; try done.
    exists e, x. split_and!; [done | done |].
    rewrite Hrow, (single_state_A hmm) by done.
    unfold dot, vsum. cbn [vmul zip_with map foldl].
    by rewrite fadd_zero_one.
Qed.

Lemma single_state_model_witness :
  forwardHMM hmm1 [(0, 0, 0); (1, 0, 0)]%Z = Ok (replicate 3 [Fin 1])
  /\ forward_backwardHMM hmm1 [(0, 0, 0); (1, 0, 0)]%Z = Ok (replicate 3 [Fin 1])
  /\ (exists vs, viterbiHMM hmm1 [(0, 0, 0); (1, 0, 0)]%Z
                 = Ok (replicate 3 0%nat, vs))
  /\ (exists b, backwardHMM hmm1 [(0, 0, 0); (1, 0, 0)]%Z = Ok b
        /\ length b = 3%nat
        /\ b !! 2%nat = Some [Fin (Qc_of_Z 10000000)]
        /\ forall t o, [(0, 0, 0); (1, 0, 0)]%Z !! t = Some o ->
             exists e x, emission hmm1 o = Ok [e] /\ b !! S t = Some [x]
                         /\ b !! t = Some [fmul e x]).
Proof.
  assert (valid_hmm hmm1 = true) as Hvalid by (vm_compute; reflexivity).
  assert (num_states hmm1 = 1%nat) as HN by reflexivity.
  assert (obs_in_range hmm1 [(0, 0, 0); (1, 0, 0)]%Z = true) as Hobs
    by (vm_compute; reflexivity).
  destruct (single_state_model hmm1 [(0, 0, 0); (1, 0, 0)]%Z Hvalid HN Hobs)
    as (Hf & Hs & Hv & Hb).
  split_and!; [apply Hf | apply Hs | exact Hv | exact Hb]; vm_compute; reflexivity.
Defined.

(** C5 as stated fails for Backward: with a single state its rows are not
    [[1.0]].  It fails for Smoother on long sequences: over 1100 frames of
    symbol 0 the first backward messages are below 2^-1022, in binary64
    they are 0 and the first rows of the posterior are [[nan]]. *)
Lemma single_state_backward :
  valid_hmm hmm1 = true
  /\ num_states hmm1 = 1%nat
  /\ backwardHMM hmm1 [] = Ok [[q 10000000 1]]
  /\ backwardHMM hmm1 [(0, 0, 0)]%Z = Ok [[q 5000000 1]; [q 10000000 1]]
  /\ backwardHMM hmm1 [(0, 0, 0)]%Z <> Ok (replicate 2 [Fin 1])
  /\ backwardHMMG approx_pi approx_sqrt approx_exp hmm1 [] = Ok [[q 1000 1]]
  /\ smoother_in_range (Fin (Qc_of_Z 10000000)) hmm1 (replicate 1100 (0, 0, 0)%Z)
     = false
  /\ (exists b,
        Arith.backwardHMM binary64 (binary64_model hmm1)
          (replicate 1100 (0, 0, 0)%Z) = Ok b
        /\ take 3 b = [[0%float]; [0%float]; [0%float]])
  /\ (exists post,
        Arith.forward_backwardHMM binary64 (binary64_model hmm1)
          (replicate 1100 (0, 0, 0)%Z) = Ok post
        /\ take 3 post = [[nan]; [nan]; [nan]]).
Proof.
  destruct backward_messages_underflow as (_ & _ & _ & ? & _ & ? & ?).
  split_and!; try done; by_computation.
Qed.

(** ** Messages and the observations they depend on *)

Lemma for_each_app {S X : Type} (body : S -> X -> result S) (xs ys : list X) (s : S) :
  for_each body (xs ++ ys) s = s' ← for_each body xs s; for_each body ys s'.
Proof.
  revert s. induction xs as [|x xs IH]; intros s; [reflexivity |].
  cbn [for_each app]. destruct (body s x) as [s1|e]; [|reflexivity].
  rewrite !bind_Ok. apply IH.
Qed.

(** Two loops whose bodies agree through a map [g] of the states and a
    map [h] of the items. *)
Lemma for_each_map {S1 S2 X Y : Type} (body1 : S1 -> X -> result S1)
    (body2 : S2 -> Y -> result S2) (g : S1 -> S2) (h : X -> Y)
    (xs : list X) (s s' : S1) :
  (forall x s s', x ∈ xs -> body1 s x = Ok s' -> body2 (g s) (h x) = Ok (g s')) ->
  for_each body1 xs s = Ok s' ->
  for_each body2 (h <$> xs) (g s) = Ok (g s').
Proof.
  revert s. induction xs as [|x xs IH]; intros s Hstep Hrun;
    cbn [for_each fmap list_fmap] in *.
  - by simplify_eq.
  - apply bind_Ok_inv in Hrun as (s1 & Hb & Hrun).
    assert (x ∈ x :: xs) as Hx by list_mem.
    rewrite (Hstep x s s1 Hx Hb), bind_Ok.
    apply IH; [|done]. intros y t t' Hy. apply Hstep. by apply list_elem_of_further.
Qed.

(** A loop whose rounds all leave [g] of the state alone. *)
Section forward_prefix.
Context {O : Type} `{Inhabited O}.
Variable emit : HMM -> O -> result vec.

Lemma forward_loop_prefix (hmm : HMM) (obs more : list O) (f' : matrix) :
  forward_loop emit hmm (obs ++ more) = Ok f' ->
  forward_loop emit hmm obs = Ok (take (S (length obs)) f').
Proof.
  unfold forward_loop. rewrite length_app.
  replace (seq 0 (length obs + length more))
    with (seq 0 (length obs) ++ seq (length obs) (length more))
    by (by rewrite <- seq_app).
  rewrite for_each_app. intros Hrun.
  apply bind_Ok_inv in Hrun as (f1 & Hfirst & Hrest).
  assert (take (S (length obs)) f' = take (S (length obs)) f1) as ->.
  { eapply (for_each_keeps _ (take (S (length obs)))); [|exact Hrest].
    intros t s s' Ht Hb. apply list_elem_of_lookup in Ht as [k Hk].
    apply lookup_seq in Hk as [-> _].
    unfold forward_body in Hb. apply bind_Ok_inv in Hb as (v & _ & Hb).
    simplify_eq. apply take_insert_ge. lia. }
  replace (<[0%nat:=pi hmm]> (zeros (length obs + 1) (length (pi hmm))))
    with (take (S (length obs))
            (<[0%nat:=pi hmm]>
               (zeros (length obs + length more + 1) (length (pi hmm))))).
  2: { rewrite take_insert_lt by lia. unfold zeros. rewrite take_replicate.
       do 2 f_equal. lia. }
  rewrite <- (list_fmap_id (seq 0 (length obs))).
  eapply (for_each_map _ _ (take (S (length obs))) id); [|exact Hfirst].
  intros t s s' Ht Hb. apply list_elem_of_lookup in Ht as [k Hk].
  apply lookup_seq in Hk as [-> Hk]. cbn [Nat.add] in *.
  unfold id, forward_body in *. apply bind_Ok_inv in Hb as (v & Hv & Hb).
  simplify_eq.
  rewrite lookup_total_app_l in Hv by done.
  rewrite lookup_total_take_lt by lia. rewrite Hv, bind_Ok.
  by rewrite take_insert_lt by lia.
Qed.
End forward_prefix.

(** X1.  The forward messages are causal: the rows that [forwardHMM] (and
    [forwardHMMG]) computes for the first frames of a sequence are the
    rows it computes for those frames alone.  Whenever the pass returns on
    [obs ++ more], it returns on [obs], with the first [len(obs) + 1] rows
    of the longer result. *)
Theorem forward_rows_ignore_later_frames
    (np_pi : float64) (np_sqrt np_exp : float64 -> float64) :
  (forall hmm obs more f',
     forwardHMM hmm (obs ++ more) = Ok f' ->
     forwardHMM hmm obs = Ok (take (S (length obs)) f'))
  /\ (forall hmm obs more f',
       forwardHMMG np_pi np_sqrt np_exp hmm (obs ++ more) = Ok f' ->
       forwardHMMG np_pi np_sqrt np_exp hmm obs = Ok (take (S (length obs)) f')).
Proof. split; intros hmm obs more f'; apply forward_loop_prefix. Qed.

Lemma forward_rows_ignore_later_frames_witness :
  (exists f', forwardHMM hmm2 [(0, 0, 0); (1, 0, 0)]%Z = Ok f'
              /\ forwardHMM hmm2 [(0, 0, 0)]%Z = Ok (take 2 f'))
  /\ (exists f', forwardHMMG approx_pi approx_sqrt approx_exp hmmG2
                   [(q 1 2, q 0 1, q 1 3); (q 0 1, q 1 1, q 0 1)] = Ok f'
                 /\ forwardHMMG approx_pi approx_sqrt approx_exp hmmG2
                      [(q 1 2, q 0 1, q 1 3)] = Ok (take 2 f')).
Proof.
  split; eexists; (split; [vm_compute; reflexivity |]).
  - apply (proj1 (forward_rows_ignore_later_frames approx_pi approx_sqrt approx_exp)
             hmm2 [(0, 0, 0)]%Z [(1, 0, 0)]%Z).
    vm_compute; reflexivity.
  - apply (proj2 (forward_rows_ignore_later_frames approx_pi approx_sqrt approx_exp)
             hmmG2 [(q 1 2, q 0 1, q 1 3)] [(q 0 1, q 1 1, q 0 1)]).
    vm_compute; reflexivity.
Defined.

Lemma seq_shift_back (p j n : nat) :
  (fun t => t - p)%nat <$> seq (p + j) n = seq j n.
Proof.
  apply list_eq. intros i. rewrite list_lookup_fmap.
  destruct (decide (i < n)%nat).
  - rewrite !lookup_seq_lt by done. cbn. f_equal. lia.
  - by rewrite !lookup_seq_ge by lia.
Qed.

Section backward_suffix.
Context {O : Type} `{Inhabited O}.
(** The row that a round of a backward loop stores, from the frame it reads
    and the row after it. *)
Variable row : O -> vec -> result vec.
Variable body : list O -> matrix -> nat -> result matrix.
Hypothesis body_row : forall obs b t,
  body obs b t = r ← row (obs !!! (t - 1)%nat) (b !!! t); Ok (<[(t - 1)%nat := r]> b).

Lemma backward_loop_suffix (n : nat) (last : vec) (pre obs : list O) (b' : matrix) :
  for_each (body (pre ++ obs)) (reverse (seq 1 (length (pre ++ obs))))
    (<[length (pre ++ obs) := last]> (zeros (length (pre ++ obs) + 1) n)) = Ok b' ->
  for_each (body obs) (reverse (seq 1 (length obs)))
    (<[length obs := last]> (zeros (length obs + 1) n))
  = Ok (drop (length pre) b').
Proof.
  rewrite length_app.
  replace (seq 1 (length pre + length obs))
    with (seq 1 (length pre) ++ seq (length pre + 1) (length obs))
    by (rewrite seq_app; do 2 f_equal; lia).
  rewrite reverse_app, for_each_app. intros Hrun.
  apply bind_Ok_inv in Hrun as (b1 & Hfirst & Hrest).
  assert (drop (length pre) b' = drop (length pre) b1) as ->.
  { eapply (for_each_keeps _ (drop (length pre))); [|exact Hrest].
    intros t s s' Ht Hb. rewrite elem_of_reverse in Ht.
  apply list_elem_of_lookup in Ht as [k Hk].
    apply lookup_seq in Hk as [-> Hk].
    rewrite body_row in Hb. apply bind_Ok_inv in Hb as (r & _ & Hb).
    simplify_eq. apply drop_insert_lt. lia. }
  replace (<[length obs:=last]> (zeros (length obs + 1) n))
    with (drop (length pre)
            (<[(length pre + length obs)%nat:=last]>
               (zeros (length pre + length obs + 1) n))).
  2: { rewrite drop_insert_ge by lia. unfold zeros. rewrite drop_replicate.
       f_equal; [f_equal; lia | f_equal; lia]. }
  rewrite <- (seq_shift_back (length pre) 1 (length obs)), <- fmap_reverse.
  eapply (for_each_map _ _ (drop (length pre)) (fun t => t - length pre)%nat);
    [|exact Hfirst].
  intros t s s' Ht Hb. rewrite elem_of_reverse in Ht.
  apply list_elem_of_lookup in Ht as [k Hk].
  apply lookup_seq in Hk as [-> Hk].
  rewrite body_row in *. apply bind_Ok_inv in Hb as (r & Hr & Hb). simplify_eq.
  rewrite lookup_total_app_r in Hr by lia.
  rewrite lookup_total_drop.
  replace (length pre + 1 + k - length pre - 1)%nat
    with (length pre + 1 + k - 1 - length pre)%nat by lia.
  replace (length pre + (length pre + 1 + k - length pre))%nat
    with (length pre + 1 + k)%nat by lia.
  rewrite Hr, bind_Ok. rewrite drop_insert_ge by lia. do 2 f_equal.
Qed.
End backward_suffix.

(** X2.  The backward messages depend on later frames only: the rows that
    [backwardHMM] (and [backwardHMMG]) computes for the last frames of a
    sequence are the rows it computes for those frames alone.  Whenever
    the pass returns on [pre ++ obs], it returns on [obs], with the last
    [len(obs) + 1] rows of the longer result. *)
Theorem backward_rows_ignore_earlier_frames
    (np_pi : float64) (np_sqrt np_exp : float64 -> float64) :
  (forall hmm pre obs b',
     backwardHMM hmm (pre ++ obs) = Ok b' ->
     backwardHMM hmm obs = Ok (drop (length pre) b'))
  /\ (forall hmm pre obs b',
       backwardHMMG np_pi np_sqrt np_exp hmm (pre ++ obs) = Ok b' ->
       backwardHMMG np_pi np_sqrt np_exp hmm obs = Ok (drop (length pre) b')).
Proof.
  split; intros hmm pre obs b'.
  - unfold backwardHMM, backward_from.
    apply (backward_loop_suffix
             (fun o b_next => bs ← emission hmm o; Ok (dot (A hmm) (vmul bs b_next)))).
    intros obs0 b t. unfold backward_body. by destruct (emission _ _).
  - unfold backwardHMMG.
    apply (backward_loop_suffix
             (fun o b_next => bs ← calcB np_pi np_sqrt np_exp hmm o;
                let v := dot (A hmm) (vmul bs b_next) in Ok (vdiv v (vsum v)))).
    intros obs0 b t. unfold backwardG_body. by destruct (calcB _ _ _ _ _).
Qed.

Lemma backward_rows_ignore_earlier_frames_witness :
  (exists b', backwardHMM hmm2 [(0, 0, 0); (1, 0, 0)]%Z = Ok b'
              /\ backwardHMM hmm2 [(1, 0, 0)]%Z = Ok (drop 1 b'))
  /\ (exists b', backwardHMMG approx_pi approx_sqrt approx_exp hmmG2
                   [(q 1 2, q 0 1, q 1 3); (q 0 1, q 1 1, q 0 1)] = Ok b'
                 /\ backwardHMMG approx_pi approx_sqrt approx_exp hmmG2
                      [(q 0 1, q 1 1, q 0 1)] = Ok (drop 1 b')).
Proof.
  split; eexists; (split; [vm_compute; reflexivity |]).
  - apply (proj1 (backward_rows_ignore_earlier_frames approx_pi approx_sqrt approx_exp)
             hmm2 [(0, 0, 0)]%Z [(1, 0, 0)]%Z).
    vm_compute; reflexivity.
  - apply (proj2 (backward_rows_ignore_earlier_frames approx_pi approx_sqrt approx_exp)
             hmmG2 [(q 1 2, q 0 1, q 1 3)] [(q 0 1, q 1 1, q 0 1)]).
    vm_compute; reflexivity.
Defined.

Section viterbi_prefix.
Context {O : Type} `{Inhabited O}.
Variable weight : HMM -> O -> matrix -> result matrix.
Variable renorm : bool.

Lemma viterbi_trellis_prefix (hmm : HMM) (obs more : list O)
    (vs' : matrix) (bps' : list (list nat)) :
  viterbi_trellis weight renorm hmm (obs ++ more) = Ok (vs', bps') ->
  viterbi_trellis weight renorm hmm obs
  = Ok (take (S (length obs)) vs', take (S (length obs)) bps').
Proof.
  unfold viterbi_trellis. rewrite length_app.
  replace (seq 0 (length obs + length more))
    with (seq 0 (length obs) ++ seq (length obs) (length more))
    by (by rewrite <- seq_app).
  rewrite for_each_app. intros Hrun.
  apply bind_Ok_inv in Hrun as (st1 & Hfirst & Hrest).
  pose (cut := fun st : matrix * list (list nat) =>
                 (take (S (length obs)) st.1, take (S (length obs)) st.2)).
  change (take (S (length obs)) vs', take (S (length obs)) bps')
    with (cut (vs', bps')).
  assert (cut (vs', bps') = cut st1) as ->.
  { eapply (for_each_keeps _ cut); [|exact Hrest].
    intros t [vs bps] s' Ht Hb. apply list_elem_of_lookup in Ht as [k Hk].
    apply lookup_seq in Hk as [-> _].
    unfold viterbi_body in Hb. apply bind_Ok_inv in Hb as (tmp & _ & Hb).
    simplify_eq. unfold cut. cbn [fst snd].
    by rewrite !take_insert_ge by lia. }
  match goal with
  | |- for_each _ _ ?s0 = _ =>
      replace s0 with
        (cut (<[0%nat:=pi hmm]>
                (zeros (length obs + length more + 1) (num_states hmm)),
              replicate (length obs + length more + 1)
                (replicate (num_states hmm) 0%nat)))
  end.
  2: { unfold cut, zeros. cbn [fst snd].
       rewrite take_insert_lt, !take_replicate by lia.
       do 3 f_equal; lia. }
  rewrite <- (list_fmap_id (seq 0 (length obs))).
  eapply (for_each_map _ _ cut id); [|exact Hfirst].
  intros t [vs bps] s' Ht Hb. apply list_elem_of_lookup in Ht as [k Hk].
  apply lookup_seq in Hk as [-> Hk]. cbn [Nat.add] in *.
  unfold id, viterbi_body, cut in *. cbn [fst snd].
  apply bind_Ok_inv in Hb as (tmp & Htmp & Hb). simplify_eq.
  rewrite lookup_total_app_l in Htmp by done.
  rewrite lookup_total_take_lt by lia. rewrite Htmp, bind_Ok. cbn [fst snd].
  by rewrite !take_insert_lt by lia.
Qed.

Lemma viterbi_loop_prefix (hmm : HMM) (obs more : list O)
    (path' : list nat) (vs' : matrix) :
  viterbi_loop weight renorm hmm (obs ++ more) = Ok (path', vs') ->
  exists path,
    viterbi_loop weight renorm hmm obs = Ok (path, take (S (length obs)) vs').
Proof.
  unfold viterbi_loop. intros Hrun.
  apply bind_Ok_inv in Hrun as ([vs bps] & Htr & Hrun). simplify_eq.
  rewrite (viterbi_trellis_prefix _ _ _ _ _ Htr), bind_Ok. eauto.
Qed.
End viterbi_prefix.

(** X3.  The Viterbi scores are causal, the decoded path is not: whenever
    [viterbiHMM] (or [viterbiHMMG]) returns on [obs ++ more], it returns
    on [obs] with the first [len(obs) + 1] rows of the longer score
    matrix, and some path of its own. *)
Theorem viterbi_scores_ignore_later_frames
    (np_pi : float64) (np_sqrt np_exp : float64 -> float64) :
  (forall hmm obs more path' vs',
     viterbiHMM hmm (obs ++ more) = Ok (path', vs') ->
     exists path, viterbiHMM hmm obs = Ok (path, take (S (length obs)) vs'))
  /\ (forall hmm obs more path' vs',
       viterbiHMMG np_pi np_sqrt np_exp hmm (obs ++ more) = Ok (path', vs') ->
       exists path, viterbiHMMG np_pi np_sqrt np_exp hmm obs
                    = Ok (path, take (S (length obs)) vs')).
Proof. split; intros hmm obs more path' vs'; apply viterbi_loop_prefix. Qed.

Lemma viterbi_scores_ignore_later_frames_witness :
  (exists path' vs',
     viterbiHMM hmm2 [(0, 0, 0); (1, 0, 0)]%Z = Ok (path', vs')
     /\ exists path, viterbiHMM hmm2 [(0, 0, 0)]%Z = Ok (path, take 2 vs'))
  /\ (exists path' vs',
        viterbiHMMG approx_pi approx_sqrt approx_exp hmmG2
          [(q 1 2, q 0 1, q 1 3); (q 0 1, q 1 1, q 0 1)] = Ok (path', vs')
        /\ exists path, viterbiHMMG approx_pi approx_sqrt approx_exp hmmG2
                          [(q 1 2, q 0 1, q 1 3)] = Ok (path, take 2 vs')).
Proof.
  split; eexists _, _; (split; [vm_compute; reflexivity |]).
  - eapply (proj1 (viterbi_scores_ignore_later_frames
                    approx_pi approx_sqrt approx_exp)
             hmm2 [(0, 0, 0)]%Z [(1, 0, 0)]%Z).
    vm_compute; reflexivity.
  - eapply (proj2 (viterbi_scores_ignore_later_frames
                    approx_pi approx_sqrt approx_exp)
             hmmG2 [(q 1 2, q 0 1, q 1 3)] [(q 0 1, q 1 1, q 0 1)]).
    vm_compute; reflexivity.
Defined.

(** ** Which observation sequences the categorical routines accept *)

Lemma getitem_accepted {X : Type} (a : list X) (i : Z) :
  ~ (i < - Z.of_nat (length a) \/ Z.of_nat (length a) <= i)%Z ->
  exists x, getitem a i = Ok x /\ x ∈ a.
Proof.
  intros Hi. destruct (decide (i < 0)%Z) as [Hneg|Hpos].
  - destruct (getitem_negative a i) as (_ & x & Hx & Hlook); [lia |].
    exists x. split; [done |]. by eapply list_elem_of_lookup_2.
  - destruct (getitem_in_range a i) as (x & Hx & Hlook); [lia |].
    exists x. split; [done |]. by eapply list_elem_of_lookup_2.
Qed.

Lemma emission_accepted (hmm : HMM) (o : frame) :
  wf_hmm hmm = true ->
  frame_refused hmm o = false ->
  exists b1 b2 b3,
    getitem (B1 hmm) o.1.1 = Ok b1 /\ getitem (B2 hmm) o.1.2 = Ok b2
    /\ getitem (B3 hmm) o.2 = Ok b3
    /\ length b1 = num_states hmm /\ length b2 = num_states hmm
    /\ length b3 = num_states hmm
    /\ emission hmm o = Ok (vmul (vmul b1 b2) b3).
Proof.
  intros (_ & _ & H1 & H2 & H3)%wf_hmm_inv.
  unfold frame_refused, symbol_refused.
  rewrite !orb_false_iff, !bool_decide_eq_false. intros [[Ho1 Ho2] Ho3].
  destruct (getitem_accepted _ _ Ho1) as (b1 & Hb1 & Hin1).
  destruct (getitem_accepted _ _ Ho2) as (b2 & Hb2 & Hin2).
  destruct (getitem_accepted _ _ Ho3) as (b3 & Hb3 & Hin3).
  rewrite Forall_forall in H1, H2, H3.
  exists b1, b2, b3. unfold emission. rewrite Hb1, Hb2, Hb3.
  split_and!; auto.
Qed.

Lemma accepted_frames (hmm : HMM) (obs : list frame) :
  existsb (frame_refused hmm) obs = false ->
  forall o, o ∈ obs -> frame_refused hmm o = false.
Proof.
  intros Hobs o Ho. destruct (frame_refused hmm o) eqn:E; [|done].
  rewrite <- Hobs. symmetry. apply existsb_exists. exists o.
  split; [by apply list_elem_of_In | done].
Qed.

Lemma refused_frame (hmm : HMM) (obs : list frame) :
  existsb (frame_refused hmm) obs = true ->
  exists o, o ∈ obs /\ frame_refused hmm o = true.
Proof.
  intros (o & Ho & Hr)%existsb_exists. exists o.
  split; [by apply list_elem_of_In | done].
Qed.

(** The results on a sequence all of whose frames are accepted. *)
Lemma accepted_results (hmm : HMM) (obs : list frame) :
  wf_hmm hmm = true ->
  existsb (frame_refused hmm) obs = false ->
  exists f b path vs,
    forwardHMM hmm obs = Ok f
    /\ backwardHMM hmm obs = Ok b
    /\ forward_backwardHMM hmm obs = Ok (normalize_rows (mmul f b))
    /\ viterbiHMM hmm obs = Ok (path, vs)
    /\ has_shape (S (length obs)) (num_states hmm) f
    /\ has_shape (S (length obs)) (num_states hmm) b
    /\ has_shape (S (length obs)) (num_states hmm) (normalize_rows (mmul f b))
    /\ has_shape (S (length obs)) (num_states hmm) vs
    /\ length path = S (length obs).
Proof.
  intros Hwf Hobs. pose proof (accepted_frames _ _ Hobs) as Hacc.
  destruct (wf_hmm_inv hmm Hwf) as (Hn & [HlenA HA] & H1 & H2 & H3).
  assert (forall o, o ∈ obs -> exists bs, emission hmm o = Ok bs) as Hemit.
  { intros o Ho. destruct (emission_accepted hmm o Hwf (Hacc o Ho))
      as (b1 & b2 & b3 & _ & _ & _ & _ & _ & _ & Hbs). eauto. }
  assert (ncols (A hmm) = num_states hmm) as Hcols.
  { by apply (has_shape_ncols (num_states hmm)). }
  destruct (forward_loop_rows emission hmm obs Hemit) as (f & Hf & Hflen & Hf0 & Hfrec).
  destruct (backward_from_rows (Fin (Qc_of_Z 10000000)) hmm obs Hemit)
    as (b & Hb & Hblen & Hblast & Hbrec).
  change (forwardHMM hmm obs = Ok f) in Hf.
  change (backwardHMM hmm obs = Ok b) in Hb.
  destruct (viterbi_trellis_rows weigh true hmm obs Hn) as
    (vs & bps & Hvs & Hvlen & _ & Hvrows & _).
  { done. }
  { intros o tmp Ho Htmp.
    destruct (emission_accepted hmm o Hwf (Hacc o Ho))
      as (b1 & b2 & b3 & Hb1 & Hb2 & Hb3 & Hl1 & Hl2 & Hl3 & _).
    eexists. unfold weigh. rewrite Hb1, Hb2, Hb3. split; [reflexivity |].
    by repeat apply has_shape_rows_mul. }
  assert (has_shape (S (length obs)) (num_states hmm) f) as Hfs.
  { split; [done |]. apply Forall_lookup. intros [|t] row Hrow.
    - rewrite Hf0 in Hrow. by simplify_eq.
    - destruct (lookup_lt_is_Some_2 obs t) as [o Ho].
      { apply lookup_lt_Some in Hrow. lia. }
      destruct (Hfrec t o Ho) as (bs & f_t & Hbs & _ & Hnext).
      rewrite Hnext in Hrow. simplify_eq. cbn zeta.
      rewrite length_vdiv, length_vmul. unfold dot.
      rewrite length_map, length_transpose, Hcols.
      rewrite (emission_length hmm o bs) by done. lia. }
  assert (has_shape (S (length obs)) (num_states hmm) b) as Hbs.
  { split; [done |]. apply Forall_lookup. intros t row Hrow.
    destruct (decide (t = length obs)) as [->|Hne].
    - rewrite Hblast in Hrow. simplify_eq. unfold ones_times.
      by rewrite length_map, length_replicate.
    - destruct (lookup_lt_is_Some_2 obs t) as [o Ho].
      { apply lookup_lt_Some in Hrow. lia. }
      destruct (Hbrec t o Ho) as (bs & b_next & _ & _ & Hrow').
      rewrite Hrow' in Hrow. simplify_eq. unfold dot. by rewrite length_map. }
  exists f, b, (viterbi_path (length obs) vs bps), vs.
  split_and!; try done.
  - unfold forward_backwardHMM. by rewrite Hf, Hb.
  - unfold viterbiHMM, viterbi_loop. by rewrite Hvs.
  - destruct Hfs as [_ Hfs], Hbs as [_ Hbs]. split.
    + unfold normalize_rows, mmul. rewrite length_map, length_zip_with. lia.
    + unfold normalize_rows, mmul. apply Forall_fmap, Forall_lookup.
      intros t row Hrow. apply lookup_zip_with_Some in Hrow
        as (f_t & b_t & -> & Hft & Hbt).
      cbn. rewrite length_vdiv, length_vmul.
      rewrite Forall_lookup in Hfs, Hbs.
      rewrite (Hfs _ _ Hft), (Hbs _ _ Hbt). lia.
  - by apply viterbi_path_spec.
Qed.

(** X4.  On a well-formed categorical model the four routines fail on
    exactly the sequences holding a refused frame (a symbol index outside
    [-num_symbols_k .. num_symbols_k - 1] on some channel), and then with
    [IndexError]; on every other sequence, negative indices included, they
    all return. *)
Theorem routines_fail_on_refused_frames_only (hmm : HMM) (obs : list frame) :
  wf_hmm hmm = true ->
  if existsb (frame_refused hmm) obs
  then forwardHMM hmm obs = Raise IndexError
       /\ backwardHMM hmm obs = Raise IndexError
       /\ forward_backwardHMM hmm obs = Raise IndexError
       /\ viterbiHMM hmm obs = Raise IndexError
  else (exists f, forwardHMM hmm obs = Ok f)
       /\ (exists b, backwardHMM hmm obs = Ok b)
       /\ (exists post, forward_backwardHMM hmm obs = Ok post)
       /\ (exists path vs, viterbiHMM hmm obs = Ok (path, vs)).
Proof.
  intros Hwf. destruct (existsb (frame_refused hmm) obs) eqn:E.
  - destruct (refused_frame _ _ E) as (o & Ho & Hr).
    destruct (refused_frame_raises hmm obs o Ho Hr) as (Hf & Hb & Hv).
    split_and!; try done. unfold forward_backwardHMM. by rewrite Hf.
  - destruct (accepted_results hmm obs Hwf E)
      as (f & b & path & vs & Hf & Hb & Hp & Hv & _).
    split_and!; eauto.
Qed.

Lemma routines_fail_on_refused_frames_only_witness :
  (forwardHMM hmm2 [(0, 0, 0); (2, 0, 0)]%Z = Raise IndexError
   /\ backwardHMM hmm2 [(0, 0, 0); (2, 0, 0)]%Z = Raise IndexError
   /\ forward_backwardHMM hmm2 [(0, 0, 0); (2, 0, 0)]%Z = Raise IndexError
   /\ viterbiHMM hmm2 [(0, 0, 0); (2, 0, 0)]%Z = Raise IndexError)
  /\ ((exists f, forwardHMM hmm2 [(0, 0, 0); (-1, 0, 0)]%Z = Ok f)
      /\ (exists b, backwardHMM hmm2 [(0, 0, 0); (-1, 0, 0)]%Z = Ok b)
      /\ (exists post, forward_backwardHMM hmm2 [(0, 0, 0); (-1, 0, 0)]%Z = Ok post)
      /\ (exists path vs, viterbiHMM hmm2 [(0, 0, 0); (-1, 0, 0)]%Z = Ok (path, vs))).
Proof.
  assert (wf_hmm hmm2 = true) as Hwf by (vm_compute; reflexivity).
  split.
  - exact (routines_fail_on_refused_frames_only hmm2 [(0, 0, 0); (2, 0, 0)]%Z Hwf).
  - exact (routines_fail_on_refused_frames_only hmm2 [(0, 0, 0); (-1, 0, 0)]%Z Hwf).
Defined.

(** X5.  On a well-formed categorical model every matrix returned for T
    frames has T + 1 rows of [num_states] entries (zero-sum rows are rows
    of [nan], not shorter rows), and the decoded path has T + 1 entries. *)
Theorem results_have_one_row_per_frame_and_one_more (hmm : HMM) (obs : list frame) :
  wf_hmm hmm = true ->
  (forall f, forwardHMM hmm obs = Ok f ->
     has_shape (S (length obs)) (num_states hmm) f)
  /\ (forall b, backwardHMM hmm obs = Ok b ->
        has_shape (S (length obs)) (num_states hmm) b)
  /\ (forall post, forward_backwardHMM hmm obs = Ok post ->
        has_shape (S (length obs)) (num_states hmm) post)
  /\ (forall path vs, viterbiHMM hmm obs = Ok (path, vs) ->
        length path = S (length obs)
        /\ has_shape (S (length obs)) (num_states hmm) vs).
Proof.
  intros Hwf. destruct (existsb (frame_refused hmm) obs) eqn:E.
  - destruct (refused_frame _ _ E) as (o & Ho & Hr).
    destruct (refused_frame_raises hmm obs o Ho Hr) as (Hf & Hb & Hv).
    unfold forward_backwardHMM. rewrite Hf, Hb, Hv. by split_and!.
  - destruct (accepted_results hmm obs Hwf E)
      as (f & b & path & vs & Hf & Hb & Hp & Hv & ? & ? & ? & ? & ?).
    rewrite Hf, Hb, Hp, Hv. split_and!; intros; by simplify_eq.
Qed.

Lemma results_have_one_row_per_frame_and_one_more_witness :
  exists f, forwardHMM hmm2 [(0, 0, 0); (1, 0, 0)]%Z = Ok f /\ has_shape 3 2 f.
Proof.
  assert (wf_hmm hmm2 = true) as Hwf by (vm_compute; reflexivity).
  eexists. split; [vm_compute; reflexivity |].
  apply (proj1 (results_have_one_row_per_frame_and_one_more
                  hmm2 [(0, 0, 0); (1, 0, 0)]%Z Hwf)).
  vm_compute; reflexivity.
Defined.

(** ** The last row of the smoother *)

Lemma backward_loop_last {O : Type} `{Inhabited O}
    (row : O -> vec -> result vec) (body : list O -> matrix -> nat -> result matrix)
    (n : nat) (last : vec) (obs : list O) (b : matrix) :
  (forall obs b t,
     body obs b t = r ← row (obs !!! (t - 1)%nat) (b !!! t); Ok (<[(t - 1)%nat := r]> b)) ->
  for_each (body obs) (reverse (seq 1 (length obs)))
    (<[length obs := last]> (zeros (length obs + 1) n)) = Ok b ->
  b !! length obs = Some last.
Proof.
  intros Hbody Hrun.
  pose proof (backward_loop_suffix row body Hbody n last obs [] b) as Hend.
  rewrite app_nil_r in Hend. specialize (Hend Hrun). cbn in Hend.
  injection Hend as Hend.
  rewrite <- (Nat.add_0_r (length obs)), <- lookup_drop, <- Hend. done.
Qed.

Lemma backwardHMMG_last (np_pi : float64) (np_sqrt np_exp : float64 -> float64)
    (hmm : HMM) (obs : list frameG) (b : matrix) :
  backwardHMMG np_pi np_sqrt np_exp hmm obs = Ok b ->
  b !! length obs = Some (ones_times (num_states hmm) (Fin (Qc_of_Z 1000))).
Proof.
  apply (backward_loop_last
           (fun o b_next => bs ← calcB np_pi np_sqrt np_exp hmm o;
              let v := dot (A hmm) (vmul bs b_next) in Ok (vdiv v (vsum v)))).
  intros obs0 b0 t. unfold backwardG_body. by destruct (calcB _ _ _ _ _).
Qed.

Lemma backwardHMMG_returns (np_pi : float64) (np_sqrt np_exp : float64 -> float64)
    (hmm : HMM) (obs : list frameG) :
  valid_hmmG hmm = true ->
  exists b, backwardHMMG np_pi np_sqrt np_exp hmm obs = Ok b.
Proof.
  intros Hvalid. unfold backwardHMMG.
  edestruct (for_each_inv (backwardG_body np_pi np_sqrt np_exp hmm obs)
               (fun _ _ => True)) as (b & Hb & _); [done | | eauto].
  intros k t b _ _. unfold backwardG_body.
  destruct (calcB_valid np_pi np_sqrt np_exp hmm (obs !!! (t - 1)%nat) Hvalid)
    as (bs & -> & _).
  eauto.
Qed.

Section last_posterior.
Context {O : Type} `{Inhabited O}.
Variable emit : HMM -> O -> result vec.

Lemma last_posterior_row (hmm : HMM) (obs : list O) (f b : matrix) (c0 : Qc) :
  (0 < num_states hmm)%nat ->
  has_shape (num_states hmm) (num_states hmm) (A hmm) ->
  vsum (pi hmm) = Fin 1 ->
  (forall o bs, o ∈ obs -> emit hmm o = Ok bs -> length bs = num_states hmm) ->
  forward_regular emit hmm obs = true ->
  forward_loop emit hmm obs = Ok f ->
  c0 <> 0 ->
  b !! length obs = Some (ones_times (num_states hmm) (Fin c0)) ->
  exists last, f !! length obs = Some last
               /\ normalize_rows (mmul f b) !! length obs = Some last.
Proof.
  intros HN HA Hpi Hemit Hreg Hf Hc Hb.
  destruct (forward_regular_rows emit hmm obs Hreg) as (f' & Hf' & Hlf & Hf0 & Hrows).
  assert (f' = f) as -> by congruence.
  destruct (lookup_lt_is_Some_2 f (length obs)) as [last Hlast]; [lia |].
  destruct (smoothing_forward_row emit hmm obs f f HN HA Hpi Hemit Hlf Hlf Hf0 Hrows
              (length obs) last (Nat.le_refl _) Hlast) as (qf & -> & Hlen & Hsum).
  exists (map Fin qf). split; [done |].
  unfold normalize_rows, mmul. rewrite list_lookup_fmap.
  assert (zip_with vmul f b !! length obs
          = Some (vmul (map Fin qf) (ones_times (num_states hmm) (Fin c0)))) as ->.
  { apply lookup_zip_with_Some. eexists _, _.
    split_and!; [reflexivity | exact Hlast | exact Hb]. }
  cbn. f_equal. apply (first_posterior_row (num_states hmm)); [done | |].
  - by rewrite length_map.
  - by rewrite vsum_Fin, Hsum.
Qed.
End last_posterior.

(** X7.  At the last time step smoothing adds nothing to filtering: for
    a valid model and frames of non-zero likelihood, the last row of
    [forward_backwardHMM] (of [forward_backwardHMMG]) is the last row of
    [forwardHMM] (of [forwardHMMG]), whatever constant the backward pass
    starts from. *)
Theorem smoother_ends_at_the_filter
    (np_pi : float64) (np_sqrt np_exp : float64 -> float64) :
  (forall hmm obs,
     valid_hmm hmm = true ->
     forward_regular emission hmm obs = true ->
     exists f post last,
       forwardHMM hmm obs = Ok f /\ forward_backwardHMM hmm obs = Ok post
       /\ f !! length obs = Some last /\ post !! length obs = Some last)
  /\ (forall hmm obs,
        valid_hmmG hmm = true ->
        forward_regular (calcB np_pi np_sqrt np_exp) hmm obs = true ->
        exists f post last,
          forwardHMMG np_pi np_sqrt np_exp hmm obs = Ok f
          /\ forward_backwardHMMG np_pi np_sqrt np_exp hmm obs = Ok post
          /\ f !! length obs = Some last /\ post !! length obs = Some last).
Proof.
  split; intros hmm obs Hvalid Hreg.
  - pose proof (valid_hmm_wf _ Hvalid) as Hwf.
    destruct (wf_hmm_inv hmm Hwf) as (HN & HA & _).
    destruct (forward_regular_rows emission hmm obs Hreg) as (f & Hf & _).
    destruct (backward_from_rows (Fin (Qc_of_Z 10000000)) hmm obs
                (forward_regular_emits _ _ _ _ Hreg)) as (b & Hb & _ & Hlast & _).
    destruct (last_posterior_row emission hmm obs f b (Qc_of_Z 10000000))
      as (last & Hfl & Hpl); try done.
    + by apply valid_hmm_pi.
    + intros o bs _. by apply emission_length.
    + exists f, (normalize_rows (mmul f b)), last. split_and!; try done.
      unfold forward_backwardHMM, forwardHMM, backwardHMM. by rewrite Hf, Hb.
  - destruct (valid_hmmG_inv hmm Hvalid) as (HN & HA & _).
    destruct (forward_regular_rows (calcB np_pi np_sqrt np_exp) hmm obs Hreg)
      as (f & Hf & _).
    destruct (backwardHMMG_returns np_pi np_sqrt np_exp hmm obs Hvalid) as [b Hb].
    pose proof (backwardHMMG_last _ _ _ _ _ _ Hb) as Hlast.
    destruct (last_posterior_row (calcB np_pi np_sqrt np_exp) hmm obs f b
                (Qc_of_Z 1000)) as (last & Hfl & Hpl); try done.
    + by apply valid_hmmG_pi.
    + intros o bs _ Hbs.
      destruct (calcB_valid np_pi np_sqrt np_exp hmm o Hvalid) as (bs' & Hbs' & Hl).
      congruence.
    + exists f, (normalize_rows (mmul f b)), last. split_and!; try done.
      unfold forward_backwardHMMG, forwardHMMG. by rewrite Hf, Hb.
Qed.

Lemma smoother_ends_at_the_filter_witness :
  (exists f post last,
     forwardHMM hmm2 [(0, 0, 0); (1, 0, 0)]%Z = Ok f
     /\ forward_backwardHMM hmm2 [(0, 0, 0); (1, 0, 0)]%Z = Ok post
     /\ f !! 2%nat = Some last /\ post !! 2%nat = Some last)
  /\ (exists f post last,
        forwardHMMG approx_pi approx_sqrt approx_exp hmmG2
          [(q 1 2, q 0 1, q 1 3)] = Ok f
        /\ forward_backwardHMMG approx_pi approx_sqrt approx_exp hmmG2
             [(q 1 2, q 0 1, q 1 3)] = Ok post
        /\ f !! 1%nat = Some last /\ post !! 1%nat = Some last).
Proof.
  split.
  - apply (proj1 (smoother_ends_at_the_filter approx_pi approx_sqrt approx_exp)
             hmm2 [(0, 0, 0); (1, 0, 0)]%Z); vm_compute; reflexivity.
  - apply (proj2 (smoother_ends_at_the_filter approx_pi approx_sqrt approx_exp)
             hmmG2 [(q 1 2, q 0 1, q 1 3)]); vm_compute; reflexivity.
Defined.

(** ** The likelihood of the frames, forward and backward *)

Lemma backward_from_tail (c : float64) (hmm : HMM) (o : frame) (obs : list frame)
    (b : matrix) :
  backward_from c hmm (o :: obs) = Ok b ->
  backward_from c hmm obs = Ok (drop 1 b).
Proof.
  unfold backward_from.
  apply (backward_loop_suffix
           (fun o b_next => bs ← emission hmm o; Ok (dot (A hmm) (vmul bs b_next)))
           (backward_body hmm)) with (pre := [o]).
  intros obs0 b0 t. unfold backward_body. by destruct (emission _ _).
Qed.

Lemma backward_inner_product (hmm : HMM) (c0 : Qc) :
  valid_hmm hmm = true ->
  forall (obs : list frame) (qf : list Qc),
    length qf = num_states hmm -> qsum qf = 1 ->
    forward_regular_from emission hmm (map Fin qf) obs = true ->
    exists b b0 s p,
      backward_from (Fin c0) hmm obs = Ok b
      /\ b !! 0%nat = Some b0
      /\ length b0 = num_states hmm
      /\ vsum (vmul (map Fin qf) b0) = Fin s
      /\ foldr fmul (Fin 1) (forward_normalizers emission hmm (map Fin qf) obs) = Fin p
      /\ s = c0 * p.
Proof.
  intros Hvalid. pose proof (valid_hmm_wf _ Hvalid) as Hwf.
  destruct (wf_hmm_inv hmm Hwf) as (HN & HA & _).
  destruct (valid_hmm_nonneg hmm Hvalid) as (_ & HAnn & _).
  destruct (nonneg_matrix_fin _ HAnn) as [M HM].
  induction obs as [|o obs IH]; intros qf Hlen Hsum Hreg.
  - exists [ones_times (num_states hmm) (Fin c0)],
      (ones_times (num_states hmm) (Fin c0)), (c0 * 1), 1.
    split_and!; [done | done | | | done | done].
    + unfold ones_times. by rewrite length_map, length_replicate.
    + rewrite ones_times_Fin, ip_Fin, <- Hlen, qip_replicate, Hsum. f_equal. ring.
  - cbn [forward_regular_from] in Hreg.
    destruct (forward_v emission hmm o (map Fin qf)) as [v|] eqn:Hv; [|done].
    apply andb_true_iff in Hreg as [Hnz Hreg].
    destruct (fin_nonzero_inv _ Hnz) as (c & Hc & Hcne).
    destruct (forward_v_inv _ _ _ _ _ Hv) as (bs & Hbs & ->).
    destruct (vsum_Fin_inv _ _ Hc) as (qv & Hqv & Hcv).
    pose proof (emission_length hmm o bs Hwf Hbs) as Hlbs.
    assert (length (dot (transpose (A hmm)) (map Fin qf)) = num_states hmm) as Hltd.
    { unfold dot. rewrite length_map, length_transpose.
      by apply (has_shape_ncols (num_states hmm)). }
    assert (length qv = num_states hmm) as Hlqv.
    { rewrite <- (length_map Fin), <- Hqv, length_vmul. lia. }
    rewrite Hc, Hqv, vdiv_Fin in Hreg by done.
    destruct (IH (map (fun a => a / c) qv)) as (b' & b0' & s' & p' & Hb' & Hb0' & Hlb0' & Hs' & Hp' & Hsp');
      [by rewrite length_map | rewrite qsum_scale, <- Hcv; by field | done |].
    destruct (backward_from_rows (Fin c0) hmm (o :: obs)) as (b & Hb & Hbl & _ & Hbrows).
    { intros o' [->|Ho']%elem_of_cons; [eauto |].
      eapply forward_regular_emits; [exact Hreg | done]. }
    pose proof (backward_from_tail _ _ _ _ _ Hb) as Htail.
    assert (drop 1 b = b') as Hdrop by congruence.
    destruct (Hbrows 0%nat o eq_refl) as (bs' & b_next & Hbs' & Hnext & Hb0).
    assert (bs' = bs) as -> by congruence.
    assert (b_next = b0') as ->.
    { rewrite <- Hdrop, lookup_drop in Hb0'. cbn in Hb0'. congruence. }
    destruct (vmul_Fin_inv bs (dot (transpose (A hmm)) (map Fin qf)) qv)
      as [[qe ->] _]; [lia | done |].
    destruct (vsum_Fin_inv _ _ Hs') as (qfb & Hqfb & _).
    destruct (vmul_Fin_inv (map Fin (map (fun a => a / c) qv)) b0' qfb)
      as [_ [qb ->]]; [rewrite !length_map; lia | done |].
    rewrite HM in Hc, Hqv.
    destruct (smoothing_step (num_states hmm) M qf qe qb c) as (s & Hs & Hstep);
      [done | by rewrite <- HM | done | done | done |].
    rewrite Hqv, vdiv_Fin in Hs by done.
    assert (s = s') as -> by congruence.
    exists b, (dot (A hmm) (vmul (map Fin qe) (map Fin qb))), (c * s'), (c * p').
    split_and!; [done | done | | | | ].
    + unfold dot. rewrite length_map. by destruct HA.
    + by rewrite HM.
    + cbn [forward_normalizers]. rewrite Hv. cbn [foldr].
      by rewrite HM, Hc, Hqv, vdiv_Fin, Hp' by done.
    + rewrite Hsp'. ring.
Qed.

(** X8.  The backward pass and the normalisers of the forward pass
    compute the same likelihood: for a valid model and frames of non-zero
    likelihood, the inner product of [pi] with row 0 of [backwardHMM] is
    the product of the sums [v.sum()] met by [forwardHMM], times the
    constant 10000000 that the backward pass starts from. *)
Theorem backward_row_0_gives_the_likelihood (hmm : HMM) (obs : list frame) :
  valid_hmm hmm = true ->
  forward_regular emission hmm obs = true ->
  exists b b0 p,
    backwardHMM hmm obs = Ok b
    /\ b !! 0%nat = Some b0
    /\ likelihood hmm obs = Fin p
    /\ vsum (vmul (pi hmm) b0) = Fin (Qc_of_Z 10000000 * p).
Proof.
  intros Hvalid Hreg.
  destruct (vsum_Fin_inv _ _ (valid_hmm_pi _ Hvalid)) as (qpi & Hqpi & Hsum).
  unfold forward_regular in Hreg. unfold likelihood. rewrite Hqpi in Hreg |- *.
  destruct (backward_inner_product hmm (Qc_of_Z 10000000) Hvalid obs qpi)
    as (b & b0 & s & p & Hb & Hb0 & _ & Hs & Hp & ->); [| done | done |].
  { unfold num_states. by rewrite Hqpi, length_map. }
  exists b, b0, p. by split_and!.
Qed.

Lemma backward_row_0_gives_the_likelihood_witness :
  exists b b0 p,
    backwardHMM hmm2 [(0, 0, 0); (1, 0, 0)]%Z = Ok b
    /\ b !! 0%nat = Some b0
    /\ likelihood hmm2 [(0, 0, 0); (1, 0, 0)]%Z = Fin p
    /\ vsum (vmul (pi hmm2) b0) = Fin (Qc_of_Z 10000000 * p).
Proof.
  apply backward_row_0_gives_the_likelihood; vm_compute; reflexivity.
Defined.

(** ** What [sample] returns *)

Lemma cumsum_from_lookup (acc : float64) (dist : vec) (j : nat) :
  (j < length dist)%nat ->
  cumsum_from acc dist !! j = Some (foldl fadd acc (take (S j) dist)).
Proof.
  revert acc j. induction dist as [|x dist IH]; intros acc j Hj; cbn in Hj; [lia |].
  destruct j as [|j]; cbn [cumsum_from take foldl lookup list_lookup].
  - by rewrite take_0.
  - apply IH. lia.
Qed.

Lemma cumsum_lookup (dist : vec) (j : nat) :
  (j < length dist)%nat -> cumsum dist !! j = Some (vsum (take (S j) dist)).
Proof. apply cumsum_from_lookup. Qed.

Lemma searchsorted_before (a : vec) (u : float64) (j : nat) :
  (j < searchsorted a u)%nat -> exists x, a !! j = Some x /\ flt x u = true.
Proof.
  revert j. induction a as [|y a IH]; intros j Hj; cbn [searchsorted] in Hj; [lia |].
  destruct (flt y u) eqn:E; [|lia]. destruct j as [|j]; [by exists y |].
  apply IH. lia.
Qed.

Lemma searchsorted_at (a : vec) (u x : float64) :
  a !! searchsorted a u = Some x -> flt x u = false.
Proof.
  induction a as [|y a IH]; cbn [searchsorted]; [done |].
  destruct (flt y u) eqn:E; [exact IH |]. cbn. by intros ?; simplify_eq.
Qed.

Lemma is_dist_inv (v : vec) :
  is_dist v = true ->
  exists qs, v = map Fin qs /\ Forall (fun a => 0 <= a) qs /\ qsum qs = 1.
Proof.
  intros Hd. pose proof (is_dist_sum _ Hd) as Hsum.
  destruct (vsum_Fin_inv _ _ Hsum) as (qs & -> & Hq).
  exists qs. split_and!; [done | | done].
  unfold is_dist in Hd. apply andb_true_iff in Hd as [Hd _].
  rewrite forallb_forall in Hd. apply Forall_forall. intros a Ha.
  assert (fin_nonneg (Fin a) = true) as Hnn.
  { apply Hd, list_elem_of_In, list_elem_of_fmap. eauto. }
  by apply bool_decide_eq_true in Hnn.
Qed.

Lemma qsum_nonneg (qs : list Qc) : Forall (fun a => 0 <= a) qs -> 0 <= qsum qs.
Proof.
  induction 1 as [|a qs Ha _ IH]; cbn [qsum]; [apply Qcle_refl |].
  by apply Qcplus_nonneg_nonneg.
Qed.

Lemma nonneg_vec_inv (v : vec) :
  nonneg_vec v -> exists qs, v = map Fin qs /\ Forall (fun a => 0 <= a) qs.
Proof.
  induction 1 as [|x v Hx _ (qs & -> & Hqs)]; [by exists [] |].
  destruct (fin_nonneg_inv _ Hx) as (a & -> & Ha). exists (a :: qs).
  split; [done | by constructor].
Qed.

Lemma searchsorted_le_length (a : vec) (u : float64) :
  (searchsorted a u <= length a)%nat.
Proof.
  induction a as [|x a IH]; cbn [searchsorted length]; [lia |].
  destruct (flt x u); lia.
Qed.

Lemma qsum_app (xs ys : list Qc) : qsum (xs ++ ys) = qsum xs + qsum ys.
Proof.
  induction xs as [|x xs IH]; cbn [app qsum]; [ring | rewrite IH; ring].
Qed.

Lemma qsum_take_le (qs : list Qc) (n : nat) :
  Forall (fun a => 0 <= a) qs -> qsum (take n qs) <= qsum qs.
Proof.
  intros Hqs. rewrite <- (take_drop n qs) at 2. rewrite qsum_app.
  replace (qsum (take n qs)) with (qsum (take n qs) + 0) at 1 by ring.
  apply Qcplus_le_compat; [apply Qcle_refl |].
  apply qsum_nonneg. by apply Forall_drop.
Qed.

(** The index found in the running sums of non-negative numbers: the
    sums before it are below [u]; when it is an index of the list, the
    sum at it is not, and the entry at it is positive unless [u] is 0;
    and it is an index of the list when [u] is not above the whole sum. *)
Lemma searchsorted_cdf (qs : list Qc) (u : Qc) :
  Forall (fun a => 0 <= a) qs ->
  let i := searchsorted (cumsum (map Fin qs)) (Fin u) in
  (forall j, (j < i)%nat -> qsum (take (S j) qs) < u)
  /\ ((i < length qs)%nat ->
        u <= qsum (take (S i) qs)
        /\ u <= qsum qs
        /\ (0 < u -> exists p, qs !! i = Some p /\ 0 < p))
  /\ (qs <> [] -> u <= qsum qs -> (i < length qs)%nat).
Proof.
  intros Hqs. cbv zeta.
  set (i := searchsorted (cumsum (map Fin qs)) (Fin u)).
  assert (i <= length qs)%nat as Hile.
  { unfold i. etrans; [apply searchsorted_le_length |].
    unfold cumsum. by rewrite length_cumsum_from, length_map. }
  assert (forall j, (j < i)%nat -> qsum (take (S j) qs) < u) as Hbefore.
  { intros j Hj. destruct (searchsorted_before _ _ _ Hj) as (x & Hx & Hlt).
    rewrite cumsum_lookup in Hx by (rewrite length_map; lia). simplify_eq.
    rewrite <- fmap_take, vsum_Fin in Hlt. by apply bool_decide_eq_true in Hlt. }
  split_and!; [done | |].
  - intros Hi.
    assert (u <= qsum (take (S i) qs)) as Hat.
    { pose proof (searchsorted_at (cumsum (map Fin qs)) (Fin u)) as Hx.
      fold i in Hx. rewrite cumsum_lookup in Hx by (by rewrite length_map).
      specialize (Hx _ eq_refl). rewrite <- fmap_take, vsum_Fin in Hx.
      apply bool_decide_eq_false in Hx. by apply Qcnot_lt_le. }
    split_and!; [done | |].
    { eapply Qcle_trans; [exact Hat | by apply qsum_take_le]. }
    intros Hpos. destruct (lookup_lt_is_Some_2 qs i Hi) as [p Hp].
    exists p. split; [done |].
    assert (qsum (take (S i) qs) = qsum (take i qs) + p) as Hsplit.
    { rewrite (take_S_r _ _ _ Hp), qsum_app. cbn [qsum]. ring. }
    rewrite Hsplit in Hat. destruct i as [|i].
    + rewrite take_0 in Hat. cbn [qsum] in Hat.
      apply Qclt_le_trans with (y := u); [done |].
      by replace p with (0 + p) by ring.
    + assert (i < S i)%nat as Hlt by lia. specialize (Hbefore i Hlt).
      assert (qsum (take (S i) qs) < qsum (take (S i) qs) + p) as Hlt'.
      { eapply Qclt_le_trans; [exact Hbefore | exact Hat]. }
      apply (Qcplus_lt_mono_l 0 p (qsum (take (S i) qs))).
      by replace (qsum (take (S i) qs) + 0) with (qsum (take (S i) qs)) by ring.
  - intros Hne Hu. unfold i. rewrite <- (length_map Fin qs).
    apply searchsorted_reach; [by destruct qs |].
    rewrite vsum_Fin. cbn [fle]. by apply bool_decide_eq_true.
Qed.

Section sample_facts.
Variable rng : Type.
Variable random_sample : rng -> Qc * rng.

(** What a draw of [sample] on a distribution is, for the generators. *)
Lemma sample_drawn (dist : vec) (g g' : rng) (i : nat) :
  is_dist dist = true ->
  reaches (random_sample g).1 dist = true ->
  sample rng random_sample dist g = (i, g') ->
  (i < length dist)%nat
  /\ (0 < (random_sample g).1 -> fin_pos (dist !!! i) = true).
Proof.
  intros Hd Hr. apply (reaches_le _ _ (is_dist_nonneg _ Hd)) in Hr.
  revert Hr. unfold sample.
  destruct (random_sample g) as [u g1]. cbn [fst]. intros Hu ?; simplify_eq.
  pose proof (is_dist_nonempty _ Hd) as Hne.
  destruct (is_dist_inv _ Hd) as (qs & -> & Hqs & Hsum).
  rewrite vsum_Fin in Hu. cbn [fle] in Hu. apply bool_decide_eq_true in Hu.
  destruct (searchsorted_cdf qs u Hqs) as (_ & Hat & Hin).
  assert (searchsorted (cumsum (map Fin qs)) (Fin u) < length qs)%nat as Hi.
  { apply Hin; [by destruct qs | done]. }
  split; [by rewrite length_map |]. intros Hpos.
  destruct (Hat Hi) as (_ & _ & Hp). destruct (Hp Hpos) as (p & Hlook & Hppos).
  rewrite (list_lookup_total_correct (map Fin qs) _ (Fin p))
    by (by rewrite list_lookup_fmap, Hlook).
  by apply bool_decide_eq_true.
Qed.

(** X9.  [sample] searches the draw [u] in the running sums of [dist]
    and advances the generator by this one draw.  On finite non-negative
    entries it returns the number of leading running sums below [u], which
    is at most [len(dist)]: every running sum before the result is below
    [u]; the result is an index of [dist] when [dist] is not empty and [u]
    is within reach of its running sums, that is not above the sum of
    [dist] less the slack [len(dist) * 2^-52] of its rounding; at a result
    that is an index the running sum is not below [u], and the entry is
    positive unless [u] is 0. *)
Theorem sample_inverts_the_cumulative_distribution (dist : vec) (g : rng) :
  forallb fin_nonneg dist = true ->
  let u := (random_sample g).1 in
  let i := (sample rng random_sample dist g).1 in
  (sample rng random_sample dist g).2 = (random_sample g).2
  /\ (i <= length dist)%nat
  /\ (forall j, (j < i)%nat -> flt (vsum (take (S j) dist)) (Fin u) = true)
  /\ (dist <> [] -> reaches u dist = true -> (i < length dist)%nat)
  /\ ((i < length dist)%nat ->
        fle (Fin u) (vsum (take (S i) dist)) = true
        /\ (0 < u -> fin_pos (dist !!! i) = true)).
Proof.
  intros Hnn%nonneg_vec_forallb. cbv zeta.
  unfold sample. destruct (random_sample g) as [u g']. cbn [fst snd].
  split_and!; [done | | | |].
  - etrans; [apply searchsorted_le_length |].
    unfold cumsum. by rewrite length_cumsum_from.
  - destruct (nonneg_vec_inv _ Hnn) as (qs & -> & Hqs).
    destruct (searchsorted_cdf qs u Hqs) as (Hbefore & _).
    intros j Hj. rewrite <- fmap_take, vsum_Fin. cbn [flt].
    apply bool_decide_eq_true. by apply Hbefore.
  - intros Hne Hr. apply searchsorted_reach; [done |]. by apply reaches_le.
  - destruct (nonneg_vec_inv _ Hnn) as (qs & -> & Hqs).
    destruct (searchsorted_cdf qs u Hqs) as (_ & Hat & _).
    rewrite length_map. intros Hi. destruct (Hat Hi) as (Hu & _ & Hp). split.
    + rewrite <- fmap_take, vsum_Fin. cbn [fle]. by apply bool_decide_eq_true.
    + intros Hpos. destruct (Hp Hpos) as (p & Hlook & Hppos).
      rewrite (list_lookup_total_correct (map Fin qs) _ (Fin p))
        by (by rewrite list_lookup_fmap, Hlook).
      by apply bool_decide_eq_true.
Qed.
End sample_facts.

Lemma sample_inverts_the_cumulative_distribution_witness :
  (sample bool coin_sample [q 0 1; q 1 2; q 1 2] true).2 = (coin_sample true).2
  /\ (1 <= 3)%nat
  /\ (forall j, (j < 1)%nat ->
        flt (vsum (take (S j) [q 0 1; q 1 2; q 1 2])) (Fin (Q2Qc (1 # 4))) = true)
  /\ ([q 0 1; q 1 2; q 1 2] <> [] ->
      reaches (Q2Qc (1 # 4)) [q 0 1; q 1 2; q 1 2] = true -> (1 < 3)%nat)
  /\ ((1 < 3)%nat ->
        fle (Fin (Q2Qc (1 # 4))) (vsum (take 2 [q 0 1; q 1 2; q 1 2])) = true
        /\ (0 < Q2Qc (1 # 4) -> fin_pos ([q 0 1; q 1 2; q 1 2] !!! 1%nat) = true)).
Proof.
  apply (sample_inverts_the_cumulative_distribution bool coin_sample
           [q 0 1; q 1 2; q 1 2] true).
  vm_compute; reflexivity.
Defined.

(** ** Positive entries *)

Lemma fin_pos_inv (x : float64) : fin_pos x = true -> exists a, x = Fin a /\ 0 < a.
Proof.
  destruct x as [a| | |]; try discriminate. cbn [fin_pos].
  intros Ha%bool_decide_eq_true. by exists a.
Qed.

Lemma qsum_ge_entry (qs : list Qc) (i : nat) (p : Qc) :
  Forall (fun a => 0 <= a) qs -> qs !! i = Some p -> p <= qsum qs.
Proof.
  intros Hqs. revert i. induction Hqs as [|a qs Ha Hqs IH]; intros i Hi; [done |].
  cbn [qsum]. destruct i as [|i]; cbn in Hi.
  - simplify_eq. replace p with (p + 0) at 1 by ring.
    apply Qcplus_le_compat; [apply Qcle_refl | by apply qsum_nonneg].
  - replace p with (0 + p) by ring. apply Qcplus_le_compat; [done | by eapply IH].
Qed.

Lemma vmul_lookup_total (x y : vec) (i : nat) :
  (i < length x)%nat -> (i < length y)%nat ->
  vmul x y !!! i = fmul (x !!! i) (y !!! i).
Proof.
  intros Hx Hy.
  destruct (lookup_lt_is_Some_2 x i Hx) as [a Ha].
  destruct (lookup_lt_is_Some_2 y i Hy) as [b Hb].
  rewrite (list_lookup_total_correct _ _ _ Ha), (list_lookup_total_correct _ _ _ Hb).
  apply list_lookup_total_correct. unfold vmul.
  apply lookup_zip_with_Some. by exists a, b.
Qed.

Lemma vdiv_lookup_total (v : vec) (s : float64) (i : nat) :
  (i < length v)%nat -> vdiv v s !!! i = fdiv (v !!! i) s.
Proof.
  intros Hv. destruct (lookup_lt_is_Some_2 v i Hv) as [a Ha].
  rewrite (list_lookup_total_correct _ _ _ Ha).
  apply list_lookup_total_correct. unfold vdiv. by rewrite list_lookup_fmap, Ha.
Qed.

Lemma column_lookup_total (M : matrix) (i j : nat) :
  (i < length M)%nat -> column M j !!! i = (M !!! i) !!! j.
Proof.
  intros Hi. destruct (lookup_lt_is_Some_2 M i Hi) as [row Hrow].
  rewrite (list_lookup_total_correct _ _ _ Hrow).
  apply list_lookup_total_correct. unfold column. by rewrite list_lookup_fmap, Hrow.
Qed.

(** ** Rows that are probability distributions *)

Lemma good_row_dist (row : vec) :
  Forall nan_or_nonneg row -> vsum row = Fin 1 -> is_dist row = true.
Proof.
  intros Hrow Hsum. destruct (vsum_Fin_inv _ _ Hsum) as (qs & -> & _).
  unfold is_dist. apply andb_true_iff. split; [|by apply bool_decide_eq_true].
  apply nonneg_vec_forallb, Forall_fmap.
  eapply Forall_impl; [exact (nan_or_nonneg_Fin _ Hrow) |].
  intros a Ha. by apply fin_nonneg_Fin.
Qed.

Lemma is_dist_entries (row : vec) (x : float64) :
  is_dist row = true -> x ∈ row -> exists a, x = Fin a /\ 0 <= a /\ a <= 1.
Proof.
  intros (qs & -> & Hqs & Hsum)%is_dist_inv (a & -> & Ha)%list_elem_of_fmap.
  exists a. split; [done |]. apply list_elem_of_lookup in Ha as [i Hi].
  split.
  - rewrite Forall_forall in Hqs. apply Hqs. by eapply list_elem_of_lookup_2.
  - rewrite <- Hsum. by eapply qsum_ge_entry.
Qed.

Lemma viterbi_regular_rows (hmm : HMM) (obs : list frame) :
  valid_hmm hmm = true ->
  obs_in_range hmm obs = true ->
  viterbi_regular hmm obs = true ->
  exists vs bps,
    viterbi_trellis weigh true hmm obs = Ok (vs, bps)
    /\ length vs = S (length obs)
    /\ vs !! 0%nat = Some (pi hmm)
    /\ (forall t o, obs !! t = Some o ->
          exists v_prev tmp,
            vs !! t = Some v_prev
            /\ weigh hmm o (outer_scale v_prev (A hmm)) = Ok tmp
            /\ fin_nonzero (vsum (map vmax (transpose tmp))) = true
            /\ vs !! S t = Some (score_row true tmp)).
Proof.
  intros Hvalid Hrange Hreg. pose proof (valid_hmm_wf _ Hvalid) as Hwf.
  destruct (wf_hmm_inv hmm Hwf) as (HN & HA & _).
  destruct (viterbi_trellis_rows weigh true hmm obs HN HA)
    as (vs & bps & Hrun & Hvlen & Hv0 & Hvrows & Hrec).
  { intros o tmp Ho Htmp. apply weigh_shape; [done | | done].
    by eapply frame_in_range_elem. }
  exists vs, bps. split_and!; [done | done | done |].
  assert (forall t v_t, (t <= length obs)%nat -> vs !! t = Some v_t ->
            viterbi_regular_from hmm v_t (drop t obs) = true) as Hregt.
  { induction t as [|t IH]; intros v_t Ht Hvt.
    - rewrite drop_0. unfold viterbi_regular in Hreg. congruence.
    - destruct (lookup_lt_is_Some_2 obs t) as [o Ho]; [lia |].
      destruct (Hrec t o Ho) as (v_prev & tmp & Hprev & Htmp & _ & _ & Hnext).
      assert (t <= length obs)%nat as Ht' by lia.
      specialize (IH v_prev Ht' Hprev).
      rewrite (drop_S _ _ _ Ho) in IH. cbn [viterbi_regular_from] in IH.
      rewrite Htmp in IH. apply andb_true_iff in IH as [_ IH].
      unfold score_row in Hnext. congruence. }
  intros t o Ho. destruct (Hrec t o Ho) as (v_prev & tmp & Hprev & Htmp & _ & _ & Hnext).
  exists v_prev, tmp. split_and!; [done | done | | done].
  assert (t <= length obs)%nat as Ht by (apply lookup_lt_Some in Ho; lia).
  specialize (Hregt t v_prev Ht Hprev).
  rewrite (drop_S _ _ _ Ho) in Hregt. cbn [viterbi_regular_from] in Hregt.
  rewrite Htmp in Hregt. by apply andb_true_iff in Hregt as [? _].
Qed.

(** The frames on which the forward pass returns are frames whose
    emission vectors are computed. *)
Lemma returned_emits (hmm : HMM) (obs : list frame) (f : matrix) :
  wf_hmm hmm = true -> forwardHMM hmm obs = Ok f ->
  forall o, o ∈ obs -> exists bs, emission hmm o = Ok bs.
Proof.
  intros Hwf Hf. destruct (existsb (frame_refused hmm) obs) eqn:E.
  - apply refused_frame in E as (o & Ho & Hr).
    destruct (refused_frame_raises hmm obs o Ho Hr) as (Hf' & _). congruence.
  - intros o Ho. pose proof (accepted_frames hmm obs E o Ho) as Hacc.
    destruct (emission_accepted hmm o Hwf Hacc)
      as (b1 & b2 & b3 & _ & _ & _ & _ & _ & _ & He). eauto.
Qed.

(** The score rows of a regular run of the decoder are distributions. *)
Lemma viterbi_regular_dists (hmm : HMM) (obs : list frame) (vs : matrix)
    (bps : list (list nat)) :
  valid_hmm hmm = true ->
  obs_in_range hmm obs = true ->
  viterbi_regular hmm obs = true ->
  viterbi_trellis weigh true hmm obs = Ok (vs, bps) ->
  Forall (fun row => is_dist row = true) vs.
Proof.
  intros Hvalid Hrange Hreg Hrun.
  destruct (viterbi_regular_rows hmm obs Hvalid Hrange Hreg)
    as (vs' & bps' & Hrun' & Hvlen & Hv0 & Hrec).
  assert (vs' = vs) as -> by congruence.
  assert (forall t o, obs !! t = Some o ->
            exists v_prev tmp, vs !! t = Some v_prev
              /\ weigh hmm o (outer_scale v_prev (A hmm)) = Ok tmp
              /\ vs !! S t = Some (let v := map vmax (transpose tmp) in
                                   vdiv v (vsum v))) as Hrec'.
  { intros t o Ho. destruct (Hrec t o Ho) as (v_prev & tmp & ? & ? & _ & ?).
    by exists v_prev, tmp. }
  apply Forall_lookup. intros [|t] row Hrow.
  - assert (row = pi hmm) as -> by congruence.
    by destruct (valid_hmm_dists hmm Hvalid) as [? _].
  - destruct (lookup_lt_is_Some_2 obs t) as [o Ho].
    { apply lookup_lt_Some in Hrow. lia. }
    destruct (Hrec t o Ho) as (v_prev & tmp & Hprev & Htmp & Hnz & Hnext).
    assert (row = score_row true tmp) as -> by congruence.
    destruct (viterbi_rows_good hmm obs vs Hvalid Hvlen Hv0 Hrec' t o v_prev tmp)
      as [_ Hgood]; try done.
    apply good_row_dist.
    + unfold score_row. by apply nan_or_nonneg_normalized.
    + unfold score_row. by apply vsum_normalized.
Qed.

(** X11.  Without a degenerate normalisation every stored row is a
    probability distribution: on a valid model the rows of [forwardHMM]
    when no forward normaliser is zero, the rows of [forward_backwardHMM]
    when no row of [f * b] has sum zero and every entry of [b] and of
    [f * b] is 0 or lies between 2^-1022 and 2^1000, and the rows of the
    Viterbi scores when no score row has sum zero, have finite entries
    between 0 and 1 that sum to 1. *)
Theorem rows_are_distributions (hmm : HMM) (obs : list frame) :
  valid_hmm hmm = true ->
  (forward_regular emission hmm obs = true ->
   exists f,
     forwardHMM hmm obs = Ok f /\ Forall (fun row => is_dist row = true) f)
  /\ (smoother_regular hmm obs = true ->
      smoother_in_range (Fin (Qc_of_Z 10000000)) hmm obs = true ->
      exists post,
        forward_backwardHMM hmm obs = Ok post
        /\ Forall (fun row => is_dist row = true) post)
  /\ (obs_in_range hmm obs = true -> viterbi_regular hmm obs = true ->
      exists path vs,
        viterbiHMM hmm obs = Ok (path, vs)
        /\ Forall (fun row => is_dist row = true) vs)
  /\ (forall row x, is_dist row = true -> x ∈ row ->
        exists a, x = Fin a /\ 0 <= a /\ a <= 1).
Proof.
  intros Hvalid. pose proof (valid_hmm_wf _ Hvalid) as Hwf.
  split_and!; [| | |apply is_dist_entries].
  - intros Hreg.
    destruct (forward_loop_filtering emission hmm obs (valid_hmm_pi _ Hvalid) Hreg)
      as (f & Hf & Hflen & Hf0 & Hfrows & Hfsum & _).
    exists f. split; [done |].
    apply Forall_lookup. intros t row Hrow. apply good_row_dist.
    + by eapply (forward_rows_good hmm obs f).
    + by eapply Hfsum, list_elem_of_lookup_2.
  - intros Hreg _. unfold smoother_regular in Hreg.
    destruct (forwardHMM hmm obs) as [f|] eqn:Hf; [|done].
    destruct (backwardHMM hmm obs) as [b|] eqn:Hb; [|done].
    pose proof (returned_emits hmm obs f Hwf Hf) as Hemit.
    destruct (forward_loop_rows emission hmm obs Hemit)
      as (f' & Hf' & Hflen & Hf0 & Hfrows).
    assert (f' = f) as -> by (unfold forwardHMM in Hf; congruence).
    destruct (backward_from_rows (Fin (Qc_of_Z 10000000)) hmm obs Hemit)
      as (b' & Hb' & Hblen & Hblast & Hbrows).
    assert (b' = b) as -> by (unfold backwardHMM in Hb; congruence).
    assert (Forall nonneg_vec b) as Hbn.
    { by apply (backward_rows_nonneg (Qc_of_Z 10000000) hmm obs). }
    destruct (regular_rows_smoothing (length obs) f b Hflen Hblen Hreg)
      as (_ & _ & Hprows).
    exists (normalize_rows (mmul f b)). split.
    { unfold forward_backwardHMM. by rewrite Hf, Hb. }
    apply Forall_lookup. intros t row Hrow.
    destruct (Hprows t row Hrow) as (f_t & b_t & Hft & Hbt & -> & Hsum).
    apply good_row_dist; [|done]. apply nan_or_nonneg_normalized.
    apply (good_vmul nan_or_nonneg nan_or_nonneg_fmul).
    + by eapply (forward_rows_good hmm obs f).
    + apply nonneg_nan_or_nonneg. rewrite Forall_lookup in Hbn. by eapply Hbn.
  - intros Hrange Hreg.
    destruct (viterbi_regular_rows hmm obs Hvalid Hrange Hreg)
      as (vs & bps & Hrun & _).
    exists (viterbi_path (length obs) vs bps), vs. split.
    { unfold viterbiHMM, viterbi_loop. by rewrite Hrun. }
    by apply (viterbi_regular_dists hmm obs vs bps).
Qed.

Lemma rows_are_distributions_witness :
  (exists f,
     forwardHMM hmm2 [(0, 0, 0); (1, 0, 0)]%Z = Ok f
     /\ Forall (fun row => is_dist row = true) f)
  /\ (exists post,
        forward_backwardHMM hmm2 [(0, 0, 0); (1, 0, 0)]%Z = Ok post
        /\ Forall (fun row => is_dist row = true) post)
  /\ (exists path vs,
        viterbiHMM hmm2 [(0, 0, 0); (1, 0, 0)]%Z = Ok (path, vs)
        /\ Forall (fun row => is_dist row = true) vs)
  /\ (exists a, q 1 2 = Fin a /\ 0 <= a /\ a <= 1).
Proof.
  assert (valid_hmm hmm2 = true) as Hvalid by (vm_compute; reflexivity).
  destruct (rows_are_distributions hmm2 [(0, 0, 0); (1, 0, 0)]%Z Hvalid)
    as (Hf & Hs & Hv & He).
  split_and!.
  - apply Hf. vm_compute; reflexivity.
  - apply Hs; vm_compute; reflexivity.
  - apply Hv; vm_compute; reflexivity.
  - apply (He [q 1 2; q 1 2]); [vm_compute; reflexivity | list_mem].
Defined.

(** ** The decoded path has positive probability *)

Lemma fin_pos_fmul_split (x y : float64) :
  fin_nonneg x = true -> fin_nonneg y = true ->
  fin_pos (fmul x y) = true -> fin_pos x = true /\ fin_pos y = true.
Proof.
  intros (a & -> & Ha)%fin_nonneg_inv (b & -> & Hb)%fin_nonneg_inv.
  cbn [fmul fin_pos]. rewrite !bool_decide_eq_true. intros Hab.
  destruct (Qcle_lt_or_eq _ _ Ha) as [Ha'|<-];
    [|replace (0 * b) with 0 in Hab by ring; by apply Qclt_not_eq in Hab].
  destruct (Qcle_lt_or_eq _ _ Hb) as [Hb'|<-];
    [|replace (a * 0) with 0 in Hab by ring; by apply Qclt_not_eq in Hab].
  done.
Qed.

Lemma fin_pos_fdiv_inv (x : float64) (c : Qc) :
  fin_nonneg x = true -> 0 < c -> fin_pos (fdiv x (Fin c)) = true ->
  fin_pos x = true.
Proof.
  intros (a & -> & Ha)%fin_nonneg_inv Hc. cbn [fdiv].
  rewrite decide_False by (intros ->; by apply (Qclt_not_le _ _ Hc), Qcle_refl).
  cbn [fin_pos]. rewrite !bool_decide_eq_true. intros Hac.
  destruct (Qcle_lt_or_eq _ _ Ha) as [Ha'|<-]; [done |].
  unfold Qcdiv in Hac. replace (0 * / c) with 0 in Hac by ring.
  by apply Qclt_not_eq in Hac.
Qed.

Lemma fmax_cases (x y : float64) : fmax x y = x \/ fmax x y = y.
Proof. unfold fmax. destruct (is_nan x || fle y x); auto. Qed.

Lemma foldl_fmax_elem (x : float64) (v : vec) : foldl fmax x v ∈ x :: v.
Proof.
  revert x. induction v as [|y v IH]; intros x; cbn [foldl]; [list_mem |].
  specialize (IH (fmax x y)). apply elem_of_cons in IH as [->|IH].
  - destruct (fmax_cases x y) as [->| ->]; list_mem.
  - by do 2 apply list_elem_of_further.
Qed.

(** [v.max()] is an entry of [v]. *)
Lemma vmax_elem (v : vec) : v <> [] -> vmax v ∈ v.
Proof. destruct v as [|x v]; [done |]. intros _. apply foldl_fmax_elem. Qed.

Lemma np_le_pos (x y : float64) :
  fin_nonneg y = true -> np_le x y = true -> fin_pos x = true -> fin_pos y = true.
Proof.
  intros (b & -> & Hb)%fin_nonneg_inv Hle (a & -> & Ha)%fin_pos_inv.
  unfold np_le in Hle. cbn in Hle. apply bool_decide_eq_true in Hle.
  cbn [fin_pos]. apply bool_decide_eq_true. by eapply Qclt_le_trans.
Qed.

(** On a non-negative vector a positive maximum is reached at the index
    that [argmax] returns. *)
Lemma first_max_pos (v : vec) (p i : nat) :
  nonneg_vec v -> first_max v p ->
  (i < length v)%nat -> fin_pos (v !!! i) = true ->
  fin_pos (v !!! p) = true.
Proof.
  intros Hv (Hp & Hmax & _) Hi Hpos.
  eapply np_le_pos; [| by apply Hmax | done].
  exact (good_lookup_total (fun x => fin_nonneg x = true) fin_nonneg_zero v p Hv).
Qed.

Lemma vmax_first_max (v : vec) (p : nat) :
  nonneg_vec v -> first_max v p -> fin_pos (vmax v) = true ->
  fin_pos (v !!! p) = true.
Proof.
  intros Hv Hp Hpos. assert (v <> []) as Hne.
  { intros ->. destruct Hp as [Hp _]. cbn in Hp. lia. }
  pose proof (vmax_elem v Hne) as (i & Hi)%list_elem_of_lookup.
  apply (first_max_pos v p i); [done | done | by eapply lookup_lt_Some |].
  by rewrite (list_lookup_total_correct _ _ _ Hi).
Qed.

Lemma outer_scale_entry (v : vec) (M : matrix) (i j : nat) (row : vec) :
  (i < length v)%nat -> M !! i = Some row -> (j < length row)%nat ->
  (outer_scale v M !!! i) !!! j = fmul (v !!! i) (row !!! j).
Proof.
  intros Hi Hrow Hj. destruct (lookup_lt_is_Some_2 v i Hi) as [p Hp].
  assert (outer_scale v M !! i = Some (map (fmul p) row)) as Hscaled.
  { unfold outer_scale. apply lookup_zip_with_Some. by exists p, row. }
  rewrite (list_lookup_total_correct _ _ _ Hscaled),
    (list_lookup_total_correct _ _ _ Hp).
  destruct (lookup_lt_is_Some_2 row j Hj) as [x Hx].
  rewrite (list_lookup_total_correct _ _ _ Hx).
  apply list_lookup_total_correct. by rewrite list_lookup_fmap, Hx.
Qed.

Lemma rows_mul_entry (tmp : matrix) (b : vec) (i j : nat) (row : vec) :
  tmp !! i = Some row -> (j < length row)%nat -> (j < length b)%nat ->
  (rows_mul tmp b !!! i) !!! j = fmul (row !!! j) (b !!! j).
Proof.
  intros Hrow Hj Hb.
  assert (rows_mul tmp b !! i = Some (vmul row b)) as Hmul.
  { unfold rows_mul. by rewrite list_lookup_fmap, Hrow. }
  rewrite (list_lookup_total_correct _ _ _ Hmul). by apply vmul_lookup_total.
Qed.

Lemma has_shape_row {X : Type} `{Inhabited X} (r c : nat) (M : list (list X)) (i : nat) :
  has_shape r c M -> (i < r)%nat ->
  M !! i = Some (M !!! i) /\ length (M !!! i) = c.
Proof.
  intros [Hlen Hrows] Hi. destruct (lookup_lt_is_Some_2 M i) as [row Hrow]; [lia |].
  rewrite (list_lookup_total_correct _ _ _ Hrow). split; [done |].
  rewrite Forall_forall in Hrows. apply Hrows. by eapply list_elem_of_lookup_2.
Qed.

(** An entry of the matrix [tmp] of a Viterbi round. *)
Lemma weigh_entry (hmm : HMM) (o : frame) (v_prev : vec) (tmp : matrix) (i j : nat) :
  wf_hmm hmm = true ->
  frame_in_range hmm o = true ->
  length v_prev = num_states hmm ->
  weigh hmm o (outer_scale v_prev (A hmm)) = Ok tmp ->
  (i < num_states hmm)%nat -> (j < num_states hmm)%nat ->
  (tmp !!! i) !!! j
  = fmul (fmul (fmul (fmul (v_prev !!! i) ((A hmm !!! i) !!! j))
                     ((B1 hmm !!! Z.to_nat o.1.1) !!! j))
               ((B2 hmm !!! Z.to_nat o.1.2) !!! j))
         ((B3 hmm !!! Z.to_nat o.2) !!! j).
Proof.
  intros Hwf Ho Hlen Hw Hi Hj.
  destruct (wf_hmm_inv hmm Hwf) as (Hn & HA & Hw1 & Hw2 & Hw3).
  unfold frame_in_range in Ho. rewrite !andb_true_iff in Ho.
  destruct Ho as [[Ho1 Ho2] Ho3].
  destruct (symbol_in_range_getitem _ _ _ Hw1 Ho1) as (b1 & Hb1 & Hl1 & Hlen1).
  destruct (symbol_in_range_getitem _ _ _ Hw2 Ho2) as (b2 & Hb2 & Hl2 & Hlen2).
  destruct (symbol_in_range_getitem _ _ _ Hw3 Ho3) as (b3 & Hb3 & Hl3 & Hlen3).
  rewrite (list_lookup_total_correct _ _ _ Hl1),
    (list_lookup_total_correct _ _ _ Hl2), (list_lookup_total_correct _ _ _ Hl3).
  unfold weigh in Hw. rewrite Hb1, Hb2, Hb3, !bind_Ok in Hw. injection Hw as <-.
  destruct (has_shape_row _ _ _ i HA Hi) as [HAi HAl].
  pose proof (has_shape_outer_scale _ v_prev _ Hlen HA) as Hs0.
  pose proof (has_shape_rows_mul _ _ _ b1 Hs0 Hlen1) as Hs1.
  pose proof (has_shape_rows_mul _ _ _ b2 Hs1 Hlen2) as Hs2.
  destruct (has_shape_row _ _ _ i Hs0 Hi) as [H0i H0l].
  destruct (has_shape_row _ _ _ i Hs1 Hi) as [H1i H1l].
  destruct (has_shape_row _ _ _ i Hs2 Hi) as [H2i H2l].
  rewrite (rows_mul_entry _ _ _ _ _ H2i) by lia.
  rewrite (rows_mul_entry _ _ _ _ _ H1i) by lia.
  rewrite (rows_mul_entry _ _ _ _ _ H0i) by lia.
  assert (i < length v_prev)%nat as Hiv by lia.
  by rewrite (outer_scale_entry _ _ _ _ _ Hiv HAi) by lia.
Qed.

Lemma nonneg_row (M : matrix) (i : nat) : nonneg_matrix M -> nonneg_vec (M !!! i).
Proof.
  intros HM. rewrite list_lookup_total_alt. destruct (M !! i) as [row|] eqn:E.
  - rewrite Forall_forall in HM. apply HM. by eapply list_elem_of_lookup_2.
  - constructor.
Qed.

Lemma nonneg_entry (M : matrix) (i j : nat) :
  nonneg_matrix M -> fin_nonneg ((M !!! i) !!! j) = true.
Proof.
  intros HM.
  exact (good_lookup_total (fun x => fin_nonneg x = true) fin_nonneg_zero _ j
           (nonneg_row M i HM)).
Qed.

Lemma score_lookup (tmp : matrix) (j : nat) :
  (j < ncols tmp)%nat -> map vmax (transpose tmp) !!! j = vmax (column tmp j).
Proof.
  intros Hj. apply list_lookup_total_correct.
  by rewrite list_lookup_fmap, transpose_lookup.
Qed.

Section viterbi_possible.
Variable hmm : HMM.
Hypothesis valid : valid_hmm hmm = true.

Lemma viterbi_tmp_facts (o : frame) (v_prev : vec) :
  nonneg_vec v_prev -> length v_prev = num_states hmm ->
  frame_in_range hmm o = true ->
  exists tmp,
    weigh hmm o (outer_scale v_prev (A hmm)) = Ok tmp
    /\ has_shape (num_states hmm) (num_states hmm) tmp
    /\ nonneg_matrix tmp
    /\ ncols tmp = num_states hmm
    /\ nonneg_vec (map vmax (transpose tmp))
    /\ length (map vmax (transpose tmp)) = num_states hmm.
Proof.
  intros Hv Hlen Ho. pose proof (valid_hmm_wf _ valid) as Hwf.
  destruct (wf_hmm_inv hmm Hwf) as (Hn & HA & _).
  destruct (valid_hmm_nonneg hmm valid) as (_ & HnA & _).
  destruct (weigh_shape hmm o (outer_scale v_prev (A hmm)) Hwf Ho)
    as (tmp & Htmp & Hshape); [by apply has_shape_outer_scale |].
  assert (ncols tmp = num_states hmm) as Hcols.
  { by apply (has_shape_ncols (num_states hmm)). }
  exists tmp. split_and!; [done | done | | done | |].
  - eapply weigh_nonneg; [done | | done]. by apply nonneg_outer_scale.
  - apply nonneg_score_row. eapply weigh_nonneg; [done | | done].
    by apply nonneg_outer_scale.
  - by rewrite length_map, length_transpose.
Qed.

Lemma viterbi_round_back (o : frame) (v_prev : vec) (tmp : matrix) (c : Qc) (p' : nat) :
  nonneg_vec v_prev -> length v_prev = num_states hmm ->
  frame_in_range hmm o = true ->
  weigh hmm o (outer_scale v_prev (A hmm)) = Ok tmp ->
  vsum (map vmax (transpose tmp)) = Fin c -> 0 < c ->
  (p' < num_states hmm)%nat ->
  fin_pos (score_row true tmp !!! p') = true ->
  let p := argmax (column tmp p') in
  (p < num_states hmm)%nat
  /\ fin_pos (v_prev !!! p) = true
  /\ fin_pos ((A hmm !!! p) !!! p') = true
  /\ fin_pos ((B1 hmm !!! Z.to_nat o.1.1) !!! p') = true
  /\ fin_pos ((B2 hmm !!! Z.to_nat o.1.2) !!! p') = true
  /\ fin_pos ((B3 hmm !!! Z.to_nat o.2) !!! p') = true.
Proof.
  intros Hv Hlen Ho Hw Hc Hcpos Hp' Hpos. cbv zeta.
  pose proof (valid_hmm_wf _ valid) as Hwf.
  destruct (valid_hmm_nonneg hmm valid) as (_ & HnA & Hn1 & Hn2 & Hn3).
  destruct (viterbi_tmp_facts o v_prev Hv Hlen Ho)
    as (tmp' & Htmp & [Hrows Hshape] & Hnn & Hcols & Hnv & Hlv).
  assert (tmp' = tmp) as -> by congruence.
  unfold score_row in Hpos. rewrite Hc, vdiv_lookup_total in Hpos by lia.
  apply fin_pos_fdiv_inv in Hpos; [|
    exact (good_lookup_total (fun x => fin_nonneg x = true) fin_nonneg_zero _ p' Hnv)
    | done].
  rewrite score_lookup in Hpos by lia.
  assert (nonneg_vec (column tmp p')) as Hcol.
  { apply good_column; [apply fin_nonneg_zero | done]. }
  assert (column tmp p' <> []) as Hne.
  { intros Hnil. apply (f_equal length) in Hnil.
    rewrite length_column in Hnil. cbn in Hnil.
    destruct (wf_hmm_inv hmm Hwf) as (Hn & _). lia. }
  pose proof (argmax_first_max _ Hne) as Hfm.
  pose proof (vmax_first_max _ _ Hcol Hfm Hpos) as Hentry.
  destruct Hfm as (Hlt & _). rewrite length_column, Hrows in Hlt.
  set (p := argmax (column tmp p')) in *.
  rewrite column_lookup_total in Hentry by lia.
  rewrite (weigh_entry hmm o v_prev tmp p p') in Hentry by done.
  assert (fin_nonneg (v_prev !!! p) = true) as Hvp.
  { exact (good_lookup_total (fun x => fin_nonneg x = true) fin_nonneg_zero _ p Hv). }
  pose proof (nonneg_entry (A hmm) p p' HnA) as HAe.
  pose proof (nonneg_entry (B1 hmm) (Z.to_nat o.1.1) p' Hn1) as H1e.
  pose proof (nonneg_entry (B2 hmm) (Z.to_nat o.1.2) p' Hn2) as H2e.
  pose proof (nonneg_entry (B3 hmm) (Z.to_nat o.2) p' Hn3) as H3e.
  apply fin_pos_fmul_split in Hentry as [Hentry H3];
    [| by repeat apply fin_nonneg_fmul | done].
  apply fin_pos_fmul_split in Hentry as [Hentry H2];
    [| by repeat apply fin_nonneg_fmul | done].
  apply fin_pos_fmul_split in Hentry as [Hentry H1];
    [| by repeat apply fin_nonneg_fmul | done].
  apply fin_pos_fmul_split in Hentry as [Hentry HA]; [| done | done].
  by split_and!.
Qed.

End viterbi_possible.

Lemma possible_from_intro (hmm : HMM) (os : list frame) :
  forall (hs : list nat) (h : nat),
    length hs = length os ->
    (forall i hp h' o,
       (h :: hs) !! i = Some hp -> hs !! i = Some h' -> os !! i = Some o ->
       (h' < num_states hmm)%nat
       /\ frame_in_range hmm o = true
       /\ fin_pos ((A hmm !!! hp) !!! h') = true
       /\ fin_pos ((B1 hmm !!! Z.to_nat o.1.1) !!! h') = true
       /\ fin_pos ((B2 hmm !!! Z.to_nat o.1.2) !!! h') = true
       /\ fin_pos ((B3 hmm !!! Z.to_nat o.2) !!! h') = true) ->
    possible_from hmm h hs os = true.
Proof.
  induction os as [|o os IH]; intros [|h' hs] h Hlen Hstep; try done.
  cbn [possible_from].
  destruct (Hstep 0%nat h h' o eq_refl eq_refl eq_refl) as (? & ? & ? & ? & ? & ?).
  rewrite !andb_true_iff, bool_decide_eq_true. split_and!; try done.
  apply IH; [by simplify_eq/= |].
  intros i hp h'' o' Hp Hh Ho. by apply (Hstep (S i)).
Qed.

(** A distribution has an entry that is positive. *)
Lemma positive_sum_entry (v : vec) :
  is_dist v = true -> exists i, (i < length v)%nat /\ fin_pos (v !!! i) = true.
Proof.
  intros (qs & -> & Hqs & Hsum)%is_dist_inv.
  assert (0 < qsum qs) as Hpos by (by rewrite Hsum).
  clear Hsum. induction Hqs as [|a qs Ha Hqs IH]; [by apply Qclt_not_eq in Hpos |].
  destruct (Qclt_le_dec 0 a) as [Hlt|Hle].
  - exists 0%nat. split; [cbn; lia |]. cbn. by apply bool_decide_eq_true.
  - assert (a = 0) as -> by (by apply Qcle_antisym).
    cbn [qsum] in Hpos. replace (0 + qsum qs) with (qsum qs) in Hpos by ring.
    destruct (IH Hpos) as (i & Hi & Hp). exists (S i). split; [cbn; lia | done].
Qed.

(** X12.  The decoder returns a path of positive probability: on a valid
    model and frames of known symbols, when no score row of [viterbiHMM]
    has sum zero, the path it returns starts in a state of positive
    initial probability, takes only transitions of positive probability,
    and passes only through states that can emit the observed symbols. *)
Theorem decoded_path_is_possible (hmm : HMM) (obs : list frame) :
  valid_hmm hmm = true ->
  obs_in_range hmm obs = true ->
  viterbi_regular hmm obs = true ->
  exists path vs,
    viterbiHMM hmm obs = Ok (path, vs)
    /\ possible hmm path obs = true.
Proof.
  intros Hvalid Hrange Hreg.
  pose proof (valid_hmm_wf _ Hvalid) as Hwf.
  destruct (wf_hmm_inv hmm Hwf) as (HN & HA & _).
  destruct (viterbi_trellis_rows weigh true hmm obs HN HA)
    as (vs & bps & Hrun & Hvlen & Hv0 & Hvrows & Hrec).
  { intros o tmp Ho Htmp. apply weigh_shape; [done | | done].
    by eapply frame_in_range_elem. }
  destruct (viterbi_regular_rows hmm obs Hvalid Hrange Hreg)
    as (vs' & bps' & Hrun' & _ & _ & Hnz).
  assert (vs' = vs) as -> by congruence. clear Hrun' bps'.
  pose proof (viterbi_regular_dists hmm obs vs bps Hvalid Hrange Hreg Hrun) as Hdists.
  destruct (viterbi_path_spec (length obs) vs bps Hvlen) as (Hplen & Hlast & Hback).
  set (path := viterbi_path (length obs) vs bps) in *.
  assert (forall t row, vs !! t = Some row -> length row = num_states hmm) as Hwidth.
  { intros t row Hrow. rewrite Forall_forall in Hvrows. apply Hvrows.
    by eapply list_elem_of_lookup_2. }
  assert (forall t row, vs !! t = Some row -> is_dist row = true) as Hdist.
  { intros t row Hrow. rewrite Forall_lookup in Hdists. by eapply Hdists. }
  (* one step back along the stored backpointers *)
  assert (forall t o, obs !! t = Some o ->
            (path !!! S t < num_states hmm)%nat ->
            fin_pos ((vs !!! S t) !!! (path !!! S t)) = true ->
            (path !!! t < num_states hmm)%nat
            /\ fin_pos ((vs !!! t) !!! (path !!! t)) = true
            /\ fin_pos ((A hmm !!! (path !!! t)) !!! (path !!! S t)) = true
            /\ fin_pos ((B1 hmm !!! Z.to_nat o.1.1) !!! (path !!! S t)) = true
            /\ fin_pos ((B2 hmm !!! Z.to_nat o.1.2) !!! (path !!! S t)) = true
            /\ fin_pos ((B3 hmm !!! Z.to_nat o.2) !!! (path !!! S t)) = true) as Hstep.
  { intros t o Ho Hp' Hpos.
    assert (t < length obs)%nat as Ht by (by eapply lookup_lt_Some).
    assert (frame_in_range hmm o = true) as Hor.
    { by eapply frame_in_range_elem, list_elem_of_lookup_2. }
    destruct (Hrec t o Ho) as (row & tmp & Hrow & Htmp & Hshape & Hbp & Hnext).
    destruct (Hnz t o Ho) as (row' & tmp' & Hrow' & Htmp' & Hsum & _).
    assert (row' = row) as -> by congruence.
    assert (tmp' = tmp) as -> by congruence.
    pose proof (is_dist_nonneg _ (Hdist _ _ Hrow)) as Hnn.
    pose proof (Hwidth _ _ Hrow) as Hl.
    destruct (viterbi_tmp_facts hmm Hvalid o row Hnn Hl Hor)
      as (tmp' & Htmp'' & _ & _ & _ & Hnn' & _).
    assert (tmp' = tmp) as -> by congruence.
    destruct (nonneg_nonzero_pos _ Hnn' Hsum) as (c & Hc & Hcpos).
    rewrite (list_lookup_total_correct _ _ _ Hnext) in Hpos.
    rewrite (list_lookup_total_correct _ _ _ Hrow).
    rewrite (list_lookup_total_correct _ _ _ (Hback t Ht)),
      (list_lookup_total_correct _ _ _ Hbp).
    assert (map argmax (transpose tmp) !!! (path !!! S t)
            = argmax (column tmp (path !!! S t))) as ->.
    { apply list_lookup_total_correct.
      rewrite list_lookup_fmap, transpose_lookup; [done |].
      by rewrite (has_shape_ncols _ _ _ HN Hshape). }
    by apply (viterbi_round_back hmm Hvalid o row tmp c). }
  (* every state of the path has a positive score *)
  assert (forall d t, (t + d = length obs)%nat ->
            (path !!! t < num_states hmm)%nat
            /\ fin_pos ((vs !!! t) !!! (path !!! t)) = true) as Hpath.
  { induction d as [|d IH]; intros t Ht.
    - assert (t = length obs) as -> by lia.
      destruct (lookup_lt_is_Some_2 vs (length obs)) as [row Hrow]; [lia |].
      rewrite (list_lookup_total_correct _ _ _ Hlast),
        (list_lookup_total_correct _ _ _ Hrow).
      pose proof (Hwidth _ _ Hrow) as Hl.
      pose proof (Hdist _ _ Hrow) as Hd.
      destruct (positive_sum_entry row Hd) as (i & Hi & Hipos).
      assert (row <> []) as Hne by (intros ->; cbn in Hl; lia).
      pose proof (argmax_first_max row Hne) as Hfm. split.
      + destruct Hfm as [Hlt _]. lia.
      + apply (first_max_pos row _ i); try done. by apply is_dist_nonneg.
    - destruct (lookup_lt_is_Some_2 obs t) as [o Ho]; [lia |].
      destruct (IH (S t) ltac:(lia)) as [Hp' Hpos].
      destruct (Hstep t o Ho Hp' Hpos) as (? & ? & _). done. }
  exists path, vs. split.
  - unfold viterbiHMM, viterbi_loop. by rewrite Hrun.
  - destruct path as [|p0 ps] eqn:Epath; [done |].
    destruct (Hpath (length obs) 0%nat ltac:(lia)) as [Hp0 Hpos0].
    rewrite (list_lookup_total_correct _ _ _ Hv0) in Hpos0. cbn in Hp0, Hpos0.
    unfold possible. rewrite !andb_true_iff, bool_decide_eq_true.
    split_and!; [done | done |].
    apply possible_from_intro; [cbn in Hplen; lia |].
    intros i hp h' o Hhp Hh' Ho.
    assert (i < length obs)%nat as Hi by (by eapply lookup_lt_Some).
    destruct (Hpath (length obs - S i)%nat (S i) ltac:(lia)) as [Hp' Hpos'].
    destruct (Hstep i o Ho Hp' Hpos') as (_ & _ & HAp & H1 & H2 & H3).
    rewrite (list_lookup_total_correct _ _ _ Hhp) in HAp.
    change ((p0 :: ps) !!! S i) with (ps !!! i) in *.
    rewrite (list_lookup_total_correct _ _ _ Hh') in *.
    split_and!; try done.
    by eapply frame_in_range_elem, list_elem_of_lookup_2.
Qed.

Lemma decoded_path_is_possible_witness :
  exists path vs,
    viterbiHMM hmm2 [(0, 0, 0); (1, 0, 0)]%Z = Ok (path, vs)
    /\ possible hmm2 path [(0, 0, 0); (1, 0, 0)]%Z = true.
Proof.
  apply (decoded_path_is_possible hmm2 [(0, 0, 0); (1, 0, 0)]%Z);
    vm_compute; reflexivity.
Defined.

(** ** What the categorical generator produces *)

Lemma column_stochastic_dist (n : nat) (B : matrix) (j : nat) :
  column_stochastic n B = true -> (j < n)%nat -> is_dist (column B j) = true.
Proof.
  unfold column_stochastic. rewrite forallb_forall. intros HB Hj.
  apply HB, in_seq. lia.
Qed.

Lemma valid_hmm_columns (hmm : HMM) (j : nat) :
  valid_hmm hmm = true -> (j < num_states hmm)%nat ->
  is_dist (column (B1 hmm) j) = true
  /\ is_dist (column (B2 hmm) j) = true
  /\ is_dist (column (B3 hmm) j) = true.
Proof.
  unfold valid_hmm. rewrite !andb_true_iff.
  intros [[[[[_ _] _] H1] H2] H3] Hj.
  split_and!; by eapply column_stochastic_dist.
Qed.

Section generator_results.
Variable rng : Type.
Variable random_sample : rng -> Qc * rng.
Variable random_normal : float64 -> float64 -> rng -> float64 * rng.

Lemma draws_reach_sub (dists dists' : list vec) :
  (forall dist, dist ∈ dists' -> dist ∈ dists) ->
  draws_reach rng random_sample dists -> draws_reach rng random_sample dists'.
Proof. intros Hsub Hreach dist g Hin. by apply Hreach, Hsub. Qed.

Lemma state_dists_model (hmm : HMM) (dist : vec) :
  dist ∈ state_dists hmm -> dist ∈ model_dists hmm.
Proof. intros Hin. unfold model_dists. apply elem_of_app. by left. Qed.

Lemma column_model_dists (hmm : HMM) (B : matrix) (h : nat) :
  B ∈ [B1 hmm; B2 hmm; B3 hmm] -> (h < ncols B)%nat ->
  column B h ∈ model_dists hmm.
Proof.
  intros HB Hh.
  assert (column B h ∈ transpose B) as Hcol.
  { apply list_elem_of_lookup. exists h. by apply transpose_lookup. }
  unfold model_dists. rewrite !elem_of_app.
  apply list_elem_of_In in HB. cbn in HB. by intuition subst; auto.
Qed.

(** The hidden states of an ancestral sample are states of the model,
    entered by steps of positive probability when no draw is 0. *)
Lemma ancestral_states (drawn : list rng -> nat -> matrix -> nat -> Z -> Prop)
    (hmm : HMM) (L : nat) (g : rng) (res : gen_state rng) :
  draws_reach rng random_sample (state_dists hmm) ->
  is_dist (pi hmm) = true ->
  length (A hmm) = num_states hmm ->
  (forall row, row ∈ A hmm -> is_dist row = true /\ length row = num_states hmm) ->
  ancestral rng random_sample drawn hmm L g res ->
  exists h0 hs,
    res.1.1 = h0 :: hs /\ length hs = L
    /\ (h0 < num_states hmm)%nat
    /\ (positive_draws rng random_sample -> fin_pos (pi hmm !!! h0) = true)
    /\ forall i hp h',
         (h0 :: hs) !! i = Some hp -> hs !! i = Some h' ->
         (hp < num_states hmm)%nat
         /\ (h' < num_states hmm)%nat
         /\ (positive_draws rng random_sample ->
             fin_pos ((A hmm !!! hp) !!! h') = true).
Proof.
  intros Hreach Hpi HAl HA (Hlh & Hlo & gs & _ & _ & (h0 & Hh0 & Hd0) & Hsteps).
  destruct res as [[hidden obs] g']. cbn [fst snd] in *.
  destruct hidden as [|h0' hs]; [done |]. cbn in Hh0, Hlh.
  injection Hh0 as ->. assert (length hs = L) as Hlhs by lia.
  destruct Hd0 as (g0 & g1 & _ & _ & Hs0).
  assert (pi hmm ∈ state_dists hmm) as Hpin by apply list_elem_of_here.
  destruct (sample_drawn _ _ _ _ _ _ Hpi (Hreach _ g0 Hpin) Hs0) as [Hh0lt Hh0pos].
  exists h0, hs. split_and!; [done | done | done | |].
  { intros Hpos. apply Hh0pos. by destruct (Hpos g0). }
  intros i hp h' Hhp Hh'.
  assert (i < L)%nat as Hi by (rewrite <- Hlhs; by eapply lookup_lt_Some).
  destruct (Hsteps i Hi)
    as (h & h'' & row & p1 & p2 & p3 & Hh & Hn & Hrow & Hdraw & _).
  change ((h0 :: hs) !! S i) with (hs !! i) in Hn.
  assert (h = hp) as -> by congruence. assert (h'' = h') as -> by congruence.
  destruct (HA row) as [Hrd Hrl]; [by eapply list_elem_of_lookup_2 |].
  destruct Hdraw as (ga & gb & _ & _ & Hs).
  assert (row ∈ state_dists hmm) as Hrin.
  { apply list_elem_of_further. by eapply list_elem_of_lookup_2. }
  destruct (sample_drawn _ _ _ _ _ _ Hrd (Hreach _ ga Hrin) Hs) as [Hlt Hpos].
  rewrite Hrl in Hlt. split_and!.
  - rewrite <- HAl. by eapply lookup_lt_Some.
  - done.
  - intros Hp. rewrite (list_lookup_total_correct _ _ _ Hrow).
    apply Hpos. by destruct (Hp ga).
Qed.

(** A symbol drawn from the column of state [h'] of a table. *)
Lemma drawn_symbol_possible (dists : list vec) (B : matrix) (gs : list rng)
    (n h' : nat) (o : Z) :
  draws_reach rng random_sample dists ->
  column B h' ∈ dists ->
  is_dist (column B h') = true ->
  drawn_symbol rng random_sample gs n B h' o ->
  symbol_in_range B o = true
  /\ (positive_draws rng random_sample ->
      fin_pos ((B !!! Z.to_nat o) !!! h') = true).
Proof.
  intros Hreach Hin Hd (s & (g & g' & _ & _ & Hs) & ->).
  destruct (sample_drawn _ _ _ _ _ _ Hd (Hreach _ g Hin) Hs) as [Hlt Hpos].
  rewrite length_column in Hlt. split.
  - apply bool_decide_eq_true. lia.
  - intros Hp. rewrite Nat2Z.id, <- column_lookup_total by done.
    apply Hpos. by destruct (Hp g).
Qed.

(** The steps of an ancestral sample of symbols, one by one. *)
Lemma ancestral_steps (hmm : HMM) (L : nat) (g : rng) (res : gen_state rng) :
  valid_hmm hmm = true ->
  draws_reach rng random_sample (model_dists hmm) ->
  ancestral rng random_sample (drawn_symbol rng random_sample) hmm L g res ->
  exists h0 hs,
    res.1.1 = h0 :: hs /\ length hs = L /\ length res.1.2 = L
    /\ (h0 < num_states hmm)%nat
    /\ (positive_draws rng random_sample -> fin_pos (pi hmm !!! h0) = true)
    /\ forall i hp h' o,
         (h0 :: hs) !! i = Some hp -> hs !! i = Some h' -> res.1.2 !! i = Some o ->
         (hp < num_states hmm)%nat
         /\ (h' < num_states hmm)%nat
         /\ frame_in_range hmm o = true
         /\ (positive_draws rng random_sample ->
             fin_pos ((A hmm !!! hp) !!! h') = true
             /\ fin_pos ((B1 hmm !!! Z.to_nat o.1.1) !!! h') = true
             /\ fin_pos ((B2 hmm !!! Z.to_nat o.1.2) !!! h') = true
             /\ fin_pos ((B3 hmm !!! Z.to_nat o.2) !!! h') = true).
Proof.
  intros Hvalid Hreach Hanc.
  destruct (valid_hmm_dists hmm Hvalid) as (Hpi & HAl & HA & HB1 & HB2 & HB3).
  destruct (ancestral_states _ hmm L g res
              (draws_reach_sub _ _ (state_dists_model hmm) Hreach) Hpi HAl HA Hanc)
    as (h0 & hs & Hhid & Hlhs & Hh0 & Hh0pos & Hstates).
  destruct Hanc as (_ & Hlo & gs & _ & _ & _ & Hsteps).
  exists h0, hs. split_and!; [done | done | done | done | done |].
  intros i hp h' [[o1 o2] o3] Hhp Hh' Ho.
  assert (i < L)%nat as Hi by (rewrite <- Hlo; by eapply lookup_lt_Some).
  destruct (Hstates i hp h' Hhp Hh') as (Hhplt & Hlt & HApos).
  destruct (Hsteps i Hi)
    as (h & h'' & row & p1 & p2 & p3 & _ & Hn & _ & _ & Hobs & Hd1 & Hd2 & Hd3).
  rewrite Hhid in Hn. change ((h0 :: hs) !! S i) with (hs !! i) in Hn.
  assert (h'' = h') as -> by congruence.
  assert ((p1, p2, p3) = (o1, o2, o3)) as Heq by congruence.
  injection Heq as -> -> ->.
  destruct (valid_hmm_columns hmm h' Hvalid Hlt) as (Hc1 & Hc2 & Hc3).
  destruct (drawn_symbol_possible _ (B1 hmm) gs (4 * i + 2)%nat h' o1 Hreach) as [Hr1 Hp1];
    [apply column_model_dists; [list_mem | lia] | done | done |].
  destruct (drawn_symbol_possible _ (B2 hmm) gs (4 * i + 3)%nat h' o2 Hreach) as [Hr2 Hp2];
    [apply column_model_dists; [list_mem | lia] | done | done |].
  destruct (drawn_symbol_possible _ (B3 hmm) gs (4 * i + 4)%nat h' o3 Hreach) as [Hr3 Hp3];
    [apply column_model_dists; [list_mem | lia] | done | done |].
  split_and!; [done | done | |].
  - unfold frame_in_range. cbn [fst snd]. by rewrite Hr1, Hr2, Hr3.
  - intros Hp. cbn [fst snd]. split_and!; auto.
Qed.

(** Ancestral sampling with less said about the observations. *)
Lemma ancestral_weaken (drawn drawn' : list rng -> nat -> matrix -> nat -> Z -> Prop)
    (hmm : HMM) (L : nat) (g : rng) (res : gen_state rng) :
  (forall gs n B h o, drawn gs n B h o -> drawn' gs n B h o) ->
  ancestral rng random_sample drawn hmm L g res ->
  ancestral rng random_sample drawn' hmm L g res.
Proof.
  intros Hsub (Hlh & Hlo & gs & Hg & Hg' & Hh0 & Hsteps).
  split_and!; [done | done |]. exists gs. split_and!; [done | done | done |].
  intros i Hi.
  destruct (Hsteps i Hi)
    as (h & h' & row & o1 & o2 & o3 & ? & ? & ? & ? & ? & ? & ? & ?).
  exists h, h', row, o1, o2, o3. split_and!; auto.
Qed.

(** What [generate_sequence] returns when every draw is within reach. *)
Lemma generated_sequence (hmm : HMM) (L : nat) (g : rng) :
  valid_hmm hmm = true ->
  draws_reach rng random_sample (model_dists hmm) ->
  exists h0 hs obs g',
    generate_sequence rng random_sample hmm (Z.of_nat L) g = Ok (h0 :: hs, obs, g')
    /\ ancestral rng random_sample (drawn_symbol rng random_sample) hmm L g
         (h0 :: hs, obs, g')
    /\ length hs = L /\ length obs = L
    /\ Forall (fun h => (h < num_states hmm)%nat) (h0 :: hs)
    /\ obs_in_range hmm obs = true
    /\ (positive_draws rng random_sample -> possible hmm (h0 :: hs) obs = true).
Proof.
  intros Hvalid Hreach.
  destruct (generate_sequence_ancestral rng random_sample hmm L g Hvalid
              (draws_reach_sub _ _ (state_dists_model hmm) Hreach))
    as (res & Hres & Hanc).
  destruct (ancestral_steps hmm L g res Hvalid Hreach Hanc)
    as (h0 & hs & Hhid & Hlhs & Hlobs & Hh0 & Hpi & Hsteps).
  destruct res as [[hidden obs] g']. cbn [fst snd] in *. subst hidden.
  exists h0, hs, obs, g'. split_and!; [done | done | done | done | | |].
  - constructor; [done |]. apply Forall_lookup. intros i h' Hh'.
    destruct (lookup_lt_is_Some_2 obs i) as [o Ho].
    { rewrite Hlobs, <- Hlhs. by eapply lookup_lt_Some. }
    destruct (lookup_lt_is_Some_2 (h0 :: hs) i) as [hp Hhp].
    { cbn. apply lookup_lt_Some in Hh'. lia. }
    by destruct (Hsteps i hp h' o Hhp Hh' Ho) as (_ & ? & _).
  - unfold obs_in_range. apply forallb_forall. intros o Ho.
    apply list_elem_of_In, list_elem_of_lookup in Ho as [i Hi].
    destruct (lookup_lt_is_Some_2 hs i) as [h' Hh'].
    { rewrite Hlhs, <- Hlobs. by eapply lookup_lt_Some. }
    destruct (lookup_lt_is_Some_2 (h0 :: hs) i) as [hp Hhp].
    { cbn. apply lookup_lt_Some in Hh'. lia. }
    by destruct (Hsteps i hp h' o Hhp Hh' Hi) as (_ & _ & ? & _).
  - intros Hpos. unfold possible.
    rewrite !andb_true_iff, bool_decide_eq_true. split_and!; [done | auto |].
    apply possible_from_intro; [lia |]. intros i hp h' o Hhp Hh' Ho.
    destruct (Hsteps i hp h' o Hhp Hh' Ho) as (_ & ? & ? & Hp).
    destruct (Hp Hpos) as (? & ? & ? & ?). by split_and!.
Qed.

(** C8 (amended).  For a valid model and a length L >= 0, when every
    uniform draw is within reach of the running sums it is searched in,
    [generate_sequence] returns L+1 hidden states and L observation
    triples: state 0 is drawn from [pi], state i+1 from the row of [A] of
    state i, and observation i of each channel from the column of state
    i+1 in that channel's table; the states are states of the model and
    the symbols are symbols of their channels.  For a Gaussian model
    [generate_sequenceG] draws its hidden states in the same way and
    makes the normal draw of observation i with the mean and the standard
    deviation of that column, provided every normal draw can be stored in
    the array of the observations (what the array keeps of a draw is the
    matter of C9). *)
Theorem generators_sample_ancestrally (L : nat) (g : rng) :
  (forall hmm,
     valid_hmm hmm = true ->
     draws_reach rng random_sample (model_dists hmm) ->
     exists res,
       generate_sequence rng random_sample hmm (Z.of_nat L) g = Ok res
       /\ ancestral rng random_sample (drawn_symbol rng random_sample) hmm L g res
       /\ Forall (fun h => (h < num_states hmm)%nat) res.1.1
       /\ obs_in_range hmm res.1.2 = true)
  /\ (forall hmm,
        valid_hmmG hmm = true ->
        draws_reach rng random_sample (state_dists hmm) ->
        normal_draws_fit rng random_normal hmm ->
        exists res,
          generate_sequenceG rng random_sample random_normal hmm (Z.of_nat L) g
          = Ok res
          /\ ancestral rng random_sample (normal_draw_made rng random_normal)
               hmm L g res
          /\ Forall (fun h => (h < num_states hmm)%nat) res.1.1).
Proof.
  split.
  - intros hmm Hvalid Hreach.
    destruct (generated_sequence hmm L g Hvalid Hreach)
      as (h0 & hs & obs & g' & Hres & Hanc & _ & _ & Hstates & Hrange & _).
    by exists (h0 :: hs, obs, g').
  - intros hmm Hvalid Hreach Hfit.
    destruct (generate_sequenceG_ancestral rng random_sample random_normal
                hmm L g Hvalid Hreach Hfit) as (res & Hres & Hanc).
    destruct (valid_hmmG_dists hmm Hvalid) as (Hpi & HAl & HA).
    destruct (ancestral_states _ hmm L g res Hreach Hpi HAl HA Hanc)
      as (h0 & hs & Hhid & Hlhs & Hh0 & _ & Hstates).
    exists res. split_and!; [done | |].
    { apply (ancestral_weaken (drawn_normal rng random_normal)); [|done].
      intros gs n B h o (mu & sd & x & ? & ? & _). by exists mu, sd, x. }
    rewrite Hhid.
    constructor; [done |]. apply Forall_lookup. intros i h' Hh'.
    destruct (lookup_lt_is_Some_2 (h0 :: hs) i) as [hp Hhp].
    { cbn. apply lookup_lt_Some in Hh'. lia. }
    by destruct (Hstates i hp h' Hhp Hh') as (_ & ? & _).
Qed.

(** X13.  The categorical generator only produces what the inference
    routines accept: for a valid model and draws within reach of the
    running sums, every hidden state it returns is a state of the model
    and every observed symbol is a row index of its channel's table, so
    that [forwardHMM], [backwardHMM] and [viterbiHMM] return on the
    generated frames. *)
Theorem generated_frames_are_accepted (hmm : HMM) (L : nat) (g : rng) :
  valid_hmm hmm = true ->
  draws_reach rng random_sample (model_dists hmm) ->
  exists hidden obs g',
    generate_sequence rng random_sample hmm (Z.of_nat L) g = Ok (hidden, obs, g')
    /\ Forall (fun h => (h < num_states hmm)%nat) hidden
    /\ obs_in_range hmm obs = true
    /\ (exists f, forwardHMM hmm obs = Ok f)
    /\ (exists b, backwardHMM hmm obs = Ok b)
    /\ (exists path vs, viterbiHMM hmm obs = Ok (path, vs)
                        /\ decoding weigh hmm obs path vs).
Proof.
  intros Hvalid Hreach.
  destruct (generated_sequence hmm L g Hvalid Hreach)
    as (h0 & hs & obs & g' & Hres & _ & _ & _ & Hstates & Hrange & _).
  pose proof (in_range_emission hmm obs (valid_hmm_wf _ Hvalid) Hrange) as Hemit.
  exists (h0 :: hs), obs, g'. split_and!; [done | done | done | | |].
  - destruct (forward_loop_rows emission hmm obs Hemit) as (f & Hf & _). eauto.
  - destruct (backward_from_rows (Fin (Qc_of_Z 10000000)) hmm obs Hemit)
      as (b & Hb & _). eauto.
  - by apply viterbiHMM_decoding.
Qed.

(** X14.  With draws above 0 and within reach of the running sums, the
    categorical generator never takes a step of probability zero: the
    first state, every transition and every emitted symbol have a
    positive entry in the tables of a valid model. *)
Theorem generated_sequences_are_possible (hmm : HMM) (L : nat) (g : rng) :
  positive_draws rng random_sample ->
  valid_hmm hmm = true ->
  draws_reach rng random_sample (model_dists hmm) ->
  exists hidden obs g',
    generate_sequence rng random_sample hmm (Z.of_nat L) g = Ok (hidden, obs, g')
    /\ length hidden = S L /\ length obs = L
    /\ possible hmm hidden obs = true.
Proof.
  intros Hpos Hvalid Hreach.
  destruct (generated_sequence hmm L g Hvalid Hreach)
    as (h0 & hs & obs & g' & Hres & _ & Hlhs & Hlobs & _ & _ & Hposs).
  exists (h0 :: hs), obs, g'. split_and!; [done | cbn; lia | done | by apply Hposs].
Qed.

(** X15.  The generators refuse a negative length with [ValueError], as
    [np.empty] does, whatever the model and before any draw; on a valid
    model, with the draws for the hidden states within reach of the
    running sums, [generate_sequence] returns for every other length,
    with [len_sequence + 1] hidden states and [len_sequence] frames (one
    state and no frame for length 0). *)
Theorem generators_refuse_negative_lengths (hmm : HMM) (len_sequence : Z) (g : rng) :
  ((len_sequence < 0)%Z ->
   generate_sequence rng random_sample hmm len_sequence g = Raise ValueError
   /\ generate_sequenceG rng random_sample random_normal hmm len_sequence g
      = Raise ValueError)
  /\ (valid_hmm hmm = true ->
      draws_reach rng random_sample (state_dists hmm) ->
      (0 <= len_sequence)%Z ->
      exists hidden obs g',
        generate_sequence rng random_sample hmm len_sequence g
        = Ok (hidden, obs, g')
        /\ length hidden = Z.to_nat (len_sequence + 1)
        /\ length obs = Z.to_nat len_sequence).
Proof.
  split.
  - intros Hlen. unfold generate_sequence, generate_sequenceG.
    by rewrite bool_decide_eq_true_2.
  - intros Hvalid Hreach Hlen.
    destruct (generate_sequence_ancestral rng random_sample hmm
                (Z.to_nat len_sequence) g Hvalid Hreach)
      as ([[hidden obs] g'] & Hres & Hlh & Hlo & _).
    rewrite Z2Nat.id in Hres by done. cbn [fst snd] in *.
    exists hidden, obs, g'. split_and!; [done | lia | done].
Qed.
End generator_results.

Lemma coin_sample_positive : positive_draws bool coin_sample.
Proof. intros [|]; split; by_computation. Qed.

Lemma coin_sample_reach (dists : list vec) :
  forallb (fun dist => reaches (Q2Qc (1 # 4)) dist && reaches (Q2Qc (3 # 4)) dist)
    dists = true ->
  draws_reach bool coin_sample dists.
Proof.
  rewrite forallb_forall. intros Hd dist g Hin%list_elem_of_In.
  apply Hd, andb_true_iff in Hin as [H1 H3]. by destruct g.
Qed.

Lemma generators_sample_ancestrally_witness :
  (exists res,
     generate_sequence bool coin_sample hmm2 (Z.of_nat 2) true = Ok res
     /\ ancestral bool coin_sample (drawn_symbol bool coin_sample) hmm2 2 true res
     /\ Forall (fun h => (h < num_states hmm2)%nat) res.1.1
     /\ obs_in_range hmm2 res.1.2 = true)
  /\ (exists res,
        generate_sequenceG bool coin_sample coin_normal hmmG2 (Z.of_nat 2) true
        = Ok res
        /\ ancestral bool coin_sample (normal_draw_made bool coin_normal)
             hmmG2 2 true res
        /\ Forall (fun h => (h < num_states hmmG2)%nat) res.1.1).
Proof.
  destruct (generators_sample_ancestrally bool coin_sample coin_normal 2 true)
    as [Hcat Hgauss].
  split.
  - apply Hcat; [vm_compute; reflexivity |].
    apply coin_sample_reach. vm_compute; reflexivity.
  - apply Hgauss; [vm_compute; reflexivity | | exact coin_normal_fits].
    apply coin_sample_reach. vm_compute; reflexivity.
Defined.

(** C8 as stated fails.  In binary64 the running sum of the distribution
    [dist_six], whose entries add up to 1, ends at 1 - 2^-52; the draw
    1 - 2^-53, which is not within reach of the running sums, is beyond it
    and [sample] returns 6, the length of the distribution: on the valid
    model [hmm_six] the first hidden state of [generate_sequence] is then
    no state of the model, and the call fails on the row of [A] it asks
    for.  And on the valid Gaussian model [hmmG_big] a draw near the mean
    2^63 does not fit the integer array of the observations:
    [generate_sequenceG] fails. *)
Lemma generators_can_fail :
  valid_hmm hmm_six = true
  /\ 0 <= last_draw /\ last_draw < 1
  /\ reaches last_draw dist_six = false
  /\ Arith.sample binary64 unit stuck_sample (map b64 dist_six) tt = (6%nat, tt)
  /\ Arith.generate_sequence binary64 unit stuck_sample (binary64_model hmm_six) 0 tt
     = Ok ([6%nat], [], tt)
  /\ Arith.generate_sequence binary64 unit stuck_sample (binary64_model hmm_six) 1 tt
     = Raise IndexError
  /\ valid_hmmG hmmG_big = true
  /\ generate_sequenceG bool coin_sample coin_normal hmmG_big 1 true
     = Raise OverflowError.
Proof. split_and!; by_computation. Qed.

Lemma generated_frames_are_accepted_witness :
  exists hidden obs g',
    generate_sequence bool coin_sample hmm2 (Z.of_nat 2) true = Ok (hidden, obs, g')
    /\ Forall (fun h => (h < num_states hmm2)%nat) hidden
    /\ obs_in_range hmm2 obs = true
    /\ (exists f, forwardHMM hmm2 obs = Ok f)
    /\ (exists b, backwardHMM hmm2 obs = Ok b)
    /\ (exists path vs, viterbiHMM hmm2 obs = Ok (path, vs)
                        /\ decoding weigh hmm2 obs path vs).
Proof.
  apply (generated_frames_are_accepted bool coin_sample hmm2 2 true);
    [vm_compute; reflexivity |].
  apply coin_sample_reach. vm_compute; reflexivity.
Defined.

Lemma generated_sequences_are_possible_witness :
  exists hidden obs g',
    generate_sequence bool coin_sample hmm2 (Z.of_nat 2) true = Ok (hidden, obs, g')
    /\ length hidden = 3%nat /\ length obs = 2%nat
    /\ possible hmm2 hidden obs = true.
Proof.
  apply (generated_sequences_are_possible bool coin_sample hmm2 2 true
           coin_sample_positive); [vm_compute; reflexivity |].
  apply coin_sample_reach. vm_compute; reflexivity.
Defined.

Lemma generators_refuse_negative_lengths_witness :
  (generate_sequence bool coin_sample hmm2 (-1) true = Raise ValueError
   /\ generate_sequenceG bool coin_sample coin_normal hmm2 (-1) true
      = Raise ValueError)
  /\ (exists hidden obs g',
        generate_sequence bool coin_sample hmm2 0 true = Ok (hidden, obs, g')
        /\ length hidden = Z.to_nat (0 + 1)
        /\ length obs = Z.to_nat 0).
Proof.
  split.
  - apply (proj1 (generators_refuse_negative_lengths bool coin_sample coin_normal
                    hmm2 (-1) true)). lia.
  - apply (proj2 (generators_refuse_negative_lengths bool coin_sample coin_normal
                    hmm2 0 true)); [vm_compute; reflexivity | | lia].
    apply coin_sample_reach. vm_compute; reflexivity.
Defined.

(** ** What the integer array keeps of a float *)

Lemma this_Qc_of_Z (z : Z) : this (Qc_of_Z z) = inject_Z z.
Proof. reflexivity. Qed.

Lemma Qc_of_Z_le (z : Z) (a : Qc) :
  Qc_of_Z z <= a <-> (z * Zpos (Qden (this a)) <= Qnum (this a))%Z.
Proof.
  unfold Qcle, Qle. rewrite this_Qc_of_Z. cbn [inject_Z Qnum Qden]. lia.
Qed.

Lemma Qc_of_Z_ge (z : Z) (a : Qc) :
  a <= Qc_of_Z z <-> (Qnum (this a) <= z * Zpos (Qden (this a)))%Z.
Proof.
  unfold Qcle, Qle. rewrite this_Qc_of_Z. cbn [inject_Z Qnum Qden]. lia.
Qed.

Lemma Qc_of_Z_lt (z : Z) (a : Qc) :
  a < Qc_of_Z z <-> (Qnum (this a) < z * Zpos (Qden (this a)))%Z.
Proof.
  unfold Qclt, Qlt. rewrite this_Qc_of_Z. cbn [inject_Z Qnum Qden]. lia.
Qed.

Lemma Qc_of_Z_gt (z : Z) (a : Qc) :
  Qc_of_Z z < a <-> (z * Zpos (Qden (this a)) < Qnum (this a))%Z.
Proof.
  unfold Qclt, Qlt. rewrite this_Qc_of_Z. cbn [inject_Z Qnum Qden]. lia.
Qed.

Lemma Qc_nonneg_num (a : Qc) : 0 <= a <-> (0 <= Qnum (this a))%Z.
Proof. rewrite <- Z2Qc_inj_0, Qc_of_Z_le. lia. Qed.

Lemma Qc_nonpos_num (a : Qc) : a <= 0 <-> (Qnum (this a) <= 0)%Z.
Proof. rewrite <- Z2Qc_inj_0, Qc_of_Z_ge. lia. Qed.

(** X16.  A float written into the [int] observation array is rounded
    toward zero: the stored integer lies between 0 and the float and is
    less than 1 away from it.  [nan] is refused with [ValueError], the
    infinities and every float outside the 64-bit range with
    [OverflowError]. *)
Theorem stored_draws_are_rounded_toward_zero (x : float64) :
  match to_int x with
  | Ok z =>
      exists a, x = Fin a
        /\ (0 <= a -> Qc_of_Z z <= a /\ a < Qc_of_Z (z + 1) /\ (0 <= z)%Z)
        /\ (a <= 0 -> Qc_of_Z (z - 1) < a /\ a <= Qc_of_Z z /\ (z <= 0)%Z)
        /\ (- 2 ^ 63 <= z < 2 ^ 63)%Z
  | Raise e =>
      (e = ValueError /\ x = NaN)
      \/ (e = OverflowError
          /\ (x = PInf \/ x = NInf
              \/ exists a, x = Fin a
                   /\ (a <= Qc_of_Z (- 2 ^ 63 - 1) \/ Qc_of_Z (2 ^ 63) <= a)))
  end.
Proof.
  destruct x as [a| | |]; cbn [to_int]; [|by right; eauto ..|by left].
  set (n := Qnum (this a)). set (d := Zpos (Qden (this a))).
  assert (0 < d)%Z as Hd by done.
  assert (0 <= n -> d * (n ÷ d) <= n /\ n < d * (n ÷ d + 1) /\ 0 <= n ÷ d)%Z as Hpos.
  { intros Hn. split_and!.
    - apply Z.mul_quot_le; lia.
    - apply Z.mul_succ_quot_gt; lia.
    - apply Z.quot_pos; lia. }
  assert (n <= 0 -> d * (n ÷ d - 1) < n /\ n <= d * (n ÷ d) /\ n ÷ d <= 0)%Z as Hneg.
  { intros Hn. assert (0 <= - n)%Z as Hn' by lia.
    assert (d * (- n ÷ d) <= - n)%Z as H1 by (apply Z.mul_quot_le; lia).
    assert (- n < d * Z.succ (- n ÷ d))%Z as H2 by (apply Z.mul_succ_quot_gt; lia).
    assert (0 <= - n ÷ d)%Z as H3 by (apply Z.quot_pos; lia).
    rewrite Z.quot_opp_l in H1, H2, H3 by lia. split_and!; lia. }
  case_bool_decide as Hfit.
  - exists a. split; [done |]. split; [|split; [|done]].
    + intros Ha%Qc_nonneg_num. destruct (Hpos Ha) as (? & ? & ?).
      rewrite Qc_of_Z_le, Qc_of_Z_lt. fold n d. split_and!; [lia | lia | done].
    + intros Ha%Qc_nonpos_num. destruct (Hneg Ha) as (? & ? & ?).
      rewrite Qc_of_Z_gt, Qc_of_Z_ge. fold n d. split_and!; [lia | lia | done].
  - right. split; [done |]. right. right. exists a. split; [done |].
    rewrite Qc_of_Z_ge, Qc_of_Z_le. fold n d.
    destruct (decide (0 <= n)%Z) as [Hn|Hn].
    + destruct (Hpos Hn) as (? & ? & ?). right. nia.
    + destruct (Hneg ltac:(lia)) as (? & ? & ?). left. nia.
Qed.

Lemma stored_draws_are_rounded_toward_zero_witness :
  Qc_of_Z 1 <= Q2Qc (3 # 2) /\ Q2Qc (3 # 2) < Qc_of_Z (1 + 1) /\ (0 <= 1)%Z.
Proof.
  pose proof (stored_draws_are_rounded_toward_zero (q 3 2)) as Hround.
  assert (to_int (q 3 2) = Ok 1%Z) as Hint by (vm_compute; reflexivity).
  rewrite Hint in Hround. destruct Hround as (a & Ha & Hpos & _).
  injection Ha as <-. apply Hpos. vm_compute. discriminate.
Defined.

(** ** The Gaussian routines on a valid model *)

Section gaussian_results.
Variable np_pi : float64.
Variables np_sqrt np_exp : float64 -> float64.

Lemma gaussian_dot_length (hmm : HMM) (v : vec) :
  valid_hmmG hmm = true -> length (dot (A hmm) v) = num_states hmm.
Proof.
  intros (_ & [HA _] & _)%valid_hmmG_inv. unfold dot. by rewrite length_map.
Qed.

Lemma backwardHMMG_shape (hmm : HMM) (obs : list frameG) :
  valid_hmmG hmm = true ->
  exists b, backwardHMMG np_pi np_sqrt np_exp hmm obs = Ok b
            /\ has_shape (S (length obs)) (num_states hmm) b.
Proof.
  intros Hvalid. unfold backwardHMMG.
  edestruct (for_each_inv (backwardG_body np_pi np_sqrt np_exp hmm obs)
               (fun _ b => has_shape (S (length obs)) (num_states hmm) b))
    as (b & Hb & Hshape); [| |eauto].
  - split.
    + unfold zeros. rewrite length_insert, length_replicate. lia.
    + apply Forall_insert.
      * unfold zeros. apply Forall_replicate. by rewrite length_replicate.
      * unfold ones_times. by rewrite length_map, length_replicate.
  - intros k t b _ [Hlen Hrows]. unfold backwardG_body.
    destruct (calcB_valid np_pi np_sqrt np_exp hmm (obs !!! (t - 1)%nat) Hvalid)
      as (bs & -> & _).
    rewrite bind_Ok. eexists. split; [reflexivity |]. split.
    + by rewrite length_insert.
    + apply Forall_insert; [done |].
      by rewrite length_vdiv, gaussian_dot_length.
Qed.

(** X17.  On a valid Gaussian model nothing can be refused: whatever the
    frames, [forwardHMMG], [backwardHMMG], [forward_backwardHMMG] and
    [viterbiHMMG] return, with matrices of T + 1 rows of [num_states]
    entries and a path of T + 1 entries. *)
Theorem gaussian_routines_accept_every_frame (hmm : HMM) (obs : list frameG) :
  valid_hmmG hmm = true ->
  exists f b post path vs,
    forwardHMMG np_pi np_sqrt np_exp hmm obs = Ok f
    /\ backwardHMMG np_pi np_sqrt np_exp hmm obs = Ok b
    /\ forward_backwardHMMG np_pi np_sqrt np_exp hmm obs = Ok post
    /\ viterbiHMMG np_pi np_sqrt np_exp hmm obs = Ok (path, vs)
    /\ has_shape (S (length obs)) (num_states hmm) f
    /\ has_shape (S (length obs)) (num_states hmm) b
    /\ has_shape (S (length obs)) (num_states hmm) post
    /\ has_shape (S (length obs)) (num_states hmm) vs
    /\ length path = S (length obs).
Proof.
  intros Hvalid. destruct (valid_hmmG_inv hmm Hvalid) as (HN & HA & _).
  assert (ncols (A hmm) = num_states hmm) as Hcols.
  { by apply (has_shape_ncols (num_states hmm)). }
  destruct (forward_loop_rows (calcB np_pi np_sqrt np_exp) hmm obs)
    as (f & Hf & Hflen & Hf0 & Hfrec).
  { intros o _. destruct (calcB_valid np_pi np_sqrt np_exp hmm o Hvalid)
      as (bs & Hbs & _). eauto. }
  destruct (backwardHMMG_shape hmm obs Hvalid) as (b & Hb & Hbs).
  destruct (viterbi_trellis_rows (weighG np_pi np_sqrt np_exp) true hmm obs HN HA)
    as (vs & bps & Hvs & Hvlen & _ & Hvrows & _).
  { intros o tmp _ Htmp. by apply weighG_shape. }
  assert (has_shape (S (length obs)) (num_states hmm) f) as Hfs.
  { split; [done |]. apply Forall_lookup. intros [|t] row Hrow.
    - rewrite Hf0 in Hrow. by simplify_eq.
    - destruct (lookup_lt_is_Some_2 obs t) as [o Ho].
      { apply lookup_lt_Some in Hrow. lia. }
      destruct (Hfrec t o Ho) as (bs & f_t & Hbs' & _ & Hnext).
      rewrite Hnext in Hrow. simplify_eq. cbn zeta.
      rewrite length_vdiv, length_vmul. unfold dot.
      rewrite length_map, length_transpose, Hcols.
      destruct (calcB_valid np_pi np_sqrt np_exp hmm o Hvalid) as (bs' & Hbs'' & Hl).
      assert (bs' = bs) as -> by congruence. lia. }
  exists f, b, (normalize_rows (mmul f b)), (viterbi_path (length obs) vs bps), vs.
  split_and!; try done.
  - unfold forward_backwardHMMG, forwardHMMG. by rewrite Hf, Hb.
  - unfold viterbiHMMG, viterbi_loop. by rewrite Hvs.
  - destruct Hfs as [_ Hfs], Hbs as [Hblen Hbs]. split.
    + unfold normalize_rows, mmul. rewrite length_map, length_zip_with. lia.
    + unfold normalize_rows, mmul. apply Forall_fmap, Forall_lookup.
      intros t row Hrow. apply lookup_zip_with_Some in Hrow
        as (f_t & b_t & -> & Hft & Hbt).
      cbn. rewrite length_vdiv, length_vmul.
      rewrite Forall_lookup in Hfs, Hbs.
      rewrite (Hfs _ _ Hft), (Hbs _ _ Hbt). lia.
  - by apply viterbi_path_spec.
Qed.
End gaussian_results.

Lemma gaussian_routines_accept_every_frame_witness :
  exists f b post path vs,
    forwardHMMG approx_pi approx_sqrt approx_exp hmmG2 [(q 1 2, q 0 1, q 1 3)] = Ok f
    /\ backwardHMMG approx_pi approx_sqrt approx_exp hmmG2 [(q 1 2, q 0 1, q 1 3)]
       = Ok b
    /\ forward_backwardHMMG approx_pi approx_sqrt approx_exp hmmG2
         [(q 1 2, q 0 1, q 1 3)] = Ok post
    /\ viterbiHMMG approx_pi approx_sqrt approx_exp hmmG2 [(q 1 2, q 0 1, q 1 3)]
       = Ok (path, vs)
    /\ has_shape 2 (num_states hmmG2) f
    /\ has_shape 2 (num_states hmmG2) b
    /\ has_shape 2 (num_states hmmG2) post
    /\ has_shape 2 (num_states hmmG2) vs
    /\ length path = 2%nat.
Proof.
  apply (gaussian_routines_accept_every_frame approx_pi approx_sqrt approx_exp
           hmmG2 [(q 1 2, q 0 1, q 1 3)]).
  vm_compute; reflexivity.
Defined.

(** ** The rows of a Gaussian table *)

Lemma getitem_short {X : Type} (a : list X) (i : Z) :
  (0 <= i)%Z -> (length a <= Z.to_nat i)%nat -> getitem a i = Raise IndexError.
Proof. intros Hi Hlen. apply getitem_refused. lia. Qed.

Lemma getitem_take {X : Type} (a : list X) (n : nat) (i : Z) :
  (0 <= i < Z.of_nat n)%Z -> getitem (take n a) i = getitem a i.
Proof.
  intros Hi. unfold getitem. rewrite length_take.
  rewrite !(bool_decide_eq_false_2 (i < 0)%Z) by lia. cbv zeta.
  destruct (decide (i < Z.of_nat (length a))%Z) as [Hlt|Hge].
  - rewrite !bool_decide_eq_true_2 by lia. by rewrite lookup_take_lt by lia.
  - by rewrite !bool_decide_eq_false_2 by lia.
Qed.

Lemma ncols_take (M : matrix) (n : nat) : (0 < n)%nat -> ncols (take n M) = ncols M.
Proof. intros Hn. destruct n as [|n]; [lia |]. by destruct M. Qed.

Lemma getcol_take (B : matrix) (h : nat) :
  getcol (take 2 B) h = c ← getcol B h; Ok (take 2 c).
Proof.
  unfold getcol. rewrite ncols_take by lia.
  case_bool_decide; [|done]. rewrite bind_Ok. f_equal.
  unfold column. by rewrite fmap_take.
Qed.

Section gaussian_tables.
Variable np_pi : float64.
Variables np_sqrt np_exp : float64 -> float64.
Variable rng : Type.
Variable random_sample : rng -> Qc * rng.
Variable random_normal : float64 -> float64 -> rng -> float64 * rng.

Lemma sampleG_take (dist : vec) (g : rng) :
  sampleG rng random_normal (take 2 dist) g = sampleG rng random_normal dist g.
Proof. unfold sampleG. by rewrite !getitem_take by lia. Qed.

Lemma generateG_body_first_two_rows (hmm : HMM) (st : gen_state rng) (i : nat) :
  generateG_body rng random_sample random_normal (first_two_rows hmm) st i
  = generateG_body rng random_sample random_normal hmm st i.
Proof.
  destruct st as [[hidden obs] g]. unfold generateG_body, first_two_rows.
  cbn [A B1 B2 B3].
  destruct (getitem (A hmm) _) as [row|]; [|done]. rewrite !bind_Ok.
  destruct (sample rng random_sample row g) as [h g1]. cbv zeta.
  rewrite !getcol_take.
  destruct (getcol (B1 hmm) _) as [c1|]; [|done]. rewrite !bind_Ok, sampleG_take.
  destruct (sampleG rng random_normal c1 g1) as [[x1 g2]|]; [|done]. rewrite !bind_Ok.
  destruct (to_int x1) as [o1|]; [|done]. rewrite !bind_Ok.
  destruct (getcol (B2 hmm) _) as [c2|]; [|done]. rewrite !bind_Ok, sampleG_take.
  destruct (sampleG rng random_normal c2 g2) as [[x2 g3]|]; [|done]. rewrite !bind_Ok.
  destruct (to_int x2) as [o2|]; [|done]. rewrite !bind_Ok.
  destruct (getcol (B3 hmm) _) as [c3|]; [|done]. rewrite !bind_Ok, sampleG_take.
  done.
Qed.

Lemma calcB_channel_raise (B : matrix) (x : float64) (e : exn) :
  calcB_channel np_pi np_sqrt np_exp B x = Raise e -> e = IndexError.
Proof.
  unfold calcB_channel. cbv zeta.
  destruct (getitem B 0) eqn:E0; [|intros; simplify_eq/=; by eapply getitem_raise].
  destruct (getitem B 1) eqn:E1; [|intros; simplify_eq/=; by eapply getitem_raise].
  done.
Qed.

Lemma calcB_raise (hmm : HMM) (o : frameG) (e : exn) :
  calcB np_pi np_sqrt np_exp hmm o = Raise e -> e = IndexError.
Proof.
  unfold calcB.
  destruct (calcB_channel _ _ _ (B1 hmm) _) eqn:E1;
    [|intros; simplify_eq/=; by eapply calcB_channel_raise].
  destruct (calcB_channel _ _ _ (B2 hmm) _) eqn:E2;
    [|intros; simplify_eq/=; by eapply calcB_channel_raise].
  destruct (calcB_channel _ _ _ (B3 hmm) _) eqn:E3;
    [|intros; simplify_eq/=; by eapply calcB_channel_raise].
  done.
Qed.

Lemma calcB_channel_short (B : matrix) (x : float64) :
  (length B < 2)%nat -> calcB_channel np_pi np_sqrt np_exp B x = Raise IndexError.
Proof.
  intros HB. unfold calcB_channel. cbv zeta.
  destruct (getitem B 0) as [mu|e0] eqn:E0.
  - rewrite bind_Ok, (getitem_short B 1) by (cbn; lia). reflexivity.
  - by rewrite (getitem_raise _ _ _ E0).
Qed.

Lemma calcB_short (hmm : HMM) (o : frameG) :
  (length (B1 hmm) < 2 \/ length (B2 hmm) < 2 \/ length (B3 hmm) < 2)%nat ->
  calcB np_pi np_sqrt np_exp hmm o = Raise IndexError.
Proof.
  intros Hshort. destruct (calcB np_pi np_sqrt np_exp hmm o) as [bs|e] eqn:E.
  - exfalso. unfold calcB in E.
    apply bind_Ok_inv in E as (b1 & Hb1 & E).
    apply bind_Ok_inv in E as (b2 & Hb2 & E).
    apply bind_Ok_inv in E as (b3 & Hb3 & E).
    destruct Hshort as [H|[H|H]];
      pose proof (calcB_channel_short _ o.1.1 H);
      pose proof (calcB_channel_short _ o.1.2 H);
      pose proof (calcB_channel_short _ o.2 H); congruence.
  - f_equal. by eapply calcB_raise.
Qed.

Lemma calcB_channel_take (B : matrix) (x : float64) :
  calcB_channel np_pi np_sqrt np_exp (take 2 B) x
  = calcB_channel np_pi np_sqrt np_exp B x.
Proof.
  unfold calcB_channel. by rewrite ncols_take, !getitem_take by lia.
Qed.

Lemma calcB_first_two_rows (hmm : HMM) (o : frameG) :
  calcB np_pi np_sqrt np_exp (first_two_rows hmm) o
  = calcB np_pi np_sqrt np_exp hmm o.
Proof.
  unfold calcB, first_two_rows. cbn [B1 B2 B3]. by rewrite !calcB_channel_take.
Qed.

(** X18.  A Gaussian table is read through its first two rows, the means
    and the standard deviations: a table with fewer rows makes [calcB]
    raise [IndexError], and with it the three Gaussian passes on every
    sequence that has a frame; rows after the second are never read, so
    that cutting them off changes no result of the passes or of
    [generate_sequenceG]. *)
Theorem gaussian_tables_are_read_by_two_rows (hmm : HMM) (obs : list frameG)
    (len_sequence : Z) (g : rng) :
  ((length (B1 hmm) < 2 \/ length (B2 hmm) < 2 \/ length (B3 hmm) < 2)%nat ->
   obs <> [] ->
   forwardHMMG np_pi np_sqrt np_exp hmm obs = Raise IndexError
   /\ backwardHMMG np_pi np_sqrt np_exp hmm obs = Raise IndexError
   /\ viterbiHMMG np_pi np_sqrt np_exp hmm obs = Raise IndexError)
  /\ forwardHMMG np_pi np_sqrt np_exp (first_two_rows hmm) obs
     = forwardHMMG np_pi np_sqrt np_exp hmm obs
  /\ backwardHMMG np_pi np_sqrt np_exp (first_two_rows hmm) obs
     = backwardHMMG np_pi np_sqrt np_exp hmm obs
  /\ viterbiHMMG np_pi np_sqrt np_exp (first_two_rows hmm) obs
     = viterbiHMMG np_pi np_sqrt np_exp hmm obs
  /\ generate_sequenceG rng random_sample random_normal (first_two_rows hmm)
       len_sequence g
     = generate_sequenceG rng random_sample random_normal hmm len_sequence g.
Proof.
  split_and!.
  - intros Hshort Hobs.
    assert (0 < length obs)%nat as Hlen by (destruct obs; [done | cbn; lia]).
    split_and!.
    + unfold forwardHMMG, forward_loop.
      apply for_each_raises_at with (x := 0%nat).
      * apply list_elem_of_lookup. exists 0%nat. by rewrite lookup_seq_lt.
      * intros f. unfold forward_body, forward_v. by rewrite calcB_short.
      * intros f t e. unfold forward_body, forward_v.
        destruct (calcB _ _ _ _ _) eqn:E; [done |].
        intros ?; simplify_eq/=. by eapply calcB_raise.
    + unfold backwardHMMG.
      apply for_each_raises_at with (x := 1%nat).
      * apply elem_of_reverse, list_elem_of_lookup. exists 0%nat.
        by rewrite lookup_seq_lt.
      * intros b. unfold backwardG_body. by rewrite calcB_short.
      * intros b t e. unfold backwardG_body.
        destruct (calcB _ _ _ _ _) eqn:E; [done |].
        intros ?; simplify_eq/=. by eapply calcB_raise.
    + unfold viterbiHMMG, viterbi_loop, viterbi_trellis.
      rewrite (for_each_raises_at _ IndexError _ _ 0%nat); [done | | |].
      * apply list_elem_of_lookup. exists 0%nat. by rewrite lookup_seq_lt.
      * intros [vs bps]. unfold viterbi_body, weighG. by rewrite calcB_short.
      * intros [vs bps] t e. unfold viterbi_body, weighG.
        destruct (calcB _ _ _ _ _) eqn:E; [done |].
        intros ?; simplify_eq/=. by eapply calcB_raise.
  - unfold forwardHMMG, forward_loop. cbn [first_two_rows pi].
    apply for_each_ext. intros f t. unfold forward_body, forward_v.
    by rewrite calcB_first_two_rows.
  - unfold backwardHMMG. cbn [first_two_rows pi].
    apply for_each_ext. intros b t. unfold backwardG_body.
    by rewrite calcB_first_two_rows.
  - unfold viterbiHMMG, viterbi_loop, viterbi_trellis, num_states.
    cbn [first_two_rows pi].
    rewrite (for_each_ext
               (viterbi_body (weighG np_pi np_sqrt np_exp) true (first_two_rows hmm) obs)
               (viterbi_body (weighG np_pi np_sqrt np_exp) true hmm obs)); [done |].
    intros [vs bps] t. unfold viterbi_body, weighG.
    by rewrite calcB_first_two_rows.
  - unfold generate_sequenceG. cbn [first_two_rows pi].
    case_bool_decide; [done |].
    destruct (sample rng random_sample (pi hmm) g) as [h0 g1].
    apply for_each_ext. intros st i. apply generateG_body_first_two_rows.
Qed.
End gaussian_tables.

Lemma gaussian_tables_are_read_by_two_rows_witness :
  forwardHMMG approx_pi approx_sqrt approx_exp hmmG_short [(q 1 2, q 0 1, q 1 3)]
  = Raise IndexError
  /\ backwardHMMG approx_pi approx_sqrt approx_exp hmmG_short [(q 1 2, q 0 1, q 1 3)]
     = Raise IndexError
  /\ viterbiHMMG approx_pi approx_sqrt approx_exp hmmG_short [(q 1 2, q 0 1, q 1 3)]
     = Raise IndexError.
Proof.
  apply (proj1 (gaussian_tables_are_read_by_two_rows approx_pi approx_sqrt approx_exp
                  bool coin_sample coin_normal
                  hmmG_short [(q 1 2, q 0 1, q 1 3)] 0 true)); [cbn; lia | done].
Defined.

(** ** The rows of the Gaussian backward pass *)

Section gaussian_backward_rows.
Variable np_pi : float64.
Variables np_sqrt np_exp : float64 -> float64.

Lemma backwardHMMG_regular_rows (hmm : HMM) (obs : list frameG) :
  backwardG_regular np_pi np_sqrt np_exp hmm obs = true ->
  exists b, backwardHMMG np_pi np_sqrt np_exp hmm obs = Ok b
    /\ length b = S (length obs)
    /\ b !! length obs = Some (ones_times (length (pi hmm)) (Fin (Qc_of_Z 1000)))
    /\ (forall t o, obs !! t = Some o ->
          exists bs b_next,
            calcB np_pi np_sqrt np_exp hmm o = Ok bs /\ b !! S t = Some b_next
            /\ fin_nonzero (vsum (dot (A hmm) (vmul bs b_next))) = true
            /\ b !! t = Some (let v := dot (A hmm) (vmul bs b_next) in
                              vdiv v (vsum v))).
Proof.
  intros Hreg. unfold backwardG_regular in Hreg. unfold backwardHMMG.
  set (last := ones_times (length (pi hmm)) (Fin (Qc_of_Z 1000))) in *.
  set (b0 := <[length obs:=last]> (zeros (length obs + 1) (length (pi hmm)))).
  pose (P := fun (j : nat) (b : matrix) =>
    length b = S (length obs)
    /\ b !! length obs = Some last
    /\ (forall t o, (length obs - j <= t)%nat -> obs !! t = Some o ->
          exists bs b_next,
            calcB np_pi np_sqrt np_exp hmm o = Ok bs /\ b !! S t = Some b_next
            /\ fin_nonzero (vsum (dot (A hmm) (vmul bs b_next))) = true
            /\ b !! t = Some (let v := dot (A hmm) (vmul bs b_next) in
                              vdiv v (vsum v)))
    /\ (exists b_t, b !! (length obs - j)%nat = Some b_t
          /\ backward_regular_from (calcB np_pi np_sqrt np_exp) hmm b_t
               (drop j (reverse obs)) = true)).
  destruct (for_each_inv (backwardG_body np_pi np_sqrt np_exp hmm obs) P
              (reverse (seq 1 (length obs))) b0)
    as (b & Hb & Hlen & Hlast & Hrec & _).
  - assert (b0 !! length obs = Some last) as Hl0.
    { apply list_lookup_insert_eq. unfold zeros. rewrite length_replicate. lia. }
    unfold P. split_and!.
    + unfold b0, zeros. rewrite length_insert, length_replicate. lia.
    + done.
    + intros t o Ht Ho. apply lookup_lt_Some in Ho. lia.
    + exists last. rewrite Nat.sub_0_r, drop_0. done.
  - intros j x b Hx (Hlen & Hlast & Hrec & b_t & Hbt & Hregj).
    apply reverse_lookup_Some in Hx as [Hx Hj]. rewrite length_seq in Hx, Hj.
    apply lookup_seq in Hx as [-> _].
    replace (1 + (length obs - S j))%nat with (length obs - j)%nat by lia.
    set (t := (length obs - j)%nat) in *.
    destruct (lookup_lt_is_Some_2 obs (t - 1)) as [o Ho]; [lia |].
    assert (reverse obs !! j = Some o) as Hrev.
    { apply reverse_lookup_Some. split; [|lia].
      by replace (length obs - S j)%nat with (t - 1)%nat by lia. }
    rewrite (drop_S _ _ _ Hrev) in Hregj. cbn [backward_regular_from] in Hregj.
    destruct (calcB np_pi np_sqrt np_exp hmm o) as [bs|] eqn:Hbs; [|done].
    apply andb_true_iff in Hregj as [Hnz Hregj].
    eexists. split.
    { unfold backwardG_body.
      rewrite (list_lookup_total_correct _ _ _ Ho),
        (list_lookup_total_correct _ _ _ Hbt), Hbs. reflexivity. }
    unfold P. rewrite length_insert. split_and!; [done | | | ].
    + rewrite list_lookup_insert_ne by lia. done.
    + intros t' o' Ht' Ho'. destruct (decide (t' = t - 1)%nat) as [->|Hne].
      * exists bs, b_t. rewrite list_lookup_insert_ne by lia.
        rewrite list_lookup_insert_eq by lia.
        replace (S (t - 1)) with t by lia.
        split_and!; [congruence | done | done | done].
      * destruct (Hrec t' o') as (bs' & b' & ? & ? & ? & ?); [lia | done |].
        exists bs', b'. by rewrite !list_lookup_insert_ne by lia.
    + eexists. replace (length obs - S j)%nat with (t - 1)%nat by lia.
      rewrite list_lookup_insert_eq by lia. split; [reflexivity | done].
  - exists b. rewrite length_reverse, length_seq in Hrec.
    split_and!; [done | done | done |].
    intros t o Ho. apply Hrec; [lia | done].
Qed.

(** X19.  The Gaussian backward pass normalises what the categorical one
    does not: when no sum it divides by is zero, every row of
    [backwardHMMG] but the last has sum 1; the last row is the constant
    1000 in every state and is not normalised. *)
Theorem gaussian_backward_rows_are_normalized (hmm : HMM) (obs : list frameG) :
  backwardG_regular np_pi np_sqrt np_exp hmm obs = true ->
  exists b,
    backwardHMMG np_pi np_sqrt np_exp hmm obs = Ok b
    /\ length b = S (length obs)
    /\ b !! length obs = Some (replicate (num_states hmm) (Fin (Qc_of_Z 1000)))
    /\ forall t row, (t < length obs)%nat -> b !! t = Some row -> vsum row = Fin 1.
Proof.
  intros Hreg.
  destruct (backwardHMMG_regular_rows hmm obs Hreg) as (b & Hb & Hlen & Hlast & Hrows).
  exists b. split_and!; [done | done | |].
  - rewrite Hlast. f_equal. unfold ones_times, num_states.
    rewrite fmap_replicate. f_equal. cbn [fmul]. f_equal. ring.
  - intros t row Ht Hrow. destruct (lookup_lt_is_Some_2 obs t Ht) as [o Ho].
    destruct (Hrows t o Ho) as (bs & b_next & _ & _ & Hnz & Hrow').
    assert (row = vdiv (dot (A hmm) (vmul bs b_next))
                    (vsum (dot (A hmm) (vmul bs b_next)))) as -> by congruence.
    by apply vsum_normalized.
Qed.
End gaussian_backward_rows.

Lemma gaussian_backward_rows_are_normalized_witness :
  exists b,
    backwardHMMG approx_pi approx_sqrt approx_exp hmmG2
      [(q 1 2, q 0 1, q 1 3); (q 0 1, q 1 1, q 0 1)] = Ok b
    /\ length b = 3%nat
    /\ b !! 2%nat = Some (replicate (num_states hmmG2) (Fin (Qc_of_Z 1000)))
    /\ forall t row, (t < 2)%nat -> b !! t = Some row -> vsum row = Fin 1.
Proof.
  apply (gaussian_backward_rows_are_normalized approx_pi approx_sqrt approx_exp
           hmmG2 [(q 1 2, q 0 1, q 1 3); (q 0 1, q 1 1, q 0 1)]).
  vm_compute; reflexivity.
Defined.

(** ** The Gaussian density *)

Section gaussian_density.
Variable np_pi : float64.
Variables np_sqrt np_exp : float64 -> float64.

Lemma gaussian_at_mirror (m d : Qc) (sig : float64) :
  gaussian_at np_pi np_sqrt np_exp (Fin (m + d)) (Fin m) sig
  = gaussian_at np_pi np_sqrt np_exp (Fin (m - d)) (Fin m) sig.
Proof.
  unfold gaussian_at.
  assert (np_power2 (fsub (Fin (m + d)) (Fin m))
          = np_power2 (fsub (Fin (m - d)) (Fin m))) as ->; [|done].
  unfold np_power2, fsub. cbn [fneg fadd fmul]. f_equal. ring.
Qed.

Lemma gaussian_at_zero_deviation (x m : Qc) :
  is_fin (np_sqrt (fmul (Fin 2) np_pi)) = true ->
  np_exp NInf = Fin 0 -> np_exp NaN = NaN ->
  gaussian_at np_pi np_sqrt np_exp (Fin x) (Fin m) (Fin 0) = NaN.
Proof.
  intros Hsqrt Hinf Hnan. unfold gaussian_at.
  destruct (np_sqrt (fmul (Fin 2) np_pi)) as [k| | |]; try done.
  assert (fdiv (Fin 1) (fmul (Fin 0) (Fin k)) = PInf) as ->.
  { cbn [fmul fdiv]. rewrite decide_True by ring. reflexivity. }
  unfold np_power2, fsub. cbn [fneg fadd fmul fdiv].
  rewrite decide_True by ring. unfold inf_of_sign.
  destruct (- ((x + - m) * (x + - m)) ?= 0) eqn:E.
  - by rewrite Hnan.
  - by rewrite Hinf.
  - exfalso. apply Qcgt_alt in E.
    assert (0 <= (x + - m) * (x + - m)) as Hsq.
    { destruct (Qclt_le_dec (x + - m) 0) as [Hneg|Hpos].
      - replace ((x + - m) * (x + - m)) with ((- (x + - m)) * (- (x + - m))) by ring.
        apply Qcmult_nonneg_nonneg; apply Qclt_le_weak;
          apply (Qcplus_lt_mono_r _ _ (x + - m));
          by replace (- (x + - m) + (x + - m)) with 0 by ring;
          replace (0 + (x + - m)) with (x + - m) by ring.
      - by apply Qcmult_nonneg_nonneg. }
    apply (Qclt_not_le _ _ E).
    apply (Qcplus_le_mono_r _ _ ((x + - m) * (x + - m))).
    replace (- ((x + - m) * (x + - m)) + (x + - m) * (x + - m)) with 0 by ring.
    by replace (0 + (x + - m) * (x + - m)) with ((x + - m) * (x + - m)) by ring.
Qed.

(** X20.  [gaussian] depends on [x] and [mu] through the square of their
    difference, so that it takes the same value at [mu + d] and at
    [mu - d]; and for a standard deviation 0 it raises nothing and
    returns [nan], as [0 * inf] or through the [nan] exponent [0 / 0]. *)
Theorem gaussian_mirror_and_zero_deviation (ms ds : list Qc) (sig : vec) :
  gaussian np_pi np_sqrt np_exp (map Fin (zip_with Qcplus ms ds)) (map Fin ms) sig
  = gaussian np_pi np_sqrt np_exp (map Fin (zip_with Qcminus ms ds)) (map Fin ms) sig
  /\ (is_fin (np_sqrt (fmul (Fin 2) np_pi)) = true ->
      np_exp NInf = Fin 0 -> np_exp NaN = NaN ->
      forall xs, length xs = length ms ->
        gaussian np_pi np_sqrt np_exp (map Fin xs) (map Fin ms)
          (replicate (length ms) (Fin 0))
        = replicate (length ms) NaN).
Proof.
  split.
  - unfold gaussian. revert ds sig.
    induction ms as [|m ms IH]; intros [|d ds] [|s sig]; try done.
    cbn [zip_with map zip fst snd]. f_equal; [apply gaussian_at_mirror | apply IH].
  - intros Hsqrt Hinf Hnan. unfold gaussian.
    induction ms as [|m ms IH]; intros [|x xs] Hlen; try done.
    cbn [length replicate map zip zip_with fst snd]. f_equal.
    + by apply gaussian_at_zero_deviation.
    + apply IH. by simplify_eq/=.
Qed.
End gaussian_density.

Lemma gaussian_mirror_and_zero_deviation_witness :
  gaussian approx_pi approx_sqrt approx_exp
    (map Fin [Q2Qc (1 # 3)]) (map Fin [Q2Qc (1 # 2)]) (replicate 1 (Fin 0))
  = replicate 1 NaN.
Proof.
  apply (proj2 (gaussian_mirror_and_zero_deviation approx_pi approx_sqrt approx_exp
                  [Q2Qc (1 # 2)] [] [])
           eq_refl eq_refl eq_refl [Q2Qc (1 # 3)] eq_refl).
Defined.

(** ** The size of the backward messages *)

Lemma fin_between_inv (c : Qc) (x : float64) :
  fin_between c x = true -> exists a, x = Fin a /\ 0 <= a /\ a <= c.
Proof.
  destruct x as [a| | |]; cbn [fin_between]; try done.
  rewrite andb_true_iff, !bool_decide_eq_true. intros [? ?]. by exists a.
Qed.

Lemma fin_between_Fin (c a : Qc) : 0 <= a -> a <= c -> fin_between c (Fin a) = true.
Proof.
  intros ? ?. cbn [fin_between]. by rewrite andb_true_iff, !bool_decide_eq_true.
Qed.

(** A probability times a value between 0 and [c] is between 0 and [c]. *)
Lemma fin_between_fmul (c : Qc) (x y : float64) :
  fin_between 1 x = true -> fin_between c y = true ->
  fin_between c (fmul x y) = true.
Proof.
  intros (a & -> & Ha0 & Ha1)%fin_between_inv (b & -> & Hb0 & Hb1)%fin_between_inv.
  cbn [fmul]. apply fin_between_Fin; [by apply Qcmult_nonneg_nonneg |].
  apply Qcle_trans with (1 * b); [by apply Qcmult_le_mono_nonneg_r |].
  by rewrite Qcmult_1_l.
Qed.

Lemma fin_between_vmul (c : Qc) (x y : vec) :
  Forall (fun a => fin_between 1 a = true) x ->
  Forall (fun a => fin_between c a = true) y ->
  Forall (fun a => fin_between c a = true) (vmul x y).
Proof.
  intros Hx Hy. unfold vmul.
  apply Forall_zip_with_fst with (P := fun a => fin_between 1 a = true); [done |].
  eapply Forall_impl; [exact Hy |]. intros b Hb a Ha. by apply fin_between_fmul.
Qed.

Lemma fin_between_vec_inv (c : Qc) (v : vec) :
  Forall (fun a => fin_between c a = true) v ->
  exists qs, v = map Fin qs /\ Forall (fun a => 0 <= a /\ a <= c) qs.
Proof.
  induction 1 as [|x v Hx _ (qs & -> & Hqs)]; [by exists [] |].
  apply fin_between_inv in Hx as (a & -> & Ha). exists (a :: qs).
  split; [done | by constructor].
Qed.

(** A weighted sum with non-negative weights of values between 0 and [c]
    is at most [c] times the sum of the weights. *)
Lemma qip_between (c : Qc) (qa qw : list Qc) :
  0 <= c ->
  Forall (fun a => 0 <= a) qa ->
  Forall (fun a => 0 <= a /\ a <= c) qw ->
  0 <= qip qa qw /\ qip qa qw <= c * qsum qa.
Proof.
  intros Hc Hqa. revert qw.
  induction Hqa as [|a qa Ha Hqa IH]; intros qw Hqw.
  - cbn. split; [done |]. by rewrite Qcmult_0_r.
  - destruct Hqw as [|w qw [Hw0 Hw1] Hqw].
    + rewrite qip_nil_r. split; [done |].
      apply Qcmult_nonneg_nonneg; [done |]. apply qsum_nonneg. by constructor.
    + rewrite qip_cons. cbn [qsum]. destruct (IH qw Hqw) as [IH0 IH1]. split.
      * replace 0 with (0 + 0) by ring.
        apply Qcplus_le_compat; [by apply Qcmult_nonneg_nonneg | done].
      * replace (c * (a + qsum qa)) with (a * c + c * qsum qa) by ring.
        apply Qcplus_le_compat; [by apply Qcmult_le_mono_nonneg_l | done].
Qed.

(** The rows of a table whose columns are distributions hold
    probabilities. *)
Lemma table_rows_between (n : nat) (B : matrix) (b : vec) :
  Forall (fun row => length row = n) B -> column_stochastic n B = true -> b ∈ B ->
  Forall (fun a => fin_between 1 a = true) b.
Proof.
  intros HB Hcol Hb.
  assert (length b = n) as Hlen by (rewrite Forall_forall in HB; by apply HB).
  apply list_elem_of_lookup in Hb as [s Hs].
  apply Forall_lookup. intros j x Hj.
  assert (j < n)%nat as Hjn by (apply lookup_lt_Some in Hj; lia).
  pose proof (column_stochastic_dist n B j Hcol Hjn) as Hd.
  destruct (is_dist_entries (column B j) x Hd) as (a & -> & Ha0 & Ha1).
  - apply list_elem_of_lookup. exists s. unfold column.
    rewrite list_lookup_fmap, Hs. cbn. f_equal.
    by apply list_lookup_total_correct.
  - by apply fin_between_Fin.
Qed.

Lemma emission_between (hmm : HMM) (o : frame) (bs : vec) :
  valid_hmm hmm = true -> emission hmm o = Ok bs ->
  Forall (fun a => fin_between 1 a = true) bs.
Proof.
  intros Hv. pose proof (valid_hmm_wf _ Hv) as (_ & _ & H1 & H2 & H3)%wf_hmm_inv.
  unfold valid_hmm in Hv. rewrite !andb_true_iff in Hv.
  destruct Hv as [[[[[_ _] _] C1] C2] C3].
  unfold emission.
  destruct (getitem (B1 hmm) o.1.1) as [b1|] eqn:E1; [|done].
  destruct (getitem (B2 hmm) o.1.2) as [b2|] eqn:E2; [|done].
  destruct (getitem (B3 hmm) o.2) as [b3|] eqn:E3; [|done].
  cbn. intros [= <-].
  apply getitem_Ok_elem in E1, E2, E3.
  repeat apply fin_between_vmul.
  - by apply (table_rows_between (num_states hmm) (B1 hmm)).
  - by apply (table_rows_between (num_states hmm) (B2 hmm)).
  - by apply (table_rows_between (num_states hmm) (B3 hmm)).
Qed.

(** One step of the backward loop keeps the bound. *)
Lemma backward_step_between (c : Qc) (hmm : HMM) (bs b_next : vec) :
  0 <= c ->
  valid_hmm hmm = true ->
  Forall (fun a => fin_between 1 a = true) bs ->
  Forall (fun a => fin_between c a = true) b_next ->
  Forall (fun a => fin_between c a = true) (dot (A hmm) (vmul bs b_next)).
Proof.
  intros Hc Hv Hbs Hnext.
  destruct (fin_between_vec_inv c (vmul bs b_next)) as (qw & -> & Hqw);
    [by apply fin_between_vmul |].
  unfold valid_hmm in Hv. rewrite !andb_true_iff in Hv.
  destruct Hv as [[[[[_ _] HA] _] _] _]. rewrite forallb_forall in HA.
  unfold dot. apply Forall_fmap, Forall_forall. intros row Hrow. cbn.
  destruct (is_dist_inv row) as (qa & -> & Hqa & Hsum);
    [by apply HA, list_elem_of_In |].
  rewrite ip_Fin. destruct (qip_between c qa qw Hc Hqa Hqw) as [H0 H1].
  apply fin_between_Fin; [done |]. by rewrite Hsum, Qcmult_1_r in H1.
Qed.

Lemma backward_from_between (c : Qc) (hmm : HMM) (obs : list frame) (b : matrix) :
  0 <= c ->
  valid_hmm hmm = true ->
  (forall o, o ∈ obs -> exists bs, emission hmm o = Ok bs) ->
  backward_from (Fin c) hmm obs = Ok b ->
  Forall (Forall (fun a => fin_between c a = true)) b.
Proof.
  intros Hc Hv Hemit Hb.
  destruct (backward_from_rows (Fin c) hmm obs Hemit)
    as (b' & Hb' & Hlen & Hlast & Hrows).
  assert (b' = b) as -> by congruence.
  assert (forall k row, (k <= length obs)%nat ->
            b !! (length obs - k)%nat = Some row ->
            Forall (fun a => fin_between c a = true) row) as Hall.
  { induction k as [|k IH]; intros row Hk Hrow.
    - rewrite Nat.sub_0_r, Hlast in Hrow. injection Hrow as <-.
      unfold ones_times. apply Forall_fmap, Forall_replicate. cbn.
      apply fin_between_Fin; rewrite Qcmult_1_l; [done | apply Qcle_refl].
    - destruct (lookup_lt_is_Some_2 obs (length obs - S k)) as [o Ho]; [lia |].
      destruct (Hrows _ o Ho) as (bs & b_next & Hbs & Hnext & Hrow').
      assert (row = dot (A hmm) (vmul bs b_next)) as -> by congruence.
      apply backward_step_between; [done | done | by eapply emission_between |].
      apply (IH b_next); [lia |].
      by replace (length obs - k)%nat with (S (length obs - S k)) by lia. }
  apply Forall_lookup. intros t row Hrow.
  pose proof (lookup_lt_Some _ _ _ Hrow) as Ht.
  apply (Hall (length obs - t)%nat); [lia |].
  by replace (length obs - (length obs - t))%nat with t by lia.
Qed.

(** X21. On a valid categorical model the backward messages are never
    rescaled, and they never grow: every entry of every row that
    [backwardHMM] returns is a finite number between 0 and the constant
    10000000 that fills its last row. *)
Theorem backward_messages_stay_below_the_last_row
    (hmm : HMM) (obs : list frame) (b : matrix) :
  valid_hmm hmm = true ->
  backwardHMM hmm obs = Ok b ->
  Forall (Forall (fun x => fin_between (Qc_of_Z 10000000) x = true)) b.
Proof.
  intros Hv Hb. apply (backward_from_between _ hmm obs); [done | done | | done].
  destruct (existsb (frame_refused hmm) obs) eqn:E.
  - apply refused_frame in E as (o & Ho & Hr).
    destruct (refused_frame_raises hmm obs o Ho Hr) as (_ & Hb' & _). congruence.
  - intros o Ho. pose proof (accepted_frames hmm obs E o Ho) as Hacc.
    destruct (emission_accepted hmm o (valid_hmm_wf _ Hv) Hacc)
      as (b1 & b2 & b3 & _ & _ & _ & _ & _ & _ & He). eauto.
Qed.

Lemma backward_messages_stay_below_the_last_row_witness :
  exists b,
    backwardHMM hmm2 [(0, 0, 0); (1, 0, 0)]%Z = Ok b
    /\ Forall (Forall (fun x => fin_between (Qc_of_Z 10000000) x = true)) b.
Proof.
  eexists. split; [vm_compute; reflexivity |].
  eapply (backward_messages_stay_below_the_last_row hmm2 [(0, 0, 0); (1, 0, 0)]%Z);
    vm_compute; reflexivity.
Defined.

(** ** Worked examples *)

Example valid_hmm2 : valid_hmm hmm2 = true.
Proof. vm_compute. reflexivity. Qed.

Example forward_hmm2 :
  forwardHMM hmm2 [(0, 0, 0); (0, 0, 0)]%Z
  = Ok [[q 1 2; q 1 2]; [q 9 10; q 1 10]; [q 369 378; q 9 378]].
Proof. by_computation. Qed.

Example backward_hmm2 :
  backwardHMM hmm2 [(0, 0, 0)]%Z
  = Ok [[q 8200000 1; q 1800000 1]; [q 10000000 1; q 10000000 1]].
Proof. by_computation. Qed.

Example smoother_hmm2 :
  forward_backwardHMM hmm2 [(0, 0, 0)]%Z
  = Ok [[q 41 50; q 9 50]; [q 9 10; q 1 10]].
Proof. by_computation. Qed.

Example viterbi_hmm2 :
  viterbiHMM hmm2 [(0, 0, 0); (1, 0, 0)]%Z
  = Ok ([0; 0; 0]%nat,
        [[q 1 2; q 1 2]; [q 9 10; q 1 10]; [q 1 2; q 1 2]]).
Proof. by_computation. Qed.

